(** * llm-stream-parser: a shallow embedding of the streaming parse engine

    The development follows the TypeScript sources:
    - [core/tag-matcher.ts]    ([TagPatterns], [TagMatcher]),
    - [core/buffer-manager.ts] ([BufferManager]),
    - [core/stream-parser.ts]  ([StreamParser]),
    - [core/validator.ts], [core/transformer.ts] ([TagValidator], [TagTransformer]),
    - [types/config.ts], [types/errors.ts], [types/base.ts].

    Conventions of the embedding.
    - A JavaScript string is a list of code units; the code units are the
      256 values of [ascii] (Latin-1).  Code units above 255 are outside the
      model.
    - A JavaScript number that the engine uses as a length, an index, a
      counter or a limit is an integer ([nat] where the source can only
      produce a natural number, [Z] where the caller supplies it).  A
      number that is decoded from text is a double ([number]).
    - Regular expressions are values of [regex] and are run by a
      backtracking matcher that follows the ECMAScript priority rules.
    - Exceptions and mutation are explicit: an engine method is a function
      from the engine state to an outcome and the state it leaves behind. *)

From Stdlib Require Import ZArith QArith Ascii String List Lia Bool DecimalString.
From stdpp Require Import base option list gmap strings.

Local Open Scope nat_scope.

(** ** JavaScript strings *)

Abbreviation jsstring := (list ascii).

Definition js (s : string) : jsstring := list_ascii_of_string s.

Definition code (c : ascii) : nat := nat_of_ascii c.

Definition in_range (lo hi : string) (c : ascii) : bool :=
  match lo, hi with
  | String a EmptyString, String b EmptyString =>
      (code a <=? code c) && (code c <=? code b)
  | _, _ => false
  end.

Definition is_char (x : string) (c : ascii) : bool :=
  match x with
  | String a EmptyString => code c =? code a
  | _ => false
  end.

(** [[a-zA-Z]] *)
Definition is_alpha (c : ascii) : bool := in_range "a" "z" c || in_range "A" "Z" c.

(** [\d] *)
Definition is_digit (c : ascii) : bool := in_range "0" "9" c.

(** [[a-zA-Z0-9_-]] *)
Definition is_name_char (c : ascii) : bool :=
  is_alpha c || is_digit c || is_char "_" c || is_char "-" c.

(** [\w] *)
Definition is_word (c : ascii) : bool := is_alpha c || is_digit c || is_char "_" c.

(** [\s], which is also the set removed by [String.prototype.trim]: the
    white space and line terminator code units below 256. *)
Definition is_space (c : ascii) : bool :=
  let n := code c in
  (n =? 9) || (n =? 10) || (n =? 11) || (n =? 12) || (n =? 13) || (n =? 32) || (n =? 160).

Fixpoint skip_while (p : ascii -> bool) (s : jsstring) : jsstring :=
  match s with
  | c :: s' => if p c then skip_while p s' else s
  | [] => []
  end.

(** [String.prototype.trim] *)
Definition trim (s : jsstring) : jsstring :=
  rev (skip_while is_space (rev (skip_while is_space s))).

(** [String.prototype.toLowerCase] on the code units [A]..[Z]; the engine
    applies it to tag names only, which consist of [is_name_char] units. *)
Definition lower_char (c : ascii) : ascii :=
  if in_range "A" "Z" c then ascii_of_nat (code c + 32) else c.

Definition toLowerCase (s : jsstring) : jsstring := map lower_char s.

(** [String.prototype.slice] with non-negative integer bounds. *)
Definition slice (s : jsstring) (from to : nat) : jsstring :=
  take (to - from) (drop from s).

Fixpoint starts_with (w s : jsstring) : bool :=
  match w, s with
  | [], _ => true
  | a :: w', b :: s' => (code a =? code b) && starts_with w' s'
  | _ :: _, [] => false
  end.

Definition jsstring_eqb (a b : jsstring) : bool := bool_decide (a = b).

(** ** Regular expressions

    The fragment of ECMAScript regular expressions that [TagPatterns] and
    [TagMatcher] use: character classes, concatenation, alternation, the
    greedy and the lazy star, capture groups, back-references and the two
    anchors.  [r+] is [r r*] and [(?:r)?] is [(?:r|)], which agree with
    the ECMAScript quantifiers for every [r] that cannot match the empty
    string and captures nothing. *)

Inductive regex : Type :=
| Eps
| Chr (p : ascii -> bool)
| Seq (r1 r2 : regex)
| Alt (r1 r2 : regex)
| Star (greedy : bool) (r : regex)
| Group (n : nat) (r : regex)
| Backref (n : nat)
| Bol
| Eol.

Declare Scope regex_scope.
Delimit Scope regex_scope with re.
Bind Scope regex_scope with regex.
Infix "∙" := Seq (at level 60, right associativity) : regex_scope.

Definition Lit (x : string) : regex := Chr (is_char x).
Definition Any : regex := Chr (fun _ => true).
Definition Plus (r : regex) : regex := Seq r (Star true r).
Definition Opt (r : regex) : regex := Alt r Eps.

(** The matcher state: the index reached in the input, the input that is
    left from there, and the captures made so far. *)
Record mstate : Type := MState {
  m_pos : nat;
  m_rest : jsstring;
  m_caps : list (nat * jsstring);
}.

Definition cont : Type := mstate -> option mstate.

Definition advance (n : nat) (σ : mstate) : mstate :=
  {| m_pos := m_pos σ + n; m_rest := drop n (m_rest σ); m_caps := m_caps σ |}.

Fixpoint cap_lookup (n : nat) (caps : list (nat * jsstring)) : option jsstring :=
  match caps with
  | (m, w) :: caps' => if n =? m then Some w else cap_lookup n caps'
  | [] => None
  end.

Definition cap (n : nat) (σ : mstate) : option jsstring := cap_lookup n (m_caps σ).

(** Closing group [n]: it captured what was consumed between [σ0] and [σ]. *)
Definition close_group (n : nat) (σ0 σ : mstate) : mstate :=
  {| m_pos := m_pos σ; m_rest := m_rest σ;
     m_caps := (n, take (m_pos σ - m_pos σ0) (m_rest σ0)) :: m_caps σ |}.

(** The iteration of a quantified atom.  An iteration that consumes
    nothing is rejected, as in ECMAScript's RepeatMatcher, so there are at
    most [length (m_rest σ)] iterations and [fuel] starts there. *)
Fixpoint star_loop (step : mstate -> cont -> option mstate) (greedy : bool)
    (fuel : nat) (σ : mstate) (k : cont) : option mstate :=
  match fuel with
  | 0 => k σ
  | S fuel' =>
      let again :=
        step σ (fun σ' =>
          if length (m_rest σ') <? length (m_rest σ)
          then star_loop step greedy fuel' σ' k else None) in
      if greedy
      then match again with Some x => Some x | None => k σ end
      else match k σ with Some x => Some x | None => again end
  end.

(** The backtracking matcher, in continuation-passing style: [k] is what
    remains to be matched after [r]; the first alternative that lets [k]
    succeed wins. *)
Fixpoint rmatch (r : regex) (σ : mstate) (k : cont) {struct r} : option mstate :=
  match r with
  | Eps => k σ
  | Chr p =>
      match m_rest σ with
      | c :: _ => if p c then k (advance 1 σ) else None
      | [] => None
      end
  | Seq r1 r2 => rmatch r1 σ (fun σ1 => rmatch r2 σ1 k)
  | Alt r1 r2 =>
      match rmatch r1 σ k with
      | Some x => Some x
      | None => rmatch r2 σ k
      end
  | Star greedy r' => star_loop (rmatch r') greedy (length (m_rest σ)) σ k
  | Group n r' => rmatch r' σ (fun σ' => k (close_group n σ σ'))
  | Backref n =>
      match cap n σ with
      | None => k σ
      | Some w => if starts_with w (m_rest σ) then k (advance (length w) σ) else None
      end
  | Bol => if m_pos σ =? 0 then k σ else None
  | Eol => match m_rest σ with [] => k σ | _ :: _ => None end
  end.

(** The least number of code units a match of [r] consumes. *)
Fixpoint min_len (r : regex) : nat :=
  match r with
  | Chr _ => 1
  | Seq r1 r2 => min_len r1 + min_len r2
  | Alt r1 r2 => Nat.min (min_len r1) (min_len r2)
  | Group _ r' => min_len r'
  | Eps | Star _ _ | Backref _ | Bol | Eol => 0
  end.

(** One attempt at index [pos], where [s] is the input from [pos] on. *)
Definition match_at (r : regex) (pos : nat) (s : jsstring) : option mstate :=
  rmatch r {| m_pos := pos; m_rest := s; m_caps := [] |} Some.

(** The leftmost match at or after [pos]. *)
Fixpoint search (r : regex) (pos : nat) (s : jsstring) : option (nat * mstate) :=
  match match_at r pos s with
  | Some σ => Some (pos, σ)
  | None =>
      match s with
      | [] => None
      | _ :: s' => search r (S pos) s'
      end
  end.

(** What [RegExp.prototype.exec] returns: [index], the text [m[0]] and
    the captures [m[1]], [m[2]], ... ([None] is [undefined]). *)
Record MatchResult : Type := {
  mr_index : nat;
  mr_text : jsstring;
  mr_groups : list (nat * jsstring);
}.

Definition group (n : nat) (m : MatchResult) : option jsstring := cap_lookup n (mr_groups m).

Definition lastIndexAfter (m : MatchResult) : nat := mr_index m + length (mr_text m).

(** [r.exec(s)] for a global [r] whose [lastIndex] is [lastIndex]. *)
Definition exec (r : regex) (s : jsstring) (lastIndex : nat) : option MatchResult :=
  if lastIndex <=? length s then
    match search r lastIndex (drop lastIndex s) with
    | Some (i, σ) =>
        Some {| mr_index := i; mr_text := slice s i (m_pos σ); mr_groups := m_caps σ |}
    | None => None
    end
  else None.

(** [r.test(s)] from [lastIndex = 0]. *)
Definition test (r : regex) (s : jsstring) : bool :=
  match exec r s 0 with Some _ => true | None => false end.

(** Sequencing of computations that may fail to return. *)
Definition and_then {A B : Type} (m : option A) (f : A -> option B) : option B :=
  match m with
  | Some a => f a
  | None => None
  end.

Notation "'let*' x := m 'in' k" := (and_then m (fun x => k))
  (at level 10, x name, m at level 100, k at level 200).

Fixpoint traverse {A B : Type} (f : A -> option B) (l : list A) : option (list B) :=
  match l with
  | [] => Some []
  | a :: l' => let* b := f a in let* bs := traverse f l' in Some (b :: bs)
  end.

(** [while ((m = r.exec(s)) !== null) { ... }] collects the successive
    matches.  After a match [exec] resumes at its end; a match that is
    empty would make the loop run forever, which is the outcome [None]. *)
Fixpoint execAll (fuel : nat) (r : regex) (s : jsstring) (lastIndex : nat)
    : option (list MatchResult) :=
  match fuel with
  | 0 => None
  | S fuel' =>
      match exec r s lastIndex with
      | None => Some []
      | Some m => let* ms := execAll fuel' r s (lastIndexAfter m) in Some (m :: ms)
      end
  end.

(** ** [TagPatterns] *)

Module TagPatterns.

Local Open Scope regex_scope.

  (** [[a-zA-Z][a-zA-Z0-9_-]*] *)
Definition NAME : regex := Chr is_alpha ∙ Star true (Chr is_name_char).

  (** The attribute text of a tag: optional, white space and then any
      code units other than [>]. *)
Definition ATTRS : regex :=
    Opt (Plus (Chr is_space) ∙ Star true (Chr (fun c => negb (is_char ">" c)))).

  (** [SELF_CLOSING]: [<], the name (group 1), the attribute text
      (group 2), white space, [/>]. *)
Definition SELF_CLOSING : regex :=
    Lit "<" ∙ Group 1 NAME ∙ Group 2 ATTRS ∙ Star true (Chr is_space) ∙ Lit "/" ∙ Lit ">".

  (** [OPENING]: [<], the name (group 1), the attribute text (group 2),
      white space, [>]. *)
Definition OPENING : regex :=
    Lit "<" ∙ Group 1 NAME ∙ Group 2 ATTRS ∙ Star true (Chr is_space) ∙ Lit ">".

  (** [CLOSING]: [</], the name (group 1), white space, [>]. *)
Definition CLOSING : regex :=
    Lit "<" ∙ Lit "/" ∙ Group 1 NAME ∙ Star true (Chr is_space) ∙ Lit ">".

  (** [COMPLETE], with the flags [g] and [s]: an opening tag as in
      [OPENING], the content (group 3, the lazy star of any code unit),
      [</], a back-reference to group 1, white space, [>]. *)
Definition COMPLETE : regex :=
    Lit "<" ∙ Group 1 NAME ∙ Group 2 ATTRS ∙ Star true (Chr is_space) ∙ Lit ">" ∙
    Group 3 (Star false Any) ∙
    Lit "<" ∙ Lit "/" ∙ Backref 1 ∙ Star true (Chr is_space) ∙ Lit ">".

  (** [ATTRIBUTES]: a name of word characters (group 1), optionally
      followed by [=] and a value that is double-quoted (group 2),
      single-quoted (group 3) or a run of code units other than white
      space and [>] (group 4); the alternatives are tried in that order. *)
Definition ATTRIBUTES : regex :=
    Group 1 (Plus (Chr is_word)) ∙
    Opt (Lit "=" ∙
         Alt (Chr (fun c => code c =? 34) ∙
              Group 2 (Star true (Chr (fun c => negb (code c =? 34)))) ∙
              Chr (fun c => code c =? 34))
        (Alt (Lit "'" ∙ Group 3 (Star true (Chr (fun c => negb (is_char "'" c)))) ∙ Lit "'")
             (Group 4 (Plus (Chr (fun c => negb (is_space c || is_char ">" c))))))).

  (** [/^\d+$/] *)
Definition INTEGER : regex := Bol ∙ Plus (Chr is_digit) ∙ Eol.

  (** [/^\d*\.\d+$/] *)
Definition DECIMAL : regex :=
    Bol ∙ Star true (Chr is_digit) ∙ Lit "." ∙ Plus (Chr is_digit) ∙ Eol.

  (** [/<[a-zA-Z][a-zA-Z0-9_-]*/] *)
Definition TAG_START : regex := Lit "<" ∙ NAME.

End TagPatterns.

(** ** What a match is, independently of the search order

    [Run r σ σ'] holds when [r] can take the matcher from [σ] to [σ'].
    It has no priorities: it relates [σ] to every state some path of the
    backtracking search can reach. *)

Inductive Run : regex -> mstate -> mstate -> Prop :=
| Run_Eps σ : Run Eps σ σ
| Run_Chr p c s σ :
    m_rest σ = c :: s -> p c = true -> Run (Chr p) σ (advance 1 σ)
| Run_Seq r1 r2 σ σ1 σ2 :
    Run r1 σ σ1 -> Run r2 σ1 σ2 -> Run (Seq r1 r2) σ σ2
| Run_Alt_l r1 r2 σ σ' : Run r1 σ σ' -> Run (Alt r1 r2) σ σ'
| Run_Alt_r r1 r2 σ σ' : Run r2 σ σ' -> Run (Alt r1 r2) σ σ'
| Run_Star_stop g r σ : Run (Star g r) σ σ
| Run_Star_more g r σ σ1 σ2 :
    Run r σ σ1 -> length (m_rest σ1) < length (m_rest σ) ->
    Run (Star g r) σ1 σ2 -> Run (Star g r) σ σ2
| Run_Group n r σ σ' : Run r σ σ' -> Run (Group n r) σ (close_group n σ σ')
| Run_Backref_undefined n σ : cap n σ = None -> Run (Backref n) σ σ
| Run_Backref n w σ :
    cap n σ = Some w -> starts_with w (m_rest σ) = true ->
    Run (Backref n) σ (advance (length w) σ)
| Run_Bol σ : m_pos σ = 0 -> Run Bol σ σ
| Run_Eol σ : m_rest σ = [] -> Run Eol σ σ.


(** ** Values of the engine *)

(** A JavaScript number that comes out of [parseInt] or [parseFloat]: a
    finite double, given as the rational it is equal to, in lowest terms,
    or [Infinity].  On the values that [parseAttributeValue] passes to
    them the two functions return no negative number, no [-0] and no
    [NaN]. *)
Inductive number : Type :=
| Finite (value : Q)
| Infinity.

(** [2 ^ e] for an [e] that is not negative, and [1] otherwise. *)
Definition pow2 (e : Z) : Z := (2 ^ Z.max 0 e)%Z.

(** The integer nearest to [num / den], for a positive [den]; of two that
    are equally near, the even one. *)
Definition round_half_even (num den : Z) : Z :=
  let q := (num / den)%Z in
  match (2 * (num mod den) ?= den)%Z with
  | Lt => q
  | Gt => (q + 1)%Z
  | Eq => if Z.even q then q else (q + 1)%Z
  end.

(** [floor (log2 (n / d))] for positive [n] and [d]. *)
Definition floor_log2 (n d : Z) : Z :=
  let e0 := (Z.log2 n - Z.log2 d)%Z in
  if (d * pow2 e0 <=? n * pow2 (- e0))%Z then e0 else (e0 - 1)%Z.

(** The Number value for [n / d], where [n] is not negative and [d] is
    positive: the double nearest to it, the one with the even mantissa
    of two that are equally near.  A double is [m * 2 ^ e] with a
    mantissa [m] below [2 ^ 53] and [e] from [-1074] to [971]; when
    rounding reaches [2 ^ 1024] the result is [Infinity].  (For a literal
    of more than 20 significant digits the language lets an
    implementation round after dropping the digits beyond the 20th; this
    is the exact reading, which is also what V8 computes.) *)
Definition to_double (n d : Z) : number :=
  if (n =? 0)%Z then Finite 0 else
  let e := Z.max (floor_log2 n d - 52) (-1074) in
  let m := round_half_even (n * pow2 (- e)) (d * pow2 e) in
  if (2 ^ 1024 <=? m * pow2 e)%Z then Infinity
  else Finite (Qred (m * pow2 e # Z.to_pos (pow2 (- e)))).

(** An attribute value ([unknown] in the source): what
    [parseAttributeValue] can produce. *)
Inductive AttrValue : Type :=
| VNumber (x : number)
| VBoolean (b : bool)
| VString (s : jsstring).

(** A JavaScript object used as a record of attributes.  The keys are kept
    in insertion order, as [Object.keys] reports them for names that are
    not array indices. *)
Abbreviation AttrMap := (list (jsstring * AttrValue)).

Section Assoc.
Context {V : Type}.

Fixpoint assoc_get (k : jsstring) (m : list (jsstring * V)) : option V :=
    match m with
    | (k', v) :: m' => if bool_decide (k = k') then Some v else assoc_get k m'
    | [] => None
    end.

  (** [m[k] = v], [m.set(k, v)]: an existing key keeps its place. *)
Fixpoint assoc_set (k : jsstring) (v : V) (m : list (jsstring * V)) : list (jsstring * V) :=
    match m with
    | (k', v') :: m' =>
        if bool_decide (k = k') then (k, v) :: m' else (k', v') :: assoc_set k v m'
    | [] => [(k, v)]
    end.

  (** [m.delete(k)] *)
Fixpoint assoc_delete (k : jsstring) (m : list (jsstring * V)) : list (jsstring * V) :=
    match m with
    | (k', v') :: m' =>
        if bool_decide (k = k') then m' else (k', v') :: assoc_delete k m'
    | [] => []
    end.

End Assoc.

(** The property assignment [attributes[name] = value] of a primitive
    [value]: assigning a primitive to [__proto__] changes nothing. *)
Definition prop_set (name : jsstring) (value : AttrValue) (o : AttrMap) : AttrMap :=
  if bool_decide (name = js "__proto__") then o else assoc_set name value o.

(** The object spread [{ ...a, ...b }] of two attribute records, each of
    which may be [undefined]. *)
Definition spread (a b : option AttrMap) : AttrMap :=
  fold_left (fun o kv => assoc_set kv.1 kv.2 o) (default [] b) (default [] a).

(** The shape of a match ([type] in [TagMatch]). *)
Inductive TagType : Type := opening | closing | self_closing | complete.

Module TagMatch.
Record t : Type := {
    tagName : jsstring;
    content : jsstring;
    attributes : option AttrMap;
    startIndex : nat;
    endIndex : nat;
    fullMatch : jsstring;
    type : TagType;
  }.
End TagMatch.

(** ** [TagMatcher]

    A function that contains a [while (exec)] loop returns an [option]:
    [None] is the loop that never ends.  [execAll_returns] below shows that
    this outcome does not occur for the patterns of the engine. *)

Module TagMatcher.

Definition digit_value (c : ascii) : N := N.of_nat (code c - 48).

Definition digits_value (s : jsstring) : N :=
    fold_left (fun acc c => (acc * 10 + digit_value c)%N) s 0%N.

  (** [parseInt(value, 10)] for a [value] of digits: the Number value for
      the integer that the digits denote. *)
Definition parseInt (value : jsstring) : number :=
    to_double (Z.of_N (digits_value value)) 1.

  (** [parseFloat(value)] for a [value] of digits, a point and digits:
      the Number value for the decimal that they denote. *)
Definition parseFloat (value : jsstring) : number :=
    let whole := skip_while is_digit value in
    let int_part := take (length value - length whole) value in
    let frac_part := drop 1 whole in
    to_double (Z.of_N (digits_value (int_part ++ frac_part)))
              (10 ^ Z.of_nat (length frac_part)).

Definition parseAttributeValue (value : jsstring + bool) : AttrValue :=
    match value with
    | inr b => VBoolean b
    | inl value =>
        if test TagPatterns.INTEGER value then VNumber (parseInt value)
        else if test TagPatterns.DECIMAL value then VNumber (parseFloat value)
        else if bool_decide (value = js "true") then VBoolean true
        else if bool_decide (value = js "false") then VBoolean false
        else VString value
    end.

  (** One turn of the loop of [parseAttributes]. *)
Definition addAttribute (attributes : AttrMap) (m : MatchResult) : AttrMap :=
    match group 1 m with
    | None | Some [] => attributes
    | Some name =>
        let value :=
          match group 2 m, group 3 m, group 4 m with
          | Some doubleQuotedValue, _, _ => inl doubleQuotedValue
          | None, Some singleQuotedValue, _ => inl singleQuotedValue
          | None, None, Some unquotedValue => inl unquotedValue
          | None, None, None => inr true
          end in
        prop_set name (parseAttributeValue value) attributes
    end.

Definition parseAttributes (attributesStr : jsstring) : option (option AttrMap) :=
    match trim attributesStr with
    | [] => Some None
    | _ :: _ =>
        let* matches := execAll (S (length attributesStr)) TagPatterns.ATTRIBUTES attributesStr 0 in
        let attributes := fold_left addAttribute matches [] in
        Some (match attributes with [] => None | _ :: _ => Some attributes end)
    end.

Section Instance.

Variable caseSensitive : bool.

Definition normalizeTagName (tagName : jsstring) : jsstring :=
      if caseSensitive then tagName else toLowerCase tagName.

Definition createTagMatch (m : MatchResult) (startIndex : nat) (type : TagType)
        : option TagMatch.t :=
      let* attributes :=
        match type with
        | closing => Some None
        | _ => parseAttributes (default [] (group 2 m))
        end in
      Some {| TagMatch.tagName := normalizeTagName (default [] (group 1 m));
              TagMatch.content := [];
              TagMatch.attributes := attributes;
              TagMatch.startIndex := startIndex + mr_index m;
              TagMatch.endIndex := startIndex + mr_index m + length (mr_text m);
              TagMatch.fullMatch := mr_text m;
              TagMatch.type := type |}.

    (** One of the three checks of [findNextTag]: [found] is the result of
        [exec], [earliest] the earliest match so far ([None] while
        [earliestIndex] is [Infinity]). *)
Definition consider (found : option MatchResult) (startIndex : nat) (type : TagType)
        (earliest : option (nat * TagMatch.t)) : option (option (nat * TagMatch.t)) :=
      match found with
      | None => Some earliest
      | Some m =>
          if match earliest with
             | None => true
             | Some (earliestIndex, _) => mr_index m <? earliestIndex
             end
          then let* tm := createTagMatch m startIndex type in Some (Some (mr_index m, tm))
          else Some earliest
      end.

Definition findNextTag (buffer : jsstring) (startIndex : nat) : option (option TagMatch.t) :=
      let searchBuffer := drop startIndex buffer in
      let* e1 := consider (exec TagPatterns.SELF_CLOSING searchBuffer 0) startIndex self_closing None in
      let* e2 := consider (exec TagPatterns.OPENING searchBuffer 0) startIndex opening e1 in
      let* e3 := consider (exec TagPatterns.CLOSING searchBuffer 0) startIndex closing e2 in
      Some (option_map snd e3).

    (** One turn of the loop of [findCompleteTags]. *)
Definition completeTagMatch (m : MatchResult) : option (option TagMatch.t) :=
      match group 1 m, group 3 m with
      | None, _ | Some [], _ | _, None => Some None
      | Some tagName, Some content =>
          let* attributes := parseAttributes (default [] (group 2 m)) in
          Some (Some {| TagMatch.tagName := normalizeTagName tagName;
                        TagMatch.content := content;
                        TagMatch.attributes := attributes;
                        TagMatch.startIndex := mr_index m;
                        TagMatch.endIndex := mr_index m + length (mr_text m);
                        TagMatch.fullMatch := mr_text m;
                        TagMatch.type := complete |})
      end.

Definition findCompleteTags (buffer : jsstring) : option (list TagMatch.t) :=
      let* found := execAll (S (length buffer)) TagPatterns.COMPLETE buffer 0 in
      let* matches := traverse completeTagMatch found in
      Some (omap id matches).

Definition containsTags (content : jsstring) : bool := test TagPatterns.TAG_START content.

Definition extractTextContent (buffer : jsstring) (startIndex endIndex : nat) : jsstring :=
      slice buffer startIndex endIndex.

End Instance.

End TagMatcher.


(** ** [types/errors.ts] *)

Inductive ParserErrorCode : Type :=
| INVALID_TAG_FORMAT
| UNKNOWN_TAG
| CONTENT_VALIDATION_FAILED
| ATTRIBUTE_VALIDATION_FAILED
| BUFFER_OVERFLOW
| MALFORMED_ATTRIBUTES
| UNCLOSED_TAG
| TRANSFORMATION_FAILED
| INVALID_NESTING
| MISMATCHED_CLOSING_TAG
| INVALID_SELF_CLOSING
| MAX_DEPTH_EXCEEDED
| INVALID_CHILDREN
| SCHEMA_VIOLATION.

(** The template-literal conversion of an integer. *)
Definition number_to_string (z : Z) : jsstring :=
  js (NilZero.string_of_int (Z.to_int z)).

(** The [context] of [fromMismatchedClosing]: [{ expected, actual }]. *)
Record MismatchContext : Type := {
  expected : jsstring;
  actual : jsstring;
}.

Inductive ValidationKind : Type := kind_content | kind_attributes | kind_children.

Module ParserError.

Record t : Type := {
  message : jsstring;
  code : ParserErrorCode;
  context : option MismatchContext;
  path : option jsstring;
  depth : option Z;
}.

(** [new ParserError(message, code)] *)
Definition make (message : jsstring) (code : ParserErrorCode) : t :=
  {| message := message; code := code; context := None; path := None; depth := None |}.

Definition fromValidation (tagName validationMessage : jsstring) (type : ValidationKind) : t :=
  let '(word, code) :=
    match type with
    | kind_content => (js "content", CONTENT_VALIDATION_FAILED)
    | kind_attributes => (js "attributes", ATTRIBUTE_VALIDATION_FAILED)
    | kind_children => (js "children", INVALID_CHILDREN)
    end in
  make (word ++ js " validation failed for tag '" ++ tagName ++ js "': " ++ validationMessage)
       code.

Definition fromTransformation (tagName errorMessage : jsstring) : t :=
  make (js "Transformation failed for tag '" ++ tagName ++ js "': " ++ errorMessage)
       TRANSFORMATION_FAILED.

Definition fromUnknownTag (tagName : jsstring) : t :=
  make (js "Unknown tag: " ++ tagName) UNKNOWN_TAG.

Definition fromBufferOverflow (maxSize : Z) : t :=
  make (js "Buffer overflow: exceeds maximum size of " ++ number_to_string maxSize ++ js " bytes")
       BUFFER_OVERFLOW.

Definition fromMaxDepth (maxDepth : Z) (path : option jsstring) : t :=
  {| message := js "Maximum nesting depth of " ++ number_to_string maxDepth ++ js " exceeded";
     code := MAX_DEPTH_EXCEEDED; context := None; path := path; depth := Some maxDepth |}.

Definition fromMismatchedClosing (expected actual : jsstring) : t :=
  {| message := js "Mismatched closing tag: expected " ++ expected ++ js ", got " ++ actual;
     code := MISMATCHED_CLOSING_TAG;
     context := Some {| expected := expected; actual := actual |};
     path := None; depth := None |}.

End ParserError.

(** What a [throw] can carry: a [ParserError], another [Error] (with its
    [message]) or any other value (with its [String(...)] conversion). *)
Inductive Thrown : Type :=
| ThrownParserError (e : ParserError.t)
| ThrownError (message : jsstring)
| ThrownValue (text : jsstring).

(** The result of a call: it returns, it throws, or it never comes back. *)
Inductive Outcome (A : Type) : Type :=
| Ok (a : A)
| Throw (t : Thrown)
| Diverge.

Arguments Ok {A} a.
Arguments Throw {A} t.
Arguments Diverge {A}.

(** The result of a caller-supplied function. *)
Inductive Result (A : Type) : Type :=
| Returns (a : A)
| Raises (t : Thrown).

Arguments Returns {A} a.
Arguments Raises {A} t.

(** ** [types/config.ts] *)

Module ParserConfig.

Record t : Type := {
  caseSensitive : option bool;
  trimWhitespace : option bool;
  maxBufferSize : option Z;
  preserveAttributeOrder : option bool;
  errorHandler : option (ParserError.t -> unit);
  maxDepth : option Z;
  preserveWhitespace : option bool;
  autoCloseUnclosed : option bool;
  enableNested : option bool;
}.

(** [{}] *)
Definition empty : t :=
  {| caseSensitive := None; trimWhitespace := None; maxBufferSize := None;
     preserveAttributeOrder := None; errorHandler := None; maxDepth := None;
     preserveWhitespace := None; autoCloseUnclosed := None; enableNested := None |}.

End ParserConfig.

Module RequiredParserConfig.

Record t : Type := {
  caseSensitive : bool;
  trimWhitespace : bool;
  maxBufferSize : Z;
  preserveAttributeOrder : bool;
  errorHandler : option (ParserError.t -> unit);
  maxDepth : Z;
  preserveWhitespace : bool;
  autoCloseUnclosed : bool;
  enableNested : bool;
}.

End RequiredParserConfig.

Definition DEFAULT_CONFIG : RequiredParserConfig.t :=
  {| RequiredParserConfig.caseSensitive := false;
     RequiredParserConfig.trimWhitespace := true;
     RequiredParserConfig.maxBufferSize := 1024 * 1024;
     RequiredParserConfig.preserveAttributeOrder := false;
     RequiredParserConfig.errorHandler := None;
     RequiredParserConfig.maxDepth := 50;
     RequiredParserConfig.preserveWhitespace := false;
     RequiredParserConfig.autoCloseUnclosed := true;
     RequiredParserConfig.enableNested := false |}.

(** [a ?? b] *)
Definition nullish {A : Type} (a : option A) (b : A) : A :=
  match a with Some x => x | None => b end.

Definition mergeConfig (config : ParserConfig.t) : RequiredParserConfig.t :=
  {| RequiredParserConfig.caseSensitive :=
       nullish (ParserConfig.caseSensitive config) (RequiredParserConfig.caseSensitive DEFAULT_CONFIG);
     RequiredParserConfig.trimWhitespace :=
       nullish (ParserConfig.trimWhitespace config) (RequiredParserConfig.trimWhitespace DEFAULT_CONFIG);
     RequiredParserConfig.maxBufferSize :=
       nullish (ParserConfig.maxBufferSize config) (RequiredParserConfig.maxBufferSize DEFAULT_CONFIG);
     RequiredParserConfig.preserveAttributeOrder :=
       nullish (ParserConfig.preserveAttributeOrder config)
               (RequiredParserConfig.preserveAttributeOrder DEFAULT_CONFIG);
     RequiredParserConfig.errorHandler :=
       match ParserConfig.errorHandler config with
       | Some h => Some h
       | None => RequiredParserConfig.errorHandler DEFAULT_CONFIG
       end;
     RequiredParserConfig.maxDepth :=
       nullish (ParserConfig.maxDepth config) (RequiredParserConfig.maxDepth DEFAULT_CONFIG);
     RequiredParserConfig.preserveWhitespace :=
       nullish (ParserConfig.preserveWhitespace config)
               (RequiredParserConfig.preserveWhitespace DEFAULT_CONFIG);
     RequiredParserConfig.autoCloseUnclosed :=
       nullish (ParserConfig.autoCloseUnclosed config)
               (RequiredParserConfig.autoCloseUnclosed DEFAULT_CONFIG);
     RequiredParserConfig.enableNested :=
       nullish (ParserConfig.enableNested config) (RequiredParserConfig.enableNested DEFAULT_CONFIG) |}.

(** One [if (...) errors.push(...)] of [validateConfig]. *)
Definition push_if (cond : bool) (msg : string) (errors : list jsstring) : list jsstring :=
  if cond then errors ++ [js msg] else errors.

Definition is_defined_and {A : Type} (a : option A) (p : A -> bool) : bool :=
  match a with Some x => p x | None => false end.

Definition validateConfig (config : ParserConfig.t) : list jsstring :=
  let errors := [] in
  let errors :=
    push_if (is_defined_and (ParserConfig.maxBufferSize config) (fun n => n <=? 0)%Z)
            "maxBufferSize must be greater than 0" errors in
  let errors :=
    push_if (is_defined_and (ParserConfig.maxDepth config) (fun n => n <=? 0)%Z)
            "maxDepth must be greater than 0" errors in
  let errors :=
    push_if (is_defined_and (ParserConfig.maxBufferSize config)
                            (fun n => 100 * 1024 * 1024 <? n)%Z)
            "maxBufferSize should not exceed 100MB for performance reasons" errors in
  let errors :=
    push_if (is_defined_and (ParserConfig.maxDepth config) (fun n => 1000 <? n)%Z)
            "maxDepth should not exceed 1000 for performance reasons" errors in
  errors.

(** ** [BufferManager] *)

Module BufferManager.

Record t : Type := {
  buffer : jsstring;
  maxSize : Z;
  totalBytesProcessed : Z;
}.

(** [new BufferManager(maxSize)] *)
Definition new (maxSize : Z) : t :=
  {| buffer := []; maxSize := maxSize; totalBytesProcessed := 0 |}.

Definition size_of (s : jsstring) : Z := Z.of_nat (length s).

(** [append(chunk)].  The [typeof] check of the source cannot fail here:
    a [chunk] is a string. *)
Definition append (chunk : jsstring) (b : t) : Outcome unit * t :=
  if (maxSize b <? size_of (buffer b) + size_of chunk)%Z
  then (Throw (ThrownParserError (ParserError.fromBufferOverflow (maxSize b))), b)
  else (Ok tt,
        {| buffer := buffer b ++ chunk;
           maxSize := maxSize b;
           totalBytesProcessed := (totalBytesProcessed b + size_of chunk)%Z |}).

Definition getContent (b : t) : jsstring := buffer b.

Definition getSize (b : t) : Z := size_of (buffer b).

Definition getTotalProcessed (b : t) : Z := totalBytesProcessed b.

Definition clear (b : t) : t :=
  {| buffer := []; maxSize := maxSize b; totalBytesProcessed := totalBytesProcessed b |}.

Definition with_buffer (s : jsstring) (b : t) : t :=
  {| buffer := s; maxSize := maxSize b; totalBytesProcessed := totalBytesProcessed b |}.

(** [consume(length)]: what is returned and the buffer that is left. *)
Definition consume (len : Z) (b : t) : jsstring * t :=
  if (len <=? 0)%Z then ([], b)
  else if (size_of (buffer b) <=? len)%Z then (buffer b, with_buffer [] b)
  else (take (Z.to_nat len) (buffer b), with_buffer (drop (Z.to_nat len) (buffer b)) b).

Definition removeRange (startIndex endIndex : Z) (b : t) : t :=
  if (startIndex <? 0)%Z || (endIndex <? startIndex)%Z || (size_of (buffer b) <=? startIndex)%Z
  then b
  else with_buffer (take (Z.to_nat startIndex) (buffer b) ++ drop (Z.to_nat endIndex) (buffer b)) b.

Definition isEmpty (b : t) : bool := (getSize b =? 0)%Z.

Definition hasContent (b : t) : bool := (0 <? getSize b)%Z.

Definition getRemainingCapacity (b : t) : Z := (maxSize b - getSize b)%Z.

End BufferManager.

(** ** Tag objects ([types/base.ts])

    Tag objects are shared: a record that is open sits on the stack, in
    its parent's [children] array and in the arguments of the
    notifications already raised for it, and it is updated in place.  The
    objects therefore live in a store and are named by their index in it.
    A [BaseTag] is a tag object without the optional members of
    [NestedTag]. *)

Abbreviation ref := nat.

Module Tag.

Record t : Type := {
  tagName : jsstring;
  content : jsstring;
  attributes : option AttrMap;
  children : option (list ref);
  parent : option ref;
  path : option jsstring;
  depth : option Z;
  isSelfClosing : option bool;
}.

Definition set_content (c : jsstring) (x : t) : t :=
  {| tagName := tagName x; content := c; attributes := attributes x;
     children := children x; parent := parent x; path := path x; depth := depth x;
     isSelfClosing := isSelfClosing x |}.

Definition set_attributes (a : option AttrMap) (x : t) : t :=
  {| tagName := tagName x; content := content x; attributes := a;
     children := children x; parent := parent x; path := path x; depth := depth x;
     isSelfClosing := isSelfClosing x |}.

Definition set_children (c : option (list ref)) (x : t) : t :=
  {| tagName := tagName x; content := content x; attributes := attributes x;
     children := c; parent := parent x; path := path x; depth := depth x;
     isSelfClosing := isSelfClosing x |}.

End Tag.

Abbreviation Store := (list Tag.t).

(** [true | string] *)
Inductive ValidationResult : Type :=
| Valid
| Invalid (message : jsstring).

(** ** [TagDefinition] ([types/schema.ts])

    The caller's functions are pure; one that receives tag objects gets
    the store to read them from. *)

Module TagDefinition.

Record t : Type := {
  tagName : jsstring;
  validateContent : option (jsstring -> Result ValidationResult);
  validateAttributes : option (AttrMap -> Result ValidationResult);
  transformContent : option (jsstring -> Result jsstring);
  transformAttributes : option (AttrMap -> Result (option AttrMap));
  validateChildren : option (Store -> list ref -> Result ValidationResult);
  allowChildren : option bool;
  allowSelfClosing : option bool;
  defaultContent : option jsstring;
  defaultAttributes : option AttrMap;
  onStart : option (jsstring -> option AttrMap -> Result unit);
  onContentUpdate : option (jsstring -> Store -> ref -> Result unit);
  onComplete : option (Store -> ref -> Result unit);
  onChildAdded : option (Store -> ref -> ref -> Result unit);
}.

(** [{ tagName }] *)
Definition simple (tagName : jsstring) : t :=
  {| tagName := tagName; validateContent := None; validateAttributes := None;
     transformContent := None; transformAttributes := None; validateChildren := None;
     allowChildren := None; allowSelfClosing := None; defaultContent := None;
     defaultAttributes := None; onStart := None; onContentUpdate := None;
     onComplete := None; onChildAdded := None |}.

End TagDefinition.

Inductive ParserState : Type := IDLE | PARSING | ERROR | COMPLETED.

Module ParserStats.

Record t : Type := {
  totalTagsParsed : Z;
  totalBytesProcessed : Z;
  errorCount : Z;
  bufferSize : Z;
  state : ParserState;
  registeredTagsCount : Z;
  maxDepthReached : Z;
  totalNestedTags : Z;
}.

End ParserStats.

(** ** Notifications ([types/events.ts]) *)

(** The second argument of [parse_error]: the chunk or the match. *)
Inductive ErrorContext : Type :=
| ChunkContext (chunk : jsstring)
| MatchContext (m : TagMatch.t).

Inductive Event : Type :=
| tag_started (tagName : jsstring) (attributes : option AttrMap)
| tag_content_update (tagName : jsstring) (partialContent : jsstring)
| tag_completed (tag : ref)
| tag_opened (tag : ref) (depth : Z) (path : jsstring)
| tag_closed (tag : ref) (depth : Z) (path : jsstring)
| subtree_completed (tag : ref) (depth : Z)
| document_completed (tags : list ref)
| parsing_complete (tags : list ref)
| parse_error (error : ParserError.t) (context : ErrorContext)
| buffer_cleared
| stats_updated (stats : ParserStats.t)
| parser_reset
| parsing_finalized (stats : ParserStats.t).

(** What the engine does to the outside, in order: the notifications it
    raises and the lifecycle callbacks of a definition it calls. *)
Inductive Effect : Type :=
| Emit (e : Event)
| CallOnStart (tagName : jsstring) (attributes : option AttrMap)
| CallOnComplete (tag : ref).

(** ** [TagStackEntry] *)

Module TagStackEntry.

Record t : Type := {
  tag : ref;
  startIndex : nat;
  depth : Z;
  path : jsstring;
}.

End TagStackEntry.

(** ** [StreamParser]

    The engine state.  [tagStack] is the array of the source read from its
    end: the head of the list is the innermost open tag, [push] is [cons]
    and [pop] removes the head.  [store] holds the tag objects, [trace]
    what the engine has done to the outside so far (oldest first), and
    [listeners] is the joint behaviour of the observers registered for a
    notification: they return, or one of them throws.  The observers are
    those attached with [on] before the calls that are studied: [on],
    [off] and [once] during these calls, and observers that call back
    into the engine, are outside the model, and nothing is stated about
    the set of observers itself. *)

Module StreamParser.

Record t : Type := {
  config : RequiredParserConfig.t;
  bufferManager : BufferManager.t;
  tagRegistry : list (jsstring * TagDefinition.t);
  state : ParserState;
  stats : ParserStats.t;
  tagStack : list TagStackEntry.t;
  currentDepth : Z;
  currentPath : jsstring;
  store : Store;
  trace : list Effect;
  listeners : Event -> Result unit;
}.

Definition with_bufferManager (b : BufferManager.t) (p : t) : t :=
  {| config := config p; bufferManager := b; tagRegistry := tagRegistry p;
     state := state p; stats := stats p; tagStack := tagStack p;
     currentDepth := currentDepth p; currentPath := currentPath p;
     store := store p; trace := trace p; listeners := listeners p |}.

Definition with_tagRegistry (r : list (jsstring * TagDefinition.t)) (p : t) : t :=
  {| config := config p; bufferManager := bufferManager p; tagRegistry := r;
     state := state p; stats := stats p; tagStack := tagStack p;
     currentDepth := currentDepth p; currentPath := currentPath p;
     store := store p; trace := trace p; listeners := listeners p |}.

Definition with_state (s : ParserState) (p : t) : t :=
  {| config := config p; bufferManager := bufferManager p; tagRegistry := tagRegistry p;
     state := s; stats := stats p; tagStack := tagStack p;
     currentDepth := currentDepth p; currentPath := currentPath p;
     store := store p; trace := trace p; listeners := listeners p |}.

Definition with_stats (s : ParserStats.t) (p : t) : t :=
  {| config := config p; bufferManager := bufferManager p; tagRegistry := tagRegistry p;
     state := state p; stats := s; tagStack := tagStack p;
     currentDepth := currentDepth p; currentPath := currentPath p;
     store := store p; trace := trace p; listeners := listeners p |}.

Definition with_tagStack (s : list TagStackEntry.t) (p : t) : t :=
  {| config := config p; bufferManager := bufferManager p; tagRegistry := tagRegistry p;
     state := state p; stats := stats p; tagStack := s;
     currentDepth := currentDepth p; currentPath := currentPath p;
     store := store p; trace := trace p; listeners := listeners p |}.

Definition with_currentDepth (d : Z) (p : t) : t :=
  {| config := config p; bufferManager := bufferManager p; tagRegistry := tagRegistry p;
     state := state p; stats := stats p; tagStack := tagStack p;
     currentDepth := d; currentPath := currentPath p;
     store := store p; trace := trace p; listeners := listeners p |}.

Definition with_currentPath (s : jsstring) (p : t) : t :=
  {| config := config p; bufferManager := bufferManager p; tagRegistry := tagRegistry p;
     state := state p; stats := stats p; tagStack := tagStack p;
     currentDepth := currentDepth p; currentPath := s;
     store := store p; trace := trace p; listeners := listeners p |}.

Definition with_store (s : Store) (p : t) : t :=
  {| config := config p; bufferManager := bufferManager p; tagRegistry := tagRegistry p;
     state := state p; stats := stats p; tagStack := tagStack p;
     currentDepth := currentDepth p; currentPath := currentPath p;
     store := s; trace := trace p; listeners := listeners p |}.

Definition with_trace (s : list Effect) (p : t) : t :=
  {| config := config p; bufferManager := bufferManager p; tagRegistry := tagRegistry p;
     state := state p; stats := stats p; tagStack := tagStack p;
     currentDepth := currentDepth p; currentPath := currentPath p;
     store := store p; trace := s; listeners := listeners p |}.

(** *** Methods as state transformers *)

Definition M (A : Type) : Type := t -> Outcome A * t.

Definition ret {A : Type} (a : A) : M A := fun p => (Ok a, p).

Definition bind {A B : Type} (m : M A) (f : A -> M B) : M B :=
  fun p =>
    match m p with
    | (Ok a, p') => f a p'
    | (Throw e, p') => (Throw e, p')
    | (Diverge, p') => (Diverge, p')
    end.

Notation "'let!' x := m 'in' k" := (bind m (fun x => k))
  (at level 10, x name, m at level 100, k at level 200).

Notation "m1 >> m2" := (bind m1 (fun _ => m2))
  (at level 100, m2 at level 200, right associativity).

Definition throw {A : Type} (e : Thrown) : M A := fun p => (Throw e, p).

Definition diverge {A : Type} : M A := fun p => (Diverge, p).

Definition get : M t := fun p => (Ok p, p).

Definition modify (f : t -> t) : M unit := fun p => (Ok tt, f p).

(** [try { m } catch (error) { handler(error) }] *)
Definition try_catch {A : Type} (m : M A) (handler : Thrown -> M A) : M A :=
  fun p =>
    match m p with
    | (Throw e, p') => handler e p'
    | r => r
    end.

(** A call of a function of the matcher that has a loop in it. *)
Definition lift {A : Type} (o : option A) : M A :=
  match o with
  | Some a => ret a
  | None => diverge
  end.

(** A call of a function supplied by the caller. *)
Definition call {A : Type} (r : Result A) : M A :=
  match r with
  | Returns a => ret a
  | Raises e => throw e
  end.

(** [this.emit(...)]: the notification is raised and its observers run. *)
Definition emit (e : Event) : M unit :=
  modify (fun p => with_trace (trace p ++ [Emit e]) p) >>
  let! p := get in call (listeners p e).

Definition record (x : Effect) : M unit :=
  modify (fun p => with_trace (trace p ++ [x]) p).

(** *** The store of tag objects *)

Definition blank : Tag.t :=
  {| Tag.tagName := []; Tag.content := []; Tag.attributes := None; Tag.children := None;
     Tag.parent := None; Tag.path := None; Tag.depth := None; Tag.isSelfClosing := None |}.

(** Reading through a reference.  A reference the engine holds always
    lies in the store; the value read outside it is immaterial. *)
Definition deref (s : Store) (r : ref) : Tag.t := default blank (s !! r).

Definition read (r : ref) : M Tag.t := fun p => (Ok (deref (store p) r), p).

Definition update (r : ref) (f : Tag.t -> Tag.t) : M unit :=
  modify (fun p => with_store (alter f r (store p)) p).

(** A new object. *)
Definition alloc (x : Tag.t) : M ref :=
  fun p => (Ok (length (store p)), with_store (store p ++ [x]) p).

(** *** [TagValidator.validate] *)

Definition check (tagName : jsstring) (kind : ValidationKind) (r : Result ValidationResult)
    : M unit :=
  let! result := call r in
  match result with
  | Valid => ret tt
  | Invalid msg => throw (ThrownParserError (ParserError.fromValidation tagName msg kind))
  end.

Definition validate (tag : ref) (definition : TagDefinition.t) : M unit :=
  (let! x := read tag in
   match TagDefinition.validateContent definition, Tag.content x with
   | Some f, _ :: _ => check (Tag.tagName x) kind_content (f (Tag.content x))
   | _, _ => ret tt
   end) >>
  (let! x := read tag in
   match TagDefinition.validateAttributes definition, Tag.attributes x with
   | Some f, Some attributes => check (Tag.tagName x) kind_attributes (f attributes)
   | _, _ => ret tt
   end) >>
  (let! x := read tag in
   let! p := get in
   match TagDefinition.validateChildren definition, Tag.children x with
   | Some f, Some children => check (Tag.tagName x) kind_children (f (store p) children)
   | _, _ => ret tt
   end).

(** *** [TagTransformer.transform] and [TagTransformer.applyDefaults] *)

Definition transform (tag : ref) (definition : TagDefinition.t) : M unit :=
  try_catch
    ((let! x := read tag in
      match TagDefinition.transformContent definition, Tag.content x with
      | Some f, _ :: _ =>
          let! c := call (f (Tag.content x)) in update tag (Tag.set_content c)
      | _, _ => ret tt
      end) >>
     (let! x := read tag in
      match TagDefinition.transformAttributes definition, Tag.attributes x with
      | Some f, Some attributes =>
          let! a := call (f attributes) in update tag (Tag.set_attributes a)
      | _, _ => ret tt
      end))
    (fun error =>
       let! x := read tag in
       match error with
       | ThrownParserError _ => throw error
       | ThrownError message | ThrownValue message =>
           throw (ThrownParserError (ParserError.fromTransformation (Tag.tagName x) message))
       end).

Definition applyDefaults (tag : ref) (definition : TagDefinition.t) : M unit :=
  (let! x := read tag in
   match TagDefinition.defaultContent definition with
   | Some (c :: cs) =>
       match trim (Tag.content x) with
       | [] => update tag (Tag.set_content (c :: cs))
       | _ :: _ => ret tt
       end
   | _ => ret tt
   end) >>
  (let! x := read tag in
   match TagDefinition.defaultAttributes definition with
   | Some defaults =>
       update tag (Tag.set_attributes (Some (spread (Some defaults) (Tag.attributes x))))
   | None => ret tt
   end).

(** *** Statistics *)

Definition initializeStats : ParserStats.t :=
  {| ParserStats.totalTagsParsed := 0;
     ParserStats.totalBytesProcessed := 0;
     ParserStats.errorCount := 0;
     ParserStats.bufferSize := 0;
     ParserStats.state := IDLE;
     ParserStats.registeredTagsCount := 0;
     ParserStats.maxDepthReached := 0;
     ParserStats.totalNestedTags := 0 |}.

Definition stats_with_totalTagsParsed (n : Z) (s : ParserStats.t) : ParserStats.t :=
  {| ParserStats.totalTagsParsed := n;
     ParserStats.totalBytesProcessed := ParserStats.totalBytesProcessed s;
     ParserStats.errorCount := ParserStats.errorCount s;
     ParserStats.bufferSize := ParserStats.bufferSize s;
     ParserStats.state := ParserStats.state s;
     ParserStats.registeredTagsCount := ParserStats.registeredTagsCount s;
     ParserStats.maxDepthReached := ParserStats.maxDepthReached s;
     ParserStats.totalNestedTags := ParserStats.totalNestedTags s |}.

Definition stats_with_errorCount (n : Z) (s : ParserStats.t) : ParserStats.t :=
  {| ParserStats.totalTagsParsed := ParserStats.totalTagsParsed s;
     ParserStats.totalBytesProcessed := ParserStats.totalBytesProcessed s;
     ParserStats.errorCount := n;
     ParserStats.bufferSize := ParserStats.bufferSize s;
     ParserStats.state := ParserStats.state s;
     ParserStats.registeredTagsCount := ParserStats.registeredTagsCount s;
     ParserStats.maxDepthReached := ParserStats.maxDepthReached s;
     ParserStats.totalNestedTags := ParserStats.totalNestedTags s |}.

Definition stats_with_depths (maxDepthReached totalNestedTags : Z) (s : ParserStats.t)
    : ParserStats.t :=
  {| ParserStats.totalTagsParsed := ParserStats.totalTagsParsed s;
     ParserStats.totalBytesProcessed := ParserStats.totalBytesProcessed s;
     ParserStats.errorCount := ParserStats.errorCount s;
     ParserStats.bufferSize := ParserStats.bufferSize s;
     ParserStats.state := ParserStats.state s;
     ParserStats.registeredTagsCount := ParserStats.registeredTagsCount s;
     ParserStats.maxDepthReached := maxDepthReached;
     ParserStats.totalNestedTags := totalNestedTags |}.

Definition updateStats : M unit :=
  modify (fun p =>
    with_stats
      {| ParserStats.totalTagsParsed := ParserStats.totalTagsParsed (stats p);
         ParserStats.totalBytesProcessed := BufferManager.getTotalProcessed (bufferManager p);
         ParserStats.errorCount := ParserStats.errorCount (stats p);
         ParserStats.bufferSize := BufferManager.getSize (bufferManager p);
         ParserStats.state := ParserStats.state (stats p);
         ParserStats.registeredTagsCount := Z.of_nat (length (tagRegistry p));
         ParserStats.maxDepthReached := ParserStats.maxDepthReached (stats p);
         ParserStats.totalNestedTags := ParserStats.totalNestedTags (stats p) |} p) >>
  let! p := get in emit (stats_updated (stats p)).

Definition countTagParsed : M unit :=
  modify (fun p =>
    with_stats (stats_with_totalTagsParsed (ParserStats.totalTagsParsed (stats p) + 1) (stats p)) p).

Definition emitError (error : ParserError.t) (context : ErrorContext) : M unit :=
  emit (parse_error error context).

(** *** Construction and registration *)

(** [new StreamParser(config)], with the observers that will be attached. *)
Definition new (config : ParserConfig.t) (listeners : Event -> Result unit) : t :=
  let config := mergeConfig config in
  {| config := config;
     bufferManager := BufferManager.new (RequiredParserConfig.maxBufferSize config);
     tagRegistry := [];
     state := IDLE;
     stats := initializeStats;
     tagStack := [];
     currentDepth := 0;
     currentPath := [];
     store := [];
     trace := [];
     listeners := listeners |}.

Definition defineTag (definition : TagDefinition.t) : M unit :=
  modify (fun p =>
    with_tagRegistry (assoc_set (TagDefinition.tagName definition) definition (tagRegistry p)) p) >>
  updateStats.

Definition removeTag (tagName : jsstring) : M bool :=
  let! p := get in
  match assoc_get tagName (tagRegistry p) with
  | Some _ =>
      modify (with_tagRegistry (assoc_delete tagName (tagRegistry p))) >>
      updateStats >> ret true
  | None => ret false
  end.

Definition hasTag (tagName : jsstring) (p : t) : bool :=
  match assoc_get tagName (tagRegistry p) with Some _ => true | None => false end.

Definition getRegisteredTags (p : t) : list jsstring := map fst (tagRegistry p).

Definition getState (p : t) : ParserState := state p.

Definition getStats (p : t) : ParserStats.t := stats p.

Definition getCurrentDepth (p : t) : Z := currentDepth p.

Definition getCurrentPath (p : t) : jsstring := currentPath p.

Definition getBufferSize (p : t) : Z := BufferManager.getSize (bufferManager p).

(** A lifecycle callback of a definition, when it has one. *)
Definition call_onStart (definition : option TagDefinition.t) (tagName : jsstring)
    (attributes : option AttrMap) : M unit :=
  match definition with
  | Some d =>
      match TagDefinition.onStart d with
      | Some f => record (CallOnStart tagName attributes) >> call (f tagName attributes)
      | None => ret tt
      end
  | None => ret tt
  end.

Definition call_onComplete (definition : TagDefinition.t) (tag : ref) : M unit :=
  match TagDefinition.onComplete definition with
  | Some f => record (CallOnComplete tag) >> let! p := get in call (f (store p) tag)
  | None => ret tt
  end.

(** *** Flat mode *)

Definition processTagFlat (m : TagMatch.t) : M ref :=
  let! p := get in
  match assoc_get (TagMatch.tagName m) (tagRegistry p) with
  | None => throw (ThrownParserError (ParserError.fromUnknownTag (TagMatch.tagName m)))
  | Some definition =>
      emit (tag_started (TagMatch.tagName m) (TagMatch.attributes m)) >>
      call_onStart (Some definition) (TagMatch.tagName m) (TagMatch.attributes m) >>
      let! tag :=
        alloc {| Tag.tagName := TagMatch.tagName m;
                 Tag.content :=
                   if RequiredParserConfig.trimWhitespace (config p)
                   then trim (TagMatch.content m) else TagMatch.content m;
                 Tag.attributes := TagMatch.attributes m;
                 Tag.children := None; Tag.parent := None; Tag.path := None;
                 Tag.depth := None; Tag.isSelfClosing := None |} in
      applyDefaults tag definition >>
      validate tag definition >>
      transform tag definition >>
      emit (tag_completed tag) >>
      call_onComplete definition tag >>
      ret tag
  end.

(** The [for (const match of completeTags)] loop of [processBufferFlat];
    the result is [parsedTags]. *)
Fixpoint processMatchesFlat (completeTags : list TagMatch.t) (parsedTags : list ref)
    : M (list ref) :=
  match completeTags with
  | [] => ret parsedTags
  | m :: rest =>
      let! parsedTags :=
        try_catch
          (let! tag := processTagFlat m in
           countTagParsed >> ret (parsedTags ++ [tag]))
          (fun error =>
             emitError
               match error with
               | ThrownParserError e => e
               | _ => ParserError.make (js "Failed to process tag") TRANSFORMATION_FAILED
               end
               (MatchContext m) >>
             ret parsedTags) in
      processMatchesFlat rest parsedTags
  end.

Definition consumeBuffer (len : Z) : M unit :=
  modify (fun p => with_bufferManager (BufferManager.consume len (bufferManager p)).2 p).

Definition removeProcessedContent (matches : list TagMatch.t) : M unit :=
  match last matches with
  | None => ret tt
  | Some lastMatch => consumeBuffer (Z.of_nat (TagMatch.endIndex lastMatch))
  end.

Definition processBufferFlat : M unit :=
  let! p := get in
  let buffer := BufferManager.getContent (bufferManager p) in
  let! completeTags :=
    lift (TagMatcher.findCompleteTags (RequiredParserConfig.caseSensitive (config p)) buffer) in
  let! parsedTags := processMatchesFlat completeTags [] in
  removeProcessedContent completeTags >>
  match parsedTags with
  | _ :: _ => emit (parsing_complete parsedTags) >> emit (document_completed parsedTags)
  | [] => ret tt
  end >>
  updateStats.

(** *** Nested mode *)

Definition getCurrentParent (p : t) : option ref :=
  match tagStack p with
  | entry :: _ => Some (TagStackEntry.tag entry)
  | [] => None
  end.

Definition buildPath (tagName : jsstring) (p : t) : jsstring :=
  match currentPath p with
  | [] => tagName
  | _ :: _ => currentPath p ++ js "/" ++ tagName
  end.

(** [a || b] on strings: the empty string is falsy. *)
Definition or_string (a : option jsstring) (b : jsstring) : jsstring :=
  match a with
  | Some (c :: cs) => c :: cs
  | _ => b
  end.

(** [x || 0] *)
Definition or_zero (a : option Z) : Z := default 0%Z a.

(** [currentParent.children.push(tag)] when the parent has [children]. *)
Definition addChild (parent : option ref) (child : ref) : M unit :=
  match parent with
  | Some currentParent =>
      let! x := read currentParent in
      match Tag.children x with
      | Some children => update currentParent (Tag.set_children (Some (children ++ [child])))
      | None => ret tt
      end
  | None => ret tt
  end.

Definition pathAfterPop (p : t) : jsstring :=
  match tagStack p with
  | entry :: _ => TagStackEntry.path entry
  | [] => []
  end.

(** The message of the [TypeError] raised by reading [tag] from the
    [undefined] that [pop()] returns on an empty array. *)
Definition undefined_tag_message : jsstring :=
  js "Cannot read properties of undefined (reading 'tag')".

Definition handleOpeningTag (tagMatch : TagMatch.t) : M unit :=
  let! p := get in
  if (RequiredParserConfig.maxDepth (config p) <=? currentDepth p)%Z
  then throw (ThrownParserError
                (ParserError.fromMaxDepth (RequiredParserConfig.maxDepth (config p)) None))
  else
    let definition := assoc_get (TagMatch.tagName tagMatch) (tagRegistry p) in
    let newPath := buildPath (TagMatch.tagName tagMatch) p in
    let! newTag :=
      alloc {| Tag.tagName := TagMatch.tagName tagMatch;
               Tag.content :=
                 or_string (definition ≫= TagDefinition.defaultContent) [];
               Tag.children := Some [];
               Tag.attributes :=
                 Some (spread (definition ≫= TagDefinition.defaultAttributes)
                              (TagMatch.attributes tagMatch));
               Tag.parent := getCurrentParent p;
               Tag.path := Some newPath;
               Tag.depth := Some (currentDepth p + 1)%Z;
               Tag.isSelfClosing := Some false |} in
    addChild (getCurrentParent p) newTag >>
    modify (fun p => with_currentDepth (currentDepth p + 1) p) >>
    modify (with_currentPath (or_string (Some newPath) [])) >>
    modify (fun p =>
      with_stats
        (stats_with_depths
           (Z.max (ParserStats.maxDepthReached (stats p)) (currentDepth p))
           (ParserStats.totalNestedTags (stats p) + 1)
           (stats p)) p) >>
    modify (fun p =>
      with_tagStack
        ({| TagStackEntry.tag := newTag;
            TagStackEntry.startIndex := TagMatch.startIndex tagMatch;
            TagStackEntry.depth := currentDepth p;
            TagStackEntry.path := or_string (Some newPath) [] |} :: tagStack p) p) >>
    let! p := get in
    let! x := read newTag in
    emit (tag_opened newTag (currentDepth p) (or_string (Some newPath) [])) >>
    emit (tag_started (Tag.tagName x) (Tag.attributes x)) >>
    call_onStart definition (Tag.tagName x) (Tag.attributes x).

Definition completeTag (tag : ref) : M unit :=
  let! x := read tag in
  let! p := get in
  match assoc_get (Tag.tagName x) (tagRegistry p) with
  | Some definition =>
      validate tag definition >>
      transform tag definition >>
      call_onComplete definition tag
  | None => ret tt
  end >>
  countTagParsed >>
  let! x := read tag in
  emit (tag_closed tag (or_zero (Tag.depth x)) (or_string (Tag.path x) [])) >>
  emit (tag_completed tag) >>
  match Tag.children x with
  | Some (_ :: _) => emit (subtree_completed tag (or_zero (Tag.depth x)))
  | _ => ret tt
  end.

Definition autoCloseTag : M unit :=
  let! p := get in
  match tagStack p with
  | [] => ret tt
  | entry :: rest =>
      modify (with_tagStack rest) >>
      completeTag (TagStackEntry.tag entry) >>
      modify (fun p => with_currentDepth (currentDepth p - 1) p) >>
      modify (fun p => with_currentPath (pathAfterPop p) p)
  end.

(** The loop of [handleClosingTag] that closes the intervening tags. *)
Fixpoint autoCloseUntil (fuel : nat) (tagName : jsstring) : M unit :=
  let! p := get in
  match tagStack p with
  | [] => ret tt
  | entry :: _ =>
      if bool_decide (Tag.tagName (deref (store p) (TagStackEntry.tag entry)) <> tagName)
      then
        match fuel with
        | 0 => diverge
        | S fuel' => autoCloseTag >> autoCloseUntil fuel' tagName
        end
      else ret tt
  end.

Definition handleClosingTag (tagMatch : TagMatch.t) : M unit :=
  let! p := get in
  match tagStack p with
  | [] =>
      throw (ThrownParserError
               (ParserError.make (js "Unexpected closing tag: " ++ TagMatch.tagName tagMatch)
                                 MISMATCHED_CLOSING_TAG))
  | currentEntry :: _ =>
      let! current := read (TagStackEntry.tag currentEntry) in
      (if bool_decide (Tag.tagName current <> TagMatch.tagName tagMatch)
       then
         if RequiredParserConfig.autoCloseUnclosed (config p)
         then autoCloseUntil (length (tagStack p)) (TagMatch.tagName tagMatch)
         else throw (ThrownParserError
                       (ParserError.fromMismatchedClosing (Tag.tagName current)
                                                          (TagMatch.tagName tagMatch)))
       else ret tt) >>
      let! p := get in
      match tagStack p with
      | [] => throw (ThrownError undefined_tag_message)
      | completedEntry :: rest =>
          modify (with_tagStack rest) >>
          completeTag (TagStackEntry.tag completedEntry) >>
          modify (fun p => with_currentDepth (currentDepth p - 1) p) >>
          modify (fun p => with_currentPath (pathAfterPop p) p)
      end
  end.

Definition handleSelfClosingTag (tagMatch : TagMatch.t) : M unit :=
  let! p := get in
  let definition := assoc_get (TagMatch.tagName tagMatch) (tagRegistry p) in
  let! tag :=
    alloc {| Tag.tagName := TagMatch.tagName tagMatch;
             Tag.content := or_string (definition ≫= TagDefinition.defaultContent) [];
             Tag.children := Some [];
             Tag.attributes :=
               Some (spread (definition ≫= TagDefinition.defaultAttributes)
                            (TagMatch.attributes tagMatch));
             Tag.parent := getCurrentParent p;
             Tag.path := Some (buildPath (TagMatch.tagName tagMatch) p);
             Tag.depth := Some (currentDepth p + 1)%Z;
             Tag.isSelfClosing := Some true |} in
  addChild (getCurrentParent p) tag >>
  completeTag tag.

Definition processTagNested (tagMatch : TagMatch.t) : M unit :=
  match TagMatch.type tagMatch with
  | opening => handleOpeningTag tagMatch
  | closing => handleClosingTag tagMatch
  | self_closing => handleSelfClosingTag tagMatch
  | complete => ret tt
  end.

Definition handleTextContent (textContent : jsstring) : M unit :=
  match trim textContent with
  | [] => ret tt
  | _ :: _ =>
      let! p := get in
      match getCurrentParent p with
      | Some currentParent =>
          let! x := read currentParent in
          update currentParent
            (Tag.set_content
               match Tag.content x with
               | _ :: _ => Tag.content x ++ textContent
               | [] => textContent
               end) >>
          emit (tag_content_update (Tag.tagName x) textContent)
      | None => ret tt
      end
  end.

(** The [while (lastProcessedIndex < buffer.length)] loop of
    [processBufferNested]; the result is the final [lastProcessedIndex]. *)
Fixpoint sweep (fuel : nat) (buffer : jsstring) (lastProcessedIndex : nat) : M nat :=
  if lastProcessedIndex <? length buffer then
    match fuel with
    | 0 => diverge
    | S fuel' =>
        let! p := get in
        let! nextTag :=
          lift (TagMatcher.findNextTag (RequiredParserConfig.caseSensitive (config p))
                                       buffer lastProcessedIndex) in
        match nextTag with
        | None => ret lastProcessedIndex
        | Some nextTag =>
            (if lastProcessedIndex <? TagMatch.startIndex nextTag
             then handleTextContent
                    (TagMatcher.extractTextContent buffer lastProcessedIndex
                                                   (TagMatch.startIndex nextTag))
             else ret tt) >>
            processTagNested nextTag >>
            sweep fuel' buffer (TagMatch.endIndex nextTag)
        end
    end
  else ret lastProcessedIndex.

Definition processBufferNested : M unit :=
  let! p := get in
  let buffer := BufferManager.getContent (bufferManager p) in
  let! lastProcessedIndex := sweep (length buffer) buffer 0 in
  if 0 <? lastProcessedIndex
  then consumeBuffer (Z.of_nat lastProcessedIndex)
  else ret tt.

(** *** [parse], [reset], [finalize] *)

Definition appendChunk (chunk : jsstring) : M unit :=
  fun p =>
    let '(r, b) := BufferManager.append chunk (bufferManager p) in
    (r, with_bufferManager b p).

(** The error that the [catch] of [parse] reports. *)
Definition asParserError (error : Thrown) : ParserError.t :=
  match error with
  | ThrownParserError e => e
  | ThrownError message | ThrownValue message =>
      ParserError.make (js "Unexpected error: " ++ message) INVALID_TAG_FORMAT
  end.

Definition countError : M unit :=
  modify (fun p =>
    with_stats (stats_with_errorCount (ParserStats.errorCount (stats p) + 1) (stats p)) p).

(** The [try] block of [parse]. *)
Definition parseBody (chunk : jsstring) : M unit :=
  modify (with_state PARSING) >>
  appendChunk chunk >>
  (let! p := get in
   if RequiredParserConfig.enableNested (config p)
   then processBufferNested
   else processBufferFlat) >>
  modify (with_state COMPLETED).

(** The [catch] block of [parse]. *)
Definition parseCatch (chunk : jsstring) (error : Thrown) : M unit :=
  modify (with_state ERROR) >>
  countError >>
  emitError (asParserError error) (ChunkContext chunk).

Definition parse (chunk : jsstring) : M unit :=
  try_catch (parseBody chunk) (parseCatch chunk).

Definition reset : M unit :=
  modify (fun p => with_bufferManager (BufferManager.clear (bufferManager p)) p) >>
  emit buffer_cleared >>
  modify (with_tagStack []) >>
  modify (with_currentDepth 0) >>
  modify (with_currentPath []) >>
  modify (with_state IDLE) >>
  modify (with_stats initializeStats) >>
  emit parser_reset.

(** The [while (this.tagStack.length > 0)] loop of [finalize]. *)
Fixpoint autoCloseAll (fuel : nat) : M unit :=
  let! p := get in
  match tagStack p with
  | [] => ret tt
  | _ :: _ =>
      match fuel with
      | 0 => diverge
      | S fuel' => autoCloseTag >> autoCloseAll fuel'
      end
  end.

Definition finalize : M unit :=
  let! p := get in
  let rootTags :=
    map TagStackEntry.tag
        (filter (fun entry => TagStackEntry.depth entry = 1%Z) (rev (tagStack p))) in
  autoCloseAll (length (tagStack p)) >>
  modify (with_state COMPLETED) >>
  updateStats >>
  match rootTags with
  | _ :: _ => emit (document_completed rootTags)
  | [] => ret tt
  end >>
  let! p := get in emit (parsing_finalized (stats p)).

End StreamParser.

(** [LLMStreamParser.parseComplete] *)
Definition parseComplete (content : jsstring) : StreamParser.M unit :=
  StreamParser.bind (StreamParser.parse content) (fun _ => StreamParser.finalize).

(** Observers that always return. *)
Definition quiet : Event -> Result unit := fun _ => Returns tt.

(** The state a call leaves behind, and its outcome. *)
Definition state_after {A : Type} (m : StreamParser.M A) (p : StreamParser.t) : StreamParser.t :=
  (m p).2.

Definition outcome_of {A : Type} (m : StreamParser.M A) (p : StreamParser.t) : Outcome A :=
  (m p).1.

(** The notifications in a trace. *)
Definition emitted (tr : list Effect) : list Event :=
  omap (fun x => match x with Emit e => Some e | _ => None end) tr.

(** ** Notions used in the statements *)

(** The operations of the buffer that change it. *)
Inductive BufferOp : Type :=
| op_append (chunk : jsstring)
| op_consume (len : Z)
| op_removeRange (startIndex endIndex : Z)
| op_clear.

Definition apply_op (b : BufferManager.t) (op : BufferOp) : BufferManager.t :=
  match op with
  | op_append chunk => (BufferManager.append chunk b).2
  | op_consume len => (BufferManager.consume len b).2
  | op_removeRange startIndex endIndex => BufferManager.removeRange startIndex endIndex b
  | op_clear => BufferManager.clear b
  end.

Definition apply_ops (b : BufferManager.t) (ops : list BufferOp) : BufferManager.t :=
  fold_left apply_op ops b.


(** The limits that [validateConfig] checks. *)
Definition in_limits (config : ParserConfig.t) : Prop :=
  match ParserConfig.maxBufferSize config with
  | Some n => (0 < n <= 100 * 1024 * 1024)%Z
  | None => True
  end /\
  match ParserConfig.maxDepth config with
  | Some d => (0 < d <= 1000)%Z
  | None => True
  end.


(** The configuration [{ enableNested: true }]. *)
Definition nested_config : ParserConfig.t :=
  {| ParserConfig.caseSensitive := None; ParserConfig.trimWhitespace := None;
     ParserConfig.maxBufferSize := None; ParserConfig.preserveAttributeOrder := None;
     ParserConfig.errorHandler := None; ParserConfig.maxDepth := None;
     ParserConfig.preserveWhitespace := None; ParserConfig.autoCloseUnclosed := None;
     ParserConfig.enableNested := Some true |}.

(** A run of calls on one engine. *)
Definition then_ {A B : Type} (m1 : StreamParser.M A) (m2 : StreamParser.M B)
    : StreamParser.M B :=
  StreamParser.bind m1 (fun _ => m2).

(** The [parse_error] notifications of a trace, with the code of each. *)
Definition parse_errors (tr : list Effect) : list (ParserErrorCode * ErrorContext) :=
  omap (fun x => match x with
                 | Emit (parse_error e c) => Some (ParserError.code e, c)
                 | _ => None
                 end) tr.



(** The records a trace reports as completed. *)
Definition completed (tr : list Effect) : list ref :=
  omap (fun x => match x with Emit (tag_completed r) => Some r | _ => None end) tr.


(** The engine of the flat-mode example: default configuration, only
    [known] registered. *)
Definition known_parser : StreamParser.t :=
  state_after (StreamParser.defineTag (TagDefinition.simple (js "known")))
              (StreamParser.new ParserConfig.empty quiet).


Definition known_unknown_input : jsstring := js "<known>ok</known><unknown>x</unknown>".

(** The second match of [known_unknown_input]. *)
Definition unknown_match : TagMatch.t :=
  {| TagMatch.tagName := js "unknown";
     TagMatch.content := js "x";
     TagMatch.attributes := None;
     TagMatch.startIndex := 17;
     TagMatch.endIndex := 37;
     TagMatch.fullMatch := js "<unknown>x</unknown>";
     TagMatch.type := complete |}.

(** The engine of the nested-mode examples: [{ enableNested: true }],
    nothing registered, observers that return. *)
Definition nested_parser : StreamParser.t := StreamParser.new nested_config quiet.


(** The engine after [definition] has been put in the registry (the
    registry update of [defineTag]). *)
Definition registered (definition : TagDefinition.t) (p : StreamParser.t) : StreamParser.t :=
  StreamParser.with_tagRegistry
    (assoc_set (TagDefinition.tagName definition) definition (StreamParser.tagRegistry p)) p.

(** The record that [handleOpeningTag] creates for a match whose name has
    no definition. *)
Definition plain_record (tagMatch : TagMatch.t) (p : StreamParser.t) : Tag.t :=
  {| Tag.tagName := TagMatch.tagName tagMatch;
     Tag.content := [];
     Tag.attributes := Some (spread None (TagMatch.attributes tagMatch));
     Tag.children := Some [];
     Tag.parent := StreamParser.getCurrentParent p;
     Tag.path := Some (StreamParser.buildPath (TagMatch.tagName tagMatch) p);
     Tag.depth := Some (StreamParser.currentDepth p + 1)%Z;
     Tag.isSelfClosing := Some false |}.

(** The notifications of a completed record [r]. *)
Definition closing_events (s : Store) (r : ref) : list Effect :=
  let x := StreamParser.deref s r in
  [Emit (tag_closed r (StreamParser.or_zero (Tag.depth x))
                    (StreamParser.or_string (Tag.path x) []));
   Emit (tag_completed r)] ++
  match Tag.children x with
  | Some (_ :: _) => [Emit (subtree_completed r (StreamParser.or_zero (Tag.depth x)))]
  | _ => []
  end.

(** The opening match of [<a>] at the head of a buffer. *)
Definition open_a : TagMatch.t :=
  {| TagMatch.tagName := js "a";
     TagMatch.content := [];
     TagMatch.attributes := None;
     TagMatch.startIndex := 0;
     TagMatch.endIndex := 3;
     TagMatch.fullMatch := js "<a>";
     TagMatch.type := opening |}.

(** The opening match of [<b>] that follows it. *)
Definition open_b : TagMatch.t :=
  {| TagMatch.tagName := js "b";
     TagMatch.content := [];
     TagMatch.attributes := None;
     TagMatch.startIndex := 3;
     TagMatch.endIndex := 6;
     TagMatch.fullMatch := js "<b>";
     TagMatch.type := opening |}.



(** A computation leaves a component of the engine state as it was,
    however it ends. *)
Definition keeps {X A : Type} (f : StreamParser.t -> X) (m : StreamParser.M A) : Prop :=
  forall p, f (m p).2 = f p.

(** A computation comes back: it returns or it throws. *)
Definition comes_back {A : Type} (m : StreamParser.M A) (p : StreamParser.t) : Prop :=
  (m p).1 <> Diverge.

Definition error_count (p : StreamParser.t) : Z :=
  ParserStats.errorCount (StreamParser.stats p).

(** What no step of [parse] before its [catch] changes: the observers and
    the error counter. *)
Definition static (p : StreamParser.t) : (Event -> Result unit) * Z :=
  (StreamParser.listeners p, error_count p).

(** ** The shapes of text that the patterns describe *)

(** [r] consumes [w] and leaves the captures as they were. *)
Definition eats (w : jsstring) (σ σ' : mstate) : Prop :=
  m_rest σ = w ++ m_rest σ' /\ m_pos σ' = m_pos σ + length w /\ m_caps σ' = m_caps σ.


Definition all_spaces (s : jsstring) : bool := forallb is_space s.




(** A tag name: a letter, then letters, digits, [_] and [-]. *)
Definition tag_name (n : jsstring) : Prop :=
  match n with
  | c :: rest => is_alpha c = true /\ forallb is_name_char rest = true
  | [] => False
  end.

Definition not_gt (c : ascii) : bool := negb (is_char ">" c).

(** The attribute text of an opening tag: nothing, or white space followed
    by code units other than [>]. *)
Definition attr_text (a : jsstring) : Prop :=
  a = [] \/
  exists ws x, a = ws ++ x /\ ws <> [] /\ all_spaces ws = true /\ forallb not_gt x = true.

(** [<name attrs ws>] *)
Definition opener_text (name attrs w : jsstring) : Prop :=
  exists ws, tag_name name /\ attr_text attrs /\ all_spaces ws = true /\
             w = js "<" ++ name ++ attrs ++ ws ++ js ">".

(** [</name ws>] *)
Definition closer_text (name w : jsstring) : Prop :=
  exists ws, all_spaces ws = true /\ w = js "</" ++ name ++ ws ++ js ">".

(** An opening tag, a content and the closing tag of the same name. *)
Definition complete_text (name attrs content w : jsstring) : Prop :=
  exists o c, opener_text name attrs o /\ closer_text name c /\ w = o ++ content ++ c.

(** The text [s] begins with a closing tag of [name]. *)
Definition closer_at (name s : jsstring) : Prop :=
  exists c rest, closer_text name c /\ s = c ++ rest.

(** The text [s] begins with a complete tag. *)
Definition complete_at (s : jsstring) : Prop :=
  exists name attrs content w rest, complete_text name attrs content w /\ s = w ++ rest.

(** The matches of a list lie one after the other from index [i] on. *)
Fixpoint matches_ordered (i : nat) (ms : list MatchResult) : Prop :=
  match ms with
  | [] => True
  | m :: ms' => i <= mr_index m /\ matches_ordered (lastIndexAfter m) ms'
  end.

Fixpoint tags_ordered (i : nat) (tms : list TagMatch.t) : Prop :=
  match tms with
  | [] => True
  | tm :: tms' =>
      i <= TagMatch.startIndex tm /\ TagMatch.startIndex tm < TagMatch.endIndex tm /\
      tags_ordered (TagMatch.endIndex tm) tms'
  end.

(** Index [j] is outside every match of the list. *)
Definition outside_matches (ms : list MatchResult) (j : nat) : Prop :=
  Forall (fun m => j < mr_index m \/ lastIndexAfter m <= j) ms.

Definition outside_tags (tms : list TagMatch.t) (j : nat) : Prop :=
  Forall (fun tm => j < TagMatch.startIndex tm \/ TagMatch.endIndex tm <= j) tms.

(** The matcher consumes [w] from [σ] and arrives in [σ'] with the
    captures [caps]. *)
Definition lands (w : jsstring) (caps : list (nat * jsstring)) (σ σ' : mstate) : Prop :=
  exists s, m_rest σ = w ++ s /\
            σ' = {| m_pos := m_pos σ + length w; m_rest := s; m_caps := caps |}.

(** The closing part of [COMPLETE]: [</], the back-reference, white
    space, [>]. *)
Definition CLOSE_TAIL : regex :=
  (Lit "<" ∙ Lit "/" ∙ Backref 1 ∙ Star true (Chr is_space) ∙ Lit ">")%re.


(** What a match returned by [findCompleteTags] is: its text is an opening
    tag, the content and the closing tag of the same name; it lies in the
    buffer at its indices; its name, attributes and content are decoded
    from that text; and no closing tag of its name begins inside the
    content (the content is the shortest possible). *)
Definition complete_tag_in (caseSensitive : bool) (buffer : jsstring) (tm : TagMatch.t)
    : Prop :=
  exists name attrs o c,
    opener_text name attrs o /\ closer_text name c /\
    TagMatch.fullMatch tm = o ++ TagMatch.content tm ++ c /\
    TagMatch.tagName tm = TagMatcher.normalizeTagName caseSensitive name /\
    TagMatcher.parseAttributes attrs = Some (TagMatch.attributes tm) /\
    TagMatch.type tm = complete /\
    TagMatch.endIndex tm = TagMatch.startIndex tm + length (TagMatch.fullMatch tm) /\
    TagMatch.endIndex tm <= length buffer /\
    drop (TagMatch.startIndex tm) buffer =
      TagMatch.fullMatch tm ++ drop (TagMatch.endIndex tm) buffer /\
    forall j,
      TagMatch.startIndex tm + length o <= j
        < TagMatch.startIndex tm + length o + length (TagMatch.content tm) ->
      ~ closer_at name (drop j buffer).

(** The configuration [{ enableNested: true, autoCloseUnclosed: false }]. *)
Definition strict_config : ParserConfig.t :=
  {| ParserConfig.caseSensitive := None; ParserConfig.trimWhitespace := None;
     ParserConfig.maxBufferSize := None; ParserConfig.preserveAttributeOrder := None;
     ParserConfig.errorHandler := None; ParserConfig.maxDepth := None;
     ParserConfig.preserveWhitespace := None; ParserConfig.autoCloseUnclosed := Some false;
     ParserConfig.enableNested := Some true |}.

(** ** [LLMStreamParser] ([llm-stream-parser.ts])

    The facade holds one engine and forwards to it; its own methods are
    state transformers of that engine. *)

Module LLMStreamParser.

Import StreamParser.

(** The [options] of [addSimpleTag]. *)
Record SimpleTagOptions : Type := {
  allowChildren : option bool;
  allowSelfClosing : option bool;
  defaultContent : option jsstring;
  onComplete : option (Store -> ref -> Result unit);
}.

(** [{}] *)
Definition no_options : SimpleTagOptions :=
  {| allowChildren := None; allowSelfClosing := None; defaultContent := None;
     onComplete := None |}.

Definition addSimpleTag (tagName : jsstring) (options : SimpleTagOptions) : M unit :=
  defineTag
    {| TagDefinition.tagName := tagName;
       TagDefinition.validateContent := None; TagDefinition.validateAttributes := None;
       TagDefinition.transformContent := None; TagDefinition.transformAttributes := None;
       TagDefinition.validateChildren := None;
       TagDefinition.allowChildren := allowChildren options;
       TagDefinition.allowSelfClosing := allowSelfClosing options;
       TagDefinition.defaultContent := defaultContent options;
       TagDefinition.defaultAttributes := None;
       TagDefinition.onStart := None; TagDefinition.onContentUpdate := None;
       TagDefinition.onComplete := onComplete options;
       TagDefinition.onChildAdded := None |}.

Fixpoint addSimpleTags (tagNames : list jsstring) : M unit :=
  match tagNames with
  | [] => ret tt
  | tagName :: rest => addSimpleTag tagName no_options >> addSimpleTags rest
  end.

(** What [getStatus] returns. *)
Record Status : Type := {
  status_state : ParserState;
  registeredTags : nat;
  bufferSize : Z;
  totalParsed : Z;
  errorCount : Z;
}.

Definition getStatus (p : t) : Status :=
  let stats := getStats p in
  {| status_state := getState p;
     registeredTags := length (getRegisteredTags p);
     bufferSize := getBufferSize p;
     totalParsed := ParserStats.totalTagsParsed stats;
     errorCount := ParserStats.errorCount stats |}.

(** [createParser(config)]: a new engine, to which no observer is
    attached yet. *)
Definition createParser (config : ParserConfig.t) : t := new config quiet.

(** [createParserWithTags(tagNames, config)]: the engine after the tags
    have been added, still without observers. *)
Definition createParserWithTags (tagNames : list jsstring) (config : ParserConfig.t) : t :=
  (addSimpleTags tagNames (createParser config)).2.

(** [clone()]: a new facade, made without arguments. *)
Definition clone (p : t) : t := createParser ParserConfig.empty.

End LLMStreamParser.

(** ** Notions used in the statements about the registry *)

(** The registry after the bare definition of [tagName] has been put in. *)
Definition register_simple (registry : list (jsstring * TagDefinition.t)) (tagName : jsstring)
    : list (jsstring * TagDefinition.t) :=
  assoc_set tagName (TagDefinition.simple tagName) registry.


(** ** Notions used in the statements about the engine as it runs *)

(** What the engine never changes in a tag object once it exists: its
    name, parent, path, depth and self-closing mark; the children it has
    stay, in order, at the head of its children. *)
Definition same_record (x y : Tag.t) : Prop :=
  Tag.tagName y = Tag.tagName x /\ Tag.parent y = Tag.parent x /\
  Tag.path y = Tag.path x /\ Tag.depth y = Tag.depth x /\
  Tag.isSelfClosing y = Tag.isSelfClosing x /\
  match Tag.children x, Tag.children y with
  | Some a, Some b => a `prefix_of` b
  | None, None => True
  | _, _ => False
  end.

(** The engine has moved on from [p] to [p']. *)
Definition moves_on (p p' : StreamParser.t) : Prop :=
  StreamParser.config p' = StreamParser.config p /\
  StreamParser.listeners p' = StreamParser.listeners p /\
  StreamParser.tagRegistry p' = StreamParser.tagRegistry p /\
  BufferManager.maxSize (StreamParser.bufferManager p')
    = BufferManager.maxSize (StreamParser.bufferManager p) /\
  (BufferManager.getSize (StreamParser.bufferManager p')
     <= Z.max (BufferManager.getSize (StreamParser.bufferManager p))
              (BufferManager.maxSize (StreamParser.bufferManager p)))%Z /\
  (BufferManager.getTotalProcessed (StreamParser.bufferManager p)
     <= BufferManager.getTotalProcessed (StreamParser.bufferManager p'))%Z /\
  (StreamParser.currentDepth p'
     <= Z.max 0 (Z.max (StreamParser.currentDepth p)
                       (RequiredParserConfig.maxDepth (StreamParser.config p))))%Z /\
  StreamParser.trace p `prefix_of` StreamParser.trace p' /\
  forall r x, StreamParser.store p !! r = Some x ->
    exists y, StreamParser.store p' !! r = Some y /\ same_record x y.

(** A call keeps a relation between the state it starts from and the
    state it leaves, however it ends. *)
Definition steady {A : Type} (R : StreamParser.t -> StreamParser.t -> Prop)
    (m : StreamParser.M A) (p : StreamParser.t) : Prop :=
  R p (m p).2.

(** The calls a user makes on an engine. *)
Inductive Call : Type :=
| call_parse (chunk : jsstring)
| call_finalize
| call_reset
| call_parseComplete (content : jsstring)
| call_defineTag (definition : TagDefinition.t)
| call_removeTag (tagName : jsstring).

Definition run_call (c : Call) : StreamParser.M unit :=
  match c with
  | call_parse chunk => StreamParser.parse chunk
  | call_finalize => StreamParser.finalize
  | call_reset => StreamParser.reset
  | call_parseComplete content => parseComplete content
  | call_defineTag definition => StreamParser.defineTag definition
  | call_removeTag tagName =>
      StreamParser.bind (StreamParser.removeTag tagName) (fun _ => StreamParser.ret tt)
  end.

(** The engine after a run of calls; a caller that catches what a call
    throws goes on with the state the call left. *)
Definition run_calls (calls : list Call) (p : StreamParser.t) : StreamParser.t :=
  fold_left (fun p c => state_after (run_call c) p) calls p.

(** What a call of any kind keeps: [moves_on] without the registry, which
    [defineTag] and [removeTag] change. *)
Definition carries_on (p p' : StreamParser.t) : Prop :=
  StreamParser.config p' = StreamParser.config p /\
  StreamParser.listeners p' = StreamParser.listeners p /\
  BufferManager.maxSize (StreamParser.bufferManager p')
    = BufferManager.maxSize (StreamParser.bufferManager p) /\
  (BufferManager.getSize (StreamParser.bufferManager p')
     <= Z.max (BufferManager.getSize (StreamParser.bufferManager p))
              (BufferManager.maxSize (StreamParser.bufferManager p)))%Z /\
  (BufferManager.getTotalProcessed (StreamParser.bufferManager p)
     <= BufferManager.getTotalProcessed (StreamParser.bufferManager p'))%Z /\
  (StreamParser.currentDepth p'
     <= Z.max 0 (Z.max (StreamParser.currentDepth p)
                       (RequiredParserConfig.maxDepth (StreamParser.config p))))%Z /\
  forall r x, StreamParser.store p !! r = Some x ->
    exists y, StreamParser.store p' !! r = Some y /\ same_record x y.

(** The calls that parse, as opposed to those that register. *)
Definition parsing_call (c : Call) : Prop :=
  match c with
  | call_defineTag _ | call_removeTag _ => False
  | _ => True
  end.

(** The root tags that [finalize] collects: the open tags of depth one,
    in the order in which they were opened. *)
Definition rootTags (p : StreamParser.t) : list ref :=
  map TagStackEntry.tag
      (filter (fun entry => TagStackEntry.depth entry = 1%Z) (rev (StreamParser.tagStack p))).

(** The open tags, innermost first. *)
Definition open_tags (p : StreamParser.t) : list ref :=
  map TagStackEntry.tag (StreamParser.tagStack p).

(** No open tag has a definition. *)
Definition open_tags_unregistered (p : StreamParser.t) : Prop :=
  Forall (fun r => assoc_get (Tag.tagName (StreamParser.deref (StreamParser.store p) r))
                             (StreamParser.tagRegistry p) = None)
         (open_tags p).

(** Between [p] and [p'] the statistics were not refreshed: the byte
    count, the buffer size and the number of registered tags in them are
    as they were, and no [stats_updated] was raised. *)
Definition not_refreshed (p p' : StreamParser.t) : Prop :=
  ParserStats.totalBytesProcessed (StreamParser.stats p')
    = ParserStats.totalBytesProcessed (StreamParser.stats p) /\
  ParserStats.bufferSize (StreamParser.stats p') = ParserStats.bufferSize (StreamParser.stats p) /\
  ParserStats.registeredTagsCount (StreamParser.stats p')
    = ParserStats.registeredTagsCount (StreamParser.stats p) /\
  StreamParser.config p' = StreamParser.config p /\
  exists tr, StreamParser.trace p' = StreamParser.trace p ++ tr /\
             Forall (fun x => forall s, x <> Emit (stats_updated s)) tr.

(** ** Strings: case and global replacement *)

(** [String.prototype.toLowerCase] on all code units below 256: the
    letters [A] to [Z] and the letters from [U+00C0] to [U+00DE] other
    than the multiplication sign [U+00D7] move up by 32; every other
    code unit is its own lower case. *)
Definition lower_unit (c : ascii) : ascii :=
  let n := code c in
  if ((65 <=? n) && (n <=? 90)) || ((192 <=? n) && (n <=? 222) && negb (n =? 215))
  then ascii_of_nat (n + 32) else c.

Definition lowercase (s : jsstring) : jsstring := map lower_unit s.

(** [Array.prototype.join] *)
Fixpoint join (separator : jsstring) (items : list jsstring) : jsstring :=
  match items with
  | [] => []
  | [item] => item
  | item :: rest => item ++ separator ++ join separator rest
  end.

(** [Array.prototype.includes] on strings. *)
Definition includes (items : list jsstring) (x : jsstring) : bool := bool_decide (x ∈ items).

(** The first phase of [String.prototype.replace] with a global pattern:
    the successive results of [exec].  After an empty match the search
    resumes one code unit further. *)
Fixpoint collect (fuel : nat) (r : regex) (s : jsstring) (lastIndex : nat)
    : option (list MatchResult) :=
  match fuel with
  | 0 => None
  | S fuel' =>
      match exec r s lastIndex with
      | None => Some []
      | Some m =>
          let next :=
            match mr_text m with
            | [] => S (lastIndexAfter m)
            | _ :: _ => lastIndexAfter m
            end in
          let* results := collect fuel' r s next in Some (m :: results)
      end
  end.

(** The second phase: the text between the matches, with [replacement]
    (a text without [$]) in the place of each match. *)
Fixpoint substitute (s replacement : jsstring) (results : list MatchResult)
    (nextSourcePosition : nat) : jsstring :=
  match results with
  | [] => drop nextSourcePosition s
  | m :: rest =>
      if nextSourcePosition <=? mr_index m
      then slice s nextSourcePosition (mr_index m) ++ replacement ++
           substitute s replacement rest (lastIndexAfter m)
      else substitute s replacement rest nextSourcePosition
  end.

(** [s.replace(r, replacement)] for a global [r]. *)
Definition replace_global (r : regex) (replacement s : jsstring) : option jsstring :=
  let* results := collect (length s + 2) r s 0 in
  Some (substitute s replacement results 0).


(** By how much the current depth exceeds the number of open tags. *)
Definition depth_gap (p : StreamParser.t) : Z :=
  (StreamParser.currentDepth p - Z.of_nat (length (StreamParser.tagStack p)))%Z.

(** A call that returns leaves the depth as far from the number of open
    tags as it was. *)
Definition in_step {A : Type} (m : StreamParser.M A) (p : StreamParser.t) : Prop :=
  forall a p', m p = (Ok a, p') -> depth_gap p' = depth_gap p.

(** No [<] of [s] has a [>] somewhere after it. *)
Definition tag_free (s : jsstring) : Prop :=
  forall a w b, s <> a ++ js "<" ++ w ++ js ">" ++ b.

(** The text with every run of white space replaced by one space;
    [in_space] tells that the code unit before was white space. *)
Fixpoint squeeze (in_space : bool) (s : jsstring) : jsstring :=
  match s with
  | [] => []
  | c :: s' =>
      if is_space c
      then if in_space then squeeze true s' else " "%char :: squeeze true s'
      else c :: squeeze false s'
  end.

(** Every white-space code unit of [s] is a space that stands between
    two code units that are not white space. *)
Definition single_spaced (s : jsstring) : Prop :=
  forall a c b, s = a ++ c :: b -> is_space c = true ->
    c = " "%char /\
    (exists x, last a = Some x /\ is_space x = false) /\
    (exists y, head b = Some y /\ is_space y = false).

(** The code units of [s] that are not white space. *)
Definition units (s : jsstring) : jsstring :=
  List.filter (fun c => negb (is_space c)) s.

(** ** [ContentValidators] and [AttributeValidators] ([core/validator.ts]) *)

Module ContentValidators.

Local Open Scope regex_scope.

(** [minLength(min)] and [maxLength(max)] for integer bounds, which the
    template literal prints in decimal. *)
Definition minLength (min : Z) (content : jsstring) : ValidationResult :=
  if (min <=? Z.of_nat (length content))%Z then Valid
  else Invalid (js "Content must be at least " ++ number_to_string min ++ js " characters").

Definition maxLength (max : Z) (content : jsstring) : ValidationResult :=
  if (Z.of_nat (length content) <=? max)%Z then Valid
  else Invalid (js "Content must be no more than " ++ number_to_string max ++ js " characters").

(** [pattern(regex, message)], for a [regex] without the flags [g] and
    [y], whose [test] starts at the head of the content each time. *)
Definition pattern (regex : regex) (message : option jsstring) (content : jsstring)
    : ValidationResult :=
  if test regex content then Valid
  else Invalid (StreamParser.or_string message (js "Content does not match required pattern")).

Definition enum (allowedValues : list jsstring) (caseSensitive : bool) (content : jsstring)
    : ValidationResult :=
  let values := if caseSensitive then allowedValues else map lowercase allowedValues in
  let testValue := if caseSensitive then content else lowercase content in
  if includes values testValue then Valid
  else Invalid (js "Value must be one of: " ++ join (js ", ") allowedValues).

(** [[^\s@]] *)
Definition is_email_unit (c : ascii) : bool := negb (is_space c || is_char "@" c).

(** [/^[^\s@]+@[^\s@]+\.[^\s@]+$/] *)
Definition emailPattern : regex :=
  Bol ∙ Plus (Chr is_email_unit) ∙ Lit "@" ∙ Plus (Chr is_email_unit) ∙ Lit "." ∙
  Plus (Chr is_email_unit) ∙ Eol.

Definition email : jsstring -> ValidationResult :=
  pattern emailPattern (Some (js "Invalid email format")).

Definition required (content : jsstring) : ValidationResult :=
  if 0 <? length (trim content) then Valid else Invalid (js "Content is required").

Fixpoint combine (validators : list (jsstring -> ValidationResult)) (content : jsstring)
    : ValidationResult :=
  match validators with
  | [] => Valid
  | validator :: rest =>
      match validator content with
      | Valid => combine rest content
      | Invalid message => Invalid message
      end
  end.

End ContentValidators.

Module AttributeValidators.

(** [allowed(allowedAttrs)] *)
Definition allowed (allowedAttrs : list jsstring) (attributes : option AttrMap)
    : ValidationResult :=
  match attributes with
  | None => Valid
  | Some attributes =>
      match filter (fun attr => includes allowedAttrs attr = false) (map fst attributes) with
      | [] => Valid
      | invalid => Invalid (js "Invalid attributes: " ++ join (js ", ") invalid)
      end
  end.

End AttributeValidators.

(** ** [ContentTransformers] and [AttributeTransformers] ([core/transformer.ts]) *)

Module ContentTransformers.

Local Open Scope regex_scope.

Definition toLowerCase (content : jsstring) : jsstring := lowercase content.

(** [/<[^>]*>/g] *)
Definition htmlTag : regex := Lit "<" ∙ Star true (Chr not_gt) ∙ Lit ">".

Definition stripHtml (content : jsstring) : option jsstring :=
  replace_global htmlTag [] content.

(** [/\s+/g] *)
Definition whitespaceRun : regex := Plus (Chr is_space).

Definition normalizeWhitespace (content : jsstring) : option jsstring :=
  let* collapsed := replace_global whitespaceRun (js " ") content in
  Some (trim collapsed).

(** The [options] of [toBoolean]. *)
Record BooleanOptions : Type := {
  trueValues : option (list jsstring);
  falseValues : option (list jsstring);
}.

Definition toBoolean (options : BooleanOptions) (content : jsstring) : jsstring :=
  let trueValues := default [js "true"; js "1"; js "yes"; js "on"] (trueValues options) in
  let falseValues := default [js "false"; js "0"; js "no"; js "off"] (falseValues options) in
  let normalized := trim (lowercase content) in
  if includes trueValues normalized then js "true"
  else if includes falseValues normalized then js "false"
  else content.

Definition chain (transformers : list (jsstring -> jsstring)) (content : jsstring) : jsstring :=
  fold_left (fun result transformer => transformer result) transformers content.


Definition trim (content : jsstring) : jsstring := trim content.

End ContentTransformers.

Module AttributeTransformers.

(** [addDefaults(defaults)] *)
Definition addDefaults (defaults : AttrMap) (attributes : option AttrMap) : AttrMap :=
  spread (Some defaults) attributes.

End AttributeTransformers.

(** ** Notions used in the statements about validation *)

(** A definition with other checks of the content, and one with other
    checks of the attributes. *)
Definition with_content_checks
    (validateContent : option (jsstring -> Result ValidationResult))
    (transformContent : option (jsstring -> Result jsstring))
    (d : TagDefinition.t) : TagDefinition.t :=
  {| TagDefinition.tagName := TagDefinition.tagName d;
     TagDefinition.validateContent := validateContent;
     TagDefinition.validateAttributes := TagDefinition.validateAttributes d;
     TagDefinition.transformContent := transformContent;
     TagDefinition.transformAttributes := TagDefinition.transformAttributes d;
     TagDefinition.validateChildren := TagDefinition.validateChildren d;
     TagDefinition.allowChildren := TagDefinition.allowChildren d;
     TagDefinition.allowSelfClosing := TagDefinition.allowSelfClosing d;
     TagDefinition.defaultContent := TagDefinition.defaultContent d;
     TagDefinition.defaultAttributes := TagDefinition.defaultAttributes d;
     TagDefinition.onStart := TagDefinition.onStart d;
     TagDefinition.onContentUpdate := TagDefinition.onContentUpdate d;
     TagDefinition.onComplete := TagDefinition.onComplete d;
     TagDefinition.onChildAdded := TagDefinition.onChildAdded d |}.

Definition with_attribute_checks
    (validateAttributes : option (AttrMap -> Result ValidationResult))
    (transformAttributes : option (AttrMap -> Result (option AttrMap)))
    (d : TagDefinition.t) : TagDefinition.t :=
  {| TagDefinition.tagName := TagDefinition.tagName d;
     TagDefinition.validateContent := TagDefinition.validateContent d;
     TagDefinition.validateAttributes := validateAttributes;
     TagDefinition.transformContent := TagDefinition.transformContent d;
     TagDefinition.transformAttributes := transformAttributes;
     TagDefinition.validateChildren := TagDefinition.validateChildren d;
     TagDefinition.allowChildren := TagDefinition.allowChildren d;
     TagDefinition.allowSelfClosing := TagDefinition.allowSelfClosing d;
     TagDefinition.defaultContent := TagDefinition.defaultContent d;
     TagDefinition.defaultAttributes := TagDefinition.defaultAttributes d;
     TagDefinition.onStart := TagDefinition.onStart d;
     TagDefinition.onContentUpdate := TagDefinition.onContentUpdate d;
     TagDefinition.onComplete := TagDefinition.onComplete d;
     TagDefinition.onChildAdded := TagDefinition.onChildAdded d |}.

(** A definition with [defaultContent] and [defaultAttributes] set. *)
Definition with_defaults
    (defaultContent : option jsstring) (defaultAttributes : option AttrMap)
    (d : TagDefinition.t) : TagDefinition.t :=
  {| TagDefinition.tagName := TagDefinition.tagName d;
     TagDefinition.validateContent := TagDefinition.validateContent d;
     TagDefinition.validateAttributes := TagDefinition.validateAttributes d;
     TagDefinition.transformContent := TagDefinition.transformContent d;
     TagDefinition.transformAttributes := TagDefinition.transformAttributes d;
     TagDefinition.validateChildren := TagDefinition.validateChildren d;
     TagDefinition.allowChildren := TagDefinition.allowChildren d;
     TagDefinition.allowSelfClosing := TagDefinition.allowSelfClosing d;
     TagDefinition.defaultContent := defaultContent;
     TagDefinition.defaultAttributes := defaultAttributes;
     TagDefinition.onStart := TagDefinition.onStart d;
     TagDefinition.onContentUpdate := TagDefinition.onContentUpdate d;
     TagDefinition.onComplete := TagDefinition.onComplete d;
     TagDefinition.onChildAdded := TagDefinition.onChildAdded d |}.

(** The definition [{ tagName, validateContent: ContentValidators.required() }]. *)
Definition required_definition (tagName : jsstring) : TagDefinition.t :=
  with_content_checks (Some (fun content => Returns (ContentValidators.required content))) None
                      (TagDefinition.simple tagName).

(** The nested-mode engine with
    [{ tagName: 'note', validateContent: ContentValidators.minLength(5) }]
    registered. *)
Definition long_note_parser : StreamParser.t :=
  state_after
    (StreamParser.defineTag
       (with_content_checks
          (Some (fun content => Returns (ContentValidators.minLength 5 content))) None
          (TagDefinition.simple (js "note"))))
    nested_parser.

(** The tag object that flat mode makes of a match when the definition
    has no defaults and no transformation. *)
Definition flat_record (m : TagMatch.t) (p : StreamParser.t) : Tag.t :=
  {| Tag.tagName := TagMatch.tagName m;
     Tag.content :=
       if RequiredParserConfig.trimWhitespace (StreamParser.config p)
       then trim (TagMatch.content m) else TagMatch.content m;
     Tag.attributes := TagMatch.attributes m;
     Tag.children := None; Tag.parent := None; Tag.path := None;
     Tag.depth := None; Tag.isSelfClosing := None |}.

(** A local part, [@], a domain, a point and an ending, each of one code
    unit or more and none with white space or a further [@]. *)
Definition email_text (v : jsstring) : Prop :=
  exists a b c,
    v = a ++ js "@" ++ b ++ js "." ++ c /\
    a <> [] /\ b <> [] /\ c <> [] /\
    forallb ContentValidators.is_email_unit a = true /\
    forallb ContentValidators.is_email_unit b = true /\
    forallb ContentValidators.is_email_unit c = true.

(** The options [{}] of [toBoolean]. *)
Definition default_boolean_options : ContentTransformers.BooleanOptions :=
  {| ContentTransformers.trueValues := None; ContentTransformers.falseValues := None |}.

(** ** The shapes of text that [findNextTag] looks for *)

(** [<name attrs ws/>] *)
Definition self_closing_text (name attrs w : jsstring) : Prop :=
  exists ws, tag_name name /\ attr_text attrs /\ all_spaces ws = true /\
             w = js "<" ++ name ++ attrs ++ ws ++ js "/>".

(** The text of a tag of each type; a closing tag has no attribute text. *)
Definition tag_text (type : TagType) (name attrs w : jsstring) : Prop :=
  match type with
  | opening => opener_text name attrs w
  | self_closing => self_closing_text name attrs w
  | closing => attrs = [] /\ tag_name name /\ closer_text name w
  | complete => False
  end.

(** The text [s] begins with an opening, a closing or a self-closing tag. *)
Definition tag_at (s : jsstring) : Prop :=
  exists type name attrs w rest, tag_text type name attrs w /\ s = w ++ rest.

Definition pattern_of (type : TagType) : regex :=
  match type with
  | opening => TagPatterns.OPENING
  | closing => TagPatterns.CLOSING
  | self_closing => TagPatterns.SELF_CLOSING
  | complete => TagPatterns.COMPLETE
  end.

(** What a match returned by [findNextTag] is: its text is a tag of its
    type and lies in the buffer at its indices; its name and attributes
    are decoded from that text, and its content is empty. *)
Definition found_tag (caseSensitive : bool) (buffer : jsstring) (tm : TagMatch.t) : Prop :=
  exists name attrs,
    tag_text (TagMatch.type tm) name attrs (TagMatch.fullMatch tm) /\
    TagMatch.tagName tm = TagMatcher.normalizeTagName caseSensitive name /\
    match TagMatch.type tm with
    | closing => TagMatch.attributes tm = None
    | _ => TagMatcher.parseAttributes attrs = Some (TagMatch.attributes tm)
    end /\
    TagMatch.content tm = [] /\
    TagMatch.endIndex tm = TagMatch.startIndex tm + length (TagMatch.fullMatch tm) /\
    TagMatch.endIndex tm <= length buffer /\
    drop (TagMatch.startIndex tm) buffer
      = TagMatch.fullMatch tm ++ drop (TagMatch.endIndex tm) buffer.

(** The state of the search of [findNextTag] after the patterns of
    [types] have been tried on the text [s] that begins at [startIndex]:
    the earliest match so far, before which none of these patterns
    matches. *)
Definition earliest_of (caseSensitive : bool) (buffer : jsstring) (startIndex : nat)
    (types : list TagType) (e : option (nat * TagMatch.t)) : Prop :=
  let s := drop startIndex buffer in
  match e with
  | None =>
      forall type j, type ∈ types -> j <= length s ->
        match_at (pattern_of type) j (drop j s) = None
  | Some (i, tm) =>
      TagMatch.startIndex tm = startIndex + i /\
      found_tag caseSensitive buffer tm /\
      forall type j, type ∈ types -> j < i ->
        match_at (pattern_of type) j (drop j s) = None
  end.

(** ** Notions used in the statements about defaults *)

(** The value of [key] in an attribute record that may be [undefined]. *)
Definition attribute (key : jsstring) (attributes : option AttrMap) : option AttrValue :=
  attributes ≫= assoc_get key.

(** The keys of an attribute record are distinct. *)
Definition distinct_keys (attributes : option AttrMap) : Prop :=
  NoDup (map fst (default [] attributes)).
(** * Properties of the matcher *)

#[local] Hint Constructors Run : core.

Section MatcherCorrect.

Lemma star_loop_sound (step : mstate -> cont -> option mstate) g r :
    (forall σ k x, step σ k = Some x -> exists σ', Run r σ σ' /\ k σ' = Some x) ->
    forall fuel σ k x,
      star_loop step g fuel σ k = Some x ->
      exists σ', Run (Star g r) σ σ' /\ k σ' = Some x.
  Proof.
    intros Hstep fuel. induction fuel as [|fuel IH]; intros σ k x H; simpl in H.
    - eauto.
    - assert (Hagain : forall y,
                 step σ (fun σ' => if length (m_rest σ') <? length (m_rest σ)
                                   then star_loop step g fuel σ' k else None) = Some y ->
                 exists σ', Run (Star g r) σ σ' /\ k σ' = Some y).
      { intros y Hy. apply Hstep in Hy as (σ1 & Hr & Hk).
        destruct (Nat.ltb_spec (length (m_rest σ1)) (length (m_rest σ))) as [Hlt|]; [|done].
        apply IH in Hk as (σ2 & Hs & Hk). eauto. }
      destruct g.
      + destruct (step σ _) as [y|] eqn:E.
        * injection H as <-. eauto.
        * eauto.
      + destruct (k σ) as [y|] eqn:E.
        * injection H as <-. eauto.
        * eauto.
  Qed.

Lemma rmatch_sound r :
    forall σ k x, rmatch r σ k = Some x -> exists σ', Run r σ σ' /\ k σ' = Some x.
  Proof.
    induction r as [|p|r1 IH1 r2 IH2|r1 IH1 r2 IH2|g r IH|n r IH|n| |];
      intros σ k x H; simpl in H.
    - eauto.
    - destruct (m_rest σ) as [|c s] eqn:E; [done|].
      destruct (p c) eqn:Ep; [|done]. eauto.
    - apply IH1 in H as (σ1 & H1 & H). apply IH2 in H as (σ2 & H2 & H). eauto.
    - destruct (rmatch r1 σ k) as [y|] eqn:E.
      + injection H as <-. apply IH1 in E as (σ' & ? & ?). eauto.
      + apply IH2 in H as (σ' & ? & ?). eauto.
    - eapply star_loop_sound; eauto.
    - apply IH in H as (σ' & ? & ?). eauto.
    - destruct (cap n σ) as [w|] eqn:E; [|eauto].
      destruct (starts_with w (m_rest σ)) eqn:Ew; [|done]. eauto.
    - destruct (Nat.eqb_spec (m_pos σ) 0); [|done]. eauto.
    - destruct (m_rest σ) eqn:E; [|done]. eauto.
  Qed.

Lemma star_loop_complete (step : mstate -> cont -> option mstate) g r :
    (forall σ σ' k, Run r σ σ' -> is_Some (k σ') -> is_Some (step σ k)) ->
    forall σ σ', Run (Star g r) σ σ' ->
    forall fuel k, length (m_rest σ) <= fuel -> is_Some (k σ') ->
      is_Some (star_loop step g fuel σ k).
  Proof.
    intros Hstep σ σ' HR. remember (Star g r) as sr eqn:Esr.
    induction HR as [| | | | |g' r' σ|g' r' σ σ1 σ2 H1 _ Hlt _ IH| | | | |];
      try discriminate; injection Esr as -> ->; intros fuel k Hfuel Hk.
    - destruct fuel as [|fuel]; simpl; [done|].
      destruct g.
      + destruct (step σ _); [done|]. done.
      + destruct (k σ); [done|]. by destruct Hk.
    - destruct fuel as [|fuel]; [lia|]. simpl.
      assert (Hagain : is_Some (step σ (fun σ' =>
                 if length (m_rest σ') <? length (m_rest σ)
                 then star_loop step g fuel σ' k else None))).
      { eapply Hstep; [exact H1|].
        destruct (Nat.ltb_spec (length (m_rest σ1)) (length (m_rest σ))); [|lia].
        apply IH; [done|lia|done]. }
      destruct g.
      + destruct (step σ _); [done|]. by destruct Hagain.
      + destruct (k σ); [done|]. done.
  Qed.

Lemma rmatch_complete r :
    forall σ σ' k, Run r σ σ' -> is_Some (k σ') -> is_Some (rmatch r σ k).
  Proof.
    induction r as [|p|r1 IH1 r2 IH2|r1 IH1 r2 IH2|g r IH|n r IH|n| |];
      intros σ σ' k HR Hk; inversion HR; subst; simpl;
      repeat match goal with
             | H : m_rest _ = _ |- _ => rewrite H
             | H : m_pos _ = _ |- _ => rewrite H
             | H : cap _ _ = _ |- _ => rewrite H
             | H : starts_with _ _ = _ |- _ => rewrite H
             | H : p _ = true |- _ => rewrite H
             end; try done.
    - eapply IH1; [eassumption|]. eapply IH2; eassumption.
    - destruct (rmatch r1 σ k) eqn:E; [done|].
      assert (is_Some (rmatch r1 σ k)) as [? ?] by (eapply IH1; eassumption).
      congruence.
    - destruct (rmatch r1 σ k) eqn:E; [done|]. eapply IH2; eassumption.
    - eapply star_loop_complete; eauto.
    - eapply star_loop_complete; eauto.
    - eapply IH; eassumption.
  Qed.

  (** A run consumes a prefix of the input and moves the index past it. *)
Lemma Run_consumes r σ σ' :
    Run r σ σ' ->
    exists w, m_rest σ = w ++ m_rest σ' /\ m_pos σ' = m_pos σ + length w.
  Proof.
    induction 1 as [σ|p c s σ E _|r1 r2 σ σ1 σ2 _ IH1 _ IH2|r1 r2 σ σ' _ IH|r1 r2 σ σ' _ IH
                   |g r σ|g r σ σ1 σ2 _ IH1 _ _ IH2|n r σ σ' _ IH|n σ _|n w σ _ Hw|σ _|σ _];
      simpl; try (exists []; split; [done|simpl; lia]); try done.
    - exists [c]. rewrite E. simpl. rewrite drop_0. done.
    - destruct IH1 as (w1 & E1 & P1), IH2 as (w2 & E2 & P2).
      exists (w1 ++ w2). rewrite E1, E2, <- app_assoc, length_app. split; [done|lia].
    - destruct IH1 as (w1 & E1 & P1), IH2 as (w2 & E2 & P2).
      exists (w1 ++ w2). rewrite E1, E2, <- app_assoc, length_app. split; [done|lia].
    - exists (take (length w) (m_rest σ)). rewrite take_drop. split; [done|].
      rewrite length_take.
      assert (length w <= length (m_rest σ)); [|lia].
      clear -Hw. revert Hw. generalize (m_rest σ) as s.
      induction w as [|a w IH]; intros [|b s] Hw; simpl in *; try lia; try done.
      apply andb_prop in Hw as [_ Hw]. apply IH in Hw. lia.
  Qed.

Lemma Run_min_len r σ σ' : Run r σ σ' -> m_pos σ + min_len r <= m_pos σ'.
Proof.
  induction 1; simpl in *; lia.
Qed.

Lemma match_at_Run r pos s σ :
  match_at r pos s = Some σ -> Run r {| m_pos := pos; m_rest := s; m_caps := [] |} σ.
Proof.
  unfold match_at. intros H. apply rmatch_sound in H as (σ' & HR & [= <-]). exact HR.
Qed.

Lemma Run_match_at r pos s σ :
  Run r {| m_pos := pos; m_rest := s; m_caps := [] |} σ -> is_Some (match_at r pos s).
Proof. intros H. unfold match_at. eapply rmatch_complete; [exact H|done]. Qed.

Lemma search_Some r : forall s pos i σ,
  search r pos s = Some (i, σ) ->
  exists k, i = pos + k /\ k <= length s /\
            match_at r i (drop k s) = Some σ /\
            forall j, j < k -> match_at r (pos + j) (drop j s) = None.
Proof.
  induction s as [|c s IH]; intros pos i σ H; simpl in H.
  - destruct (match_at r pos []) as [σ'|] eqn:E; [|done].
    injection H as <- <-. exists 0. rewrite Nat.add_0_r.
    repeat split; [simpl; lia|done|intros; lia].
  - destruct (match_at r pos (c :: s)) as [σ'|] eqn:E.
    + injection H as <- <-. exists 0. rewrite Nat.add_0_r.
      repeat split; [simpl; lia|done|intros; lia].
    + apply IH in H as (k & -> & Hk & Hm & Hnone). exists (S k).
      repeat split; [lia|simpl; lia|done|].
      intros [|j] Hj; [by rewrite Nat.add_0_r|].
      rewrite Nat.add_succ_r. simpl. rewrite <- Nat.add_succ_l. apply (Hnone j). lia.
Qed.

Lemma search_None r : forall s pos,
  search r pos s = None ->
  forall j, j <= length s -> match_at r (pos + j) (drop j s) = None.
Proof.
  induction s as [|c s IH]; intros pos H j Hj; simpl in H.
  - destruct (match_at r pos []) eqn:E; [done|].
    simpl in Hj. assert (j = 0) as -> by lia. by rewrite Nat.add_0_r.
  - destruct (match_at r pos (c :: s)) eqn:E; [done|].
    destruct j as [|j]; [by rewrite Nat.add_0_r|].
    rewrite Nat.add_succ_r. simpl. rewrite <- Nat.add_succ_l.
    apply (IH (S pos) H j). simpl in Hj. lia.
Qed.

(** What [exec] returns: the leftmost index at or after [lastIndex] where
    the pattern matches, the text consumed there and the captures. *)
Lemma exec_Some r s lastIndex m :
  exec r s lastIndex = Some m ->
  lastIndex <= mr_index m /\
  exists σ,
    match_at r (mr_index m) (drop (mr_index m) s) = Some σ /\
    mr_groups m = m_caps σ /\
    drop (mr_index m) s = mr_text m ++ m_rest σ /\
    m_pos σ = mr_index m + length (mr_text m) /\
    mr_index m + length (mr_text m) <= length s /\
    min_len r <= length (mr_text m) /\
    forall j, lastIndex <= j < mr_index m -> match_at r j (drop j s) = None.
Proof.
  unfold exec. destruct (Nat.leb_spec lastIndex (length s)) as [Hle|]; [|done].
  destruct (search r lastIndex (drop lastIndex s)) as [[i σ]|] eqn:E; [|done].
  intros [= <-]. simpl.
  apply search_Some in E as (k & -> & Hk & Hm & Hnone).
  rewrite drop_drop in Hm. rewrite length_drop in Hk.
  split; [lia|]. exists σ.
  pose proof (match_at_Run _ _ _ _ Hm) as HR.
  pose proof (Run_min_len _ _ _ HR) as Hmin.
  apply Run_consumes in HR as (w & Hw & Hpos). simpl in *.
  assert (Htext : slice s (lastIndex + k) (m_pos σ) = w).
  { unfold slice. rewrite Hw, Hpos.
    replace (lastIndex + k + length w - (lastIndex + k)) with (length w) by lia.
    by rewrite take_app_length. }
  rewrite Htext. repeat split; try done.
  - apply (f_equal length) in Hw. rewrite length_drop, length_app in Hw. lia.
  - lia.
  - intros j Hj. specialize (Hnone (j - lastIndex)).
    rewrite drop_drop in Hnone.
    replace (lastIndex + (j - lastIndex)) with j in Hnone by lia. apply Hnone. lia.
Qed.

Lemma exec_None r s lastIndex :
  exec r s lastIndex = None ->
  forall j, lastIndex <= j <= length s -> match_at r j (drop j s) = None.
Proof.
  unfold exec. destruct (Nat.leb_spec lastIndex (length s)) as [Hle|]; [|intros; lia].
  destruct (search r lastIndex (drop lastIndex s)) as [[i σ]|] eqn:E; [done|].
  intros _ j Hj. pose proof (search_None _ _ _ E (j - lastIndex)) as H.
  rewrite drop_drop, length_drop in H.
  replace (lastIndex + (j - lastIndex)) with j in H by lia. apply H. lia.
Qed.

(** The [while (exec)] loop returns for a pattern that cannot match the
    empty string. *)
Lemma execAll_returns r s :
  0 < min_len r ->
  forall fuel lastIndex, 0 < fuel -> length s < fuel + lastIndex ->
    is_Some (execAll fuel r s lastIndex).
Proof.
  intros Hmin fuel. induction fuel as [|fuel IH]; intros lastIndex Hpos Hfuel; [lia|].
  simpl. destruct (exec r s lastIndex) as [m|] eqn:E; [|done].
  apply exec_Some in E as (Hle & σ & _ & _ & _ & _ & Hend & Hlen & _).
  destruct (IH (lastIndexAfter m)) as [ms Hms]; [lia|unfold lastIndexAfter; lia|].
  rewrite Hms. done.
Qed.

End MatcherCorrect.

Section AssocFacts.
Context {V : Type}.

Lemma assoc_get_set_eq k v (m : list (jsstring * V)) :
  assoc_get k (assoc_set k v m) = Some v.
  Proof.
    induction m as [|[k' v'] m IH]; simpl.
    - by rewrite bool_decide_eq_true_2.
    - destruct (bool_decide (k = k')) eqn:E; simpl.
      + by rewrite bool_decide_eq_true_2.
      + by rewrite E.
  Qed.

Lemma assoc_get_set_ne k k' v (m : list (jsstring * V)) :
  k <> k' -> assoc_get k' (assoc_set k v m) = assoc_get k' m.
  Proof.
    intros Hne. induction m as [|[k0 v0] m IH]; simpl.
    - by rewrite bool_decide_eq_false_2.
    - destruct (bool_decide (k = k0)) eqn:E; simpl.
      + apply bool_decide_eq_true_1 in E as <-.
        by rewrite !bool_decide_eq_false_2.
      + by rewrite IH.
  Qed.

End AssocFacts.

(** * The tag matcher returns *)

Section MatcherReturns.

Import TagMatcher.

Lemma parseAttributes_returns attributesStr : is_Some (parseAttributes attributesStr).
Proof.
  unfold parseAttributes. destruct (trim attributesStr); [done|].
  destruct (execAll_returns TagPatterns.ATTRIBUTES attributesStr) with
    (fuel := S (length attributesStr)) (lastIndex := 0) as [ms Hms];
    [simpl; lia|lia|lia|].
  rewrite Hms. simpl. done.
Qed.




Lemma completeTagMatch_returns caseSensitive m :
  is_Some (completeTagMatch caseSensitive m).
Proof.
  unfold completeTagMatch.
  destruct (group 1 m) as [[|c n]|]; try done;
    destruct (group 3 m); try done.
  destruct (parseAttributes_returns (default [] (group 2 m))) as [a ->]. simpl. done.
Qed.

Lemma traverse_returns {A B : Type} (f : A -> option B) (l : list A) :
  (forall a, is_Some (f a)) -> is_Some (traverse f l).
Proof.
  intros Hf. induction l as [|a l [bs IH]]; simpl; [done|].
  destruct (Hf a) as [b ->]. simpl. rewrite IH. simpl. done.
Qed.

Lemma findCompleteTags_returns caseSensitive buffer :
  is_Some (findCompleteTags caseSensitive buffer).
Proof.
  unfold findCompleteTags.
  destruct (execAll_returns TagPatterns.COMPLETE buffer) with
    (fuel := S (length buffer)) (lastIndex := 0) as [ms ->]; [simpl; lia|lia|lia|].
  simpl.
  destruct (traverse_returns (completeTagMatch caseSensitive) ms) as [tms ->];
    [apply completeTagMatch_returns|].
  simpl. done.
Qed.

End MatcherReturns.

(** * The input buffer *)

Section BufferFacts.

Import BufferManager.

Lemma append_overflow_iff chunk b :
  (exists e, (append chunk b).1 = Throw e) <->
  (maxSize b < size_of (buffer b) + size_of chunk)%Z.
Proof.
  unfold append. destruct (Z.ltb_spec (maxSize b) (size_of (buffer b) + size_of chunk)); simpl.
  - split; eauto.
  - split; [intros [e He]; discriminate | lia].
Qed.

Lemma append_rejected chunk b :
  (maxSize b < size_of (buffer b) + size_of chunk)%Z ->
  append chunk b =
    (Throw (ThrownParserError (ParserError.fromBufferOverflow (maxSize b))), b).
Proof.
  intros H. unfold append.
  destruct (Z.ltb_spec (maxSize b) (size_of (buffer b) + size_of chunk)); [done|lia].
Qed.

Lemma append_accepted chunk b :
  (size_of (buffer b) + size_of chunk <= maxSize b)%Z ->
  append chunk b =
    (Ok tt, {| buffer := buffer b ++ chunk; maxSize := maxSize b;
               totalBytesProcessed := (totalBytesProcessed b + size_of chunk)%Z |}).
Proof.
  intros H. unfold append.
  destruct (Z.ltb_spec (maxSize b) (size_of (buffer b) + size_of chunk)); [lia|done].
Qed.

End BufferFacts.

Lemma apply_op_maxSize b op : BufferManager.maxSize (apply_op b op) = BufferManager.maxSize b.
Proof.
  destruct op as [chunk|len|startIndex endIndex|]; simpl; try done.
  - unfold BufferManager.append. by destruct (_ <? _)%Z.
  - unfold BufferManager.consume. by repeat destruct (_ <=? _)%Z.
  - unfold BufferManager.removeRange. by destruct (_ || _).
Qed.

Lemma apply_op_bounded b op :
  (BufferManager.getSize b <= BufferManager.maxSize b)%Z ->
  (BufferManager.getSize (apply_op b op) <= BufferManager.maxSize b)%Z.
Proof.
  unfold BufferManager.getSize, BufferManager.size_of. intros Hb.
  destruct op as [chunk|len|startIndex endIndex|]; simpl.
  - unfold BufferManager.append, BufferManager.size_of.
    destruct (Z.ltb_spec (BufferManager.maxSize b)
                (Z.of_nat (length (BufferManager.buffer b)) + Z.of_nat (length chunk)));
      simpl; [done|]. rewrite length_app. lia.
  - unfold BufferManager.consume, BufferManager.size_of.
    destruct (Z.leb_spec len 0); simpl; [done|].
    destruct (Z.leb_spec (Z.of_nat (length (BufferManager.buffer b))) len); simpl; [lia|].
    rewrite length_drop. lia.
  - unfold BufferManager.removeRange, BufferManager.size_of.
    destruct (_ || _) eqn:E; simpl; [done|].
    rewrite length_app, length_take, length_drop.
    apply orb_false_elim in E as [E _]. apply orb_false_elim in E as [_ E].
    apply Z.ltb_ge in E. lia.
  - lia.
Qed.

Lemma apply_ops_bounded ops : forall b,
  (BufferManager.getSize b <= BufferManager.maxSize b)%Z ->
  (BufferManager.getSize (apply_ops b ops) <= BufferManager.maxSize b)%Z.
Proof.
  induction ops as [|op ops IH]; intros b Hb; simpl; [done|].
  rewrite <- (apply_op_maxSize b op). apply IH.
  rewrite apply_op_maxSize. by apply apply_op_bounded.
Qed.

(** C2, the part that fails: with a negative configured maximum the empty
    buffer is already longer than the maximum.  Here the maximum is [-1];
    appending the empty chunk is rejected and the buffer, of length [0],
    exceeds it. *)
Lemma C2_negative_maximum_exceeded :
  let b := BufferManager.new (-1) in
  (BufferManager.append [] b).1
    = Throw (ThrownParserError (ParserError.fromBufferOverflow (-1))) /\
  ~ (BufferManager.getSize (apply_ops b [op_append []]) <= BufferManager.maxSize b)%Z.
Proof. split; [reflexivity | vm_compute; intros H; apply H; reflexivity]. Qed.

(** C2 (amended): [append chunk] fails with [BufferOverflow] exactly when
    the current length plus the length of the chunk exceeds the configured
    maximum; a rejected append leaves the buffer and the total-processed
    counter as they were; an accepted one appends the whole chunk, adds its
    length to the counter and stays within the maximum; and when the
    configured maximum is not negative, the buffer is never longer than
    the maximum after any sequence of append, consume, removeRange and
    clear from construction. *)
Theorem C2_append_atomic_and_bounded (b : BufferManager.t) (chunk : jsstring) :
  ((exists e, (BufferManager.append chunk b).1 = Throw e) <->
   (BufferManager.maxSize b < BufferManager.getSize b + BufferManager.size_of chunk)%Z) /\
  ((BufferManager.maxSize b < BufferManager.getSize b + BufferManager.size_of chunk)%Z ->
   BufferManager.append chunk b =
     (Throw (ThrownParserError (ParserError.fromBufferOverflow (BufferManager.maxSize b))), b)) /\
  ((BufferManager.getSize b + BufferManager.size_of chunk <= BufferManager.maxSize b)%Z ->
   let b' := (BufferManager.append chunk b).2 in
   (BufferManager.append chunk b).1 = Ok tt /\
   BufferManager.buffer b' = BufferManager.buffer b ++ chunk /\
   BufferManager.totalBytesProcessed b' =
     (BufferManager.totalBytesProcessed b + BufferManager.size_of chunk)%Z /\
   (BufferManager.getSize b' <= BufferManager.maxSize b')%Z) /\
  (forall (maxSize : Z) (ops : list BufferOp),
     (0 <= maxSize)%Z ->
     (BufferManager.getSize (apply_ops (BufferManager.new maxSize) ops) <= maxSize)%Z).
Proof.
  split; [apply append_overflow_iff|].
  split; [apply append_rejected|].
  split.
  - intros H. rewrite (append_accepted _ _ H). simpl.
    repeat split; try done.
    unfold BufferManager.getSize, BufferManager.size_of in *. simpl.
    rewrite length_app. lia.
  - intros maxSize ops H.
    apply (apply_ops_bounded ops (BufferManager.new maxSize)). simpl. exact H.
Qed.

Lemma C2_append_atomic_and_bounded_witness :
  (BufferManager.getSize
     (apply_ops (BufferManager.new 4)
                [op_append (js "abc"); op_append (js "de"); op_consume 2; op_append (js "xyz")])
   <= 4)%Z.
Proof.
  apply (proj2 (proj2 (proj2 (C2_append_atomic_and_bounded (BufferManager.new 4) [])))).
  lia.
Defined.

(** * Configuration *)

Lemma validateConfig_accepts_iff config : validateConfig config = [] <-> in_limits config.
Proof.
  unfold validateConfig, in_limits, push_if, is_defined_and.
  destruct (ParserConfig.maxBufferSize config) as [n|], (ParserConfig.maxDepth config) as [d|];
    repeat match goal with
           | |- context [(?a <=? ?b)%Z] => destruct (Z.leb_spec a b)
           | |- context [(?a <? ?b)%Z] => destruct (Z.ltb_spec a b)
           end; simpl; split; try done; try lia;
    intros H; try (exfalso; destruct H; lia);
    try (apply (f_equal length) in H; simpl in H; lia).
Qed.

(** C9, the part that fails: a configuration with [maxBufferSize = 0] and
    [maxDepth = 5000] is outside the limits that [validateConfig] reports,
    and the constructor builds an engine with exactly these limits, on
    which [parse] runs. *)
Lemma C9_out_of_range_config_accepted :
  let config :=
    {| ParserConfig.caseSensitive := None; ParserConfig.trimWhitespace := None;
       ParserConfig.maxBufferSize := Some 0%Z; ParserConfig.preserveAttributeOrder := None;
       ParserConfig.errorHandler := None; ParserConfig.maxDepth := Some 5000%Z;
       ParserConfig.preserveWhitespace := None; ParserConfig.autoCloseUnclosed := None;
       ParserConfig.enableNested := None |} in
  let p := StreamParser.new config quiet in
  length (validateConfig config) = 2 /\
  RequiredParserConfig.maxBufferSize (StreamParser.config p) = 0%Z /\
  RequiredParserConfig.maxDepth (StreamParser.config p) = 5000%Z /\
  outcome_of (StreamParser.parse []) p = Ok tt /\
  StreamParser.state (state_after (StreamParser.parse []) p) = COMPLETED.
Proof. vm_compute. repeat split. Qed.

(** C9 (amended): [validateConfig] reports no error exactly when
    [maxBufferSize], if given, is above 0 and at most 100 MiB and
    [maxDepth], if given, is above 0 and at most 1000; the constructor does
    not call it: it merges the configuration with the defaults and the
    engine takes the limits as given. *)
Theorem C9_validateConfig_limits (config : ParserConfig.t)
    (listeners : Event -> Result unit) :
  (validateConfig config = [] <-> in_limits config) /\
  StreamParser.config (StreamParser.new config listeners) = mergeConfig config /\
  RequiredParserConfig.maxBufferSize (StreamParser.config (StreamParser.new config listeners))
    = nullish (ParserConfig.maxBufferSize config) (1024 * 1024)%Z /\
  RequiredParserConfig.maxDepth (StreamParser.config (StreamParser.new config listeners))
    = nullish (ParserConfig.maxDepth config) 50%Z /\
  BufferManager.maxSize (StreamParser.bufferManager (StreamParser.new config listeners))
    = nullish (ParserConfig.maxBufferSize config) (1024 * 1024)%Z.
Proof.
  split; [apply validateConfig_accepts_iff|]. repeat split.
Qed.

(** * The engine *)

Ltac unfold_monad :=
  repeat (progress (unfold StreamParser.emitError, StreamParser.emit, StreamParser.record,
                           StreamParser.read, StreamParser.update, StreamParser.alloc,
                           StreamParser.call, StreamParser.lift,
                           StreamParser.bind, StreamParser.get, StreamParser.modify,
                           StreamParser.ret, StreamParser.throw, StreamParser.diverge;
                    simpl)).

Ltac unfold_state :=
  unfold StreamParser.with_trace, StreamParser.with_stats, StreamParser.with_store,
         StreamParser.with_tagStack, StreamParser.with_currentDepth,
         StreamParser.with_currentPath, StreamParser.with_state,
         StreamParser.with_bufferManager, StreamParser.with_tagRegistry;
  simpl.

Section EngineFacts.

Import StreamParser.

Lemma bind_ok {A B : Type} (m : M A) (f : A -> M B) p a p' :
  m p = (Ok a, p') -> bind m f p = f a p'.
Proof. intros H. unfold bind. by rewrite H. Qed.

Lemma bind_throw {A B : Type} (m : M A) (f : A -> M B) p e p' :
  m p = (Throw e, p') -> bind m f p = (Throw e, p').
Proof. intros H. unfold bind. by rewrite H. Qed.

Lemma bind_diverge {A B : Type} (m : M A) (f : A -> M B) p p' :
  m p = (Diverge, p') -> bind m f p = (Diverge, p').
Proof. intros H. unfold bind. by rewrite H. Qed.

(** In flat mode a match whose name is not registered fails with
    [UnknownTag] before anything else happens. *)
Lemma processTagFlat_unknown m p :
  assoc_get (TagMatch.tagName m) (tagRegistry p) = None ->
  processTagFlat m p =
    (Throw (ThrownParserError (ParserError.fromUnknownTag (TagMatch.tagName m))), p).
Proof. intros H. unfold processTagFlat, bind, get. by rewrite H. Qed.

Lemma processMatchesFlat_unknown m rest parsedTags p :
  assoc_get (TagMatch.tagName m) (tagRegistry p) = None ->
  processMatchesFlat (m :: rest) parsedTags p =
    bind (emitError (ParserError.fromUnknownTag (TagMatch.tagName m)) (MatchContext m))
         (fun _ => processMatchesFlat rest parsedTags) p.
Proof.
  intros H. simpl. unfold bind at 1. unfold try_catch.
  unfold bind at 1. rewrite (processTagFlat_unknown _ _ H).
  unfold bind, ret.
  by destruct (emitError _ _ p) as [[[]| |] p'].
Qed.

End EngineFacts.

(** C6: in flat mode a complete match whose tag name has no registered
    definition fails with [UnknownTag]; the failure is caught for that
    match, reported by a [parse_error] notification that carries the error
    and the match, and the loop goes on with the next match.  On
    [<known>ok</known><unknown>x</unknown>] with only [known] registered
    the engine completes exactly one record, [known] with content [ok],
    and raises exactly one [parse_error], [UnknownTag] for the match
    [unknown]; [parse] returns and the engine is not in the error state. *)
Theorem C6_unknown_tag_is_recoverable :
  (forall (m : TagMatch.t) (rest : list TagMatch.t) (parsedTags : list ref)
          (p : StreamParser.t),
     assoc_get (TagMatch.tagName m) (StreamParser.tagRegistry p) = None ->
     StreamParser.processTagFlat m p =
       (Throw (ThrownParserError (ParserError.fromUnknownTag (TagMatch.tagName m))), p) /\
     StreamParser.processMatchesFlat (m :: rest) parsedTags p =
       StreamParser.bind
         (StreamParser.emitError (ParserError.fromUnknownTag (TagMatch.tagName m))
                                 (MatchContext m))
         (fun _ => StreamParser.processMatchesFlat rest parsedTags) p) /\
  (let p := state_after (StreamParser.parse known_unknown_input) known_parser in
   outcome_of (StreamParser.parse known_unknown_input) known_parser = Ok tt /\
   completed (StreamParser.trace p) = [0] /\
   Tag.tagName (StreamParser.deref (StreamParser.store p) 0) = js "known" /\
   Tag.content (StreamParser.deref (StreamParser.store p) 0) = js "ok" /\
   Tag.attributes (StreamParser.deref (StreamParser.store p) 0) = None /\
   map (fun x => (ParserError.code x.1, ParserError.message x.1, x.2))
       (omap (fun x => match x with Emit (parse_error e c) => Some (e, c) | _ => None end)
             (StreamParser.trace p))
     = [(UNKNOWN_TAG, js "Unknown tag: unknown", MatchContext unknown_match)] /\
   StreamParser.state p = COMPLETED /\
   ParserStats.errorCount (StreamParser.stats p) = 0%Z /\
   ParserStats.totalTagsParsed (StreamParser.stats p) = 1%Z).
Proof.
  split.
  - intros m rest parsedTags p H. split.
    + by apply processTagFlat_unknown.
    + by apply processMatchesFlat_unknown.
  - vm_compute. repeat split.
Qed.

Lemma C6_unknown_tag_is_recoverable_witness :
  StreamParser.processTagFlat unknown_match known_parser =
    (Throw (ThrownParserError (ParserError.fromUnknownTag (js "unknown"))), known_parser).
Proof.
  apply (proj1 (proj1 C6_unknown_tag_is_recoverable unknown_match [] [] known_parser
                      eq_refl)).
Defined.

(** * Text between tags (nested mode) *)

Section TextFacts.

Import StreamParser.





End TextFacts.




(** * A closing tag that matches no open tag (nested mode) *)

Section MismatchFacts.

Import StreamParser.

(** With auto-close disabled, a closing tag whose name differs from the
    innermost open tag fails with [MismatchedClosingTag], which carries
    both names, and nothing is changed. *)
Lemma handleClosingTag_mismatch_strict tagMatch entry rest p :
  tagStack p = entry :: rest ->
  Tag.tagName (deref (store p) (TagStackEntry.tag entry)) <> TagMatch.tagName tagMatch ->
  RequiredParserConfig.autoCloseUnclosed (config p) = false ->
  handleClosingTag tagMatch p =
    (Throw (ThrownParserError
              (ParserError.fromMismatchedClosing
                 (Tag.tagName (deref (store p) (TagStackEntry.tag entry)))
                 (TagMatch.tagName tagMatch))), p).
Proof.
  intros Hstack Hname Hauto. unfold handleClosingTag.
  unfold bind at 1. unfold get at 1. rewrite Hstack.
  unfold bind at 1. unfold read at 1.
  unfold bind at 1. rewrite bool_decide_eq_true_2 by done. by rewrite Hauto.
Qed.

End MismatchFacts.

(** C3 at its failing input.  With auto-close on mismatch enabled (the
    default), on [<a></b>] the closing tag [b] matches no entry of the
    stack.  The sweep closes [a] and empties the stack, and then reads the
    entry that [pop] did not return: the [TypeError] ends the call in the
    error state, with the error counter at one and a [parse_error] of code
    [INVALID_TAG_FORMAT].  Nothing is consumed from the buffer, so the
    next call of [parse] opens [a] again and fails in the same way.  When
    an entry of the stack does match, as on [<a><b><c></a>], the entries
    above it are closed innermost first, then the matching one, with no
    failure; with auto-close disabled a mismatch fails with
    [MismatchedClosingTag] and both names. *)
Theorem C3_unmatched_closer_fails_after_emptying_the_stack :
  (let p1 := state_after (StreamParser.parse (js "<a></b>")) nested_parser in
   let p2 := state_after (StreamParser.parse []) p1 in
   RequiredParserConfig.autoCloseUnclosed (StreamParser.config nested_parser) = true /\
   outcome_of (StreamParser.parse (js "<a></b>")) nested_parser = Ok tt /\
   StreamParser.tagStack p1 = [] /\
   completed (StreamParser.trace p1) = [0] /\
   StreamParser.state p1 = ERROR /\
   error_count p1 = 1%Z /\
   last (emitted (StreamParser.trace p1)) =
     Some (parse_error
             (ParserError.make (js "Unexpected error: " ++ StreamParser.undefined_tag_message)
                               INVALID_TAG_FORMAT)
             (ChunkContext (js "<a></b>"))) /\
   BufferManager.buffer (StreamParser.bufferManager p1) = js "<a></b>" /\
   StreamParser.state p2 = ERROR /\
   error_count p2 = 2%Z /\
   completed (StreamParser.trace p2) = [0; 1] /\
   BufferManager.buffer (StreamParser.bufferManager p2) = js "<a></b>") /\
  (let p := state_after (StreamParser.parse (js "<a><b><c></a>")) nested_parser in
   completed (StreamParser.trace p) = [2; 1; 0] /\
   StreamParser.tagStack p = [] /\
   StreamParser.state p = COMPLETED /\
   parse_errors (StreamParser.trace p) = []) /\
  (let p := state_after (StreamParser.parse (js "<a></b>"))
                        (StreamParser.new strict_config quiet) in
   map (fun x => (x.1, ParserError.context x.2))
       (omap (fun x => match x with
                       | Emit (parse_error e _) => Some (ParserError.code e, e)
                       | _ => None
                       end) (StreamParser.trace p))
     = [(MISMATCHED_CLOSING_TAG, Some {| expected := js "a"; actual := js "b" |})] /\
   map TagStackEntry.tag (StreamParser.tagStack p) = [0] /\
   StreamParser.state p = ERROR) /\
  (forall tagMatch entry rest p,
     StreamParser.tagStack p = entry :: rest ->
     Tag.tagName (StreamParser.deref (StreamParser.store p) (TagStackEntry.tag entry))
       <> TagMatch.tagName tagMatch ->
     RequiredParserConfig.autoCloseUnclosed (StreamParser.config p) = false ->
     StreamParser.handleClosingTag tagMatch p =
       (Throw (ThrownParserError
                 (ParserError.fromMismatchedClosing
                    (Tag.tagName (StreamParser.deref (StreamParser.store p)
                                                     (TagStackEntry.tag entry)))
                    (TagMatch.tagName tagMatch))), p)).
Proof.
  split; [vm_compute; repeat split|].
  split; [vm_compute; repeat split|].
  split; [vm_compute; repeat split|].
  apply handleClosingTag_mismatch_strict.
Qed.

(** * [reset] *)

Section ResetFacts.

Import StreamParser.

(** When the observers return, [reset] leaves all counters at zero and
    the buffer empty. *)
Lemma reset_zeroes_statistics p :
  (forall e, listeners p e = Returns tt) ->
  outcome_of reset p = Ok tt /\
  getStats (state_after reset p) = initializeStats /\
  getBufferSize (state_after reset p) = 0%Z /\
  tagStack (state_after reset p) = [] /\
  BufferManager.getTotalProcessed (bufferManager (state_after reset p))
    = BufferManager.getTotalProcessed (bufferManager p).
Proof.
  intros Hquiet. unfold outcome_of, state_after, reset.
  unfold_monad. rewrite !Hquiet. simpl. rewrite ?Hquiet. simpl. repeat split.
Qed.

End ResetFacts.

(** C8 at its failing input.  In flat mode, after [parse] of three
    characters and [reset], the statistics are all zero and the buffer is
    empty; the next [parse], of two characters, reports five bytes
    processed: [clear] leaves the buffer's own counter as it was and
    [updateStats] copies it back into the statistics.  In every state,
    when the observers return, [reset] itself does leave all counters at
    zero and the buffer empty. *)
Theorem C8_bytes_processed_survives_reset :
  (let p0 := StreamParser.new ParserConfig.empty quiet in
   let p1 := state_after (StreamParser.parse (js "abc")) p0 in
   let p2 := state_after StreamParser.reset p1 in
   let p3 := state_after (StreamParser.parse (js "de")) p2 in
   StreamParser.getStats p2 = StreamParser.initializeStats /\
   StreamParser.getBufferSize p2 = 0%Z /\
   BufferManager.getTotalProcessed (StreamParser.bufferManager p2) = 3%Z /\
   outcome_of (StreamParser.parse (js "de")) p2 = Ok tt /\
   ParserStats.totalBytesProcessed (StreamParser.getStats p3) = 5%Z) /\
  (forall p,
     (forall e, StreamParser.listeners p e = Returns tt) ->
     StreamParser.getStats (state_after StreamParser.reset p) = StreamParser.initializeStats /\
     StreamParser.getBufferSize (state_after StreamParser.reset p) = 0%Z).
Proof.
  split; [vm_compute; repeat split|].
  intros p Hquiet. destruct (reset_zeroes_statistics p Hquiet) as (_ & H1 & H2 & _).
  by split.
Qed.

(** * Tags without a definition (nested mode) *)

Section UnregisteredFacts.

Import StreamParser.

Lemma lookup_snoc {A : Type} (l : list A) (x : A) : (l ++ [x]) !! length l = Some x.
Proof. by rewrite list_lookup_middle. Qed.

Lemma lookup_alter_snoc {A : Type} (f : A -> A) (l : list A) (x : A) i :
  i < length l -> alter f i (l ++ [x]) !! length l = Some x.
Proof. intros H. rewrite list_lookup_alter_ne by lia. apply lookup_snoc. Qed.

Lemma handleOpeningTag_unregistered tagMatch p :
  assoc_get (TagMatch.tagName tagMatch) (tagRegistry p) = None ->
  (forall e, listeners p e = Returns tt) ->
  (currentDepth p < RequiredParserConfig.maxDepth (config p))%Z ->
  (forall r, getCurrentParent p = Some r -> r < length (store p)) ->
  let p' := (handleOpeningTag tagMatch p).2 in
  let newTag := length (store p) in
  (handleOpeningTag tagMatch p).1 = Ok tt /\
  tagStack p' =
    {| TagStackEntry.tag := newTag;
       TagStackEntry.startIndex := TagMatch.startIndex tagMatch;
       TagStackEntry.depth := (currentDepth p + 1)%Z;
       TagStackEntry.path := buildPath (TagMatch.tagName tagMatch) p |} :: tagStack p /\
  store p' !! newTag = Some (plain_record tagMatch p) /\
  length (store p') = S (length (store p)) /\
  (forall r, r < length (store p) -> getCurrentParent p <> Some r ->
     store p' !! r = store p !! r) /\
  (forall r x, getCurrentParent p = Some r -> store p !! r = Some x ->
     store p' !! r =
       Some match Tag.children x with
            | Some children => Tag.set_children (Some (children ++ [newTag])) x
            | None => x
            end) /\
  currentDepth p' = (currentDepth p + 1)%Z /\
  currentPath p' = buildPath (TagMatch.tagName tagMatch) p /\
  stats p' =
    stats_with_depths
      (Z.max (ParserStats.maxDepthReached (stats p)) (currentDepth p + 1))
      (ParserStats.totalNestedTags (stats p) + 1) (stats p) /\
  trace p' =
    trace p ++
    [Emit (tag_opened newTag (currentDepth p + 1) (buildPath (TagMatch.tagName tagMatch) p));
     Emit (tag_started (TagMatch.tagName tagMatch)
                       (Some (spread None (TagMatch.attributes tagMatch))))] /\
  tagRegistry p' = tagRegistry p /\ bufferManager p' = bufferManager p /\
  state p' = state p /\ config p' = config p.
Proof.
  intros Hreg Hquiet Hdepth Hwf. unfold handleOpeningTag.
  unfold_monad.
  destruct (Z.leb_spec (RequiredParserConfig.maxDepth (config p)) (currentDepth p)); [lia|].
  rewrite Hreg. simpl.
  assert (Hpath : forall s : jsstring, match s with [] => [] | c :: cs => c :: cs end = s)
    by (by intros []).
  rewrite !Hpath.
  unfold addChild. destruct (getCurrentParent p) as [par|] eqn:Hpar.
  - specialize (Hwf par eq_refl). unfold_monad. unfold deref.
    rewrite lookup_app_l by done.
    destruct (store p !! par) as [x|] eqn:Hx; [|apply lookup_lt_is_Some_2 in Hwf as [? ?]; congruence].
    simpl. unfold plain_record. rewrite Hpar.
    destruct (Tag.children x) as [children|] eqn:Hch; unfold_monad;
      rewrite !Hquiet; simpl; rewrite ?Hquiet; simpl;
      rewrite ?lookup_alter_snoc, ?lookup_snoc by done; simpl.
    + repeat split; try done.
      * rewrite length_alter, length_app. simpl. lia.
      * intros r Hr Hne. rewrite list_lookup_alter_ne by congruence.
        by rewrite lookup_app_l.
      * intros r y [= <-] Hy. rewrite list_lookup_alter_eq, lookup_app_l by done.
        rewrite Hy. simpl. assert (y = x) as -> by congruence. by rewrite Hch.
      * by rewrite <- app_assoc.
    + repeat split; try done.
      * rewrite length_app. simpl. lia.
      * intros r Hr Hne. by rewrite lookup_app_l.
      * intros r y [= <-] Hy. rewrite lookup_app_l by done.
        rewrite Hy. assert (y = x) as -> by congruence. by rewrite Hch.
      * by rewrite <- app_assoc.
  - unfold_monad. rewrite !Hquiet. simpl. rewrite ?Hquiet. simpl.
    unfold plain_record, deref. rewrite Hpar, ?lookup_snoc. simpl.
    repeat split; try done.
    + rewrite length_app. simpl. lia.
    + intros r Hr Hne. by rewrite lookup_app_l.
    + by rewrite <- app_assoc.
Qed.

Lemma completeTag_unregistered r p :
  assoc_get (Tag.tagName (deref (store p) r)) (tagRegistry p) = None ->
  (forall e, listeners p e = Returns tt) ->
  completeTag r p =
    (Ok tt,
     with_trace (trace p ++ closing_events (store p) r)
       (with_stats
          (stats_with_totalTagsParsed (ParserStats.totalTagsParsed (stats p) + 1) (stats p))
          p)).
Proof.
  intros Hreg Hquiet. unfold completeTag, countTagParsed, closing_events.
  unfold_monad. rewrite Hreg. unfold_monad. rewrite !Hquiet. simpl.
  destruct (Tag.children (deref (store p) r)) as [[|c cs]|]; unfold_monad;
    rewrite ?Hquiet; simpl; unfold_state; rewrite ?Hquiet; simpl;
    by rewrite <- ?app_assoc.
Qed.

Lemma handleClosingTag_unregistered tagMatch entry rest p :
  tagStack p = entry :: rest ->
  Tag.tagName (deref (store p) (TagStackEntry.tag entry)) = TagMatch.tagName tagMatch ->
  assoc_get (TagMatch.tagName tagMatch) (tagRegistry p) = None ->
  (forall e, listeners p e = Returns tt) ->
  handleClosingTag tagMatch p =
    (Ok tt,
     with_currentPath
       match rest with e :: _ => TagStackEntry.path e | [] => [] end
       (with_currentDepth (currentDepth p - 1)
          (with_trace (trace p ++ closing_events (store p) (TagStackEntry.tag entry))
             (with_stats
                (stats_with_totalTagsParsed (ParserStats.totalTagsParsed (stats p) + 1)
                                            (stats p))
                (with_tagStack rest p))))).
Proof.
  intros Hstack Hname Hreg Hquiet. unfold handleClosingTag.
  unfold bind at 1. unfold get at 1. rewrite Hstack.
  unfold bind at 1. unfold read at 1.
  unfold bind at 1. rewrite Hname.
  rewrite bool_decide_eq_false_2 by (intros H; by apply H).
  unfold ret at 1. unfold bind at 1. unfold get at 1. rewrite Hstack.
  unfold bind at 1. unfold modify at 1.
  unfold bind at 1.
  rewrite completeTag_unregistered; [|simpl; by rewrite Hname|done].
  unfold_monad. unfold pathAfterPop. simpl. unfold_state. done.
Qed.

(** A tag registered with a bare definition is opened and completed in the
    same way as one that is not registered. *)
Lemma handleOpeningTag_bare_definition tagMatch p :
  assoc_get (TagMatch.tagName tagMatch) (tagRegistry p) = None ->
  let d := TagDefinition.simple (TagMatch.tagName tagMatch) in
  handleOpeningTag tagMatch (registered d p) =
    ((handleOpeningTag tagMatch p).1, registered d (handleOpeningTag tagMatch p).2).
Proof.
  intros Hreg. cbv zeta.
  unfold handleOpeningTag, registered, addChild, getCurrentParent, buildPath, deref.
  unfold_monad. unfold_state. rewrite Hreg, assoc_get_set_eq. simpl.
  destruct (_ <=? _)%Z; [done|].
  destruct (tagStack p) as [|entry rest]; unfold_monad;
    repeat match goal with
           | |- context [(?s ++ [?x]) !! ?i] =>
               destruct ((s ++ [x]) !! i) as [?|] eqn:?; unfold_monad
           | |- context [Tag.children ?x] =>
               destruct (Tag.children x) as [?|] eqn:?; unfold_monad
           | |- context [listeners p ?e] =>
               destruct (listeners p e) as [[]|?] eqn:?; unfold_monad
           end; done.
Qed.

Lemma completeTag_bare_definition r p :
  assoc_get (Tag.tagName (deref (store p) r)) (tagRegistry p) = None ->
  let d := TagDefinition.simple (Tag.tagName (deref (store p) r)) in
  completeTag r (registered d p) =
    ((completeTag r p).1, registered d (completeTag r p).2).
Proof.
  intros Hreg. cbv zeta.
  unfold completeTag, registered, countTagParsed, validate, transform,
    call_onComplete, try_catch.
  unfold_monad. unfold_state. rewrite Hreg, assoc_get_set_eq. unfold_monad.
  repeat match goal with
         | |- context [Tag.children ?x] =>
             destruct (Tag.children x) as [[|? ?]|] eqn:?; unfold_monad
         | |- context [Tag.content ?x] =>
             destruct (Tag.content x) as [|? ?] eqn:?; unfold_monad
         | |- context [Tag.attributes ?x] =>
             destruct (Tag.attributes x) as [?|] eqn:?; unfold_monad
         | |- context [listeners p ?e] =>
             destruct (listeners p e) as [[]|?] eqn:?; unfold_monad
         end; done.
Qed.

End UnregisteredFacts.

(** C10: in nested mode an opening tag whose name has no registered
    definition is processed like a registered one.  Opening it fails with
    no error (in particular no [UnknownTag]); it creates a record whose
    parent is the tag on top of the stack of open tags (none when the
    stack is empty), appends it to that tag's children, pushes it on the
    stack, counts it in the statistics and raises [tag_opened] and
    [tag_started].  Closing it pops it, counts it as parsed and raises
    [tag_closed] and [tag_completed] (and [subtree_completed] when it has
    children), and leaves the records as they are.  No lifecycle callback
    is called in either step.  A tag registered with a definition that
    has no default, validator, transformer or callback is opened and
    completed in exactly the same way.  On [<a><b>] the record of [b] has
    the record of [a] as its parent and is the one child of [a]. *)
Theorem C10_unregistered_tag_in_nested_mode (tagMatch : TagMatch.t) (p : StreamParser.t) :
  assoc_get (TagMatch.tagName tagMatch) (StreamParser.tagRegistry p) = None ->
  (forall e, StreamParser.listeners p e = Returns tt) ->
  ((StreamParser.currentDepth p < RequiredParserConfig.maxDepth (StreamParser.config p))%Z ->
   (forall entry rest, StreamParser.tagStack p = entry :: rest ->
      TagStackEntry.tag entry < length (StreamParser.store p)) ->
   let p' := state_after (StreamParser.handleOpeningTag tagMatch) p in
   let newTag := length (StreamParser.store p) in
   outcome_of (StreamParser.handleOpeningTag tagMatch) p = Ok tt /\
   StreamParser.tagStack p' =
     {| TagStackEntry.tag := newTag;
        TagStackEntry.startIndex := TagMatch.startIndex tagMatch;
        TagStackEntry.depth := (StreamParser.currentDepth p + 1)%Z;
        TagStackEntry.path := StreamParser.buildPath (TagMatch.tagName tagMatch) p |}
     :: StreamParser.tagStack p /\
   StreamParser.store p' !! newTag = Some (plain_record tagMatch p) /\
   Tag.parent (plain_record tagMatch p) =
     match StreamParser.tagStack p with
     | entry :: _ => Some (TagStackEntry.tag entry)
     | [] => None
     end /\
   (forall entry rest x,
      StreamParser.tagStack p = entry :: rest ->
      StreamParser.store p !! TagStackEntry.tag entry = Some x ->
      StreamParser.store p' !! TagStackEntry.tag entry =
        Some match Tag.children x with
             | Some children => Tag.set_children (Some (children ++ [newTag])) x
             | None => x
             end) /\
   StreamParser.currentDepth p' = (StreamParser.currentDepth p + 1)%Z /\
   ParserStats.totalNestedTags (StreamParser.stats p') =
     (ParserStats.totalNestedTags (StreamParser.stats p) + 1)%Z /\
   ParserStats.maxDepthReached (StreamParser.stats p') =
     Z.max (ParserStats.maxDepthReached (StreamParser.stats p))
           (StreamParser.currentDepth p + 1) /\
   StreamParser.trace p' =
     StreamParser.trace p ++
     [Emit (tag_opened newTag (StreamParser.currentDepth p + 1)
                       (StreamParser.buildPath (TagMatch.tagName tagMatch) p));
      Emit (tag_started (TagMatch.tagName tagMatch)
                        (Some (spread None (TagMatch.attributes tagMatch))))]) /\
  (forall entry rest,
     StreamParser.tagStack p = entry :: rest ->
     Tag.tagName (StreamParser.deref (StreamParser.store p) (TagStackEntry.tag entry))
       = TagMatch.tagName tagMatch ->
     let p' := state_after (StreamParser.handleClosingTag tagMatch) p in
     outcome_of (StreamParser.handleClosingTag tagMatch) p = Ok tt /\
     StreamParser.tagStack p' = rest /\
     StreamParser.store p' = StreamParser.store p /\
     ParserStats.totalTagsParsed (StreamParser.stats p') =
       (ParserStats.totalTagsParsed (StreamParser.stats p) + 1)%Z /\
     StreamParser.currentDepth p' = (StreamParser.currentDepth p - 1)%Z /\
     StreamParser.trace p' =
       StreamParser.trace p ++
       closing_events (StreamParser.store p) (TagStackEntry.tag entry)) /\
  (let d := TagDefinition.simple (TagMatch.tagName tagMatch) in
   StreamParser.handleOpeningTag tagMatch (registered d p) =
     (outcome_of (StreamParser.handleOpeningTag tagMatch) p,
      registered d (state_after (StreamParser.handleOpeningTag tagMatch) p)) /\
   forall r,
     Tag.tagName (StreamParser.deref (StreamParser.store p) r) = TagMatch.tagName tagMatch ->
     StreamParser.completeTag r (registered d p) =
       (outcome_of (StreamParser.completeTag r) p,
        registered d (state_after (StreamParser.completeTag r) p))) /\
  (let q := state_after (StreamParser.parse (js "<a><b>")) nested_parser in
   StreamParser.state q = COMPLETED /\
   map TagStackEntry.tag (StreamParser.tagStack q) = [1; 0] /\
   Tag.tagName <$> StreamParser.store q !! 1 = Some (js "b") /\
   Tag.parent <$> StreamParser.store q !! 1 = Some (Some 0) /\
   Tag.children <$> StreamParser.store q !! 0 = Some (Some [1]) /\
   Tag.parent <$> StreamParser.store q !! 0 = Some None).
Proof.
  intros Hreg Hquiet. split; [|split; [|split; [|by vm_compute]]].
  - intros Hdepth Hwf. cbv zeta. unfold state_after, outcome_of.
    assert (Hwf' : forall r, StreamParser.getCurrentParent p = Some r ->
                             r < length (StreamParser.store p)).
    { intros r. unfold StreamParser.getCurrentParent.
      destruct (StreamParser.tagStack p) as [|entry rest] eqn:Hstack; [done|].
      intros [= <-]. by apply (Hwf entry rest). }
    destruct (handleOpeningTag_unregistered tagMatch p Hreg Hquiet Hdepth Hwf')
      as (Ho & Hs & Hn & _ & _ & Hp & Hd & _ & Hst & Ht & _).
    rewrite Ho, Hs, Hn, Hd, Hst, Ht. repeat split; try done.
    intros entry rest x Hstack Hx. apply Hp; [|done].
    unfold StreamParser.getCurrentParent. by rewrite Hstack.
  - intros entry rest Hstack Hname. cbv zeta. unfold state_after, outcome_of.
    rewrite (handleClosingTag_unregistered _ _ _ _ Hstack Hname Hreg Hquiet).
    simpl. repeat split.
  - cbv zeta. unfold state_after, outcome_of. split.
    + by apply handleOpeningTag_bare_definition.
    + intros r Hr. rewrite <- Hr. apply completeTag_bare_definition. by rewrite Hr.
Qed.

Lemma C10_unregistered_tag_in_nested_mode_witness :
  let p1 := state_after (StreamParser.handleOpeningTag open_a) nested_parser in
  let p2 := state_after (StreamParser.handleOpeningTag open_b) p1 in
  outcome_of (StreamParser.handleOpeningTag open_b) p1 = Ok tt /\
  Tag.parent <$> StreamParser.store p2 !! 1 = Some (Some 0) /\
  Tag.children <$> StreamParser.store p2 !! 0 = Some (Some [1]).
Proof.
  intros p1 p2.
  destruct (C10_unregistered_tag_in_nested_mode open_b p1 eq_refl (fun _ => eq_refl))
    as (H & _).
  destruct H as (Ho & _ & Hn & Hpar & Hch & _).
  - vm_compute. reflexivity.
  - intros entry rest Hstack. vm_compute in Hstack. injection Hstack as <- _.
    vm_compute. lia.
  - split; [exact Ho|]. split.
    + change (length (StreamParser.store p1)) with 1 in Hn. fold p2 in Hn.
      rewrite Hn. change (Some (Tag.parent (plain_record open_b p1)) = Some (Some 0)).
      rewrite Hpar. reflexivity.
    + specialize (Hch _ _ _ eq_refl eq_refl).
      change (TagStackEntry.tag _) with 0 in Hch. fold p2 in Hch.
      by rewrite Hch.
Defined.

(** * [parse] comes back *)

Section Frames.

Import StreamParser.

Context {X : Type} (f : t -> X).

Lemma keeps_ret {A : Type} (a : A) : keeps f (ret a).
Proof. done. Qed.

Lemma keeps_throw {A : Type} e : keeps f (@throw A e).
Proof. done. Qed.

Lemma keeps_diverge {A : Type} : keeps f (@diverge A).
Proof. done. Qed.

Lemma keeps_get : keeps f get.
Proof. done. Qed.

Lemma keeps_lift {A : Type} (o : option A) : keeps f (lift o).
Proof. by destruct o. Qed.

Lemma keeps_call {A : Type} (r : Result A) : keeps f (call r).
Proof. by destruct r. Qed.

Lemma keeps_modify g : (forall p, f (g p) = f p) -> keeps f (modify g).
Proof. intros H p. apply H. Qed.

Lemma keeps_bind {A B : Type} (m : M A) (k : A -> M B) :
  keeps f m -> (forall a, keeps f (k a)) -> keeps f (bind m k).
Proof.
  intros Hm Hk p. unfold bind. specialize (Hm p).
  destruct (m p) as [[a| |] p']; simpl in *; [|done|done].
  rewrite <- Hm. apply Hk.
Qed.

Lemma keeps_try_catch {A : Type} (m : M A) (h : Thrown -> M A) :
  keeps f m -> (forall e, keeps f (h e)) -> keeps f (try_catch m h).
Proof.
  intros Hm Hh p. unfold try_catch. specialize (Hm p).
  destruct (m p) as [[a|e|] p']; simpl in *; [done| |done].
  rewrite <- Hm. apply Hh.
Qed.

End Frames.

Section ComesBack.

Import StreamParser.

Lemma comes_back_bind {A B : Type} (m : M A) (k : A -> M B) p :
  comes_back m p ->
  (forall a p', m p = (Ok a, p') -> comes_back (k a) p') ->
  comes_back (bind m k) p.
Proof.
  unfold comes_back, bind. intros Hm Hk.
  destruct (m p) as [[a|e|] p'] eqn:E; simpl in *; [by apply Hk|done|done].
Qed.

Lemma comes_back_try_catch {A : Type} (m : M A) (h : Thrown -> M A) p :
  comes_back m p ->
  (forall e p', m p = (Throw e, p') -> comes_back (h e) p') ->
  comes_back (try_catch m h) p.
Proof.
  unfold comes_back, try_catch. intros Hm Hh.
  destruct (m p) as [[a|e|] p'] eqn:E; simpl in *; [done|by apply Hh|done].
Qed.

Lemma comes_back_ret {A : Type} (a : A) p : comes_back (ret a) p.
Proof. done. Qed.

Lemma comes_back_throw {A : Type} e p : comes_back (@throw A e) p.
Proof. done. Qed.

Lemma comes_back_get p : comes_back get p.
Proof. done. Qed.

Lemma comes_back_modify g p : comes_back (modify g) p.
Proof. done. Qed.

Lemma comes_back_call {A : Type} (r : Result A) p : comes_back (call r) p.
Proof. by destruct r. Qed.


Lemma comes_back_read r p : comes_back (read r) p.
Proof. done. Qed.

Lemma comes_back_update r g p : comes_back (update r g) p.
Proof. done. Qed.

Lemma comes_back_alloc x p : comes_back (alloc x) p.
Proof. done. Qed.

Lemma comes_back_record x p : comes_back (record x) p.
Proof. done. Qed.

Lemma comes_back_emit e p : comes_back (emit e) p.
Proof.
  unfold emit. apply comes_back_bind; [done|]. intros _ p' _.
  apply comes_back_bind; [done|]. intros p'' ? _. apply comes_back_call.
Qed.

End ComesBack.

Create HintDb comes_back.

#[local] Hint Resolve comes_back_ret comes_back_throw comes_back_get comes_back_modify
  comes_back_call comes_back_read comes_back_update comes_back_alloc comes_back_record
  comes_back_emit : comes_back.

(** Goals [comes_back m p] for a computation without loops. *)
Ltac comes_back_step :=
  match goal with
  | |- comes_back (StreamParser.bind _ _) _ => apply comes_back_bind; [|intros ? ? ?]
  | |- comes_back (StreamParser.try_catch _ _) _ =>
      apply comes_back_try_catch; [|intros ? ? ?]
  | |- comes_back (match ?x with _ => _ end) _ => destruct x
  | |- comes_back (if ?x then _ else _) _ => destruct x
  | |- comes_back (StreamParser.emitError _ _) _ => apply comes_back_emit
  | |- comes_back _ _ => solve [eauto with comes_back]
  end.

Ltac comes_back_auto := repeat comes_back_step.

(** Goals [keeps f m] where [f] reads a component that [m] does not write. *)
Ltac keeps_step :=
  match goal with
  | |- keeps _ (StreamParser.bind _ _) => apply keeps_bind; [|intros ?]
  | |- keeps _ (StreamParser.try_catch _ _) => apply keeps_try_catch; [|intros ?]
  | |- keeps _ (StreamParser.ret _) => apply keeps_ret
  | |- keeps _ (StreamParser.throw _) => apply keeps_throw
  | |- keeps _ StreamParser.diverge => apply keeps_diverge
  | |- keeps _ StreamParser.get => apply keeps_get
  | |- keeps _ (StreamParser.lift _) => apply keeps_lift
  | |- keeps _ (StreamParser.call _) => apply keeps_call
  | |- keeps _ (StreamParser.modify _) => apply keeps_modify; intros ?; reflexivity
  | |- keeps _ (match ?x with _ => _ end) => destruct x
  | |- keeps _ (if ?x then _ else _) => destruct x
  | |- keeps _ (StreamParser.emit _) => unfold StreamParser.emit
  | |- keeps _ (StreamParser.emitError _ _) => unfold StreamParser.emitError
  | |- keeps _ (StreamParser.record _) => unfold StreamParser.record
  | |- keeps _ (StreamParser.read _) => intros ?; reflexivity
  | |- keeps _ (StreamParser.update _ _) => unfold StreamParser.update
  | |- keeps _ (StreamParser.alloc _) => intros ?; reflexivity
  | |- keeps _ (StreamParser.check _ _ _) => unfold StreamParser.check
  | |- keeps _ (StreamParser.validate _ _) => unfold StreamParser.validate
  | |- keeps _ (StreamParser.transform _ _) => unfold StreamParser.transform
  | |- keeps _ (StreamParser.applyDefaults _ _) => unfold StreamParser.applyDefaults
  | |- keeps _ (StreamParser.call_onStart _ _ _) => unfold StreamParser.call_onStart
  | |- keeps _ (StreamParser.call_onComplete _ _) => unfold StreamParser.call_onComplete
  | |- keeps _ StreamParser.countTagParsed => unfold StreamParser.countTagParsed
  | |- keeps _ StreamParser.countError => unfold StreamParser.countError
  | |- keeps _ StreamParser.updateStats => unfold StreamParser.updateStats
  | |- keeps _ (StreamParser.addChild _ _) => unfold StreamParser.addChild
  | |- keeps _ (StreamParser.consumeBuffer _) => unfold StreamParser.consumeBuffer
  | |- keeps _ (StreamParser.removeProcessedContent _) =>
      unfold StreamParser.removeProcessedContent
  | |- keeps _ (StreamParser.completeTag _) => unfold StreamParser.completeTag
  | |- keeps _ StreamParser.autoCloseTag => unfold StreamParser.autoCloseTag
  | |- keeps _ (StreamParser.handleOpeningTag _) => unfold StreamParser.handleOpeningTag
  | |- keeps _ (StreamParser.handleSelfClosingTag _) =>
      unfold StreamParser.handleSelfClosingTag
  | |- keeps _ (StreamParser.handleTextContent _) => unfold StreamParser.handleTextContent
  | |- keeps _ (StreamParser.processTagFlat _) => unfold StreamParser.processTagFlat
  | |- keeps _ (StreamParser.appendChunk _) =>
      let p := fresh in
      intros p; unfold StreamParser.appendChunk;
      destruct (BufferManager.append _ (StreamParser.bufferManager p)); reflexivity
  end.

Ltac keeps_auto := repeat keeps_step.

Section EngineComesBack.

Import StreamParser.

Lemma comes_back_validate tag definition p : comes_back (validate tag definition) p.
Proof. unfold validate, check. comes_back_auto. Qed.

Lemma comes_back_transform tag definition p : comes_back (transform tag definition) p.
Proof. unfold transform. comes_back_auto. Qed.

Lemma comes_back_applyDefaults tag definition p : comes_back (applyDefaults tag definition) p.
Proof. unfold applyDefaults. comes_back_auto. Qed.

Lemma comes_back_updateStats p : comes_back updateStats p.
Proof. unfold updateStats. comes_back_auto. Qed.

Lemma comes_back_call_onStart d n a p : comes_back (call_onStart d n a) p.
Proof. unfold call_onStart. comes_back_auto. Qed.

Lemma comes_back_call_onComplete d r p : comes_back (call_onComplete d r) p.
Proof. unfold call_onComplete. comes_back_auto. Qed.

Lemma comes_back_processTagFlat m p : comes_back (processTagFlat m) p.
Proof.
  unfold processTagFlat.
  comes_back_auto;
    eauto using comes_back_validate, comes_back_transform, comes_back_applyDefaults,
      comes_back_call_onStart, comes_back_call_onComplete.
Qed.



Lemma comes_back_completeTag r p : comes_back (completeTag r) p.
Proof.
  unfold completeTag, countTagParsed.
  comes_back_auto;
    eauto using comes_back_validate, comes_back_transform, comes_back_call_onComplete.
Qed.

Lemma comes_back_autoCloseTag p : comes_back autoCloseTag p.
Proof. unfold autoCloseTag. comes_back_auto; eauto using comes_back_completeTag. Qed.

Lemma keeps_tagStack_completeTag r : keeps tagStack (completeTag r).
Proof. keeps_auto. Qed.

Lemma autoCloseTag_pops p : tagStack (autoCloseTag p).2 = tail (tagStack p).
Proof.
  unfold autoCloseTag. unfold bind at 1. unfold get at 1.
  destruct (tagStack p) as [|entry rest] eqn:E; [by simpl|].
  assert (H : keeps tagStack
                (completeTag (TagStackEntry.tag entry) >>
                 modify (fun p => with_currentDepth (currentDepth p - 1) p) >>
                 modify (fun p => with_currentPath (pathAfterPop p) p))) by keeps_auto.
  unfold bind at 1. unfold modify at 1. apply H.
Qed.










End EngineComesBack.

Section EngineKeeps.

Import StreamParser.

Lemma keeps_static_processMatchesFlat completeTags : forall parsedTags,
  keeps static (processMatchesFlat completeTags parsedTags).
Proof.
  induction completeTags as [|m rest IH]; intros parsedTags; simpl; [apply keeps_ret|].
  apply keeps_bind; [|intros; apply IH]. keeps_auto.
Qed.








End EngineKeeps.

Section ParseReturns.

Import StreamParser.




End ParseReturns.


(** * What the patterns match *)

Section RunShapes.

Lemma mstate_eq σ σ' :
  m_pos σ = m_pos σ' -> m_rest σ = m_rest σ' -> m_caps σ = m_caps σ' -> σ = σ'.
Proof. destruct σ, σ'. simpl. by intros -> -> ->. Qed.

Lemma eats_nil σ : eats [] σ σ.
Proof. unfold eats. simpl. repeat split; try done; lia. Qed.

Lemma eats_app w1 w2 σ σ1 σ2 : eats w1 σ σ1 -> eats w2 σ1 σ2 -> eats (w1 ++ w2) σ σ2.
Proof.
  unfold eats. intros (E1 & P1 & C1) (E2 & P2 & C2).
  rewrite E1, E2, P2, P1, C2, C1, length_app, <- app_assoc. repeat split; try done; lia.
Qed.

Lemma eats_advance w σ σ' : eats w σ σ' -> σ' = advance (length w) σ.
Proof.
  intros (E & P & C). apply mstate_eq; simpl; [done| |done].
  by rewrite E, drop_app_length.
Qed.

Lemma advance_eats w s σ : m_rest σ = w ++ s -> eats w σ (advance (length w) σ).
Proof.
  intros E. unfold eats. simpl. rewrite E, drop_app_length. repeat split.
Qed.

Lemma eats_length w σ σ' : eats w σ σ' -> length (m_rest σ') + length w = length (m_rest σ).
Proof. intros (E & _). rewrite E, length_app. lia. Qed.

Lemma Run_Chr_iff p σ σ' :
  Run (Chr p) σ σ' <-> exists c, p c = true /\ eats [c] σ σ'.
Proof.
  split.
  - inversion 1; subst. exists c. split; [done|].
    match goal with H : m_rest σ = _ |- _ => pose proof (advance_eats [c] _ σ H) as He end.
    exact He.
  - intros (c & Hp & He). rewrite (eats_advance _ _ _ He). simpl.
    destruct He as (E & _). eapply Run_Chr; eauto.
Qed.

Lemma Run_Seq_iff r1 r2 σ σ' :
  Run (Seq r1 r2) σ σ' <-> exists σ1, Run r1 σ σ1 /\ Run r2 σ1 σ'.
Proof. split; [inversion 1; subst; eauto | intros (σ1 & ? & ?); eauto using Run]. Qed.

Lemma Run_Alt_iff r1 r2 σ σ' : Run (Alt r1 r2) σ σ' <-> Run r1 σ σ' \/ Run r2 σ σ'.
Proof. split; [inversion 1; subst; eauto | intros [?|?]; eauto using Run]. Qed.

Lemma Run_Eps_iff σ σ' : Run Eps σ σ' <-> σ' = σ.
Proof. split; [by inversion 1 | intros ->; constructor]. Qed.

Lemma Run_Bol_iff σ σ' : Run Bol σ σ' <-> σ' = σ /\ m_pos σ = 0.
Proof. split; [by inversion 1 | intros [-> ?]; by constructor]. Qed.

Lemma Run_Eol_iff σ σ' : Run Eol σ σ' <-> σ' = σ /\ m_rest σ = [].
Proof. split; [by inversion 1 | intros [-> ?]; by constructor]. Qed.

Lemma Run_Group_iff n r σ σ'' :
  Run (Group n r) σ σ'' <-> exists σ', Run r σ σ' /\ σ'' = close_group n σ σ'.
Proof. split; [inversion 1; subst; eauto | intros (σ' & ? & ->); by constructor]. Qed.

Lemma Run_Star_Chr_iff g p σ σ' :
  Run (Star g (Chr p)) σ σ' <-> exists w, forallb p w = true /\ eats w σ σ'.
Proof.
  split.
  - intros H. remember (Star g (Chr p)) as r eqn:Er.
    induction H as [| | | | |g' r' σ|g' r' σ σ1 σ2 H1 _ Hlt _ IH| | | | |];
      try discriminate; injection Er as -> ->.
    + exists []. split; [done|apply eats_nil].
    + destruct (IH eq_refl) as (w & Hw & He).
      apply Run_Chr_iff in H1 as (c & Hc & Hec).
      exists ([c] ++ w). split; [simpl; by rewrite Hc|]. eapply eats_app; eauto.
  - intros (w & Hw & He). revert σ He. induction w as [|c w IH]; intros σ He.
    + apply eats_advance in He. simpl in He. subst σ'.
      replace (advance 0 σ) with σ; [constructor|].
      apply mstate_eq; simpl; [lia|by rewrite drop_0|done].
    + simpl in Hw. apply andb_prop in Hw as [Hc Hw].
      assert (Hc1 : eats [c] σ (advance 1 σ)).
      { destruct He as (E & _). apply (advance_eats [c] (w ++ m_rest σ') σ). by rewrite E. }
      assert (Hw1 : eats w (advance 1 σ) σ').
      { destruct He as (E & P & C). unfold eats. simpl. rewrite E. simpl. rewrite drop_0.
        repeat split; [|done]. rewrite P. simpl. lia. }
      eapply Run_Star_more.
      * apply Run_Chr_iff. eauto.
      * apply eats_length in Hc1. simpl in *. lia.
      * by apply IH.
Qed.

Lemma Run_Plus_Chr_iff p σ σ' :
  Run (Plus (Chr p)) σ σ' <-> exists w, w <> [] /\ forallb p w = true /\ eats w σ σ'.
Proof.
  unfold Plus. rewrite Run_Seq_iff. split.
  - intros (σ1 & H1 & H2). apply Run_Chr_iff in H1 as (c & Hc & He1).
    apply Run_Star_Chr_iff in H2 as (w & Hw & He2).
    exists ([c] ++ w). split; [done|]. split; [simpl; by rewrite Hc|].
    eapply eats_app; eauto.
  - intros (w & Hne & Hw & He). destruct w as [|c w]; [done|].
    simpl in Hw. apply andb_prop in Hw as [Hc Hw].
    exists (advance 1 σ).
    assert (Hc1 : eats [c] σ (advance 1 σ)).
    { destruct He as (E & _). apply (advance_eats [c] (w ++ m_rest σ') σ). by rewrite E. }
    split; [apply Run_Chr_iff; eauto|].
    apply Run_Star_Chr_iff. exists w. split; [done|].
    destruct He as (E & P & C). unfold eats. simpl. rewrite E. simpl. rewrite drop_0.
    repeat split; [|done]. rewrite P. simpl. lia.
Qed.

Lemma is_char_eq x c : is_char x c = true -> forall a, x = String a EmptyString -> c = a.
Proof.
  intros H a ->. simpl in H. apply Nat.eqb_eq in H.
  unfold code in H. rewrite <- (ascii_nat_embedding c), <- (ascii_nat_embedding a). by rewrite H.
Qed.

Lemma Run_Lit_iff a σ σ' :
  Run (Lit (String a EmptyString)) σ σ' <-> eats [a] σ σ'.
Proof.
  unfold Lit. rewrite Run_Chr_iff. split.
  - intros (c & Hc & He). by rewrite <- (is_char_eq _ _ Hc a eq_refl).
  - intros He. exists a. split; [|done]. simpl. apply Nat.eqb_refl.
Qed.

(** [r.test(v)] holds exactly when [r] can run from some index of [v]. *)
Lemma test_iff r v :
  test r v = true <->
  exists j σ', j <= length v /\ Run r {| m_pos := j; m_rest := drop j v; m_caps := [] |} σ'.
Proof.
  unfold test. split.
  - destruct (exec r v 0) as [m|] eqn:E; [|done]. intros _.
    apply exec_Some in E as (_ & σ & Hm & _ & _ & _ & Hle & _).
    exists (mr_index m), σ. split; [lia|]. by apply match_at_Run.
  - intros (j & σ' & Hj & HR). destruct (exec r v 0) as [m|] eqn:E; [done|].
    apply Run_match_at in HR as [σ Hσ].
    rewrite (exec_None _ _ _ E j) in Hσ; [done|lia].
Qed.

End RunShapes.

(** * Attribute values *)

Section AttributeValues.

Import TagMatcher.







End AttributeValues.

Section Doubles.

Local Open Scope Z_scope.









End Doubles.

Section DecimalParts.

Import TagMatcher.



End DecimalParts.




(** * Complete tags (flat mode) *)

Section ExecAll.

Lemma execAll_spec r s : forall fuel i ms,
  execAll fuel r s i = Some ms ->
  matches_ordered i ms /\
  Forall (fun m =>
            exists σ,
              match_at r (mr_index m) (drop (mr_index m) s) = Some σ /\
              mr_groups m = m_caps σ /\
              drop (mr_index m) s = mr_text m ++ m_rest σ /\
              min_len r <= length (mr_text m) /\
              mr_index m + length (mr_text m) <= length s) ms /\
  forall j, i <= j <= length s -> outside_matches ms j -> match_at r j (drop j s) = None.
Proof.
  induction fuel as [|fuel IH]; intros i ms H; simpl in H; [done|].
  destruct (exec r s i) as [m|] eqn:E.
  - destruct (execAll fuel r s (lastIndexAfter m)) as [ms'|] eqn:E'; [|done].
    injection H as <-. apply IH in E' as (Ho & Hall & Hgap).
    apply exec_Some in E as (Hle & σ & Hm & Hg & Ht & _ & Hend & Hmin & Hnone).
    split; [done|]. split.
    + constructor; [|done]. exists σ. done.
    + intros j Hj Hout. inversion Hout as [|? ? [Hlt|Hge] Hout']; subst.
      * apply Hnone. lia.
      * apply Hgap; [|done]. unfold lastIndexAfter in *. lia.
  - injection H as <-. split; [done|]. split; [constructor|].
    intros j Hj _. by apply (exec_None _ _ _ E).
Qed.

End ExecAll.

Section LazyStar.

Lemma advance_0 σ : advance 0 σ = σ.
Proof. apply mstate_eq; simpl; [lia|by rewrite drop_0|done]. Qed.

Lemma advance_advance n m σ : advance n (advance m σ) = advance (m + n) σ.
Proof. apply mstate_eq; simpl; [lia|by rewrite drop_drop|done]. Qed.

Lemma star_loop_lazy_step step fuel σ k :
  star_loop step false (S fuel) σ k =
    match k σ with
    | Some y => Some y
    | None =>
        step σ (fun σ' =>
          if length (m_rest σ') <? length (m_rest σ)
          then star_loop step false fuel σ' k else None)
    end.
Proof. reflexivity. Qed.

Lemma rmatch_Any σ k :
  rmatch Any σ k = match m_rest σ with _ :: _ => k (advance 1 σ) | [] => None end.
Proof. reflexivity. Qed.

(** The lazy star of any code unit hands the shortest prefix to its
    continuation first: the result comes from the least number of code
    units after which the continuation succeeds. *)
Lemma star_loop_lazy_any k : forall fuel σ x,
  length (m_rest σ) <= fuel ->
  star_loop (rmatch Any) false fuel σ k = Some x ->
  exists n, n <= length (m_rest σ) /\ k (advance n σ) = Some x /\
            forall j, j < n -> k (advance j σ) = None.
Proof.
  induction fuel as [|fuel IH]; intros σ x Hfuel H.
  - simpl in H. exists 0. rewrite advance_0. repeat split; [lia|done|intros; lia].
  - rewrite star_loop_lazy_step in H. destruct (k σ) as [y|] eqn:Ek.
    + injection H as <-. exists 0. rewrite advance_0. repeat split; [lia|done|intros; lia].
    + rewrite rmatch_Any in H. destruct (m_rest σ) as [|c s] eqn:Er; [done|].
      assert (Hlen : length (m_rest (advance 1 σ)) = length s).
      { simpl. rewrite Er. simpl. by rewrite drop_0. }
      rewrite Hlen in H. simpl in H, Hfuel.
      destruct (Nat.ltb_spec (length s) (S (length s))) as [_|]; [|lia].
      apply IH in H as (n & Hn & Hk & Hnone); [|lia].
      exists (S n). rewrite advance_advance in Hk. repeat split.
      * simpl. lia.
      * done.
      * intros [|j] Hj; [by rewrite advance_0|].
        specialize (Hnone j). rewrite advance_advance in Hnone. apply Hnone. lia.
Qed.

Lemma rmatch_Seq_sound a b σ k x :
  rmatch (Seq a b) σ k = Some x -> exists σ1, Run a σ σ1 /\ rmatch b σ1 k = Some x.
Proof. simpl. intros H. by apply rmatch_sound in H. Qed.

Lemma rmatch_lazy_group n c σ x :
  rmatch (Seq (Group n (Star false Any)) c) σ Some = Some x ->
  exists i, i <= length (m_rest σ) /\
            rmatch c (close_group n σ (advance i σ)) Some = Some x /\
            forall j, j < i -> rmatch c (close_group n σ (advance j σ)) Some = None.
Proof.
  simpl. intros H.
  apply (star_loop_lazy_any (fun σ' => rmatch c (close_group n σ σ') Some)) in H; [|done].
  exact H.
Qed.

End LazyStar.

Section Landing.

Lemma eats_lands w σ σ' : eats w σ σ' <-> lands w (m_caps σ) σ σ'.
Proof.
  split.
  - intros (E & P & C). exists (m_rest σ'). split; [done|]. by apply mstate_eq.
  - intros (s & E & ->). by repeat split.
Qed.

Lemma lands_app w1 w2 c1 c2 σ σ1 σ2 :
  lands w1 c1 σ σ1 -> lands w2 c2 σ1 σ2 -> lands (w1 ++ w2) c2 σ σ2.
Proof.
  intros (s1 & E1 & ->) (s2 & E2 & ->). simpl in *. exists s2.
  rewrite E1, E2, <- app_assoc, length_app. split; [done|]. f_equal. lia.
Qed.

Lemma lands_split w1 w2 c1 c2 σ σ2 :
  lands (w1 ++ w2) c2 σ σ2 ->
  exists σ1, lands w1 c1 σ σ1 /\ lands w2 c2 σ1 σ2 /\ m_caps σ1 = c1.
Proof.
  intros (s & E & ->).
  exists {| m_pos := m_pos σ + length w1; m_rest := w2 ++ s; m_caps := c1 |}.
  repeat split.
  - exists (w2 ++ s). by rewrite E, <- app_assoc.
  - exists s. simpl. split; [done|]. f_equal. rewrite length_app. lia.
Qed.

Lemma lands_caps w c σ σ' : lands w c σ σ' -> m_caps σ' = c.
Proof. by intros (s & _ & ->). Qed.

Lemma lands_rest w c σ σ' : lands w c σ σ' -> m_rest σ = w ++ m_rest σ'.
Proof. by intros (s & E & ->). Qed.

Lemma lands_recap w c c' σ σ' :
  lands w c σ σ' ->
  lands w c' σ {| m_pos := m_pos σ'; m_rest := m_rest σ'; m_caps := c' |}.
Proof. intros (s & E & ->). by exists s. Qed.

Lemma Run_Lit_lands a σ σ' :
  Run (Lit (String a EmptyString)) σ σ' <-> lands [a] (m_caps σ) σ σ'.
Proof. by rewrite Run_Lit_iff, eats_lands. Qed.

Lemma Run_Star_Chr_lands g p σ σ' :
  Run (Star g (Chr p)) σ σ' <-> exists w, forallb p w = true /\ lands w (m_caps σ) σ σ'.
Proof.
  rewrite Run_Star_Chr_iff. by setoid_rewrite eats_lands.
Qed.

Lemma Run_Plus_Chr_lands p σ σ' :
  Run (Plus (Chr p)) σ σ' <->
  exists w, w <> [] /\ forallb p w = true /\ lands w (m_caps σ) σ σ'.
Proof.
  rewrite Run_Plus_Chr_iff. by setoid_rewrite eats_lands.
Qed.

(** A capture group around a pattern that captures nothing itself. *)
Lemma Run_Group_lands n r (P : jsstring -> Prop) :
  (forall σ σ', Run r σ σ' <-> exists w, P w /\ lands w (m_caps σ) σ σ') ->
  forall σ σ'',
    Run (Group n r) σ σ'' <-> exists w, P w /\ lands w ((n, w) :: m_caps σ) σ σ''.
Proof.
  intros Hr σ σ''. rewrite Run_Group_iff. split.
  - intros (σ' & HR & ->). apply Hr in HR as (w & HP & (s & E & ->)).
    exists w. split; [done|]. exists s. split; [done|].
    unfold close_group. simpl. f_equal. f_equal. f_equal.
    replace (m_pos σ + length w - m_pos σ) with (length w) by lia.
    by rewrite E, take_app_length.
  - intros (w & HP & (s & E & ->)).
    exists {| m_pos := m_pos σ + length w; m_rest := s; m_caps := m_caps σ |}.
    split; [apply Hr; exists w; split; [done|by exists s]|].
    unfold close_group. simpl. f_equal. f_equal. f_equal.
    replace (m_pos σ + length w - m_pos σ) with (length w) by lia.
    by rewrite E, take_app_length.
Qed.

Lemma Run_NAME σ σ' :
  Run TagPatterns.NAME σ σ' <-> exists w, tag_name w /\ lands w (m_caps σ) σ σ'.
Proof.
  unfold TagPatterns.NAME. rewrite Run_Seq_iff. split.
  - intros (σ1 & H1 & H2). apply Run_Chr_iff in H1 as (c & Hc & He).
    apply eats_lands in He.
    apply Run_Star_Chr_lands in H2 as (w & Hw & Hl).
    exists ([c] ++ w). split; [done|].
    rewrite (lands_caps _ _ _ _ He) in Hl. eapply lands_app; eauto.
  - intros ([|c w] & Hn & Hl); [done|]. destruct Hn as [Hc Hw].
    apply (lands_split [c] w (m_caps σ)) in Hl as (σ1 & H1 & H2 & Hc1).
    exists σ1. split.
    + apply Run_Chr_iff. exists c. split; [done|]. by apply eats_lands.
    + apply Run_Star_Chr_lands. exists w. split; [done|]. by rewrite Hc1.
Qed.

Lemma Run_ATTRS σ σ' :
  Run TagPatterns.ATTRS σ σ' <-> exists w, attr_text w /\ lands w (m_caps σ) σ σ'.
Proof.
  unfold TagPatterns.ATTRS, Opt. rewrite Run_Alt_iff, Run_Seq_iff, Run_Eps_iff. split.
  - intros [(σ1 & H1 & H2)| ->].
    + apply Run_Plus_Chr_lands in H1 as (ws & Hne & Hws & Hl1).
      apply Run_Star_Chr_lands in H2 as (x & Hx & Hl2).
      rewrite (lands_caps _ _ _ _ Hl1) in Hl2.
      exists (ws ++ x). split; [right; by exists ws, x|]. eapply lands_app; eauto.
    + exists []. split; [by left|]. apply eats_lands, eats_nil.
  - intros (w & [->|(ws & x & -> & Hne & Hws & Hx)] & Hl).
    + right. apply eats_lands, eats_advance in Hl as ->. apply advance_0.
    + left. apply (lands_split ws x (m_caps σ)) in Hl as (σ1 & H1 & H2 & Hc1).
      exists σ1. split.
      * apply Run_Plus_Chr_lands. by exists ws.
      * apply Run_Star_Chr_lands. exists x. split; [done|]. by rewrite Hc1.
Qed.

End Landing.

Section CompleteShape.

Lemma starts_with_iff w s : starts_with w s = true <-> exists s', s = w ++ s'.
Proof.
  revert s. induction w as [|a w IH]; intros s; simpl.
  - split; [intros _; by exists s|done].
  - destruct s as [|b s]; [split; [done|intros (s' & ?); done]|].
    rewrite andb_true_iff, IH, Nat.eqb_eq. split.
    + intros [Hc (s' & ->)]. exists s'. f_equal.
      unfold code in Hc.
      rewrite <- (ascii_nat_embedding a), <- (ascii_nat_embedding b). by rewrite Hc.
    + intros (s' & [= -> ->]). split; [done|by exists s'].
Qed.

Lemma Run_Backref_lands n w σ σ' :
  cap n σ = Some w -> (Run (Backref n) σ σ' <-> lands w (m_caps σ) σ σ').
Proof.
  intros Hcap. split.
  - inversion 1; subst; [congruence|].
    match goal with H : cap n σ = Some _ |- _ => rewrite Hcap in H; injection H as <- end.
    match goal with H : starts_with _ _ = true |- _ => apply starts_with_iff in H as (s' & E) end.
    exists s'. split; [done|]. unfold advance. f_equal. by rewrite E, drop_app_length.
  - intros (s & E & ->).
    replace {| m_pos := m_pos σ + length w; m_rest := s; m_caps := m_caps σ |}
      with (advance (length w) σ).
    + apply Run_Backref; [done|]. apply starts_with_iff. by exists s.
    + unfold advance. f_equal. by rewrite E, drop_app_length.
Qed.

Lemma Run_opener σ0 σ1 σ2 σ3 σ4 σ5 :
  Run (Lit "<") σ0 σ1 -> Run (Group 1 TagPatterns.NAME) σ1 σ2 ->
  Run (Group 2 TagPatterns.ATTRS) σ2 σ3 -> Run (Star true (Chr is_space)) σ3 σ4 ->
  Run (Lit ">") σ4 σ5 ->
  exists name attrs o,
    opener_text name attrs o /\ lands o ((2, attrs) :: (1, name) :: m_caps σ0) σ0 σ5.
Proof.
  intros H1 H2 H3 H4 H5.
  apply Run_Lit_lands in H1.
  apply (Run_Group_lands 1 _ tag_name Run_NAME) in H2 as (name & Hname & H2).
  apply (Run_Group_lands 2 _ attr_text Run_ATTRS) in H3 as (attrs & Hattrs & H3).
  apply Run_Star_Chr_lands in H4 as (ws & Hws & H4).
  apply Run_Lit_lands in H5.
  rewrite (lands_caps _ _ _ _ H1) in H2.
  rewrite (lands_caps _ _ _ _ H2) in H3.
  rewrite (lands_caps _ _ _ _ H3) in H4.
  rewrite (lands_caps _ _ _ _ H4) in H5.
  exists name, attrs, (js "<" ++ name ++ attrs ++ ws ++ js ">").
  split; [by exists ws|].
  eapply lands_app; [exact H1|]. eapply lands_app; [exact H2|].
  eapply lands_app; [exact H3|]. eapply lands_app; [exact H4|exact H5].
Qed.

Lemma opener_Run name attrs o σ0 σ5 :
  opener_text name attrs o -> lands o ((2, attrs) :: (1, name) :: m_caps σ0) σ0 σ5 ->
  exists σ1 σ2 σ3 σ4,
    Run (Lit "<") σ0 σ1 /\ Run (Group 1 TagPatterns.NAME) σ1 σ2 /\
    Run (Group 2 TagPatterns.ATTRS) σ2 σ3 /\ Run (Star true (Chr is_space)) σ3 σ4 /\
    Run (Lit ">") σ4 σ5.
Proof.
  intros (ws & Hname & Hattrs & Hws & ->) Hl.
  apply (lands_split (js "<") _ (m_caps σ0)) in Hl as (σ1 & H1 & Hl & C1).
  apply (lands_split name _ ((1, name) :: m_caps σ0)) in Hl as (σ2 & H2 & Hl & C2).
  apply (lands_split attrs _ ((2, attrs) :: (1, name) :: m_caps σ0)) in Hl
    as (σ3 & H3 & Hl & C3).
  apply (lands_split ws _ ((2, attrs) :: (1, name) :: m_caps σ0)) in Hl
    as (σ4 & H4 & H5 & C4).
  exists σ1, σ2, σ3, σ4. repeat split.
  - by apply Run_Lit_lands.
  - apply (Run_Group_lands 1 _ tag_name Run_NAME). exists name. by rewrite C1.
  - apply (Run_Group_lands 2 _ attr_text Run_ATTRS). exists attrs. by rewrite C2.
  - apply Run_Star_Chr_lands. exists ws. by rewrite C3.
  - apply Run_Lit_lands. by rewrite C4.
Qed.

Lemma Run_CLOSE_TAIL name σ σ' :
  cap 1 σ = Some name ->
  (Run CLOSE_TAIL σ σ' <-> exists c, closer_text name c /\ lands c (m_caps σ) σ σ').
Proof.
  intros Hcap. unfold CLOSE_TAIL. split.
  - intros H.
    apply Run_Seq_iff in H as (σ1 & H1 & H). apply Run_Lit_lands in H1.
    apply Run_Seq_iff in H as (σ2 & H2 & H). apply Run_Lit_lands in H2.
    rewrite (lands_caps _ _ _ _ H1) in H2.
    apply Run_Seq_iff in H as (σ3 & H3 & H).
    assert (Hcap2 : cap 1 σ2 = Some name)
      by (unfold cap; by rewrite (lands_caps _ _ _ _ H2)).
    apply (Run_Backref_lands 1 name _ _ Hcap2) in H3.
    rewrite (lands_caps _ _ _ _ H2) in H3.
    apply Run_Seq_iff in H as (σ4 & H4 & H5).
    apply Run_Star_Chr_lands in H4 as (ws & Hws & H4).
    rewrite (lands_caps _ _ _ _ H3) in H4.
    apply Run_Lit_lands in H5. rewrite (lands_caps _ _ _ _ H4) in H5.
    exists (js "</" ++ name ++ ws ++ js ">"). split; [by exists ws|].
    change (js "</" ++ name ++ ws ++ js ">")
      with (js "<" ++ js "/" ++ name ++ ws ++ js ">").
    eapply lands_app; [exact H1|]. eapply lands_app; [exact H2|].
    eapply lands_app; [exact H3|]. eapply lands_app; [exact H4|exact H5].
  - intros (c & (ws & Hws & ->) & Hl).
    change (js "</" ++ name ++ ws ++ js ">")
      with (js "<" ++ js "/" ++ name ++ ws ++ js ">") in Hl.
    apply (lands_split (js "<") _ (m_caps σ)) in Hl as (σ1 & H1 & Hl & C1).
    apply (lands_split (js "/") _ (m_caps σ)) in Hl as (σ2 & H2 & Hl & C2).
    apply (lands_split name _ (m_caps σ)) in Hl as (σ3 & H3 & Hl & C3).
    apply (lands_split ws _ (m_caps σ)) in Hl as (σ4 & H4 & H5 & C4).
    apply Run_Seq_iff. exists σ1. split; [by apply Run_Lit_lands|].
    apply Run_Seq_iff. exists σ2. split; [apply Run_Lit_lands; by rewrite C1|].
    apply Run_Seq_iff. exists σ3. split.
    { apply (Run_Backref_lands 1 name); [unfold cap; by rewrite C2|by rewrite C2]. }
    apply Run_Seq_iff. exists σ4. split.
    { apply Run_Star_Chr_lands. exists ws. by rewrite C3. }
    apply Run_Lit_lands. by rewrite C4.
Qed.

End CompleteShape.

Section CompleteMatch.

Lemma Run_Star_Any_lands σ σ' :
  Run (Star false Any) σ σ' <-> exists w, True /\ lands w (m_caps σ) σ σ'.
Proof.
  unfold Any. rewrite Run_Star_Chr_lands. split.
  - intros (w & _ & Hl). by exists w.
  - intros (w & _ & Hl). exists w. split; [|done].
    clear. induction w as [|c w IH]; [done|exact IH].
Qed.

(** What a match of [COMPLETE] at an index looks like: an opening tag,
    the content, the closing tag of the same name; the captures are the
    name, the attribute text and the content; and no closing tag of that
    name begins inside the content. *)
Lemma COMPLETE_match idx s0 σf :
  match_at TagPatterns.COMPLETE idx s0 = Some σf ->
  exists name attrs content o c,
    opener_text name attrs o /\ closer_text name c /\
    s0 = (o ++ content ++ c) ++ m_rest σf /\
    m_caps σf = [(3, content); (2, attrs); (1, name)] /\
    forall j, j < length content -> ~ closer_at name (drop j (content ++ c ++ m_rest σf)).
Proof.
  unfold match_at, TagPatterns.COMPLETE. intros H.
  apply rmatch_Seq_sound in H as (σ1 & H1 & H).
  apply rmatch_Seq_sound in H as (σ2 & H2 & H).
  apply rmatch_Seq_sound in H as (σ3 & H3 & H).
  apply rmatch_Seq_sound in H as (σ4 & H4 & H).
  apply rmatch_Seq_sound in H as (σ5 & H5 & H).
  apply rmatch_lazy_group in H as (i & Hi & Hc & Hnone).
  change (Lit "<" ∙ Lit "/" ∙ Backref 1 ∙ Star true (Chr is_space) ∙ Lit ">")%re
    with CLOSE_TAIL in Hc, Hnone.
  destruct (Run_opener _ _ _ _ _ _ H1 H2 H3 H4 H5) as (name & attrs & o & Hop & Hl).
  clear H1 H2 H3 H4 H5.
  destruct Hl as (s5 & E0 & ->). cbn [m_pos m_rest m_caps] in Hc, Hnone, E0.
  set (σ5 := {| m_pos := idx + length o; m_rest := s5;
                m_caps := [(2, attrs); (1, name)] |}) in *.
  assert (Hcap : forall j, cap 1 (close_group 3 σ5 (advance j σ5)) = Some name) by done.
  assert (Hrest : forall j, m_rest (close_group 3 σ5 (advance j σ5)) = drop j s5) by done.
  apply rmatch_sound in Hc as (σ' & Hc & [= ->]).
  apply (Run_CLOSE_TAIL name _ _ (Hcap i)) in Hc as (c & Hct & Hl).
  pose proof (lands_rest _ _ _ _ Hl) as E6. rewrite Hrest in E6.
  pose proof (lands_caps _ _ _ _ Hl) as C6.
  assert (Hi' : m_pos (advance i σ5) - m_pos σ5 = i) by (simpl; lia).
  exists name, attrs, (take i s5), o, c. repeat split; try done.
  - rewrite E0, <- !app_assoc. f_equal. by rewrite <- E6, take_drop.
  - rewrite C6. unfold close_group. by rewrite Hi'.
  - intros j Hj (c' & rest & Hct' & E').
    rewrite length_take in Hj.
    assert (Hrun : is_Some (rmatch CLOSE_TAIL (close_group 3 σ5 (advance j σ5)) Some)).
    { eapply rmatch_complete; [|done].
      apply (Run_CLOSE_TAIL name _ _ (Hcap j)). exists c'. split; [done|].
      exists rest. split; [|done]. rewrite Hrest.
      rewrite <- E'. rewrite <- E6, take_drop. done. }
    destruct Hrun as [x Hx]. rewrite (Hnone j) in Hx; [done|lia].
Qed.

(** Conversely [COMPLETE] matches wherever the text begins with a
    complete tag. *)
Lemma COMPLETE_complete idx s0 :
  complete_at s0 -> is_Some (match_at TagPatterns.COMPLETE idx s0).
Proof.
  intros (name & attrs & content & w & rest & (o & c & Hop & Hct & ->) & ->).
  set (σ0 := {| m_pos := idx; m_rest := (o ++ content ++ c) ++ rest; m_caps := [] |}).
  set (σ5 := {| m_pos := idx + length o; m_rest := content ++ c ++ rest;
                m_caps := [(2, attrs); (1, name)] |}).
  set (σ6 := {| m_pos := m_pos σ5 + length content; m_rest := c ++ rest;
                m_caps := (3, content) :: m_caps σ5 |}).
  set (σf := {| m_pos := m_pos σ6 + length c; m_rest := rest; m_caps := m_caps σ6 |}).
  apply (Run_match_at _ _ _ σf). fold σ0.
  assert (Hl : lands o ((2, attrs) :: (1, name) :: m_caps σ0) σ0 σ5).
  { exists (content ++ c ++ rest). split; [|done]. simpl. by rewrite <- !app_assoc. }
  destruct (opener_Run _ _ _ _ _ Hop Hl) as (σ1 & σ2 & σ3 & σ4 & H1 & H2 & H3 & H4 & H5).
  unfold TagPatterns.COMPLETE.
  apply Run_Seq_iff. exists σ1. split; [done|].
  apply Run_Seq_iff. exists σ2. split; [done|].
  apply Run_Seq_iff. exists σ3. split; [done|].
  apply Run_Seq_iff. exists σ4. split; [done|].
  apply Run_Seq_iff. exists σ5. split; [done|].
  apply Run_Seq_iff. exists σ6. split.
  - apply (Run_Group_lands 3 _ (fun _ => True) Run_Star_Any_lands).
    exists content. split; [done|]. by exists (c ++ rest).
  - apply (Run_CLOSE_TAIL name); [done|]. exists c. split; [done|]. by exists rest.
Qed.

End CompleteMatch.

Section FindCompleteTags.

Import TagMatcher.

Lemma completeTagMatch_spec caseSensitive buffer m σ :
  match_at TagPatterns.COMPLETE (mr_index m) (drop (mr_index m) buffer) = Some σ ->
  mr_groups m = m_caps σ ->
  drop (mr_index m) buffer = mr_text m ++ m_rest σ ->
  mr_index m + length (mr_text m) <= length buffer ->
  exists tm,
    completeTagMatch caseSensitive m = Some (Some tm) /\
    TagMatch.startIndex tm = mr_index m /\
    TagMatch.endIndex tm = lastIndexAfter m /\
    complete_tag_in caseSensitive buffer tm.
Proof.
  intros Hm Hg Ht Hend.
  apply COMPLETE_match in Hm as (name & attrs & content & o & c & Hop & Hct & E & Hc & Hlazy).
  assert (Htext : mr_text m = o ++ content ++ c).
  { rewrite Ht in E. by apply app_inv_tail in E. }
  unfold completeTagMatch, group. rewrite Hg, Hc. simpl.
  destruct Hop as (ws & Hname & Hop). destruct name as [|n0 name]; [done|].
  destruct (parseAttributes_returns attrs) as [a Ha]. rewrite Ha. simpl.
  eexists. split; [done|]. simpl. repeat split.
  exists (n0 :: name), attrs, o, c. simpl.
  assert (Hrest : drop (mr_index m + length (mr_text m)) buffer = m_rest σ).
  { by rewrite <- drop_drop, Ht, drop_app_length. }
  repeat split; try done.
  - by exists ws.
  - by rewrite Hrest.
  - intros j Hj. specialize (Hlazy (j - mr_index m - length o)).
    replace (drop j buffer)
      with (drop (j - mr_index m - length o) (content ++ c ++ m_rest σ)); [apply Hlazy; lia|].
    replace j with (mr_index m + (length o + (j - mr_index m - length o))) at 2 by lia.
    rewrite <- drop_drop, Ht, Htext, <- !app_assoc.
    by rewrite <- drop_drop, drop_app_length.
Qed.

Lemma traverse_Forall2 {A B : Type} (f : A -> option (option B)) (R : A -> B -> Prop)
    (l : list A) :
  Forall (fun a => exists b, f a = Some (Some b) /\ R a b) l ->
  exists bs, traverse f l = Some (Some <$> bs) /\ Forall2 R l bs.
Proof.
  induction 1 as [|a l (b & Hb & HR) _ (bs & IH & IH2)]; simpl.
  - by exists [].
  - exists (b :: bs). rewrite Hb, IH. simpl. split; [done|by constructor].
Qed.

Lemma omap_id_Some {B : Type} (bs : list B) : omap id (Some <$> bs) = bs.
Proof. induction bs as [|b bs IH]; [done|]. simpl. f_equal. exact IH. Qed.

Lemma tags_ordered_of_matches found tms :
  Forall2 (fun m tm =>
             TagMatch.startIndex tm = mr_index m /\
             TagMatch.endIndex tm = lastIndexAfter m /\
             0 < length (mr_text m)) found tms ->
  forall i, matches_ordered i found -> tags_ordered i tms.
Proof.
  induction 1 as [|m tm found tms (Hs & He & Hlen) _ IH]; intros i Ho; simpl in *.
  - done.
  - destruct Ho as [Hi Ho]. rewrite Hs, He. unfold lastIndexAfter in *.
    repeat split; [done|lia|by apply IH].
Qed.

Lemma outside_of_tags found tms j :
  Forall2 (fun m tm =>
             TagMatch.startIndex tm = mr_index m /\
             TagMatch.endIndex tm = lastIndexAfter m) found tms ->
  outside_tags tms j -> outside_matches found j.
Proof.
  unfold outside_tags, outside_matches.
  induction 1 as [|m tm found tms (Hs & He) _ IH]; intros Hout; [done|].
  inversion Hout as [|? ? Hj Hout']; subst. constructor; [|by apply IH].
  by rewrite <- Hs, <- He.
Qed.

End FindCompleteTags.

(** C5: for every buffer, [findCompleteTags] returns, and what it returns
    are all the complete tags of the buffer, left to right and without
    overlap.  Each returned match starts at or after the end of the one
    before it and is not empty.  Each is the text of an opening tag, a
    content and a closing tag whose name is the name of the opening tag,
    found in the buffer at the match's indices; the content is matched
    non-greedily: no closing tag of that name begins inside it.  No
    complete tag begins at an index outside the returned matches.  A name
    whose closing tag occurs nowhere in the buffer has no match: on
    [<a>text] and on [<a>x</b>] the result is empty. *)
Theorem C5_findCompleteTags_all_in_order (caseSensitive : bool) (buffer : jsstring) :
  exists tms,
    TagMatcher.findCompleteTags caseSensitive buffer = Some tms /\
    tags_ordered 0 tms /\
    Forall (complete_tag_in caseSensitive buffer) tms /\
    (forall j, j <= length buffer -> outside_tags tms j -> ~ complete_at (drop j buffer)) /\
    (forall name,
       (forall j, ~ closer_at name (drop j buffer)) ->
       Forall (fun tm => forall attrs content,
                 ~ complete_text name attrs content (TagMatch.fullMatch tm)) tms) /\
    TagMatcher.findCompleteTags caseSensitive (js "<a>text") = Some [] /\
    TagMatcher.findCompleteTags caseSensitive (js "<a>x</b>") = Some [].
Proof.
  destruct (execAll_returns TagPatterns.COMPLETE buffer) with
    (fuel := S (length buffer)) (lastIndex := 0) as [found Hfound]; [simpl; lia|lia|lia|].
  destruct (execAll_spec _ _ _ _ _ Hfound) as (Ho & Hall & Hgap).
  assert (Hall' : Forall (fun m =>
            exists tm, TagMatcher.completeTagMatch caseSensitive m = Some (Some tm) /\
                       (TagMatch.startIndex tm = mr_index m /\
                        TagMatch.endIndex tm = lastIndexAfter m /\
                        0 < length (mr_text m) /\
                        complete_tag_in caseSensitive buffer tm)) found).
  { eapply Forall_impl; [exact Hall|]. intros m (σ & Hm & Hg & Ht & Hmin & Hend).
    destruct (completeTagMatch_spec caseSensitive buffer m σ Hm Hg Ht Hend)
      as (tm & Htm & Hs & He & Hin).
    exists tm. repeat split; try done. simpl in Hmin. lia. }
  apply traverse_Forall2 in Hall' as (tms & Htr & HR).
  exists tms. split.
  { unfold TagMatcher.findCompleteTags. rewrite Hfound. simpl. rewrite Htr. simpl.
    by rewrite omap_id_Some. }
  assert (Hin : Forall (complete_tag_in caseSensitive buffer) tms).
  { clear -HR. induction HR as [|m tm found tms (_ & _ & _ & H) _ IH]; by constructor. }
  split; [|split; [exact Hin|split; [|split]]].
  - apply (tags_ordered_of_matches found); [|done].
    eapply Forall2_impl; [exact HR|]. intros m tm (Hs & He & Hlen & _). done.
  - intros j Hj Hout Hcomplete.
    apply (COMPLETE_complete j) in Hcomplete as [σ Hσ].
    rewrite Hgap in Hσ; [done|lia|].
    apply (outside_of_tags found tms); [|done].
    eapply Forall2_impl; [exact HR|]. intros m tm (Hs & He & _). done.
  - intros name Hnone. eapply Forall_impl; [exact Hin|].
    intros tm (name' & attrs' & o' & c' & _ & _ & _ & _ & _ & _ & He & _ & Hdrop & _)
           attrs content (o & c & Hop & Hct & Hfull).
    apply (Hnone (TagMatch.startIndex tm + (length o + length content))).
    exists c, (drop (TagMatch.endIndex tm) buffer). split; [done|].
    rewrite <- drop_drop, Hdrop, Hfull, <- !app_assoc.
    by rewrite <- drop_drop, drop_app_length, drop_app_length.
  - split; destruct caseSensitive; reflexivity.
Qed.

(** * The buffer: [consume], [removeRange], capacity *)

Section BufferOperations.

Import BufferManager.

Lemma size_of_app a b : size_of (a ++ b) = (size_of a + size_of b)%Z.
Proof. unfold size_of. rewrite length_app. lia. Qed.

Lemma consume_buffer len b :
  buffer (consume len b).2 = drop (Z.to_nat len) (buffer b) /\
  (consume len b).1 = take (Z.to_nat len) (buffer b).
Proof.
  unfold consume, size_of.
  destruct (Z.leb_spec len 0) as [H|H]; simpl.
  - replace (Z.to_nat len) with 0 by lia. by rewrite drop_0, take_0.
  - destruct (Z.leb_spec (Z.of_nat (length (buffer b))) len) as [H'|H']; simpl.
    + rewrite drop_ge, take_ge by lia. done.
    + done.
Qed.

Lemma consume_frame len b :
  maxSize (consume len b).2 = maxSize b /\
  totalBytesProcessed (consume len b).2 = totalBytesProcessed b.
Proof.
  unfold consume. destruct (_ <=? _)%Z; [done|]. by destruct (_ <=? _)%Z.
Qed.

Lemma buffer_eq b b' :
  buffer b = buffer b' -> maxSize b = maxSize b' ->
  totalBytesProcessed b = totalBytesProcessed b' -> b = b'.
Proof. destruct b, b'; simpl; congruence. Qed.

End BufferOperations.

(** X1: [consume(length)] cuts the buffer in two.  What it returns
    followed by what it leaves is the old content; the returned text has
    [length] code units, clamped between zero and the size of the buffer;
    the maximum and the count of bytes processed are untouched.  Two
    calls in a row, of non-negative lengths, return and leave what one
    call of the sum does. *)
Theorem X1_consume_splits_the_buffer (b : BufferManager.t) (len : Z) :
  (BufferManager.consume len b).1 ++ BufferManager.buffer (BufferManager.consume len b).2
    = BufferManager.buffer b /\
  BufferManager.size_of (BufferManager.consume len b).1
    = Z.max 0 (Z.min len (BufferManager.getSize b)) /\
  BufferManager.maxSize (BufferManager.consume len b).2 = BufferManager.maxSize b /\
  BufferManager.getTotalProcessed (BufferManager.consume len b).2
    = BufferManager.getTotalProcessed b /\
  (forall n m : Z,
     (0 <= n)%Z -> (0 <= m)%Z ->
     let b1 := (BufferManager.consume n b).2 in
     (BufferManager.consume n b).1 ++ (BufferManager.consume m b1).1
       = (BufferManager.consume (n + m) b).1 /\
     (BufferManager.consume m b1).2 = (BufferManager.consume (n + m) b).2).
Proof.
  destruct (consume_buffer len b) as [Hb Hr]. destruct (consume_frame len b) as [Hm Ht].
  repeat split; try done.
  - rewrite Hb, Hr. apply take_drop.
  - rewrite Hr. unfold BufferManager.size_of, BufferManager.getSize, BufferManager.size_of.
    rewrite length_take. lia.
  - destruct (consume_buffer n b) as [Hb1 Hr1].
    destruct (consume_buffer m (BufferManager.consume n b).2) as [Hb2 Hr2].
    destruct (consume_buffer (n + m) b) as [Hb3 Hr3].
    rewrite Hr1, Hr2, Hr3, Hb1.
    replace (Z.to_nat (n + m)) with (Z.to_nat n + Z.to_nat m) by lia.
    by rewrite take_take_drop.
  - destruct (consume_buffer n b) as [Hb1 Hr1].
    destruct (consume_buffer m (BufferManager.consume n b).2) as [Hb2 Hr2].
    destruct (consume_buffer (n + m) b) as [Hb3 Hr3].
    destruct (consume_frame n b) as [Hm1 Ht1].
    destruct (consume_frame m (BufferManager.consume n b).2) as [Hm2 Ht2].
    destruct (consume_frame (n + m) b) as [Hm3 Ht3].
    apply buffer_eq; [|congruence|congruence].
    rewrite Hb2, Hb1, Hb3, drop_drop. f_equal. lia.
Qed.

(** X2: [removeRange(startIndex, endIndex)] changes nothing when
    [startIndex] is negative, when [endIndex] lies before [startIndex] or
    when [startIndex] is at or past the end of the buffer.  Otherwise it
    keeps the text before [startIndex] and the text from [endIndex] on,
    so the size drops by the part of the range that lies in the buffer.
    It never changes the maximum or the count of bytes processed, and
    removing the range from [0] to [n] leaves the buffer that
    [consume(n)] leaves, for every [n]. *)
Theorem X2_removeRange_cuts_a_range (b : BufferManager.t) (startIndex endIndex : Z) :
  ((startIndex < 0 \/ endIndex < startIndex \/ BufferManager.getSize b <= startIndex)%Z ->
   BufferManager.removeRange startIndex endIndex b = b) /\
  ((0 <= startIndex < BufferManager.getSize b)%Z -> (startIndex <= endIndex)%Z ->
   BufferManager.buffer (BufferManager.removeRange startIndex endIndex b)
     = take (Z.to_nat startIndex) (BufferManager.buffer b) ++
       drop (Z.to_nat endIndex) (BufferManager.buffer b) /\
   BufferManager.getSize (BufferManager.removeRange startIndex endIndex b)
     = (BufferManager.getSize b - (Z.min endIndex (BufferManager.getSize b) - startIndex))%Z) /\
  BufferManager.maxSize (BufferManager.removeRange startIndex endIndex b)
    = BufferManager.maxSize b /\
  BufferManager.getTotalProcessed (BufferManager.removeRange startIndex endIndex b)
    = BufferManager.getTotalProcessed b /\
  (forall n : Z, BufferManager.removeRange 0 n b = (BufferManager.consume n b).2).
Proof.
  unfold BufferManager.removeRange, BufferManager.getSize, BufferManager.size_of.
  repeat split.
  - intros H.
    destruct (Z.ltb_spec startIndex 0); [done|].
    destruct (Z.ltb_spec endIndex startIndex); [done|].
    destruct (Z.leb_spec (Z.of_nat (length (BufferManager.buffer b))) startIndex); [done|lia].
  - destruct (Z.ltb_spec startIndex 0); [lia|].
    destruct (Z.ltb_spec endIndex startIndex); [lia|].
    destruct (Z.leb_spec (Z.of_nat (length (BufferManager.buffer b))) startIndex); [lia|done].
  - destruct (Z.ltb_spec startIndex 0); [lia|].
    destruct (Z.ltb_spec endIndex startIndex); [lia|].
    destruct (Z.leb_spec (Z.of_nat (length (BufferManager.buffer b))) startIndex); [lia|].
    simpl. rewrite length_app, length_take, length_drop. lia.
  - by destruct (_ || _ || _).
  - by destruct (_ || _ || _).
  - intros n. destruct (consume_buffer n b) as [Hb _]. destruct (consume_frame n b) as [Hm Ht].
    apply buffer_eq; [|by destruct (_ || _ || _)|by destruct (_ || _ || _)].
    rewrite Hb.
    destruct (Z.ltb_spec 0 0); [lia|].
    destruct (Z.ltb_spec n 0); simpl.
    { replace (Z.to_nat n) with 0 by lia. by rewrite drop_0. }
    destruct (Z.leb_spec (Z.of_nat (length (BufferManager.buffer b))) 0); simpl.
    { rewrite drop_ge by lia. destruct (BufferManager.buffer b); [done|simpl in *; lia]. }
    done.
Qed.

(** X3: the capacity that [getRemainingCapacity] reports is what
    [append] goes by: a chunk is accepted exactly when its length is at
    most the remaining capacity, and the capacity then drops by that
    length and stays non-negative.  An accepted chunk queues behind what
    the buffer holds: consuming the old size returns the old content and
    leaves the chunk.  [isEmpty] and [hasContent] are opposites, and
    [clear] empties the buffer, which restores the full capacity. *)
Theorem X3_capacity_and_queue_order (b : BufferManager.t) (chunk : jsstring) :
  ((BufferManager.append chunk b).1 = Ok tt <->
   (BufferManager.size_of chunk <= BufferManager.getRemainingCapacity b)%Z) /\
  ((BufferManager.size_of chunk <= BufferManager.getRemainingCapacity b)%Z ->
   let b' := (BufferManager.append chunk b).2 in
   BufferManager.getRemainingCapacity b'
     = (BufferManager.getRemainingCapacity b - BufferManager.size_of chunk)%Z /\
   (0 <= BufferManager.getRemainingCapacity b')%Z /\
   (BufferManager.consume (BufferManager.getSize b) b').1 = BufferManager.getContent b /\
   BufferManager.getContent (BufferManager.consume (BufferManager.getSize b) b').2 = chunk) /\
  BufferManager.isEmpty b = negb (BufferManager.hasContent b) /\
  BufferManager.isEmpty (BufferManager.clear b) = true /\
  BufferManager.getRemainingCapacity (BufferManager.clear b) = BufferManager.maxSize b.
Proof.
  unfold BufferManager.getRemainingCapacity, BufferManager.getSize,
         BufferManager.getContent.
  repeat split.
  - unfold BufferManager.append.
    destruct (Z.ltb_spec (BufferManager.maxSize b)
                (BufferManager.size_of (BufferManager.buffer b) + BufferManager.size_of chunk));
      [done|lia].
  - intros H. rewrite append_accepted by lia. done.
  - rewrite append_accepted by lia. simpl. rewrite size_of_app. lia.
  - rewrite append_accepted by lia. simpl. rewrite size_of_app. lia.
  - rewrite append_accepted by lia.
    match goal with |- (BufferManager.consume ?n ?x).1 = _ =>
      destruct (consume_buffer n x) as [_ ->] end.
    simpl. unfold BufferManager.size_of. rewrite Nat2Z.id. by rewrite take_app_length.
  - rewrite append_accepted by lia.
    match goal with |- BufferManager.buffer (BufferManager.consume ?n ?x).2 = _ =>
      destruct (consume_buffer n x) as [-> _] end.
    simpl. unfold BufferManager.size_of. rewrite Nat2Z.id. by rewrite drop_app_length.
  - unfold BufferManager.isEmpty, BufferManager.hasContent, BufferManager.getSize,
           BufferManager.size_of.
    by destruct (BufferManager.buffer b).
  - unfold BufferManager.size_of. simpl. lia.
Qed.

(** * The registry of tag definitions *)

Section RegistryFacts.

Context {V : Type}.

Implicit Types m : list (jsstring * V).

Lemma assoc_get_None_keys k m : assoc_get k m = None <-> k ∉ map fst m.
Proof.
  induction m as [|[k' v] m IH]; simpl.
  - split; [intros _; apply not_elem_of_nil|done].
  - rewrite not_elem_of_cons. destruct (bool_decide_reflect (k = k')); [|tauto].
    split; [done|tauto].
Qed.

Lemma keys_assoc_set k v m :
  map fst (assoc_set k v m) =
    match assoc_get k m with
    | Some _ => map fst m
    | None => map fst m ++ [k]
    end.
Proof.
  induction m as [|[k' v'] m IH]; simpl; [done|].
  destruct (bool_decide_reflect (k = k')); simpl; [by subst|].
  rewrite IH. by destruct (assoc_get k m).
Qed.

Lemma NoDup_assoc_set k v m : NoDup (map fst m) -> NoDup (map fst (assoc_set k v m)).
Proof.
  intros H. rewrite keys_assoc_set. destruct (assoc_get k m) eqn:E; [done|].
  apply NoDup_app. repeat split; [done| |apply NoDup_singleton].
  intros x Hx ->%list_elem_of_singleton. by apply assoc_get_None_keys in E.
Qed.

Lemma filter_all {A : Type} (P : A -> Prop) `{!forall x, Decision (P x)} (l : list A) :
  Forall P l -> filter P l = l.
Proof.
  induction 1 as [|x l Hx _ IH]; [done|]. rewrite filter_cons_True by done. by rewrite IH.
Qed.

Lemma keys_assoc_delete k m :
  NoDup (map fst m) -> map fst (assoc_delete k m) = filter (fun k' => k' <> k) (map fst m).
Proof.
  induction m as [|[k' v'] m IH]; simpl; [done|].
  intros [Hk Hm]%NoDup_cons.
  destruct (bool_decide_reflect (k = k')) as [->|Hne].
  - rewrite filter_cons_False by (intros H; by apply H).
    symmetry. apply filter_all, Forall_forall. intros x Hx ->. done.
  - rewrite filter_cons_True by congruence. simpl. by rewrite IH.
Qed.

Lemma assoc_get_delete_eq k m : NoDup (map fst m) -> assoc_get k (assoc_delete k m) = None.
Proof.
  intros H. apply assoc_get_None_keys. rewrite keys_assoc_delete by done.
  intros [Hk _]%list_elem_of_filter. done.
Qed.

Lemma assoc_get_delete_ne k k' m : k <> k' -> assoc_get k' (assoc_delete k m) = assoc_get k' m.
Proof.
  intros Hne. induction m as [|[k'' v''] m IH]; simpl; [done|].
  destruct (bool_decide_reflect (k = k'')) as [->|?]; simpl.
  - by rewrite bool_decide_eq_false_2 by congruence.
  - by rewrite IH.
Qed.

End RegistryFacts.

Section RegistryCalls.

Import StreamParser.

Lemma defineTag_state definition p :
  (defineTag definition p).2 =
    let registry := assoc_set (TagDefinition.tagName definition) definition (tagRegistry p) in
    let stats' :=
      {| ParserStats.totalTagsParsed := ParserStats.totalTagsParsed (stats p);
         ParserStats.totalBytesProcessed := BufferManager.getTotalProcessed (bufferManager p);
         ParserStats.errorCount := ParserStats.errorCount (stats p);
         ParserStats.bufferSize := BufferManager.getSize (bufferManager p);
         ParserStats.state := ParserStats.state (stats p);
         ParserStats.registeredTagsCount := Z.of_nat (length registry);
         ParserStats.maxDepthReached := ParserStats.maxDepthReached (stats p);
         ParserStats.totalNestedTags := ParserStats.totalNestedTags (stats p) |} in
    with_trace (trace p ++ [Emit (stats_updated stats')])
      (with_stats stats' (with_tagRegistry registry p)).
Proof.
  unfold defineTag, updateStats. unfold_monad.
  by destruct (listeners p _).
Qed.

Lemma defineTag_outcome definition p :
  (defineTag definition p).1 =
    match listeners p (stats_updated (stats (defineTag definition p).2)) with
    | Returns _ => Ok tt
    | Raises e => Throw e
    end.
Proof.
  rewrite defineTag_state. cbv zeta. simpl.
  unfold defineTag, updateStats. unfold_monad.
  by destruct (listeners p _) as [[]|].
Qed.

End RegistryCalls.

(** X4: [defineTag] puts the definition in the registry, whatever the
    observers of [stats_updated] do.  Afterwards the name is registered
    and stands for this definition; every other name stands for what it
    stood for; a name that was registered keeps its place in
    [getRegisteredTags] and a new one goes to the end, so the names stay
    distinct; the statistics carry the number of registered names, and
    exactly one [stats_updated] is raised.  The buffer, the open tags and
    the engine state are not touched. *)
Theorem X4_defineTag_registers (definition : TagDefinition.t) (p : StreamParser.t) :
  let name := TagDefinition.tagName definition in
  let p' := state_after (StreamParser.defineTag definition) p in
  assoc_get name (StreamParser.tagRegistry p') = Some definition /\
  StreamParser.hasTag name p' = true /\
  (forall other, other <> name ->
     assoc_get other (StreamParser.tagRegistry p') = assoc_get other (StreamParser.tagRegistry p) /\
     StreamParser.hasTag other p' = StreamParser.hasTag other p) /\
  StreamParser.getRegisteredTags p' =
    (if StreamParser.hasTag name p then StreamParser.getRegisteredTags p
     else StreamParser.getRegisteredTags p ++ [name]) /\
  (NoDup (StreamParser.getRegisteredTags p) -> NoDup (StreamParser.getRegisteredTags p')) /\
  ParserStats.registeredTagsCount (StreamParser.getStats p')
    = Z.of_nat (length (StreamParser.getRegisteredTags p')) /\
  StreamParser.trace p' =
    StreamParser.trace p ++ [Emit (stats_updated (StreamParser.getStats p'))] /\
  StreamParser.bufferManager p' = StreamParser.bufferManager p /\
  StreamParser.tagStack p' = StreamParser.tagStack p /\
  StreamParser.getState p' = StreamParser.getState p /\
  outcome_of (StreamParser.defineTag definition) p =
    match StreamParser.listeners p (stats_updated (StreamParser.getStats p')) with
    | Returns _ => Ok tt
    | Raises e => Throw e
    end.
Proof.
  intros name p'. subst name p'. unfold state_after, outcome_of.
  rewrite defineTag_outcome, defineTag_state. cbv zeta.
  unfold StreamParser.hasTag, StreamParser.getRegisteredTags, StreamParser.getStats,
         StreamParser.getState. simpl.
  repeat split.
  - apply assoc_get_set_eq.
  - by rewrite assoc_get_set_eq.
  - apply assoc_get_set_ne. by intros <-.
  - rewrite assoc_get_set_ne; [done|by intros <-].
  - rewrite keys_assoc_set. by destruct (assoc_get _ _).
  - apply NoDup_assoc_set.
  - by rewrite length_map.
Qed.

Section RegistryRemoval.

Import StreamParser.

Lemma assoc_delete_length {V : Type} k (m : list (jsstring * V)) :
  is_Some (assoc_get k m) -> S (length (assoc_delete k m)) = length m.
Proof.
  induction m as [|[k' v'] m IH]; simpl; [by intros [? ?]|].
  destruct (bool_decide_reflect (k = k')); simpl; [done|].
  intros H. by rewrite IH.
Qed.

Lemma removeTag_absent tagName p :
  assoc_get tagName (tagRegistry p) = None -> removeTag tagName p = (Ok false, p).
Proof. intros H. unfold removeTag. unfold_monad. by rewrite H. Qed.

Lemma removeTag_present tagName p :
  is_Some (assoc_get tagName (tagRegistry p)) ->
  let registry := assoc_delete tagName (tagRegistry p) in
  let stats' :=
    {| ParserStats.totalTagsParsed := ParserStats.totalTagsParsed (stats p);
       ParserStats.totalBytesProcessed := BufferManager.getTotalProcessed (bufferManager p);
       ParserStats.errorCount := ParserStats.errorCount (stats p);
       ParserStats.bufferSize := BufferManager.getSize (bufferManager p);
       ParserStats.state := ParserStats.state (stats p);
       ParserStats.registeredTagsCount := Z.of_nat (length registry);
       ParserStats.maxDepthReached := ParserStats.maxDepthReached (stats p);
       ParserStats.totalNestedTags := ParserStats.totalNestedTags (stats p) |} in
  removeTag tagName p =
    (match listeners p (stats_updated stats') with
     | Returns _ => Ok true
     | Raises e => Throw e
     end,
     with_trace (trace p ++ [Emit (stats_updated stats')])
       (with_stats stats' (with_tagRegistry registry p))).
Proof.
  intros [d Hd]. cbv zeta. unfold removeTag, updateStats. unfold_monad. rewrite Hd.
  unfold_monad. by destruct (listeners p _) as [[]|].
Qed.

End RegistryRemoval.

(** X5: [removeTag] on a name that is not registered returns [false] and
    does nothing at all.  On a registered name it takes the name out of
    the registry: [hasTag] is then [false], the other names keep their
    definitions and their order, there is one name less, the statistics
    carry the new count and one [stats_updated] is raised; it returns
    [true] when the observers of that notification return. *)
Theorem X5_removeTag_unregisters (tagName : jsstring) (p : StreamParser.t) :
  NoDup (StreamParser.getRegisteredTags p) ->
  let p' := state_after (StreamParser.removeTag tagName) p in
  (StreamParser.hasTag tagName p = false ->
   StreamParser.removeTag tagName p = (Ok false, p)) /\
  (StreamParser.hasTag tagName p = true ->
   StreamParser.hasTag tagName p' = false /\
   StreamParser.getRegisteredTags p' =
     filter (fun n => n <> tagName) (StreamParser.getRegisteredTags p) /\
   S (length (StreamParser.getRegisteredTags p')) = length (StreamParser.getRegisteredTags p) /\
   ParserStats.registeredTagsCount (StreamParser.getStats p')
     = Z.of_nat (length (StreamParser.getRegisteredTags p')) /\
   StreamParser.trace p' =
     StreamParser.trace p ++ [Emit (stats_updated (StreamParser.getStats p'))] /\
   (StreamParser.listeners p (stats_updated (StreamParser.getStats p')) = Returns tt ->
    outcome_of (StreamParser.removeTag tagName) p = Ok true)) /\
  (forall other, other <> tagName ->
     assoc_get other (StreamParser.tagRegistry p') = assoc_get other (StreamParser.tagRegistry p)) /\
  NoDup (StreamParser.getRegisteredTags p').
Proof.
  intros Hnd p'. subst p'. unfold state_after, outcome_of.
  unfold StreamParser.hasTag, StreamParser.getRegisteredTags, StreamParser.getStats in *.
  destruct (assoc_get tagName (StreamParser.tagRegistry p)) as [d|] eqn:E.
  - rewrite removeTag_present by (rewrite E; eauto). cbv zeta. simpl.
    repeat split; try done.
    + by rewrite assoc_get_delete_eq.
    + by apply keys_assoc_delete.
    + rewrite !length_map. apply assoc_delete_length. rewrite E; eauto.
    + by rewrite length_map.
    + intros ->. done.
    + intros other Hne. apply assoc_get_delete_ne. by intros <-.
    + rewrite keys_assoc_delete by done. by apply NoDup_filter.
  - rewrite removeTag_absent by done. simpl. rewrite E. repeat split; done.
Qed.

Lemma X5_removeTag_unregisters_witness :
  StreamParser.hasTag (js "known")
    (state_after (StreamParser.removeTag (js "known")) known_parser) = false /\
  StreamParser.removeTag (js "other") known_parser = (Ok false, known_parser).
Proof.
  assert (Hnd : NoDup (StreamParser.getRegisteredTags known_parser)).
  { vm_compute. apply NoDup_singleton. }
  split.
  - destruct (X5_removeTag_unregisters (js "known") known_parser Hnd) as (_ & H & _).
    apply H. vm_compute. reflexivity.
  - destruct (X5_removeTag_unregisters (js "other") known_parser Hnd) as (H & _).
    apply H. vm_compute. reflexivity.
Defined.

Section FacadeFacts.

Import StreamParser.

Lemma addSimpleTags_quiet tagNames : forall p,
  (forall e, listeners p e = Returns tt) ->
  let p' := (LLMStreamParser.addSimpleTags tagNames p).2 in
  (LLMStreamParser.addSimpleTags tagNames p).1 = Ok tt /\
  tagRegistry p' = fold_left register_simple tagNames (tagRegistry p) /\
  bufferManager p' = bufferManager p /\ state p' = state p /\ config p' = config p /\
  tagStack p' = tagStack p /\
  ParserStats.totalTagsParsed (stats p') = ParserStats.totalTagsParsed (stats p) /\
  ParserStats.errorCount (stats p') = ParserStats.errorCount (stats p) /\
  (tagNames <> [] ->
   ParserStats.registeredTagsCount (stats p') = Z.of_nat (length (tagRegistry p'))) /\
  exists updates,
    trace p' = trace p ++ map (fun s => Emit (stats_updated s)) updates /\
    length updates = length tagNames.
Proof.
  induction tagNames as [|tagName rest IH]; intros p Hquiet; simpl.
  - repeat split; try done. exists []. by rewrite app_nil_r.
  - unfold LLMStreamParser.addSimpleTag.
    change {| TagDefinition.tagName := tagName |} with (TagDefinition.simple tagName).
    pose proof (defineTag_state (TagDefinition.simple tagName) p) as Hs.
    pose proof (defineTag_outcome (TagDefinition.simple tagName) p) as Ho.
    rewrite Hquiet in Ho. cbv zeta in Hs.
    destruct (defineTag (TagDefinition.simple tagName) p) as [o p1] eqn:E.
    simpl in Hs, Ho. subst o.
    rewrite (bind_ok _ _ _ _ _ E).
    destruct (IH p1) as (I1 & I2 & I3 & I4 & I5 & I6 & I7 & I8 & I9 & updates & I10 & I11).
    { intros e. rewrite Hs. simpl. apply Hquiet. }
    assert (R1 : tagRegistry p1 = register_simple (tagRegistry p) tagName) by by rewrite Hs.
    assert (R2 : bufferManager p1 = bufferManager p) by by rewrite Hs.
    assert (R3 : state p1 = state p) by by rewrite Hs.
    assert (R4 : config p1 = config p) by by rewrite Hs.
    assert (R5 : tagStack p1 = tagStack p) by by rewrite Hs.
    assert (R6 : ParserStats.totalTagsParsed (stats p1) = ParserStats.totalTagsParsed (stats p))
      by by rewrite Hs.
    assert (R7 : ParserStats.errorCount (stats p1) = ParserStats.errorCount (stats p))
      by by rewrite Hs.
    assert (R8 : ParserStats.registeredTagsCount (stats p1) = Z.of_nat (length (tagRegistry p1)))
      by by rewrite Hs.
    assert (R9 : exists s, trace p1 = trace p ++ [Emit (stats_updated s)])
      by (rewrite Hs; simpl; eauto).
    clear Hs E. repeat split; try congruence.
    + intros _. destruct rest as [|n rest']; [done|]. by apply I9.
    + destruct R9 as [s R9]. exists (s :: updates).
      rewrite I10, R9, <- app_assoc. simpl. split; [done|by rewrite I11].
Qed.

Lemma register_simple_lookup tagNames : forall registry n,
  assoc_get n (fold_left register_simple tagNames registry) =
    if bool_decide (n ∈ tagNames) then Some (TagDefinition.simple n) else assoc_get n registry.
Proof.
  induction tagNames as [|tagName rest IH]; intros registry n; simpl; [done|].
  rewrite IH. destruct (bool_decide_reflect (n ∈ rest)) as [Hin|Hnin].
  - rewrite bool_decide_eq_true_2; [done|by right].
  - destruct (decide (n = tagName)) as [->|Hne].
    + rewrite bool_decide_eq_true_2 by left. apply assoc_get_set_eq.
    + rewrite bool_decide_eq_false_2.
      * apply assoc_get_set_ne. by intros <-.
      * rewrite elem_of_cons. tauto.
Qed.

Lemma register_simple_NoDup tagNames : forall registry,
  NoDup (map fst registry) -> NoDup (map fst (fold_left register_simple tagNames registry)).
Proof.
  induction tagNames as [|tagName rest IH]; intros registry H; simpl; [done|].
  apply IH. by apply NoDup_assoc_set.
Qed.

Lemma register_simple_keys tagNames : forall registry,
  NoDup (map fst registry ++ tagNames) ->
  map fst (fold_left register_simple tagNames registry) = map fst registry ++ tagNames.
Proof.
  induction tagNames as [|tagName rest IH]; intros registry H; simpl.
  - by rewrite app_nil_r.
  - assert (Hk : map fst (register_simple registry tagName) = map fst registry ++ [tagName]).
    { unfold register_simple. rewrite keys_assoc_set.
      destruct (assoc_get tagName registry) eqn:E; [|done].
      exfalso. apply NoDup_app in H as (_ & H & _).
      apply (H tagName); [|left].
      apply dec_stable. intros Hn. apply assoc_get_None_keys in Hn. congruence. }
    rewrite IH; rewrite Hk, <- app_assoc; done.
Qed.

End FacadeFacts.

(** X6: the engine that [createParserWithTags(tagNames, config)] hands
    back has exactly the given names registered, each with the bare
    definition [{ tagName }]; the registered names are distinct, and they
    are the given list itself when that has no repetition.  The engine
    has the merged configuration, is idle with an empty buffer and no
    error, and one [stats_updated] was raised per given name.
    [getStatus] reports that state.  [clone] starts from scratch: its
    result has the default configuration and nothing registered. *)
Theorem X6_createParserWithTags_registers_the_names
    (tagNames : list jsstring) (config : ParserConfig.t) :
  let p := LLMStreamParser.createParserWithTags tagNames config in
  (forall n, StreamParser.hasTag n p = true <-> n ∈ tagNames) /\
  (forall n, n ∈ tagNames ->
     assoc_get n (StreamParser.tagRegistry p) = Some (TagDefinition.simple n)) /\
  NoDup (StreamParser.getRegisteredTags p) /\
  (NoDup tagNames -> StreamParser.getRegisteredTags p = tagNames) /\
  StreamParser.config p = mergeConfig config /\
  LLMStreamParser.getStatus p =
    {| LLMStreamParser.status_state := IDLE;
       LLMStreamParser.registeredTags := length (StreamParser.getRegisteredTags p);
       LLMStreamParser.bufferSize := 0;
       LLMStreamParser.totalParsed := 0;
       LLMStreamParser.errorCount := 0 |} /\
  (tagNames <> [] ->
   ParserStats.registeredTagsCount (StreamParser.getStats p)
     = Z.of_nat (LLMStreamParser.registeredTags (LLMStreamParser.getStatus p))) /\
  (exists updates,
     StreamParser.trace p = map (fun s => Emit (stats_updated s)) updates /\
     length updates = length tagNames) /\
  (forall p0,
     StreamParser.getRegisteredTags (LLMStreamParser.clone p0) = [] /\
     StreamParser.config (LLMStreamParser.clone p0) = DEFAULT_CONFIG).
Proof.
  intros p. subst p. unfold LLMStreamParser.createParserWithTags.
  destruct (addSimpleTags_quiet tagNames (LLMStreamParser.createParser config))
    as (_ & I2 & I3 & I4 & I5 & I6 & I7 & I8 & I9 & updates & I10 & I11); [done|].
  unfold LLMStreamParser.getStatus.
  unfold StreamParser.hasTag, StreamParser.getRegisteredTags,
         StreamParser.getStats, StreamParser.getState, StreamParser.getBufferSize.
  rewrite I2, I3, I4, I5, I7, I8. simpl.
  split; [|split; [|split; [|split; [|split; [|split; [|split; [|split]]]]]]].
  - intros n. rewrite register_simple_lookup. simpl.
    by destruct (bool_decide_reflect (n ∈ tagNames)).
  - intros n Hn. rewrite register_simple_lookup. by rewrite bool_decide_eq_true_2.
  - apply register_simple_NoDup. simpl. apply NoDup_nil_2.
  - intros Hnd. by rewrite register_simple_keys.
  - done.
  - done.
  - intros Hne. rewrite I9 by done. rewrite I2. simpl. by rewrite length_map.
  - exists updates. by rewrite I10.
  - done.
Qed.

(** * What every call keeps *)

Section Steady.

Import StreamParser.

Context (R : t -> t -> Prop).
Hypothesis R_refl : forall p, R p p.
Hypothesis R_trans : forall p1 p2 p3, R p1 p2 -> R p2 p3 -> R p1 p3.

Lemma steady_ret {A : Type} (a : A) p : steady R (ret a) p.
Proof. apply R_refl. Qed.

Lemma steady_throw {A : Type} e p : steady R (@throw A e) p.
Proof. apply R_refl. Qed.

Lemma steady_diverge {A : Type} p : steady R (@diverge A) p.
Proof. apply R_refl. Qed.

Lemma steady_get p : steady R get p.
Proof. apply R_refl. Qed.

Lemma steady_lift {A : Type} (o : option A) p : steady R (lift o) p.
Proof. destruct o; apply R_refl. Qed.

Lemma steady_call {A : Type} (r : Result A) p : steady R (call r) p.
Proof. destruct r; apply R_refl. Qed.

Lemma steady_read r p : steady R (read r) p.
Proof. apply R_refl. Qed.

Lemma steady_modify g p : R p (g p) -> steady R (modify g) p.
Proof. done. Qed.

Lemma steady_bind {A B : Type} (m : M A) (k : A -> M B) p :
  steady R m p ->
  (forall a p', m p = (Ok a, p') -> steady R (k a) p') ->
  steady R (bind m k) p.
Proof.
  unfold steady, bind. intros Hm Hk.
  destruct (m p) as [[a|e|] p'] eqn:E; simpl in *; [|done|done].
  eapply R_trans; [exact Hm|]. by apply Hk.
Qed.

Lemma steady_try_catch {A : Type} (m : M A) (h : Thrown -> M A) p :
  steady R m p ->
  (forall e p', m p = (Throw e, p') -> steady R (h e) p') ->
  steady R (try_catch m h) p.
Proof.
  unfold steady, try_catch. intros Hm Hh.
  destruct (m p) as [[a|e|] p'] eqn:E; simpl in *; [done| |done].
  eapply R_trans; [exact Hm|]. by apply Hh.
Qed.

End Steady.

Section MovesOn.

Import StreamParser.

Lemma same_record_refl x : same_record x x.
Proof. unfold same_record. repeat split. by destruct (Tag.children x). Qed.

Lemma same_record_trans x y z : same_record x y -> same_record y z -> same_record x z.
Proof.
  unfold same_record. intros (A1 & A2 & A3 & A4 & A5 & A6) (B1 & B2 & B3 & B4 & B5 & B6).
  repeat split; try congruence.
  destruct (Tag.children x), (Tag.children y), (Tag.children z); try done.
  by etrans.
Qed.

Lemma moves_on_refl p : moves_on p p.
Proof.
  unfold moves_on. repeat split; try done; try lia.
  intros r x Hx. exists x. split; [done|apply same_record_refl].
Qed.

Lemma moves_on_trans p1 p2 p3 : moves_on p1 p2 -> moves_on p2 p3 -> moves_on p1 p3.
Proof.
  unfold moves_on.
  intros (A1 & A2 & A3 & A4 & A5 & A6 & A7 & A8 & A9) (B1 & B2 & B3 & B4 & B5 & B6 & B7 & B8 & B9).
  rewrite A1, A4 in *.
  repeat split; try congruence; try lia.
  - by etrans.
  - intros r x Hx. destruct (A9 r x Hx) as (y & Hy & Hxy).
    destruct (B9 r y Hy) as (z & Hz & Hyz).
    exists z. split; [done|]. by eapply same_record_trans.
Qed.

(** The elementary changes of state. *)

Ltac moves_on_frame :=
  unfold moves_on; simpl; repeat split; try done; try lia;
  let r := fresh in let x := fresh in let Hx := fresh in
  intros r x Hx; exists x; split; [done|apply same_record_refl].

Lemma moves_on_trace l p : moves_on p (with_trace (trace p ++ l) p).
Proof.
  unfold moves_on. simpl. repeat split; try done; try lia.
  - by apply prefix_app_r.
  - intros r x Hx. exists x. split; [done|apply same_record_refl].
Qed.

Lemma moves_on_stats s p : moves_on p (with_stats s p).
Proof. moves_on_frame. Qed.

Lemma moves_on_state s p : moves_on p (with_state s p).
Proof. moves_on_frame. Qed.

Lemma moves_on_tagStack s p : moves_on p (with_tagStack s p).
Proof. moves_on_frame. Qed.

Lemma moves_on_currentPath s p : moves_on p (with_currentPath s p).
Proof. moves_on_frame. Qed.

Lemma moves_on_currentDepth d p :
  (d <= Z.max 0 (Z.max (currentDepth p) (RequiredParserConfig.maxDepth (config p))))%Z ->
  moves_on p (with_currentDepth d p).
Proof.
  intros H. unfold moves_on. simpl. repeat split; try done; try lia.
  intros r x Hx. exists x. split; [done|apply same_record_refl].
Qed.

Lemma moves_on_alloc x p : moves_on p (with_store (store p ++ [x]) p).
Proof.
  unfold moves_on. simpl. repeat split; try done; try lia.
  intros r y Hy. exists y. split; [|apply same_record_refl].
  by apply lookup_app_l_Some.
Qed.

Lemma moves_on_alter f r p :
  (forall x, store p !! r = Some x -> same_record x (f x)) ->
  moves_on p (with_store (alter f r (store p)) p).
Proof.
  intros Hf. unfold moves_on. simpl. repeat split; try done; try lia.
  intros r' x Hx. destruct (decide (r = r')) as [->|Hne].
  - exists (f x). split; [|by apply Hf]. rewrite list_lookup_alter_eq. by rewrite Hx.
  - exists x. split; [|apply same_record_refl]. by rewrite list_lookup_alter_ne.
Qed.

Lemma moves_on_bufferManager b p :
  BufferManager.maxSize b = BufferManager.maxSize (bufferManager p) ->
  (BufferManager.getSize b
     <= Z.max (BufferManager.getSize (bufferManager p))
              (BufferManager.maxSize (bufferManager p)))%Z ->
  (BufferManager.getTotalProcessed (bufferManager p) <= BufferManager.getTotalProcessed b)%Z ->
  moves_on p (with_bufferManager b p).
Proof.
  intros H1 H2 H3. unfold moves_on. simpl. repeat split; try done.
  - lia.
  - intros r x Hx. exists x. split; [done|apply same_record_refl].
Qed.

Lemma moves_on_consume len p :
  moves_on p (with_bufferManager (BufferManager.consume len (bufferManager p)).2 p).
Proof.
  destruct (consume_buffer len (bufferManager p)) as [Hb _].
  destruct (consume_frame len (bufferManager p)) as [Hm Ht].
  apply moves_on_bufferManager; [done| |unfold BufferManager.getTotalProcessed; lia].
  unfold BufferManager.getSize, BufferManager.size_of. rewrite Hb, length_drop. lia.
Qed.

Lemma moves_on_clear p :
  moves_on p (with_bufferManager (BufferManager.clear (bufferManager p)) p).
Proof.
  apply moves_on_bufferManager; [done| |done].
  unfold BufferManager.getSize, BufferManager.size_of. simpl. lia.
Qed.

Lemma moves_on_append chunk p :
  moves_on p (with_bufferManager (BufferManager.append chunk (bufferManager p)).2 p).
Proof.
  unfold BufferManager.append.
  destruct (Z.ltb_spec (BufferManager.maxSize (bufferManager p))
              (BufferManager.size_of (BufferManager.buffer (bufferManager p)) +
               BufferManager.size_of chunk)); simpl.
  - replace (with_bufferManager (bufferManager p) p) with p by by destruct p.
    apply moves_on_refl.
  - apply moves_on_bufferManager; simpl.
    + done.
    + unfold BufferManager.getSize. simpl. rewrite size_of_app. lia.
    + unfold BufferManager.getTotalProcessed, BufferManager.size_of. simpl. lia.
Qed.

End MovesOn.

Create HintDb moves.

#[local] Hint Resolve moves_on_refl moves_on_trace moves_on_stats moves_on_state
  moves_on_tagStack moves_on_currentPath moves_on_alloc moves_on_consume moves_on_clear
  moves_on_append : moves.

Ltac steady_step Rrefl Rtrans tac :=
  match goal with
  | |- steady _ (StreamParser.bind _ _) _ =>
      apply (steady_bind _ Rtrans); [|intros ? ? ?]
  | |- steady _ (StreamParser.try_catch _ _) _ =>
      apply (steady_try_catch _ Rtrans); [|intros ? ? ?]
  | |- steady _ (StreamParser.ret _) _ => apply (steady_ret _ Rrefl)
  | |- steady _ (StreamParser.throw _) _ => apply (steady_throw _ Rrefl)
  | |- steady _ StreamParser.diverge _ => apply (steady_diverge _ Rrefl)
  | |- steady _ StreamParser.get _ => apply (steady_get _ Rrefl)
  | |- steady _ (StreamParser.lift _) _ => apply (steady_lift _ Rrefl)
  | |- steady _ (StreamParser.call _) _ => apply (steady_call _ Rrefl)
  | |- steady _ (StreamParser.read _) _ => apply (steady_read _ Rrefl)
  | |- steady _ (StreamParser.modify _) _ => apply steady_modify; tac
  | |- steady _ (StreamParser.alloc _) _ => unfold steady, StreamParser.alloc; simpl; tac
  | |- steady _ (StreamParser.update _ _) _ => first [tac | unfold StreamParser.update]
  | |- steady _ (match ?x with _ => _ end) _ => destruct x
  | |- steady _ (if ?x then _ else _) _ => destruct x
  | |- steady _ (StreamParser.emit _) _ => unfold StreamParser.emit
  | |- steady _ (StreamParser.emitError _ _) _ => unfold StreamParser.emitError
  | |- steady _ (StreamParser.record _) _ => unfold StreamParser.record
  | |- steady _ (StreamParser.check _ _ _) _ => unfold StreamParser.check
  | |- steady _ (StreamParser.call_onStart _ _ _) _ => unfold StreamParser.call_onStart
  | |- steady _ (StreamParser.call_onComplete _ _) _ => unfold StreamParser.call_onComplete
  | |- steady _ StreamParser.countTagParsed _ => unfold StreamParser.countTagParsed
  | |- steady _ StreamParser.countError _ => unfold StreamParser.countError
  | |- steady _ StreamParser.updateStats _ => unfold StreamParser.updateStats
  | |- steady _ (StreamParser.consumeBuffer _) _ => unfold StreamParser.consumeBuffer
  | |- steady _ (StreamParser.removeProcessedContent _) _ =>
      unfold StreamParser.removeProcessedContent
  | |- steady _ _ _ => tac
  end.

Ltac moves_step :=
  steady_step moves_on_refl moves_on_trans ltac:(solve [eauto with moves]).

Ltac moves_auto := repeat moves_step.

Section EngineMovesOn.

Import StreamParser.

Lemma same_record_set_content c x : same_record x (Tag.set_content c x).
Proof. unfold same_record. simpl. repeat split. by destruct (Tag.children x). Qed.

Lemma same_record_set_attributes a x : same_record x (Tag.set_attributes a x).
Proof. unfold same_record. simpl. repeat split. by destruct (Tag.children x). Qed.

Lemma moves_update_content r c p : steady moves_on (update r (Tag.set_content c)) p.
Proof. apply moves_on_alter. intros x _. apply same_record_set_content. Qed.

Lemma moves_update_attributes r a p : steady moves_on (update r (Tag.set_attributes a)) p.
Proof. apply moves_on_alter. intros x _. apply same_record_set_attributes. Qed.

#[local] Hint Resolve moves_update_content moves_update_attributes : moves.

Lemma moves_validate tag definition p : steady moves_on (validate tag definition) p.
Proof. unfold validate. moves_auto. Qed.

Lemma moves_transform tag definition p : steady moves_on (transform tag definition) p.
Proof. unfold transform. moves_auto. Qed.

Lemma moves_applyDefaults tag definition p : steady moves_on (applyDefaults tag definition) p.
Proof. unfold applyDefaults. moves_auto. Qed.

#[local] Hint Resolve moves_validate moves_transform moves_applyDefaults : moves.

Lemma moves_processTagFlat m p : steady moves_on (processTagFlat m) p.
Proof. unfold processTagFlat. moves_auto. Qed.

#[local] Hint Resolve moves_processTagFlat : moves.

Lemma moves_processMatchesFlat completeTags : forall parsedTags p,
  steady moves_on (processMatchesFlat completeTags parsedTags) p.
Proof.
  induction completeTags as [|m rest IH]; intros parsedTags p; simpl; moves_auto.
Qed.

#[local] Hint Resolve moves_processMatchesFlat : moves.

Lemma moves_processBufferFlat p : steady moves_on processBufferFlat p.
Proof. unfold processBufferFlat. moves_auto. Qed.

Lemma moves_addChild parent child p : steady moves_on (addChild parent child) p.
Proof.
  unfold addChild. destruct parent as [currentParent|]; [|moves_auto].
  apply (steady_bind _ moves_on_trans); [moves_auto|].
  intros x p' [= <- <-].
  destruct (Tag.children (deref (store p) currentParent)) as [children|] eqn:E; [|moves_auto].
  apply moves_on_alter. intros x Hx.
  unfold deref in E. rewrite Hx in E. simpl in E.
  unfold same_record. simpl. rewrite E. repeat split. by apply prefix_app_r.
Qed.

Lemma moves_on_depth_down p : moves_on p (with_currentDepth (currentDepth p - 1) p).
Proof. apply moves_on_currentDepth. lia. Qed.

Lemma moves_on_depth_zero p : moves_on p (with_currentDepth 0 p).
Proof. apply moves_on_currentDepth. lia. Qed.

#[local] Hint Resolve moves_addChild moves_on_depth_down moves_on_depth_zero : moves.

Lemma keeps_depth_alloc x : keeps (fun p => (currentDepth p, config p)) (alloc x).
Proof. keeps_auto. Qed.

Lemma keeps_depth_addChild parent child :
  keeps (fun p => (currentDepth p, config p)) (addChild parent child).
Proof. keeps_auto. Qed.

Lemma moves_handleOpeningTag tagMatch p : steady moves_on (handleOpeningTag tagMatch) p.
Proof.
  unfold handleOpeningTag.
  apply (steady_bind _ moves_on_trans); [moves_auto|].
  intros p0 p' [= <- <-].
  destruct (Z.leb_spec (RequiredParserConfig.maxDepth (config p)) (currentDepth p)) as [|Hlt];
    [moves_auto|].
  apply (steady_bind _ moves_on_trans); [moves_auto|].
  intros newTag p1 E1.
  apply (steady_bind _ moves_on_trans); [moves_auto|].
  intros [] p2 E2.
  match type of E1 with alloc ?x _ = _ => pose proof (keeps_depth_alloc x p) as K1 end.
  rewrite E1 in K1. simpl in K1.
  pose proof (keeps_depth_addChild (getCurrentParent p) newTag p1) as K2.
  rewrite E2 in K2. simpl in K2.
  injection K1 as K1 K1'. injection K2 as K2 K2'.
  apply (steady_bind _ moves_on_trans).
  { apply steady_modify, moves_on_currentDepth. rewrite K2, K1, K2', K1'. lia. }
  intros [] p3 _. moves_auto.
Qed.

Lemma moves_completeTag tag p : steady moves_on (completeTag tag) p.
Proof. unfold completeTag. moves_auto. Qed.

#[local] Hint Resolve moves_handleOpeningTag moves_completeTag : moves.

Lemma moves_autoCloseTag p : steady moves_on autoCloseTag p.
Proof. unfold autoCloseTag. moves_auto. Qed.

#[local] Hint Resolve moves_autoCloseTag : moves.

Lemma moves_autoCloseUntil tagName : forall fuel p,
  steady moves_on (autoCloseUntil fuel tagName) p.
Proof. induction fuel as [|fuel IH]; intros p; simpl; moves_auto. Qed.

Lemma moves_autoCloseAll : forall fuel p, steady moves_on (autoCloseAll fuel) p.
Proof. induction fuel as [|fuel IH]; intros p; simpl; moves_auto. Qed.

#[local] Hint Resolve moves_autoCloseUntil moves_autoCloseAll : moves.

Lemma moves_handleClosingTag tagMatch p : steady moves_on (handleClosingTag tagMatch) p.
Proof. unfold handleClosingTag. moves_auto. Qed.

Lemma moves_handleSelfClosingTag tagMatch p :
  steady moves_on (handleSelfClosingTag tagMatch) p.
Proof. unfold handleSelfClosingTag. moves_auto. Qed.

Lemma moves_handleTextContent textContent p :
  steady moves_on (handleTextContent textContent) p.
Proof. unfold handleTextContent. moves_auto. Qed.

#[local] Hint Resolve moves_handleClosingTag moves_handleSelfClosingTag
  moves_handleTextContent : moves.

Lemma moves_processTagNested tagMatch p : steady moves_on (processTagNested tagMatch) p.
Proof. unfold processTagNested. moves_auto. Qed.

#[local] Hint Resolve moves_processTagNested : moves.

Lemma moves_sweep buffer : forall fuel lastProcessedIndex p,
  steady moves_on (sweep fuel buffer lastProcessedIndex) p.
Proof.
  induction fuel as [|fuel IH]; intros lastProcessedIndex p; simpl; moves_auto.
Qed.

#[local] Hint Resolve moves_sweep : moves.

Lemma moves_processBufferNested p : steady moves_on processBufferNested p.
Proof. unfold processBufferNested. moves_auto. Qed.

Lemma moves_appendChunk chunk p : steady moves_on (appendChunk chunk) p.
Proof.
  unfold steady, appendChunk.
  pose proof (moves_on_append chunk p) as H.
  by destruct (BufferManager.append chunk (bufferManager p)).
Qed.

#[local] Hint Resolve moves_processBufferFlat moves_processBufferNested moves_appendChunk
  : moves.

Lemma moves_parse chunk p : steady moves_on (parse chunk) p.
Proof. unfold parse, parseBody, parseCatch. moves_auto. Qed.

Lemma moves_reset p : steady moves_on reset p.
Proof. unfold reset. moves_auto. Qed.

Lemma moves_finalize p : steady moves_on finalize p.
Proof. unfold finalize. moves_auto. Qed.

Lemma moves_parseComplete content p : steady moves_on (parseComplete content) p.
Proof.
  unfold parseComplete. apply (steady_bind _ moves_on_trans); [apply moves_parse|].
  intros. apply moves_finalize.
Qed.

End EngineMovesOn.

Section CallsCarryOn.

Import StreamParser.

Lemma moves_on_carries_on p p' : moves_on p p' -> carries_on p p'.
Proof. unfold moves_on, carries_on. tauto. Qed.

Lemma carries_on_refl p : carries_on p p.
Proof. apply moves_on_carries_on, moves_on_refl. Qed.

Lemma carries_on_trans p1 p2 p3 : carries_on p1 p2 -> carries_on p2 p3 -> carries_on p1 p3.
Proof.
  unfold carries_on.
  intros (A1 & A2 & A4 & A5 & A6 & A7 & A9) (B1 & B2 & B4 & B5 & B6 & B7 & B9).
  rewrite A1, A4 in *.
  repeat split; try congruence; try lia.
  intros r x Hx. destruct (A9 r x Hx) as (y & Hy & Hxy).
  destruct (B9 r y Hy) as (z & Hz & Hyz).
  exists z. split; [done|]. by eapply same_record_trans.
Qed.

Lemma carries_on_registry registry s tr p :
  carries_on p (with_trace tr (with_stats s (with_tagRegistry registry p))).
Proof.
  unfold carries_on. simpl. repeat split; try done; try lia.
  intros r x Hx. exists x. split; [done|apply same_record_refl].
Qed.

Lemma run_call_parsing c p : parsing_call c -> moves_on p (state_after (run_call c) p).
Proof.
  destruct c; simpl; try done; intros _.
  - apply moves_parse.
  - apply moves_finalize.
  - apply moves_reset.
  - apply moves_parseComplete.
Qed.

Lemma run_call_carries_on c p : carries_on p (state_after (run_call c) p).
Proof.
  destruct c; try (apply moves_on_carries_on, run_call_parsing; exact I).
  - unfold state_after. simpl. rewrite defineTag_state. apply carries_on_registry.
  - unfold state_after. cbn [run_call]. unfold bind.
    destruct (assoc_get tagName (tagRegistry p)) as [d|] eqn:E.
    + rewrite removeTag_present by (rewrite E; eauto). cbv zeta.
      destruct (listeners p _); simpl; apply carries_on_registry.
    + rewrite removeTag_absent by done. simpl. apply carries_on_refl.
Qed.

Lemma run_calls_carries_on calls : forall p, carries_on p (run_calls calls p).
Proof.
  induction calls as [|c calls IH]; intros p; simpl; [apply carries_on_refl|].
  eapply carries_on_trans; [apply run_call_carries_on|apply IH].
Qed.

Lemma run_calls_moves_on calls : forall p,
  Forall parsing_call calls -> moves_on p (run_calls calls p).
Proof.
  induction calls as [|c calls IH]; intros p H; simpl; [apply moves_on_refl|].
  apply Forall_cons in H as [Hc H].
  eapply moves_on_trans; [by apply run_call_parsing|by apply IH].
Qed.

End CallsCarryOn.

(** X7: the nesting depth stays within the limit.  No call raises
    [getCurrentDepth] above the larger of its value before the call and
    [maxDepth], so on an engine made by [new] it never exceeds
    [maxDepth] (zero when that is negative), whatever calls are made and
    whatever the observers and the definitions do.  The limit is kept by
    [handleOpeningTag]: at a depth of [maxDepth] or more it fails with
    [MaxDepthExceeded], which carries the limit, and changes nothing. *)
Theorem X7_depth_stays_within_maxDepth (calls : list Call) :
  (forall p,
     (StreamParser.getCurrentDepth (run_calls calls p)
        <= Z.max 0 (Z.max (StreamParser.getCurrentDepth p)
                          (RequiredParserConfig.maxDepth (StreamParser.config p))))%Z /\
     StreamParser.config (run_calls calls p) = StreamParser.config p) /\
  (forall config listeners,
     (StreamParser.getCurrentDepth (run_calls calls (StreamParser.new config listeners))
        <= Z.max 0 (nullish (ParserConfig.maxDepth config) 50))%Z) /\
  (forall tagMatch p,
     (RequiredParserConfig.maxDepth (StreamParser.config p)
        <= StreamParser.getCurrentDepth p)%Z ->
     StreamParser.handleOpeningTag tagMatch p =
       (Throw (ThrownParserError
                 (ParserError.fromMaxDepth
                    (RequiredParserConfig.maxDepth (StreamParser.config p)) None)), p) /\
     ParserError.code
       (ParserError.fromMaxDepth (RequiredParserConfig.maxDepth (StreamParser.config p)) None)
       = MAX_DEPTH_EXCEEDED /\
     ParserError.depth
       (ParserError.fromMaxDepth (RequiredParserConfig.maxDepth (StreamParser.config p)) None)
       = Some (RequiredParserConfig.maxDepth (StreamParser.config p))).
Proof.
  repeat split.
  - by destruct (run_calls_carries_on calls p) as (_ & _ & _ & _ & _ & H & _).
  - by destruct (run_calls_carries_on calls p) as (H & _).
  - intros config listeners.
    destruct (run_calls_carries_on calls (StreamParser.new config listeners))
      as (_ & _ & _ & _ & _ & H & _).
    unfold StreamParser.getCurrentDepth. simpl in H. lia.
  - unfold StreamParser.handleOpeningTag, StreamParser.getCurrentDepth in *.
    unfold StreamParser.bind at 1. unfold StreamParser.get at 1.
    by rewrite (proj2 (Z.leb_le _ _) H).
Qed.

(** X8: the engine keeps its buffer within the limit.  No call leaves
    the buffer larger than the larger of its size before the call and the
    maximum, and none changes the maximum, so on an engine made by [new]
    [getBufferSize] never exceeds [maxBufferSize] (zero when that is
    negative).  The buffer's count of bytes processed never goes down,
    not even in [reset]. *)
Theorem X8_engine_buffer_stays_within_maxBufferSize (calls : list Call) :
  (forall p,
     (StreamParser.getBufferSize (run_calls calls p)
        <= Z.max (StreamParser.getBufferSize p)
                 (BufferManager.maxSize (StreamParser.bufferManager p)))%Z /\
     BufferManager.maxSize (StreamParser.bufferManager (run_calls calls p))
       = BufferManager.maxSize (StreamParser.bufferManager p) /\
     (BufferManager.getTotalProcessed (StreamParser.bufferManager p)
        <= BufferManager.getTotalProcessed (StreamParser.bufferManager (run_calls calls p)))%Z) /\
  (forall config listeners,
     let p := run_calls calls (StreamParser.new config listeners) in
     (0 <= StreamParser.getBufferSize p
        <= Z.max 0 (nullish (ParserConfig.maxBufferSize config) (1024 * 1024)))%Z /\
     (0 <= BufferManager.getTotalProcessed (StreamParser.bufferManager p))%Z).
Proof.
  split.
  - intros p. by destruct (run_calls_carries_on calls p) as (_ & _ & H1 & H2 & H3 & _).
  - intros config listeners p.
    destruct (run_calls_carries_on calls (StreamParser.new config listeners))
      as (_ & _ & H1 & H2 & H3 & _).
    fold p in H1, H2, H3. unfold StreamParser.getBufferSize.
    simpl in H2, H3. unfold BufferManager.getSize, BufferManager.size_of in *. simpl in H2.
    lia.
Qed.

(** X9: what the parsing calls leave alone.  [parse], [finalize],
    [reset] and [parseComplete] never change the configuration or the
    registered definitions.  No call at all removes a tag object or
    changes its name, parent, path, depth or self-closing mark, and the
    children a tag object has stay, in order, at the head of its
    children. *)
Theorem X9_calls_keep_registry_and_records (calls : list Call) (p : StreamParser.t) :
  (Forall parsing_call calls ->
   StreamParser.tagRegistry (run_calls calls p) = StreamParser.tagRegistry p /\
   StreamParser.getRegisteredTags (run_calls calls p) = StreamParser.getRegisteredTags p /\
   StreamParser.config (run_calls calls p) = StreamParser.config p) /\
  (forall r x,
     StreamParser.store p !! r = Some x ->
     exists y, StreamParser.store (run_calls calls p) !! r = Some y /\
       Tag.tagName y = Tag.tagName x /\ Tag.parent y = Tag.parent x /\
       Tag.path y = Tag.path x /\ Tag.depth y = Tag.depth x /\
       Tag.isSelfClosing y = Tag.isSelfClosing x /\
       forall children, Tag.children x = Some children ->
         exists more, Tag.children y = Some (children ++ more)).
Proof.
  split.
  - intros H. destruct (run_calls_moves_on calls p H) as (H1 & _ & H3 & _).
    unfold StreamParser.getRegisteredTags. by rewrite H1, H3.
  - intros r x Hx.
    destruct (run_calls_carries_on calls p) as (_ & _ & _ & _ & _ & _ & H).
    destruct (H r x Hx) as (y & Hy & H1 & H2 & H3 & H4 & H5 & H6).
    exists y. repeat split; try done.
    intros children Hc. rewrite Hc in H6.
    destruct (Tag.children y) as [b|]; [|done].
    destruct H6 as [more ->]. by exists more.
Qed.

(** * [parse]: overflow and what flat mode leaves in the buffer *)

Section ParseFlat.

Import StreamParser.

Lemma parse_overflow_result chunk p :
  (BufferManager.maxSize (bufferManager p) < getBufferSize p + BufferManager.size_of chunk)%Z ->
  let error := ParserError.fromBufferOverflow (BufferManager.maxSize (bufferManager p)) in
  parse chunk p =
    (match listeners p (parse_error error (ChunkContext chunk)) with
     | Returns _ => Ok tt
     | Raises e => Throw e
     end,
     with_trace (trace p ++ [Emit (parse_error error (ChunkContext chunk))])
       (with_stats (stats_with_errorCount (ParserStats.errorCount (stats p) + 1) (stats p))
          (with_state ERROR p))).
Proof.
  intros H. cbv zeta. unfold parse, try_catch, parseBody.
  unfold bind at 1. unfold modify at 1.
  unfold bind at 1. unfold appendChunk at 1. simpl.
  rewrite append_rejected by done.
  unfold parseCatch, countError. unfold_monad.
  replace (with_bufferManager (bufferManager p) (with_state PARSING p))
    with (with_state PARSING p) by by destruct p.
  simpl. by destruct (listeners p _) as [[]|].
Qed.

Lemma processMatchesFlat_quiet completeTags : forall parsedTags p,
  (forall e, listeners p e = Returns tt) ->
  exists parsed, (processMatchesFlat completeTags parsedTags p).1 = Ok parsed.
Proof.
  induction completeTags as [|m rest IH]; intros parsedTags p Hquiet; simpl; [by eexists|].
  unfold bind at 1.
  set (body := let! tag := processTagFlat m in countTagParsed >> ret (parsedTags ++ [tag])).
  assert (Hback : comes_back body p).
  { subst body. apply comes_back_bind; [apply comes_back_processTagFlat|].
    intros. apply comes_back_bind; [done|]. intros. done. }
  assert (Hkeep : keeps static body) by (subst body; keeps_auto).
  specialize (Hkeep p). unfold comes_back in Hback. unfold try_catch.
  destruct (body p) as [[parsed|error|] p1] eqn:E; simpl in *; [| |done].
  - injection Hkeep as Hl _. apply IH. intros e. rewrite Hl. apply Hquiet.
  - injection Hkeep as Hl _.
    unfold emitError. unfold_monad. rewrite Hl, Hquiet. simpl.
    apply IH. intros e. simpl. rewrite Hl. apply Hquiet.
Qed.

Lemma keeps_bufferManager_processMatchesFlat completeTags : forall parsedTags,
  keeps bufferManager (processMatchesFlat completeTags parsedTags).
Proof.
  induction completeTags as [|m rest IH]; intros parsedTags; simpl; [apply keeps_ret|].
  apply keeps_bind; [|intros; apply IH]. keeps_auto.
Qed.

End ParseFlat.

(** X10: a chunk that does not fit is dropped whole.  When the buffer
    plus the chunk would exceed the maximum, [parse] changes neither the
    buffer nor the count of bytes processed and processes no tag: it
    sets the state to [ERROR], adds one to the error counter and raises
    one [parse_error] with the [BufferOverflow] error and the chunk.  It
    returns when the observers of that notification return. *)
Theorem X10_parse_drops_a_chunk_that_overflows (chunk : jsstring) (p : StreamParser.t) :
  (BufferManager.maxSize (StreamParser.bufferManager p)
     < StreamParser.getBufferSize p + BufferManager.size_of chunk)%Z ->
  let error :=
    ParserError.fromBufferOverflow (BufferManager.maxSize (StreamParser.bufferManager p)) in
  let p' := state_after (StreamParser.parse chunk) p in
  StreamParser.bufferManager p' = StreamParser.bufferManager p /\
  StreamParser.getState p' = ERROR /\
  error_count p' = (error_count p + 1)%Z /\
  ParserStats.totalTagsParsed (StreamParser.getStats p')
    = ParserStats.totalTagsParsed (StreamParser.getStats p) /\
  StreamParser.trace p' =
    StreamParser.trace p ++ [Emit (parse_error error (ChunkContext chunk))] /\
  ParserError.code error = BUFFER_OVERFLOW /\
  StreamParser.tagStack p' = StreamParser.tagStack p /\
  StreamParser.store p' = StreamParser.store p /\
  outcome_of (StreamParser.parse chunk) p =
    match StreamParser.listeners p (parse_error error (ChunkContext chunk)) with
    | Returns _ => Ok tt
    | Raises e => Throw e
    end.
Proof.
  intros H error p'. subst error p'. unfold state_after, outcome_of.
  rewrite parse_overflow_result by done. cbv zeta. simpl. repeat split.
Qed.

Lemma X10_parse_drops_a_chunk_that_overflows_witness :
  let p :=
    state_after (StreamParser.parse (js "abc"))
      (StreamParser.new
         {| ParserConfig.caseSensitive := None; ParserConfig.trimWhitespace := None;
            ParserConfig.maxBufferSize := Some 4%Z; ParserConfig.preserveAttributeOrder := None;
            ParserConfig.errorHandler := None; ParserConfig.maxDepth := None;
            ParserConfig.preserveWhitespace := None; ParserConfig.autoCloseUnclosed := None;
            ParserConfig.enableNested := None |} quiet) in
  StreamParser.bufferManager (state_after (StreamParser.parse (js "<a>x</a>")) p)
    = StreamParser.bufferManager p /\
  BufferManager.getContent (StreamParser.bufferManager p) = js "abc".
Proof.
  cbv zeta. split; [|vm_compute; reflexivity].
  match goal with |- StreamParser.bufferManager (state_after (StreamParser.parse ?c) ?p) = _ =>
    destruct (X10_parse_drops_a_chunk_that_overflows c p) as (H & _)
  end.
  - vm_compute. reflexivity.
  - exact H.
Defined.

Section FlatConsumption.

Import StreamParser.

Lemma emit_quiet e p :
  listeners p e = Returns tt -> emit e p = (Ok tt, with_trace (trace p ++ [Emit e]) p).
Proof. intros H. unfold emit. unfold_monad. by rewrite H. Qed.

Lemma updateStats_quiet p :
  (forall e, listeners p e = Returns tt) ->
  exists s,
    updateStats p = (Ok tt, with_trace (trace p ++ [Emit (stats_updated s)]) (with_stats s p)) /\
    ParserStats.totalBytesProcessed s = BufferManager.getTotalProcessed (bufferManager p) /\
    ParserStats.bufferSize s = BufferManager.getSize (bufferManager p) /\
    ParserStats.registeredTagsCount s = Z.of_nat (length (tagRegistry p)) /\
    ParserStats.totalTagsParsed s = ParserStats.totalTagsParsed (stats p) /\
    ParserStats.errorCount s = ParserStats.errorCount (stats p).
Proof.
  intros Hquiet. eexists. split.
  - unfold updateStats. unfold_monad. rewrite Hquiet. reflexivity.
  - done.
Qed.

Lemma processBufferFlat_quiet p completeTags :
  (forall e, listeners p e = Returns tt) ->
  TagMatcher.findCompleteTags (RequiredParserConfig.caseSensitive (config p))
    (BufferManager.getContent (bufferManager p)) = Some completeTags ->
  let p' := (processBufferFlat p).2 in
  (processBufferFlat p).1 = Ok tt /\
  bufferManager p' =
    match last completeTags with
    | Some lastMatch =>
        (BufferManager.consume (Z.of_nat (TagMatch.endIndex lastMatch)) (bufferManager p)).2
    | None => bufferManager p
    end /\
  state p' = state p /\
  ParserStats.totalBytesProcessed (stats p')
    = BufferManager.getTotalProcessed (bufferManager p') /\
  ParserStats.bufferSize (stats p') = BufferManager.getSize (bufferManager p') /\
  (completeTags = [] -> trace p' = trace p ++ [Emit (stats_updated (stats p'))]).
Proof.
  intros Hquiet Hfind. cbv zeta.
  destruct (processMatchesFlat_quiet completeTags [] p Hquiet) as [parsed Hp].
  pose proof (keeps_static_processMatchesFlat completeTags [] p) as Hstatic.
  pose proof (keeps_bufferManager_processMatchesFlat completeTags [] p) as Hbuf.
  assert (Hstate : state (processMatchesFlat completeTags [] p).2 = state p).
  { assert (K : forall parsedTags, keeps state (processMatchesFlat completeTags parsedTags)).
    { clear. induction completeTags as [|m rest IH]; intros parsedTags; simpl;
        [apply keeps_ret|].
      apply keeps_bind; [|intros; apply IH]. keeps_auto. }
    apply K. }
  destruct (processMatchesFlat completeTags [] p) as [o p3] eqn:E.
  simpl in Hp, Hstatic, Hbuf, Hstate. subst o. injection Hstatic as Hl _.
  assert (Hq3 : forall e, listeners p3 e = Returns tt) by (intros e; rewrite Hl; apply Hquiet).
  assert (Hnil : completeTags = [] -> parsed = [] /\ p3 = p).
  { intros ->. simpl in E. by injection E as <- <-. }
  set (p4 := (removeProcessedContent completeTags p3).2).
  assert (E4 : removeProcessedContent completeTags p3 = (Ok tt, p4)).
  { subst p4. unfold removeProcessedContent. by destruct (last completeTags). }
  assert (Hb4 : bufferManager p4 =
                match last completeTags with
                | Some lastMatch =>
                    (BufferManager.consume (Z.of_nat (TagMatch.endIndex lastMatch))
                                           (bufferManager p)).2
                | None => bufferManager p
                end).
  { subst p4. unfold removeProcessedContent.
    destruct (last completeTags); simpl; by rewrite Hbuf. }
  assert (Hq4 : forall e, listeners p4 e = Returns tt).
  { intros e. subst p4. unfold removeProcessedContent.
    destruct (last completeTags); simpl; apply Hq3. }
  assert (Hs4 : state p4 = state p3 /\ trace p4 = trace p3).
  { subst p4. unfold removeProcessedContent. by destruct (last completeTags). }
  set (notify := match parsed with
                 | [] => ret tt
                 | _ :: _ => emit (parsing_complete parsed) >> emit (document_completed parsed)
                 end).
  assert (E5 : exists p5, notify p4 = (Ok tt, p5) /\ bufferManager p5 = bufferManager p4 /\
                          state p5 = state p4 /\ listeners p5 = listeners p4 /\
                          (parsed = [] -> p5 = p4)).
  { subst notify. destruct parsed as [|tag parsed'].
    - exists p4. repeat split; done.
    - eexists. split.
      + unfold bind. rewrite emit_quiet by apply Hq4.
        rewrite emit_quiet by (simpl; apply Hq4). reflexivity.
      + repeat split; done. }
  destruct E5 as (p5 & E5 & Hb5 & Hs5 & Hl5 & Hn5).
  destruct (updateStats_quiet p5) as (s & E6 & S1 & S2 & _).
  { intros e. rewrite Hl5. apply Hq4. }
  assert (Hrun : processBufferFlat p =
                 (Ok tt, with_trace (trace p5 ++ [Emit (stats_updated s)]) (with_stats s p5))).
  { unfold processBufferFlat.
    unfold bind at 1. unfold get at 1. rewrite Hfind.
    unfold bind at 1. unfold lift at 1, ret at 1.
    rewrite (bind_ok _ _ _ _ _ E), (bind_ok _ _ _ _ _ E4).
    fold notify. by rewrite (bind_ok _ _ _ _ _ E5). }
  rewrite Hrun. simpl. rewrite S1, S2, Hb5, Hb4.
  repeat split; try done.
  - rewrite Hs5. destruct Hs4 as [-> _]. done.
  - intros Hc. destruct (Hnil Hc) as [-> ->]. rewrite Hn5 by done.
    destruct Hs4 as [_ ->]. done.
Qed.

End FlatConsumption.

(** X11: what flat mode leaves in the buffer.  When the chunk fits and
    the observers return, [parse] in flat mode returns with the state
    [COMPLETED]; the buffer then holds what follows the last complete tag
    of the buffered text, or all of it when there is no complete tag.
    Text before and between complete tags is dropped with them, text
    after the last one waits for the next chunk.  The statistics are
    refreshed: they carry the buffer's count of bytes processed and its
    new size.  With no complete tag the only notification is
    [stats_updated]. *)
Theorem X11_flat_parse_keeps_what_follows_the_last_tag
    (chunk : jsstring) (p : StreamParser.t) :
  RequiredParserConfig.enableNested (StreamParser.config p) = false ->
  (forall e, StreamParser.listeners p e = Returns tt) ->
  (StreamParser.getBufferSize p + BufferManager.size_of chunk
     <= BufferManager.maxSize (StreamParser.bufferManager p))%Z ->
  let text := BufferManager.getContent (StreamParser.bufferManager p) ++ chunk in
  let p' := state_after (StreamParser.parse chunk) p in
  exists completeTags,
    TagMatcher.findCompleteTags
      (RequiredParserConfig.caseSensitive (StreamParser.config p)) text = Some completeTags /\
    outcome_of (StreamParser.parse chunk) p = Ok tt /\
    StreamParser.getState p' = COMPLETED /\
    BufferManager.getContent (StreamParser.bufferManager p') =
      match last completeTags with
      | Some lastMatch => drop (TagMatch.endIndex lastMatch) text
      | None => text
      end /\
    ParserStats.totalBytesProcessed (StreamParser.getStats p')
      = (BufferManager.getTotalProcessed (StreamParser.bufferManager p)
         + BufferManager.size_of chunk)%Z /\
    ParserStats.bufferSize (StreamParser.getStats p') = StreamParser.getBufferSize p' /\
    (completeTags = [] ->
     StreamParser.trace p' =
       StreamParser.trace p ++ [Emit (stats_updated (StreamParser.getStats p'))]).
Proof.
  intros Hflat Hquiet Hfits text p'.
  destruct (findCompleteTags_returns
              (RequiredParserConfig.caseSensitive (StreamParser.config p)) text)
    as [completeTags Hfind].
  exists completeTags. split; [done|].
  set (p2 := StreamParser.with_bufferManager
               {| BufferManager.buffer := text;
                  BufferManager.maxSize := BufferManager.maxSize (StreamParser.bufferManager p);
                  BufferManager.totalBytesProcessed :=
                    (BufferManager.totalBytesProcessed (StreamParser.bufferManager p)
                     + BufferManager.size_of chunk)%Z |}
               (StreamParser.with_state PARSING p)).
  destruct (processBufferFlat_quiet p2 completeTags) as (F1 & F2 & F3 & F4 & F5 & F6);
    [done|done|].
  assert (Hrun : StreamParser.parse chunk p =
                 (Ok tt, StreamParser.with_state COMPLETED (StreamParser.processBufferFlat p2).2)).
  { unfold StreamParser.parse, StreamParser.try_catch, StreamParser.parseBody.
    unfold StreamParser.bind at 1. unfold StreamParser.modify at 1.
    unfold StreamParser.bind at 1. unfold StreamParser.appendChunk at 1. simpl.
    rewrite append_accepted by done.
    unfold StreamParser.bind at 1. unfold StreamParser.bind at 1.
    unfold StreamParser.get at 1. simpl. rewrite Hflat.
    unfold p2, text, BufferManager.getContent in *.
    destruct (StreamParser.processBufferFlat _) as [o pf]. simpl in F1. subst o. done. }
  subst p'. unfold state_after, outcome_of. rewrite Hrun. simpl.
  unfold StreamParser.getStats, StreamParser.getBufferSize. simpl.
  rewrite F4, F5, F2. simpl.
  repeat split; try done.
  - destruct (last completeTags) as [lastMatch|]; [|done].
    match goal with |- BufferManager.getContent (BufferManager.consume ?n ?b).2 = _ =>
      destruct (consume_buffer n b) as [Hb _] end.
    unfold BufferManager.getContent. rewrite Hb. simpl. by rewrite Nat2Z.id.
  - destruct (last completeTags) as [lastMatch|]; [|done].
    match goal with |- BufferManager.getTotalProcessed (BufferManager.consume ?n ?b).2 = _ =>
      destruct (consume_frame n b) as [_ Ht] end.
    unfold BufferManager.getTotalProcessed. by rewrite Ht.
Qed.

Lemma X11_flat_parse_keeps_what_follows_the_last_tag_witness :
  BufferManager.getContent
    (StreamParser.bufferManager
       (state_after (StreamParser.parse (js "hi <known>ok</known> and <kno")) known_parser))
    = js " and <kno".
Proof.
  destruct (X11_flat_parse_keeps_what_follows_the_last_tag
              (js "hi <known>ok</known> and <kno") known_parser)
    as (completeTags & H1 & _ & _ & H2 & _).
  - reflexivity.
  - intros e. reflexivity.
  - vm_compute. discriminate.
  - rewrite H2. vm_compute in H1. injection H1 as <-. vm_compute. reflexivity.
Defined.

(** * [finalize] *)

Section FinalizeFacts.

Import StreamParser.

Lemma comes_back_autoCloseAll : forall fuel p,
  length (tagStack p) <= fuel -> comes_back (autoCloseAll fuel) p.
Proof.
  induction fuel as [|fuel IH]; intros p Hfuel.
  - simpl. apply comes_back_bind; [done|]. intros p' ? [= <- <-].
    destruct (tagStack p); [done|simpl in Hfuel; lia].
  - simpl. apply comes_back_bind; [done|]. intros p' ? [= <- <-].
    destruct (tagStack p) as [|entry rest] eqn:E; [done|].
    apply comes_back_bind; [apply comes_back_autoCloseTag|].
    intros [] p' Hp'. apply IH.
    pose proof (autoCloseTag_pops p) as Hpop. rewrite Hp', E in Hpop. simpl in *.
    rewrite Hpop. lia.
Qed.

Lemma autoCloseAll_empties : forall fuel p p',
  autoCloseAll fuel p = (Ok tt, p') -> tagStack p' = [].
Proof.
  induction fuel as [|fuel IH]; intros p p'; simpl.
  - unfold bind, get. destruct (tagStack p) eqn:E; [|done]. by intros [= <-].
  - unfold bind at 1. unfold get at 1. destruct (tagStack p) eqn:E; [by intros [= <-]|].
    unfold bind. destruct (autoCloseTag p) as [[[]| |] p1]; [|done|done]. apply IH.
Qed.

Lemma comes_back_finalize p : comes_back finalize p.
Proof.
  unfold finalize.
  apply comes_back_bind; [done|]. intros p0 p' [= <- <-].
  apply comes_back_bind; [by apply comes_back_autoCloseAll|]. intros [] p1 _.
  apply comes_back_bind; [done|]. intros [] p2 _.
  apply comes_back_bind; [apply comes_back_updateStats|]. intros [] p3 _.
  apply comes_back_bind.
  { destruct (map _ _); [done|apply comes_back_emit]. }
  intros [] p4 _.
  apply comes_back_bind; [done|]. intros p5 p6 _. apply comes_back_emit.
Qed.

Lemma keeps_bufferManager_autoCloseAll : forall fuel, keeps bufferManager (autoCloseAll fuel).
Proof.
  induction fuel as [|fuel IH]; simpl.
  - keeps_auto.
  - apply keeps_bind; [apply keeps_get|]. intros p.
    destruct (tagStack p); [apply keeps_ret|].
    apply keeps_bind; [keeps_auto|]. intros _. apply IH.
Qed.

Lemma keeps_bufferManager_finalize : keeps bufferManager finalize.
Proof.
  unfold finalize.
  apply keeps_bind; [apply keeps_get|]. intros p.
  apply keeps_bind; [apply keeps_bufferManager_autoCloseAll|]. intros _.
  keeps_auto.
Qed.

Lemma bind_ok_inv {A B : Type} (m : M A) (k : A -> M B) p b p' :
  bind m k p = (Ok b, p') -> exists a p1, m p = (Ok a, p1) /\ k a p1 = (Ok b, p').
Proof.
  unfold bind. destruct (m p) as [[a| |] p1]; [|done|done]. intros H. by exists a, p1.
Qed.

Lemma emit_state e p : (emit e p).2 = with_trace (trace p ++ [Emit e]) p.
Proof. unfold emit. unfold_monad. by destruct (listeners p e). Qed.

Lemma finalize_returned p p' :
  finalize p = (Ok tt, p') ->
  tagStack p' = [] /\ state p' = COMPLETED /\
  exists tr, trace p' = tr ++ [Emit (parsing_finalized (stats p'))].
Proof.
  unfold finalize. intros H.
  apply bind_ok_inv in H as (p0 & p0' & [= <- <-] & H).
  apply bind_ok_inv in H as ([] & p1 & E1 & H).
  apply autoCloseAll_empties in E1.
  apply bind_ok_inv in H as ([] & p2 & [= <-] & H).
  apply bind_ok_inv in H as ([] & p3 & E3 & H).
  apply bind_ok_inv in H as ([] & p4 & E4 & H).
  apply bind_ok_inv in H as (p5 & p5' & [= <- <-] & H).
  assert (K3 : keeps (fun p => (tagStack p, state p)) updateStats) by keeps_auto.
  specialize (K3 (with_state COMPLETED p1)). rewrite E3 in K3. simpl in K3.
  injection K3 as K3 K3'.
  assert (K4 : (tagStack p4, state p4) = (tagStack p3, state p3)).
  { destruct (map _ _) as [|r l] in E4.
    - by injection E4 as <-.
    - pose proof (emit_state (document_completed (r :: l)) p3) as He.
      rewrite E4 in He. simpl in He. by rewrite He. }
  injection K4 as K4 K4'.
  pose proof (emit_state (parsing_finalized (stats p4)) p4) as He.
  rewrite H in He. simpl in He. subst p'. simpl.
  repeat split; [congruence|congruence|by eexists].
Qed.

Lemma autoCloseTag_unregistered entry rest p :
  tagStack p = entry :: rest ->
  assoc_get (Tag.tagName (deref (store p) (TagStackEntry.tag entry))) (tagRegistry p) = None ->
  (forall e, listeners p e = Returns tt) ->
  autoCloseTag p =
    (Ok tt,
     with_currentPath
       match rest with e :: _ => TagStackEntry.path e | [] => [] end
       (with_currentDepth (currentDepth p - 1)
          (with_trace (trace p ++ closing_events (store p) (TagStackEntry.tag entry))
             (with_stats
                (stats_with_totalTagsParsed (ParserStats.totalTagsParsed (stats p) + 1)
                                            (stats p))
                (with_tagStack rest p))))).
Proof.
  intros Hstack Hreg Hquiet. unfold autoCloseTag.
  unfold bind at 1. unfold get at 1. rewrite Hstack.
  unfold bind at 1. unfold modify at 1.
  unfold bind at 1.
  rewrite completeTag_unregistered; [|done|done].
  unfold_monad. unfold pathAfterPop. simpl. unfold_state. done.
Qed.

Lemma autoCloseAll_unregistered : forall stack p fuel,
  tagStack p = stack ->
  open_tags_unregistered p ->
  (forall e, listeners p e = Returns tt) ->
  length stack <= fuel ->
  exists p',
    autoCloseAll fuel p = (Ok tt, p') /\
    tagStack p' = [] /\ store p' = store p /\ listeners p' = listeners p /\
    tagRegistry p' = tagRegistry p /\ bufferManager p' = bufferManager p /\
    state p' = state p /\ config p' = config p /\
    currentDepth p' = (currentDepth p - Z.of_nat (length stack))%Z /\
    currentPath p' = match stack with [] => currentPath p | _ :: _ => [] end /\
    trace p' =
      trace p ++ concat (map (fun entry => closing_events (store p) (TagStackEntry.tag entry))
                             stack) /\
    stats p' =
      stats_with_totalTagsParsed
        (ParserStats.totalTagsParsed (stats p) + Z.of_nat (length stack)) (stats p).
Proof.
  induction stack as [|entry rest IH]; intros p fuel Hstack Hunreg Hquiet Hfuel.
  - exists p. split.
    + destruct fuel; simpl; unfold bind, get; by rewrite Hstack.
    + rewrite Hstack. simpl. rewrite app_nil_r, Z.add_0_r, Z.sub_0_r.
      repeat split. by destruct (stats p).
  - destruct fuel as [|fuel]; [simpl in Hfuel; lia|].
    unfold open_tags_unregistered, open_tags in Hunreg. rewrite Hstack in Hunreg.
    simpl in Hunreg. apply Forall_cons in Hunreg as [Hentry Hrest].
    pose proof (autoCloseTag_unregistered entry rest p Hstack Hentry Hquiet) as Hclose.
    match type of Hclose with _ = (_, ?q) => set (p1 := q) in * end.
    destruct (IH p1 fuel) as (p' & E & I1 & I2 & I3 & I4 & I5 & I6 & I7 & I8 & I9 & I10 & I11).
    + done.
    + unfold open_tags_unregistered, open_tags. done.
    + done.
    + simpl in Hfuel. lia.
    + exists p'. split.
      * simpl. unfold bind at 1. unfold get at 1. rewrite Hstack.
        by rewrite (bind_ok _ _ _ _ _ Hclose).
      * rewrite I2, I3, I4, I5, I6, I7, I8, I10, I11. simpl.
        repeat split; try done.
        -- lia.
        -- by destruct rest.
        -- by rewrite <- app_assoc.
        -- unfold stats_with_totalTagsParsed. simpl. f_equal. lia.
Qed.

End FinalizeFacts.

Section FinalizeUnregistered.

Import StreamParser.

Lemma completed_app a b : completed (a ++ b) = completed a ++ completed b.
Proof. apply omap_app. Qed.

Lemma completed_closing_events s r : completed (closing_events s r) = [r].
Proof.
  unfold completed, closing_events. simpl.
  by destruct (Tag.children (deref s r)) as [[|? ?]|].
Qed.

Lemma completed_closing_all s (stack : list TagStackEntry.t) :
  completed (concat (map (fun entry => closing_events s (TagStackEntry.tag entry)) stack))
    = map TagStackEntry.tag stack.
Proof.
  induction stack as [|entry rest IH]; [done|]. cbn [map concat].
  by rewrite completed_app, completed_closing_events, IH.
Qed.

Lemma finalize_unregistered p :
  open_tags_unregistered p ->
  (forall e, listeners p e = Returns tt) ->
  exists s,
    finalize p =
      (Ok tt,
       with_trace
         (trace p ++
          concat (map (fun entry => closing_events (store p) (TagStackEntry.tag entry))
                      (tagStack p)) ++
          [Emit (stats_updated s)] ++
          match rootTags p with
          | [] => []
          | _ :: _ => [Emit (document_completed (rootTags p))]
          end ++
          [Emit (parsing_finalized s)])
         (with_stats s
            (with_state COMPLETED
               (with_currentPath
                  match tagStack p with [] => currentPath p | _ :: _ => [] end
                  (with_currentDepth (currentDepth p - Z.of_nat (length (tagStack p)))
                     (with_tagStack [] p)))))) /\
    ParserStats.totalTagsParsed s
      = (ParserStats.totalTagsParsed (stats p) + Z.of_nat (length (tagStack p)))%Z /\
    ParserStats.totalBytesProcessed s = BufferManager.getTotalProcessed (bufferManager p) /\
    ParserStats.bufferSize s = BufferManager.getSize (bufferManager p).
Proof.
  intros Hunreg Hquiet.
  destruct (autoCloseAll_unregistered (tagStack p) p (length (tagStack p)))
    as (p1 & E1 & I1 & I2 & I3 & I4 & I5 & I6 & I7 & I8 & I9 & I10 & I11); try done.
  set (p2 := with_state COMPLETED p1).
  destruct (updateStats_quiet p2) as (s & E3 & S1 & S2 & S3 & S4 & S5).
  { intros e. simpl. rewrite I3. apply Hquiet. }
  exists s. split.
  - unfold finalize. unfold bind at 1. unfold get at 1.
    rewrite (bind_ok _ _ _ _ _ E1).
    unfold bind at 1. unfold modify at 1. fold p2.
    rewrite (bind_ok _ _ _ _ _ E3).
    fold (rootTags p).
    assert (Hq : forall e tr st, listeners (with_trace tr (with_stats st p2)) e = Returns tt).
    { intros e tr st. simpl. rewrite I3. apply Hquiet. }
    destruct (rootTags p) as [|r l].
    + unfold bind at 1. unfold ret at 1. unfold bind at 1. unfold get at 1.
      rewrite emit_quiet by apply Hq. f_equal. simpl.
      destruct p1. simpl in *. subst. unfold p2. unfold_state.
      rewrite <- !app_assoc. done.
    + unfold bind at 1. rewrite emit_quiet by apply Hq.
      unfold bind at 1. unfold get at 1.
      rewrite emit_quiet by (simpl; rewrite I3; apply Hquiet). f_equal. simpl.
      destruct p1. simpl in *. subst. unfold p2. unfold_state.
      rewrite <- !app_assoc. done.
  - rewrite S4, S1, S2. simpl. rewrite I11, I5. done.
Qed.

End FinalizeUnregistered.

(** X12: [finalize] comes back, with nothing left open.  On every
    engine state it returns or throws (its loop over the open tags ends),
    and it never touches the buffer: text that follows the last tag stays
    there and is not added to any tag.  When it returns, no tag is open,
    the state is [COMPLETED] and the last notification is
    [parsing_finalized] with the statistics as they then are. *)
Theorem X12_finalize_comes_back_with_nothing_open (p : StreamParser.t) :
  outcome_of StreamParser.finalize p <> Diverge /\
  StreamParser.bufferManager (state_after StreamParser.finalize p)
    = StreamParser.bufferManager p /\
  (outcome_of StreamParser.finalize p = Ok tt ->
   let p' := state_after StreamParser.finalize p in
   StreamParser.tagStack p' = [] /\
   StreamParser.getState p' = COMPLETED /\
   last (emitted (StreamParser.trace p'))
     = Some (parsing_finalized (StreamParser.getStats p'))).
Proof.
  split; [apply comes_back_finalize|].
  split; [apply keeps_bufferManager_finalize|].
  unfold outcome_of, state_after. intros H.
  destruct (StreamParser.finalize p) as [o p'] eqn:E. simpl in *. subst o.
  destruct (finalize_returned p p' E) as (H1 & H2 & tr & H3).
  repeat split; try done.
  rewrite H3. unfold emitted. rewrite omap_app. simpl. by rewrite last_snoc.
Qed.

(** X13: [finalize] closes what is open.  When no open tag has a
    definition and the observers return, [finalize] returns; it
    completes every open tag, the innermost first, each with
    [tag_closed] and [tag_completed], and counts each as parsed; it
    lowers the depth by their number and leaves no tag open.  Then it
    raises [stats_updated], [document_completed] with the open tags of
    depth one when there are any, and [parsing_finalized]; the tag
    objects themselves are not changed. *)
Theorem X13_finalize_closes_the_open_tags (p : StreamParser.t) :
  open_tags_unregistered p ->
  (forall e, StreamParser.listeners p e = Returns tt) ->
  let p' := state_after StreamParser.finalize p in
  outcome_of StreamParser.finalize p = Ok tt /\
  StreamParser.tagStack p' = [] /\
  StreamParser.getState p' = COMPLETED /\
  completed (StreamParser.trace p') = completed (StreamParser.trace p) ++ open_tags p /\
  StreamParser.trace p' =
    StreamParser.trace p ++
    concat (map (closing_events (StreamParser.store p)) (open_tags p)) ++
    [Emit (stats_updated (StreamParser.getStats p'))] ++
    match rootTags p with
    | [] => []
    | _ :: _ => [Emit (document_completed (rootTags p))]
    end ++
    [Emit (parsing_finalized (StreamParser.getStats p'))] /\
  ParserStats.totalTagsParsed (StreamParser.getStats p')
    = (ParserStats.totalTagsParsed (StreamParser.getStats p)
       + Z.of_nat (length (open_tags p)))%Z /\
  StreamParser.getCurrentDepth p'
    = (StreamParser.getCurrentDepth p - Z.of_nat (length (open_tags p)))%Z /\
  StreamParser.store p' = StreamParser.store p.
Proof.
  intros Hunreg Hquiet p'. subst p'. unfold state_after, outcome_of.
  destruct (finalize_unregistered p Hunreg Hquiet) as (s & E & S1 & S2 & S3).
  rewrite E. simpl. unfold StreamParser.getStats, StreamParser.getCurrentDepth, open_tags.
  simpl. rewrite !length_map, map_map.
  repeat split; try done.
  rewrite !completed_app, completed_closing_all.
  destruct (rootTags p); simpl; by rewrite app_nil_r.
Qed.

Lemma X13_finalize_closes_the_open_tags_witness :
  let p := state_after (StreamParser.parse (js "<a><b>text")) nested_parser in
  completed (StreamParser.trace (state_after StreamParser.finalize p)) = [1; 0] /\
  rootTags p = [0].
Proof.
  cbv zeta. split; [|vm_compute; reflexivity].
  match goal with |- completed (StreamParser.trace (state_after _ ?p)) = _ =>
    destruct (X13_finalize_closes_the_open_tags p) as (_ & _ & _ & H & _)
  end.
  - unfold open_tags_unregistered. vm_compute. repeat constructor.
  - intros e. reflexivity.
  - rewrite H. vm_compute. reflexivity.
Defined.

(** * Nested mode and the statistics *)

Section NotRefreshed.

Import StreamParser.

Lemma not_refreshed_refl p : not_refreshed p p.
Proof. unfold not_refreshed. repeat split. exists []. by rewrite app_nil_r. Qed.

Lemma not_refreshed_trans p1 p2 p3 :
  not_refreshed p1 p2 -> not_refreshed p2 p3 -> not_refreshed p1 p3.
Proof.
  unfold not_refreshed.
  intros (A1 & A2 & A3 & A4 & t1 & A5 & A6) (B1 & B2 & B3 & B4 & t2 & B5 & B6).
  repeat split; try congruence.
  exists (t1 ++ t2). split; [by rewrite B5, A5, app_assoc|by apply Forall_app].
Qed.

Lemma not_refreshed_trace x p :
  (forall s, x <> Emit (stats_updated s)) -> not_refreshed p (with_trace (trace p ++ [x]) p).
Proof.
  intros H. unfold not_refreshed. simpl. repeat split. exists [x]. split; [done|].
  by apply Forall_singleton.
Qed.

Lemma not_refreshed_frame p p' :
  stats p' = stats p -> config p' = config p -> trace p' = trace p -> not_refreshed p p'.
Proof.
  intros H1 H2 H3. unfold not_refreshed. rewrite H1, H2, H3. repeat split.
  exists []. by rewrite app_nil_r.
Qed.

Lemma not_refreshed_stats s p :
  ParserStats.totalBytesProcessed s = ParserStats.totalBytesProcessed (stats p) ->
  ParserStats.bufferSize s = ParserStats.bufferSize (stats p) ->
  ParserStats.registeredTagsCount s = ParserStats.registeredTagsCount (stats p) ->
  not_refreshed p (with_stats s p).
Proof.
  intros H1 H2 H3. unfold not_refreshed. simpl. repeat split; try done.
  exists []. by rewrite app_nil_r.
Qed.

End NotRefreshed.

Ltac not_refreshed_tac :=
  first [ apply not_refreshed_refl
        | apply not_refreshed_trace; done
        | apply not_refreshed_frame; reflexivity
        | apply not_refreshed_stats; reflexivity
        | solve [eauto] ].

Ltac not_refreshed_step :=
  steady_step not_refreshed_refl not_refreshed_trans ltac:(not_refreshed_tac).

Ltac not_refreshed_auto := repeat not_refreshed_step.

Section NestedNotRefreshed.

Import StreamParser.

Lemma quiet_validate tag definition p : steady not_refreshed (validate tag definition) p.
Proof. unfold validate. not_refreshed_auto. Qed.

Lemma quiet_transform tag definition p : steady not_refreshed (transform tag definition) p.
Proof. unfold transform. not_refreshed_auto. Qed.

Lemma quiet_completeTag tag p : steady not_refreshed (completeTag tag) p.
Proof.
  pose proof quiet_validate. pose proof quiet_transform.
  unfold completeTag. not_refreshed_auto.
Qed.

Lemma quiet_addChild parent child p : steady not_refreshed (addChild parent child) p.
Proof. unfold addChild. not_refreshed_auto. Qed.

Lemma quiet_handleOpeningTag tagMatch p : steady not_refreshed (handleOpeningTag tagMatch) p.
Proof.
  pose proof quiet_addChild. unfold handleOpeningTag. not_refreshed_auto.
Qed.

Lemma quiet_autoCloseTag p : steady not_refreshed autoCloseTag p.
Proof. pose proof quiet_completeTag. unfold autoCloseTag. not_refreshed_auto. Qed.

Lemma quiet_autoCloseUntil tagName : forall fuel p,
  steady not_refreshed (autoCloseUntil fuel tagName) p.
Proof.
  pose proof quiet_autoCloseTag.
  induction fuel as [|fuel IH]; intros p; simpl; not_refreshed_auto.
Qed.

Lemma quiet_handleClosingTag tagMatch p : steady not_refreshed (handleClosingTag tagMatch) p.
Proof.
  pose proof quiet_completeTag. pose proof quiet_autoCloseUntil.
  unfold handleClosingTag. not_refreshed_auto.
Qed.

Lemma quiet_handleSelfClosingTag tagMatch p :
  steady not_refreshed (handleSelfClosingTag tagMatch) p.
Proof.
  pose proof quiet_completeTag. pose proof quiet_addChild.
  unfold handleSelfClosingTag. not_refreshed_auto.
Qed.

Lemma quiet_handleTextContent textContent p :
  steady not_refreshed (handleTextContent textContent) p.
Proof. unfold handleTextContent. not_refreshed_auto. Qed.

Lemma quiet_processTagNested tagMatch p : steady not_refreshed (processTagNested tagMatch) p.
Proof.
  pose proof quiet_handleOpeningTag. pose proof quiet_handleClosingTag.
  pose proof quiet_handleSelfClosingTag.
  unfold processTagNested. not_refreshed_auto.
Qed.

Lemma quiet_sweep buffer : forall fuel lastProcessedIndex p,
  steady not_refreshed (sweep fuel buffer lastProcessedIndex) p.
Proof.
  pose proof quiet_processTagNested. pose proof quiet_handleTextContent.
  induction fuel as [|fuel IH]; intros lastProcessedIndex p; simpl; not_refreshed_auto.
Qed.

Lemma quiet_processBufferNested p : steady not_refreshed processBufferNested p.
Proof. pose proof quiet_sweep. unfold processBufferNested. not_refreshed_auto. Qed.

Lemma quiet_appendChunk chunk p : steady not_refreshed (appendChunk chunk) p.
Proof.
  unfold steady, appendChunk.
  destruct (BufferManager.append chunk (bufferManager p)).
  by apply not_refreshed_frame.
Qed.

Lemma quiet_parse_nested chunk p :
  RequiredParserConfig.enableNested (config p) = true ->
  steady not_refreshed (parse chunk) p.
Proof.
  intros Hnested. pose proof quiet_processBufferNested. pose proof quiet_appendChunk.
  unfold parse, parseBody, parseCatch.
  apply (steady_try_catch _ not_refreshed_trans); [|intros; not_refreshed_auto].
  apply (steady_bind _ not_refreshed_trans); [not_refreshed_auto|].
  intros [] p1 [= <-].
  apply (steady_bind _ not_refreshed_trans); [not_refreshed_auto|].
  intros [] p2 E2.
  assert (Hc : config p2 = config p).
  { pose proof (quiet_appendChunk chunk (with_state PARSING p)) as K.
    unfold steady in K. rewrite E2 in K. simpl in K. by destruct K as (_ & _ & _ & K & _). }
  apply (steady_bind _ not_refreshed_trans); [|intros; not_refreshed_auto].
  apply (steady_bind _ not_refreshed_trans); [not_refreshed_auto|].
  intros p3 p3' [= <- <-]. rewrite Hc, Hnested. done.
Qed.

End NestedNotRefreshed.

(** X14: in nested mode [parse] does not refresh the statistics.  It
    raises no [stats_updated], and the byte count, the buffer size and
    the number of registered tags that [getStats] reports are after the
    call what they were before it, however much text the call took in:
    in this mode they are brought up to date by [finalize], [defineTag]
    and [removeTag] only. *)
Theorem X14_nested_parse_does_not_refresh_statistics
    (chunk : jsstring) (p : StreamParser.t) :
  RequiredParserConfig.enableNested (StreamParser.config p) = true ->
  let p' := state_after (StreamParser.parse chunk) p in
  ParserStats.totalBytesProcessed (StreamParser.getStats p')
    = ParserStats.totalBytesProcessed (StreamParser.getStats p) /\
  ParserStats.bufferSize (StreamParser.getStats p')
    = ParserStats.bufferSize (StreamParser.getStats p) /\
  ParserStats.registeredTagsCount (StreamParser.getStats p')
    = ParserStats.registeredTagsCount (StreamParser.getStats p) /\
  exists tr,
    StreamParser.trace p' = StreamParser.trace p ++ tr /\
    forall s, Emit (stats_updated s) ∉ tr.
Proof.
  intros Hnested p'.
  destruct (quiet_parse_nested chunk p Hnested) as (H1 & H2 & H3 & _ & tr & H4 & H5).
  repeat split; try done.
  exists tr. split; [done|].
  intros s Hin. rewrite Forall_forall in H5. by apply (H5 _ Hin s).
Qed.

Lemma X14_nested_parse_does_not_refresh_statistics_witness :
  let p := state_after (StreamParser.parse (js "<a>some text<b>")) nested_parser in
  ParserStats.totalBytesProcessed (StreamParser.getStats p) = 0%Z /\
  BufferManager.getTotalProcessed (StreamParser.bufferManager p) = 15%Z.
Proof.
  cbv zeta. split; [|vm_compute; reflexivity].
  destruct (X14_nested_parse_does_not_refresh_statistics (js "<a>some text<b>") nested_parser)
    as (H & _).
  - reflexivity.
  - exact H.
Defined.

(** * Validation and transformation *)

Section TrimFacts.

Lemma skip_while_split p s :
  exists pre, s = pre ++ skip_while p s /\ forallb p pre = true.
Proof.
  induction s as [|c s IH]; simpl; [by exists []|].
  destruct (p c) eqn:E.
  - destruct IH as (pre & Hs & Hp). exists (c :: pre). simpl. rewrite E, <- Hs. done.
  - by exists [].
Qed.

Lemma skip_while_head p s c t : skip_while p s = c :: t -> p c = false.
Proof.
  induction s as [|c' s IH]; simpl; [done|].
  destruct (p c') eqn:E; [done|]. by intros [= <- <-].
Qed.

Lemma skip_while_stops p s : (forall c t, s = c :: t -> p c = false) -> skip_while p s = s.
Proof. destruct s as [|c t]; simpl; [done|]. intros H. by rewrite (H c t). Qed.

Lemma skip_while_nil p s : skip_while p s = [] <-> forallb p s = true.
Proof.
  induction s as [|c s IH]; simpl; [done|].
  destruct (p c); simpl; [done|]. split; done.
Qed.

Lemma skip_while_idem p s : skip_while p (skip_while p s) = skip_while p s.
Proof.
  apply skip_while_stops. intros c t H. by apply skip_while_head in H.
Qed.

Lemma trim_nil s : trim s = [] <-> forallb is_space s = true.
Proof.
  unfold trim. destruct (skip_while_split is_space s) as (pre & Hs & Hp).
  split.
  - intros H. apply (f_equal (@rev ascii)) in H. rewrite rev_involutive in H. simpl in H.
    apply skip_while_nil in H. rewrite forallb_forall in H.
    rewrite Hs, forallb_app, Hp. simpl. apply forallb_forall. intros c Hc.
    apply H. by apply in_rev in Hc.
  - intros H. rewrite (proj2 (skip_while_nil is_space s) H). done.
Qed.

Lemma trim_shape s :
  exists pre post, s = pre ++ trim s ++ post /\
                   forallb is_space pre = true /\ forallb is_space post = true.
Proof.
  unfold trim. destruct (skip_while_split is_space s) as (pre & Hs & Hp).
  destruct (skip_while_split is_space (rev (skip_while is_space s))) as (post & Ht & Hq).
  exists pre, (rev post). split; [|split; [done|]].
  - apply (f_equal (@rev ascii)) in Ht. rewrite rev_involutive, rev_app_distr in Ht.
    by rewrite <- Ht.
  - apply forallb_forall. intros c Hc. apply in_rev in Hc.
    rewrite forallb_forall in Hq. by apply Hq.
Qed.

Lemma trim_ends s c t :
  (trim s = c :: t -> is_space c = false) /\
  (trim s = t ++ [c] -> is_space c = false).
Proof.
  unfold trim.
  destruct (skip_while_split is_space (rev (skip_while is_space s))) as (post & Ht & Hq).
  set (a := skip_while is_space s) in *.
  set (b := skip_while is_space (rev a)) in *.
  split.
  - intros H.
    assert (Hb : b = rev (c :: t)) by (rewrite <- H; by rewrite rev_involutive).
    simpl in Hb. rewrite Hb in Ht.
    apply (f_equal (@rev ascii)) in Ht. rewrite rev_involutive, !rev_app_distr, rev_involutive in Ht.
    simpl in Ht. subst a. by apply skip_while_head in Ht.
  - intros H.
    assert (Hb : b = rev (t ++ [c])) by (rewrite <- H; by rewrite rev_involutive).
    rewrite rev_app_distr in Hb. simpl in Hb. subst b. by apply skip_while_head in Hb.
Qed.

Lemma trim_fixed s :
  (forall c t, s = c :: t -> is_space c = false) ->
  (forall c t, s = t ++ [c] -> is_space c = false) ->
  trim s = s.
Proof.
  intros H1 H2. unfold trim. rewrite (skip_while_stops _ s H1).
  rewrite skip_while_stops; [apply rev_involutive|].
  intros c t Hr. apply (H2 c (rev t)).
  apply (f_equal (@rev ascii)) in Hr. rewrite rev_involutive in Hr. by rewrite Hr.
Qed.

Lemma trim_idem s : trim (trim s) = trim s.
Proof.
  apply trim_fixed; intros c t H.
  - by apply (proj1 (trim_ends s c t)).
  - by apply (proj2 (trim_ends s c t)).
Qed.

End TrimFacts.

Section ChecksSkipped.

Import StreamParser.

Lemma forallb_false {A : Type} (f : A -> bool) (l : list A) :
  forallb f l = false -> exists c, c ∈ l /\ f c = false.
Proof.
  induction l as [|a l IH]; simpl; [done|].
  destruct (f a) eqn:E; simpl.
  - intros H. destruct (IH H) as (c & Hc & Hf). exists c. split; [by right|done].
  - intros _. exists a. split; [by left|done].
Qed.

Lemma required_trimmed content :
  ContentValidators.required (trim content) = Valid \/ trim content = [].
Proof.
  unfold ContentValidators.required. rewrite trim_idem.
  destruct (trim content); [by right|by left].
Qed.

Lemma processTagFlat_required m p :
  assoc_get (TagMatch.tagName m) (tagRegistry p) = Some (required_definition (TagMatch.tagName m)) ->
  RequiredParserConfig.trimWhitespace (config p) = true ->
  (forall e, listeners p e = Returns tt) ->
  processTagFlat m p =
    (Ok (length (store p)),
     with_trace
       (trace p ++ [Emit (tag_started (TagMatch.tagName m) (TagMatch.attributes m));
                    Emit (tag_completed (length (store p)))])
       (with_store (store p ++ [flat_record m p]) p)).
Proof.
  intros Hreg Htrim Hquiet.
  unfold processTagFlat, flat_record. unfold bind at 1. unfold get at 1. rewrite Hreg, Htrim.
  unfold applyDefaults, validate, transform, check, try_catch, call_onStart, call_onComplete.
  unfold_monad. rewrite Hquiet. simpl. unfold deref. rewrite !lookup_snoc. simpl.
  destruct (required_trimmed (TagMatch.content m)) as [Hv|Hn].
  - rewrite Hv. destruct (trim (TagMatch.content m)) eqn:E; simpl;
      rewrite Hquiet; simpl; unfold_state; by rewrite <- app_assoc.
  - rewrite Hn. simpl. rewrite Hquiet. simpl. unfold_state. by rewrite <- app_assoc.
Qed.

End ChecksSkipped.

(** X15: the checks of a definition are skipped for what is empty.  For
    a tag whose content is the empty string the outcome of
    [TagValidator.validate] and of [TagTransformer.transform] does not
    depend on the content validator or the content transformer: neither
    is called.  In the same way the attribute validator and transformer
    are not called for a tag without an [attributes] object.  So a tag
    with empty content, no attributes and no [children] passes both
    steps unchanged under every definition. *)
Theorem X15_checks_are_skipped_for_empty_parts
    (tag : ref) (definition : TagDefinition.t) (p : StreamParser.t) :
  let x := StreamParser.deref (StreamParser.store p) tag in
  (Tag.content x = [] ->
   forall validateContent transformContent,
     StreamParser.validate tag (with_content_checks validateContent transformContent definition) p
       = StreamParser.validate tag definition p /\
     StreamParser.transform tag (with_content_checks validateContent transformContent definition) p
       = StreamParser.transform tag definition p) /\
  (Tag.attributes x = None ->
   forall validateAttributes transformAttributes,
     StreamParser.validate tag
       (with_attribute_checks validateAttributes transformAttributes definition) p
       = StreamParser.validate tag definition p /\
     StreamParser.transform tag
       (with_attribute_checks validateAttributes transformAttributes definition) p
       = StreamParser.transform tag definition p) /\
  (Tag.content x = [] -> Tag.attributes x = None -> Tag.children x = None ->
   StreamParser.validate tag definition p = (Ok tt, p) /\
   StreamParser.transform tag definition p = (Ok tt, p)).
Proof.
  cbv zeta. repeat split.
  - unfold StreamParser.validate. unfold_monad. rewrite H.
    by destruct (TagDefinition.validateContent definition), validateContent.
  - unfold StreamParser.transform, StreamParser.try_catch. unfold_monad. rewrite H.
    by destruct (TagDefinition.transformContent definition), transformContent.
  - unfold StreamParser.validate. unfold_monad.
    destruct (TagDefinition.validateContent definition) as [f|];
      [destruct (Tag.content _); [|destruct (f _) as [[|msg]|e]]|];
      simpl; rewrite ?H; try done;
      by destruct (TagDefinition.validateAttributes definition), validateAttributes.
  - assert (Ha : forall c,
              Tag.attributes
                (StreamParser.deref
                   (alter (Tag.set_content c) tag (StreamParser.store p)) tag) = None).
    { intros c. unfold StreamParser.deref in *. rewrite list_lookup_alter_eq.
      by destruct (StreamParser.store p !! tag). }
    unfold StreamParser.transform, StreamParser.try_catch. unfold_monad.
    destruct (TagDefinition.transformContent definition) as [f|];
      [destruct (Tag.content _); [|destruct (f _) as [c|e]]|];
      simpl; rewrite ?H, ?Ha; try done;
      by destruct (TagDefinition.transformAttributes definition), transformAttributes.
  - unfold StreamParser.validate. unfold_monad.
    destruct (TagDefinition.validateContent definition),
             (TagDefinition.validateAttributes definition),
             (TagDefinition.validateChildren definition);
      repeat (rewrite ?H, ?H0, ?H1; simpl); done.
  - unfold StreamParser.transform, StreamParser.try_catch. unfold_monad.
    destruct (TagDefinition.transformContent definition),
             (TagDefinition.transformAttributes definition);
      repeat (rewrite ?H, ?H0; simpl); done.
Qed.

(** X16: in flat mode with [trimWhitespace] on, [required()] rejects
    nothing.  [ContentValidators.required()] accepts exactly the content
    that has a code unit other than white space, so by itself it rejects
    the empty string.  But a tag registered with that validator alone
    always completes in flat mode when the observers return: its
    content is trimmed first, and the validator is not called for the
    empty string that white space is trimmed to.  The tag is reported
    with [tag_started] and [tag_completed], with the trimmed content. *)
Theorem X16_required_rejects_nothing_after_trimming (m : TagMatch.t) (p : StreamParser.t) :
  assoc_get (TagMatch.tagName m) (StreamParser.tagRegistry p)
    = Some (required_definition (TagMatch.tagName m)) ->
  RequiredParserConfig.trimWhitespace (StreamParser.config p) = true ->
  (forall e, StreamParser.listeners p e = Returns tt) ->
  let tag := length (StreamParser.store p) in
  let p' := state_after (StreamParser.processTagFlat m) p in
  outcome_of (StreamParser.processTagFlat m) p = Ok tag /\
  StreamParser.store p' !! tag = Some (flat_record m p) /\
  Tag.content (flat_record m p) = trim (TagMatch.content m) /\
  StreamParser.trace p' =
    StreamParser.trace p ++
    [Emit (tag_started (TagMatch.tagName m) (TagMatch.attributes m));
     Emit (tag_completed tag)] /\
  (forall content,
     ContentValidators.required content = Valid <->
     exists c, c ∈ content /\ is_space c = false) /\
  ContentValidators.required [] = Invalid (js "Content is required").
Proof.
  intros Hreg Htrim Hquiet tag p'. subst tag p'. unfold state_after, outcome_of.
  rewrite processTagFlat_required by done. simpl.
  repeat split.
  - apply lookup_snoc.
  - unfold flat_record. by rewrite Htrim.
  - unfold ContentValidators.required. intros H.
    destruct (trim content) eqn:E; [done|].
    apply forallb_false. destruct (forallb is_space content) eqn:Hs; [|done].
    apply trim_nil in Hs. congruence.
  - intros (c & Hc & Hs). unfold ContentValidators.required.
    destruct (trim content) eqn:E; [|done].
    apply trim_nil in E. rewrite forallb_forall in E.
    apply list_elem_of_In in Hc. rewrite (E c Hc) in Hs. done.
Qed.

Lemma X16_required_rejects_nothing_after_trimming_witness :
  let p := state_after (StreamParser.defineTag (required_definition (js "note")))
                       (StreamParser.new ParserConfig.empty quiet) in
  completed (StreamParser.trace (state_after (StreamParser.parse (js "<note>  </note>")) p))
    = [0] /\
  outcome_of
    (StreamParser.processTagFlat
       {| TagMatch.tagName := js "note"; TagMatch.content := js "  ";
          TagMatch.attributes := None; TagMatch.startIndex := 0; TagMatch.endIndex := 15;
          TagMatch.fullMatch := js "<note>  </note>"; TagMatch.type := complete |}) p
    = Ok 0.
Proof.
  cbv zeta. split; [vm_compute; reflexivity|].
  match goal with |- outcome_of (StreamParser.processTagFlat ?m) ?p = _ =>
    destruct (X16_required_rejects_nothing_after_trimming m p) as (H & _)
  end.
  - reflexivity.
  - reflexivity.
  - intros e. reflexivity.
  - exact H.
Defined.


(** * The ready-made validators and transformers *)

Section Validators.

Import ContentValidators.

Lemma combine_valid validators content :
  combine validators content = Valid <-> Forall (fun v => v content = Valid) validators.
Proof.
  induction validators as [|v rest IH]; simpl; [by split|].
  rewrite Forall_cons. destruct (v content) eqn:E.
  - rewrite IH. tauto.
  - split; [done|]. by intros [? _].
Qed.

Lemma combine_invalid validators content message :
  combine validators content = Invalid message <->
  exists before v after,
    validators = before ++ v :: after /\
    Forall (fun v => v content = Valid) before /\ v content = Invalid message.
Proof.
  induction validators as [|v rest IH]; simpl.
  - split; [done|]. intros (before & v & after & H & _). by destruct before.
  - destruct (v content) eqn:E.
    + rewrite IH. split.
      * intros (before & v' & after & -> & Hb & Hv).
        exists (v :: before), v', after. repeat split; [by apply Forall_cons|done].
      * intros (before & v' & after & H & Hb & Hv).
        destruct before as [|b before]; simpl in H.
        -- injection H as -> ->. congruence.
        -- injection H as -> ->. apply Forall_cons in Hb as [_ Hb].
           by exists before, v', after.
    + split.
      * intros [= ->]. exists [], v, rest. repeat split; [apply Forall_nil_2|done].
      * intros (before & v' & after & H & Hb & Hv).
        destruct before as [|b before]; simpl in H.
        -- injection H as -> ->. congruence.
        -- injection H as -> ->. apply Forall_cons in Hb as [Hb _]. congruence.
Qed.

Lemma combine_app a b content :
  combine (a ++ b) content =
    match combine a content with
    | Valid => combine b content
    | Invalid message => Invalid message
    end.
Proof.
  induction a as [|v rest IH]; simpl; [done|]. by destruct (v content).
Qed.

Lemma emailPattern_iff v : test emailPattern v = true <-> email_text v.
Proof.
  rewrite test_iff. unfold emailPattern, email_text. split.
  - intros (j & σ' & Hj & HR).
    apply Run_Seq_iff in HR as (σ1 & H1 & HR). apply Run_Bol_iff in H1 as [-> Hpos].
    apply Run_Seq_iff in HR as (σ2 & H2 & HR).
    apply Run_Seq_iff in HR as (σ3 & H3 & HR).
    apply Run_Seq_iff in HR as (σ4 & H4 & HR).
    apply Run_Seq_iff in HR as (σ5 & H5 & HR).
    apply Run_Seq_iff in HR as (σ6 & H6 & HR). apply Run_Eol_iff in HR as [-> Hend].
    apply Run_Plus_Chr_iff in H2 as (a & Hna & Ha & (Ea & _)).
    apply Run_Lit_iff in H3 as (E3 & _).
    apply Run_Plus_Chr_iff in H4 as (b & Hnb & Hb & (Eb & _)).
    apply Run_Lit_iff in H5 as (E5 & _).
    apply Run_Plus_Chr_iff in H6 as (c & Hnc & Hc & (Ec & _)).
    simpl in *. subst j. rewrite drop_0 in Ea. rewrite Hend, app_nil_r in Ec.
    exists a, b, c. rewrite Ea, E3, Eb, E5, Ec. done.
  - intros (a & b & c & -> & Hna & Hnb & Hnc & Ha & Hb & Hc).
    exists 0, {| m_pos := length a + 1 + length b + 1 + length c; m_rest := []; m_caps := [] |}.
    split; [lia|]. rewrite drop_0.
    apply Run_Seq_iff. eexists. split; [by apply Run_Bol_iff|].
    apply Run_Seq_iff.
    exists {| m_pos := length a; m_rest := js "@" ++ b ++ js "." ++ c; m_caps := [] |}.
    split; [apply Run_Plus_Chr_iff; exists a; by repeat split|].
    apply Run_Seq_iff.
    exists {| m_pos := length a + 1; m_rest := b ++ js "." ++ c; m_caps := [] |}.
    split; [apply Run_Lit_iff; by repeat split|].
    apply Run_Seq_iff.
    exists {| m_pos := length a + 1 + length b; m_rest := js "." ++ c; m_caps := [] |}.
    split; [apply Run_Plus_Chr_iff; exists b; by repeat split|].
    apply Run_Seq_iff.
    exists {| m_pos := length a + 1 + length b + 1; m_rest := c; m_caps := [] |}.
    split; [apply Run_Lit_iff; by repeat split|].
    apply Run_Seq_iff. eexists. split; [|by apply Run_Eol_iff].
    apply Run_Plus_Chr_iff. exists c. repeat split; try done. simpl. by rewrite app_nil_r.
Qed.

End Validators.

(** X18: [ContentValidators.combine] reports the first failure.  The
    combined validator accepts a content exactly when every validator of
    the list accepts it; otherwise its message is that of the first
    validator of the list that rejects the content, and the validators
    after that one have no say.  Combining a list is combining the
    combinations of its parts, and the empty combination accepts
    everything. *)
Theorem X18_combine_reports_the_first_failure
    (validators : list (jsstring -> ValidationResult)) (content : jsstring) :
  (ContentValidators.combine validators content = Valid <->
   Forall (fun v => v content = Valid) validators) /\
  (forall message,
     ContentValidators.combine validators content = Invalid message <->
     exists before v after,
       validators = before ++ v :: after /\
       Forall (fun v => v content = Valid) before /\ v content = Invalid message) /\
  (forall more,
     ContentValidators.combine (validators ++ more) content =
     ContentValidators.combine
       [ContentValidators.combine validators; ContentValidators.combine more] content) /\
  ContentValidators.combine [] content = Valid.
Proof.
  split; [apply combine_valid|]. split; [intros; apply combine_invalid|].
  split; [|done].
  intros more. rewrite combine_app. simpl.
  destruct (ContentValidators.combine validators content); [|done].
  by destruct (ContentValidators.combine more content).
Qed.

(** X19: what [ContentValidators.email] accepts.  A content passes
    exactly when it is a local part, [@], a domain, a point and an
    ending, where each of the three parts has at least one code unit and
    none contains white space or [@]; any other content is rejected with
    the message [Invalid email format].  So the content is not trimmed
    first: a valid address with a space before or after it is rejected. *)
Theorem X19_email_accepts_local_at_domain_point_ending (content : jsstring) :
  (ContentValidators.email content = Valid <-> email_text content) /\
  (~ email_text content ->
   ContentValidators.email content = Invalid (js "Invalid email format")) /\
  ContentValidators.email (js "a@b.co") = Valid /\
  ContentValidators.email (js " a@b.co") = Invalid (js "Invalid email format") /\
  ContentValidators.email (js "a@b") = Invalid (js "Invalid email format").
Proof.
  unfold ContentValidators.email, ContentValidators.pattern.
  split; [|split; [|by vm_compute]].
  - rewrite <- emailPattern_iff. by destruct (test _ _).
  - intros H. rewrite <- emailPattern_iff in H. by destruct (test _ _).
Qed.

Section Transformers.

Lemma lower_unit_idem c : lower_unit (lower_unit c) = lower_unit c.
Proof. destruct c as [[] [] [] [] [] [] [] []]; reflexivity. Qed.

Lemma lowercase_idem s : lowercase (lowercase s) = lowercase s.
Proof.
  unfold lowercase. rewrite map_map. apply map_ext. intros c. apply lower_unit_idem.
Qed.

Lemma lower_unit_name_char c : is_name_char c = true -> lower_unit c = lower_char c.
Proof. destruct c as [[] [] [] [] [] [] [] []]; try reflexivity; discriminate. Qed.

Lemma toBoolean_idem content :
  ContentTransformers.toBoolean default_boolean_options
    (ContentTransformers.toBoolean default_boolean_options content)
  = ContentTransformers.toBoolean default_boolean_options content.
Proof.
  assert (H : ContentTransformers.toBoolean default_boolean_options content = js "true" \/
              ContentTransformers.toBoolean default_boolean_options content = js "false" \/
              ContentTransformers.toBoolean default_boolean_options content = content).
  { unfold ContentTransformers.toBoolean. simpl.
    destruct (includes _ _); [by left|]. destruct (includes _ _); [right; by left|].
    right; by right. }
  destruct H as [H|[H|H]]; rewrite H; try reflexivity. exact H.
Qed.

End Transformers.

(** X20: chains of transformers and the transformers that settle.
    [ContentTransformers.chain] applies its transformers from left to
    right, so a chain of two lists is the chain of the second applied to
    the result of the chain of the first, and the empty chain changes
    nothing.  [trim], [toLowerCase] and [toBoolean()] are idempotent:
    applied to their own result they change nothing, so repeating one of
    them in a chain is harmless.  What [trim] returns neither begins nor
    ends with white space, and what [toBoolean()] returns is [true],
    [false] or the content as it was. *)
Theorem X20_chain_composes_and_basic_transformers_settle (content : jsstring) :
  (forall first second,
     ContentTransformers.chain (first ++ second) content
       = ContentTransformers.chain second (ContentTransformers.chain first content)) /\
  ContentTransformers.chain [] content = content /\
  ContentTransformers.trim (ContentTransformers.trim content)
    = ContentTransformers.trim content /\
  ContentTransformers.toLowerCase (ContentTransformers.toLowerCase content)
    = ContentTransformers.toLowerCase content /\
  ContentTransformers.toBoolean default_boolean_options
    (ContentTransformers.toBoolean default_boolean_options content)
    = ContentTransformers.toBoolean default_boolean_options content /\
  (forall c rest,
     (ContentTransformers.trim content = c :: rest -> is_space c = false) /\
     (ContentTransformers.trim content = rest ++ [c] -> is_space c = false)) /\
  (ContentTransformers.toBoolean default_boolean_options content = js "true" \/
   ContentTransformers.toBoolean default_boolean_options content = js "false" \/
   ContentTransformers.toBoolean default_boolean_options content = content) /\
  (forall tagName, forallb is_name_char tagName = true ->
     ContentTransformers.toLowerCase tagName = toLowerCase tagName).
Proof.
  repeat split.
  - intros first second. unfold ContentTransformers.chain. apply fold_left_app.
  - apply trim_idem.
  - apply lowercase_idem.
  - apply toBoolean_idem.
  - by apply (proj1 (trim_ends content c rest)).
  - by apply (proj2 (trim_ends content c rest)).
  - unfold ContentTransformers.toBoolean. simpl.
    destruct (includes _ _); [by left|]. destruct (includes _ _); [right; by left|].
    right; by right.
  - intros tagName H. unfold ContentTransformers.toLowerCase, lowercase, toLowerCase.
    rewrite forallb_forall in H. apply map_ext_in. intros c Hc.
    apply lower_unit_name_char. by apply H.
Qed.

(** * The matcher: [containsTags] and [findNextTag] *)

Section ContainsTags.

Import TagMatcher.

Lemma TAG_START_iff content :
  test TagPatterns.TAG_START content = true <->
  exists a c b, content = a ++ js "<" ++ [c] ++ b /\ is_alpha c = true.
Proof.
  rewrite test_iff. unfold TagPatterns.TAG_START, TagPatterns.NAME. split.
  - intros (j & σ' & Hj & HR).
    apply Run_Seq_iff in HR as (σ1 & H1 & HR).
    apply Run_Seq_iff in HR as (σ2 & H2 & HR).
    apply Run_Lit_iff in H1 as (E1 & _).
    apply Run_Chr_iff in H2 as (c & Hc & (E2 & _)).
    simpl in *. exists (take j content), c, (m_rest σ2). split; [|done].
    rewrite <- (take_drop j content) at 1. by rewrite E1, E2.
  - intros (a & c & b & -> & Hc).
    exists (length a), {| m_pos := length a + 2; m_rest := b; m_caps := [] |}.
    split; [rewrite length_app; lia|]. rewrite drop_app_length.
    apply Run_Seq_iff.
    exists {| m_pos := length a + 1; m_rest := [c] ++ b; m_caps := [] |}.
    split; [apply Run_Lit_iff; by repeat split|].
    apply Run_Seq_iff.
    exists {| m_pos := length a + 2; m_rest := b; m_caps := [] |}.
    split.
    + apply Run_Chr_iff. exists c. split; [done|]. repeat split; simpl; lia.
    + apply Run_Star_Chr_iff. exists []. split; [done|]. repeat split; simpl; lia.
Qed.

End ContainsTags.

(** X21: [containsTags] looks for the start of an opening tag.  It
    answers [true] exactly when the content has a [<] that is directly
    followed by a letter from [a] to [z] or [A] to [Z], whatever comes
    after.  So the unfinished [<a] counts, and a closing tag alone, or a
    [<] followed by a space, does not. *)
Theorem X21_containsTags_finds_an_opening_start (content : jsstring) :
  (TagMatcher.containsTags content = true <->
   exists a c b, content = a ++ js "<" ++ [c] ++ b /\ is_alpha c = true) /\
  TagMatcher.containsTags (js "text <a") = true /\
  TagMatcher.containsTags (js "</a>") = false /\
  TagMatcher.containsTags (js "1 < 2 > 0") = false.
Proof.
  split; [apply TAG_START_iff|]. by vm_compute.
Qed.

Section TagShapes.

Lemma Run_tag_head σ0 σ1 σ2 σ3 σ4 :
  Run (Lit "<") σ0 σ1 -> Run (Group 1 TagPatterns.NAME) σ1 σ2 ->
  Run (Group 2 TagPatterns.ATTRS) σ2 σ3 -> Run (Star true (Chr is_space)) σ3 σ4 ->
  exists name attrs ws,
    tag_name name /\ attr_text attrs /\ all_spaces ws = true /\
    lands (js "<" ++ name ++ attrs ++ ws) ((2, attrs) :: (1, name) :: m_caps σ0) σ0 σ4.
Proof.
  intros H1 H2 H3 H4.
  apply Run_Lit_lands in H1.
  apply (Run_Group_lands 1 _ tag_name Run_NAME) in H2 as (name & Hname & H2).
  apply (Run_Group_lands 2 _ attr_text Run_ATTRS) in H3 as (attrs & Hattrs & H3).
  apply Run_Star_Chr_lands in H4 as (ws & Hws & H4).
  rewrite (lands_caps _ _ _ _ H1) in H2.
  rewrite (lands_caps _ _ _ _ H2) in H3.
  rewrite (lands_caps _ _ _ _ H3) in H4.
  exists name, attrs, ws. repeat split; try done.
  eapply lands_app; [exact H1|]. eapply lands_app; [exact H2|].
  eapply lands_app; [exact H3|exact H4].
Qed.

Lemma tag_head_Run name attrs ws σ0 σ4 :
  tag_name name -> attr_text attrs -> all_spaces ws = true ->
  lands (js "<" ++ name ++ attrs ++ ws) ((2, attrs) :: (1, name) :: m_caps σ0) σ0 σ4 ->
  exists σ1 σ2 σ3,
    Run (Lit "<") σ0 σ1 /\ Run (Group 1 TagPatterns.NAME) σ1 σ2 /\
    Run (Group 2 TagPatterns.ATTRS) σ2 σ3 /\ Run (Star true (Chr is_space)) σ3 σ4.
Proof.
  intros Hname Hattrs Hws Hl.
  apply (lands_split (js "<") _ (m_caps σ0)) in Hl as (σ1 & H1 & Hl & C1).
  apply (lands_split name _ ((1, name) :: m_caps σ0)) in Hl as (σ2 & H2 & Hl & C2).
  apply (lands_split attrs _ ((2, attrs) :: (1, name) :: m_caps σ0)) in Hl
    as (σ3 & H3 & H4 & C3).
  exists σ1, σ2, σ3. repeat split.
  - by apply Run_Lit_lands.
  - apply (Run_Group_lands 1 _ tag_name Run_NAME). exists name. by rewrite C1.
  - apply (Run_Group_lands 2 _ attr_text Run_ATTRS). exists attrs. by rewrite C2.
  - apply Run_Star_Chr_lands. exists ws. by rewrite C3.
Qed.

Lemma pattern_match type idx s0 σf :
  type <> complete ->
  match_at (pattern_of type) idx s0 = Some σf ->
  exists name attrs w,
    tag_text type name attrs w /\ s0 = w ++ m_rest σf /\
    cap_lookup 1 (m_caps σf) = Some name /\
    (type <> closing -> cap_lookup 2 (m_caps σf) = Some attrs).
Proof.
  intros Htype Hm. apply match_at_Run in Hm.
  destruct type; [| | |done]; simpl in Hm.
  - unfold TagPatterns.OPENING in Hm.
    apply Run_Seq_iff in Hm as (σ1 & H1 & Hm). apply Run_Seq_iff in Hm as (σ2 & H2 & Hm).
    apply Run_Seq_iff in Hm as (σ3 & H3 & Hm). apply Run_Seq_iff in Hm as (σ4 & H4 & H5).
    destruct (Run_opener _ _ _ _ _ _ H1 H2 H3 H4 H5) as (name & attrs & o & Ho & Hl).
    exists name, attrs, o. destruct Hl as (s & Hs & ->). simpl in *. by subst.
  - unfold TagPatterns.CLOSING in Hm.
    apply Run_Seq_iff in Hm as (σ1 & H1 & Hm). apply Run_Seq_iff in Hm as (σ2 & H2 & Hm).
    apply Run_Seq_iff in Hm as (σ3 & H3 & Hm). apply Run_Seq_iff in Hm as (σ4 & H4 & H5).
    apply Run_Lit_lands in H1. apply Run_Lit_lands in H2.
    apply (Run_Group_lands 1 _ tag_name Run_NAME) in H3 as (name & Hname & H3).
    apply Run_Star_Chr_lands in H4 as (ws & Hws & H4).
    apply Run_Lit_lands in H5.
    rewrite (lands_caps _ _ _ _ H3) in H4. rewrite (lands_caps _ _ _ _ H4) in H5.
    assert (Hl : lands (js "<" ++ js "/" ++ name ++ ws ++ js ">")
                       ((1, name) :: m_caps σ2) {| m_pos := idx; m_rest := s0; m_caps := [] |} σf).
    { eapply lands_app; [exact H1|]. eapply lands_app; [exact H2|].
      eapply lands_app; [exact H3|]. eapply lands_app; [exact H4|exact H5]. }
    exists name, [], (js "</" ++ name ++ ws ++ js ">").
    destruct Hl as (s & Hs & ->). simpl in *. subst s0.
    repeat split; try done. by exists ws.
  - unfold TagPatterns.SELF_CLOSING in Hm.
    apply Run_Seq_iff in Hm as (σ1 & H1 & Hm). apply Run_Seq_iff in Hm as (σ2 & H2 & Hm).
    apply Run_Seq_iff in Hm as (σ3 & H3 & Hm). apply Run_Seq_iff in Hm as (σ4 & H4 & Hm).
    apply Run_Seq_iff in Hm as (σ5 & H5 & H6).
    destruct (Run_tag_head _ _ _ _ _ H1 H2 H3 H4) as (name & attrs & ws & Hn & Ha & Hw & Hl).
    apply Run_Lit_lands in H5. apply Run_Lit_lands in H6.
    rewrite (lands_caps _ _ _ _ Hl) in H5. rewrite (lands_caps _ _ _ _ H5) in H6.
    assert (Hl' : lands ((js "<" ++ name ++ attrs ++ ws) ++ js "/" ++ js ">")
                        ((2, attrs) :: (1, name) :: [])
                        {| m_pos := idx; m_rest := s0; m_caps := [] |} σf).
    { eapply lands_app; [exact Hl|]. eapply lands_app; [exact H5|exact H6]. }
    exists name, attrs, (js "<" ++ name ++ attrs ++ ws ++ js "/>").
    destruct Hl' as (s & Hs & ->). simpl in *. subst s0.
    repeat split; try done.
    + by exists ws.
    + by rewrite <- !app_assoc.
Qed.

Lemma pattern_complete type idx name attrs w rest :
  tag_text type name attrs w -> is_Some (match_at (pattern_of type) idx (w ++ rest)).
Proof.
  intros Ht. destruct type; [| | |done]; simpl in *.
  - set (σ0 := {| m_pos := idx; m_rest := w ++ rest; m_caps := [] |}).
    set (σ5 := {| m_pos := idx + length w; m_rest := rest;
                  m_caps := [(2, attrs); (1, name)] |}).
    apply (Run_match_at _ _ _ σ5). fold σ0.
    assert (Hl : lands w ((2, attrs) :: (1, name) :: m_caps σ0) σ0 σ5) by by exists rest.
    destruct (opener_Run _ _ _ _ _ Ht Hl) as (σ1 & σ2 & σ3 & σ4 & H1 & H2 & H3 & H4 & H5).
    unfold TagPatterns.OPENING.
    apply Run_Seq_iff. exists σ1. split; [done|].
    apply Run_Seq_iff. exists σ2. split; [done|].
    apply Run_Seq_iff. exists σ3. split; [done|].
    apply Run_Seq_iff. exists σ4. split; done.
  - destruct Ht as (_ & Hname & ws & Hws & ->).
    set (σ0 := {| m_pos := idx; m_rest := (js "</" ++ name ++ ws ++ js ">") ++ rest;
                  m_caps := [] |}).
    set (σ1 := {| m_pos := idx + 1; m_rest := js "/" ++ name ++ ws ++ js ">" ++ rest;
                  m_caps := [] |}).
    set (σ2 := {| m_pos := idx + 1 + 1; m_rest := name ++ ws ++ js ">" ++ rest;
                  m_caps := [] |}).
    set (σ3 := {| m_pos := idx + 1 + 1 + length name; m_rest := ws ++ js ">" ++ rest;
                  m_caps := [(1, name)] |}).
    set (σ4 := {| m_pos := idx + 1 + 1 + length name + length ws; m_rest := js ">" ++ rest;
                  m_caps := [(1, name)] |}).
    set (σ5 := {| m_pos := idx + 1 + 1 + length name + length ws + 1; m_rest := rest;
                  m_caps := [(1, name)] |}).
    apply (Run_match_at _ _ _ σ5). fold σ0. unfold TagPatterns.CLOSING.
    apply Run_Seq_iff. exists σ1. split.
    { apply Run_Lit_lands. eexists. split; [|reflexivity]. simpl. by rewrite <- !app_assoc. }
    apply Run_Seq_iff. exists σ2. split.
    { apply Run_Lit_lands. eexists. split; reflexivity. }
    apply Run_Seq_iff. exists σ3. split.
    { apply (Run_Group_lands 1 _ tag_name Run_NAME). exists name. split; [done|].
      eexists. split; reflexivity. }
    apply Run_Seq_iff. exists σ4. split.
    { apply Run_Star_Chr_lands. exists ws. split; [done|]. eexists. split; reflexivity. }
    apply Run_Lit_lands. eexists. split; reflexivity.
  - destruct Ht as (ws & Hname & Hattrs & Hws & ->).
    set (σ0 := {| m_pos := idx; m_rest := (js "<" ++ name ++ attrs ++ ws ++ js "/>") ++ rest;
                  m_caps := [] |}).
    set (σ4 := {| m_pos := idx + length (js "<" ++ name ++ attrs ++ ws);
                  m_rest := js "/" ++ js ">" ++ rest;
                  m_caps := [(2, attrs); (1, name)] |}).
    set (σ5 := {| m_pos := m_pos σ4 + 1; m_rest := js ">" ++ rest; m_caps := m_caps σ4 |}).
    set (σ6 := {| m_pos := m_pos σ5 + 1; m_rest := rest; m_caps := m_caps σ4 |}).
    apply (Run_match_at _ _ _ σ6). fold σ0.
    assert (Hl : lands (js "<" ++ name ++ attrs ++ ws)
                       ((2, attrs) :: (1, name) :: m_caps σ0) σ0 σ4).
    { exists (js "/" ++ js ">" ++ rest). split; [|done]. simpl. by rewrite <- !app_assoc. }
    destruct (tag_head_Run _ _ _ _ _ Hname Hattrs Hws Hl) as (σ1 & σ2 & σ3 & H1 & H2 & H3 & H4).
    unfold TagPatterns.SELF_CLOSING.
    apply Run_Seq_iff. exists σ1. split; [done|].
    apply Run_Seq_iff. exists σ2. split; [done|].
    apply Run_Seq_iff. exists σ3. split; [done|].
    apply Run_Seq_iff. exists σ4. split; [done|].
    apply Run_Seq_iff. exists σ5. split.
    { apply Run_Lit_lands. eexists. split; reflexivity. }
    apply Run_Lit_lands. eexists. split; reflexivity.
Qed.

End TagShapes.

Section FindNextTag.

Import TagMatcher.

Lemma created_found caseSensitive buffer startIndex type m σ :
  type <> complete ->
  startIndex <= length buffer ->
  match_at (pattern_of type) (mr_index m) (drop (mr_index m) (drop startIndex buffer)) = Some σ ->
  mr_groups m = m_caps σ ->
  drop (mr_index m) (drop startIndex buffer) = mr_text m ++ m_rest σ ->
  mr_index m + length (mr_text m) <= length (drop startIndex buffer) ->
  exists tm,
    createTagMatch caseSensitive m startIndex type = Some tm /\
    TagMatch.startIndex tm = startIndex + mr_index m /\
    found_tag caseSensitive buffer tm.
Proof.
  intros Htype Hstart Hm Hg Hd Hlen.
  destruct (pattern_match type _ _ _ Htype Hm) as (name & attrs & w & Ht & Hw & H1 & H2).
  assert (Htext : mr_text m = w).
  { rewrite Hw in Hd. by apply app_inv_tail in Hd. }
  assert (Hattr : exists a,
            match type with
            | closing => Some None
            | _ => parseAttributes (default [] (group 2 m))
            end = Some a /\
            match type with
            | closing => a = None
            | _ => parseAttributes attrs = Some a
            end).
  { destruct type; try done.
    - destruct (parseAttributes_returns attrs) as [a Ha]. exists a.
      unfold group. rewrite Hg, H2 by done. by simpl.
    - by exists None.
    - destruct (parseAttributes_returns attrs) as [a Ha]. exists a.
      unfold group. rewrite Hg, H2 by done. by simpl. }
  destruct Hattr as (a & Ha1 & Ha2).
  eexists. split.
  - unfold createTagMatch. rewrite Ha1. simpl. reflexivity.
  - split; [done|]. unfold found_tag. simpl.
    exists name, attrs. rewrite Htext. unfold group. rewrite Hg, H1. simpl.
    rewrite length_drop in Hlen. rewrite Htext in Hlen.
    repeat split; try done.
    + lia.
    + rewrite drop_drop in Hw. rewrite Hw. f_equal.
      apply (f_equal (drop (length w))) in Hw.
      rewrite drop_drop, drop_app_length in Hw. by rewrite <- Hw.
Qed.

Lemma found_tag_within caseSensitive buffer tm :
  found_tag caseSensitive buffer tm ->
  TagMatch.startIndex tm < TagMatch.endIndex tm /\ TagMatch.endIndex tm <= length buffer.
Proof.
  intros (name & attrs & Ht & _ & _ & _ & He & Hle & _). split; [|done].
  assert (0 < length (TagMatch.fullMatch tm)); [|lia].
  destruct (TagMatch.type tm); simpl in Ht.
  - destruct Ht as (ws & _ & _ & _ & ->). simpl. lia.
  - destruct Ht as (_ & _ & ws & _ & ->). simpl. lia.
  - destruct Ht as (ws & _ & _ & _ & ->). simpl. lia.
  - done.
Qed.

Lemma consider_spec caseSensitive buffer startIndex type types earliest :
  type <> complete ->
  startIndex <= length buffer ->
  earliest_of caseSensitive buffer startIndex types earliest ->
  exists e,
    consider caseSensitive (exec (pattern_of type) (drop startIndex buffer) 0)
             startIndex type earliest = Some e /\
    earliest_of caseSensitive buffer startIndex (type :: types) e.
Proof.
  intros Htype Hstart Hinv. unfold consider.
  destruct (exec (pattern_of type) (drop startIndex buffer) 0) as [m|] eqn:E.
  - apply exec_Some in E as (_ & σ & Hm & Hg & Hd & _ & Hlen & _ & Hfirst).
    destruct (created_found caseSensitive buffer startIndex type m σ)
      as (tm & Hc & Hs & Hf); try done.
    destruct earliest as [[i tm0]|].
    + destruct (Nat.ltb_spec (mr_index m) i) as [Hlt|Hge].
      * rewrite Hc. simpl. eexists. split; [done|]. simpl.
        destruct Hinv as (_ & _ & Hno).
        repeat split; try done.
        intros ty j [->|Hty]%elem_of_cons Hj; [apply Hfirst; lia|apply Hno; [done|lia]].
      * eexists. split; [done|]. simpl. destruct Hinv as (H1 & H2 & Hno).
        repeat split; try done.
        intros ty j [->|Hty]%elem_of_cons Hj; [apply Hfirst; lia|by apply Hno].
    + rewrite Hc. simpl. eexists. split; [done|]. simpl.
      repeat split; try done.
      intros ty j [->|Hty]%elem_of_cons Hj; [apply Hfirst; lia|].
      apply Hinv; [done|lia].
  - eexists. split; [done|].
    pose proof (exec_None _ _ _ E) as Hnone.
    destruct earliest as [[i tm0]|]; simpl in *.
    + destruct Hinv as (H1 & H2 & Hno).
      pose proof (found_tag_within _ _ _ H2) as [Hlt Hle].
      repeat split; try done.
      intros ty j [->|Hty]%elem_of_cons Hj; [|by apply Hno].
      apply Hnone. rewrite length_drop. lia.
    + intros ty j [->|Hty]%elem_of_cons Hj; [apply Hnone; lia|by apply Hinv].
Qed.

End FindNextTag.

Section FindNextTagSpec.

Import TagMatcher.

Lemma no_tag_at buffer startIndex j :
  startIndex <= j ->
  (forall type, type ∈ [closing; opening; self_closing] ->
     match_at (pattern_of type) (j - startIndex)
              (drop (j - startIndex) (drop startIndex buffer)) = None) ->
  ~ tag_at (drop j buffer).
Proof.
  intros Hj Hnone (type & name & attrs & w & rest & Ht & Hs).
  assert (Hin : type ∈ [closing; opening; self_closing]).
  { destruct type; simpl in Ht; [| | |done]; rewrite !elem_of_cons; auto. }
  specialize (Hnone type Hin).
  rewrite drop_drop in Hnone. replace (startIndex + (j - startIndex)) with j in Hnone by lia.
  rewrite Hs in Hnone.
  destruct (pattern_complete type (j - startIndex) name attrs w rest Ht) as [σ Hσ].
  congruence.
Qed.

Lemma findNextTag_spec caseSensitive buffer startIndex :
  startIndex <= length buffer ->
  exists r,
    findNextTag caseSensitive buffer startIndex = Some r /\
    match r with
    | Some tm =>
        startIndex <= TagMatch.startIndex tm /\
        found_tag caseSensitive buffer tm /\
        forall j, startIndex <= j < TagMatch.startIndex tm -> ~ tag_at (drop j buffer)
    | None => forall j, startIndex <= j <= length buffer -> ~ tag_at (drop j buffer)
    end.
Proof.
  intros Hstart. unfold findNextTag.
  destruct (consider_spec caseSensitive buffer startIndex self_closing [] None)
    as (e1 & E1 & I1); [done|done| |].
  { simpl. intros type j Hin. by apply elem_of_nil in Hin. }
  simpl in E1. rewrite E1. simpl.
  destruct (consider_spec caseSensitive buffer startIndex opening [self_closing] e1)
    as (e2 & E2 & I2); [done|done|done|].
  simpl in E2. rewrite E2. simpl.
  destruct (consider_spec caseSensitive buffer startIndex closing [opening; self_closing] e2)
    as (e3 & E3 & I3); [done|done|done|].
  simpl in E3. rewrite E3. simpl.
  eexists. split; [done|].
  destruct e3 as [[i tm]|]; simpl in *.
  - destruct I3 as (Hs & Hf & Hno). repeat split; [lia|done|].
    intros j Hj. apply (no_tag_at buffer startIndex j); [lia|].
    intros type Hin. apply Hno; [done|lia].
  - intros j Hj. apply (no_tag_at buffer startIndex j); [lia|].
    intros type Hin. apply I3; [done|]. rewrite length_drop. lia.
Qed.

End FindNextTagSpec.

(** X22: [findNextTag] returns the earliest tag.  From every start index
    it returns, and what it returns is the first opening, closing or
    self-closing tag that begins at or after the start index: no tag of
    these kinds begins at an index between the start index and the
    match, and when it returns nothing no such tag begins anywhere from
    the start index on.  The match lies within the buffer, is not empty,
    and its text, name and attributes are those of a tag of its type.
    Where an opening and a self-closing tag begin at the same index, as
    in [<a />], the match is the self-closing one.  A start index past
    the end gives no match. *)
Theorem X22_findNextTag_returns_the_earliest_tag
    (caseSensitive : bool) (buffer : jsstring) (startIndex : nat) :
  exists r,
    TagMatcher.findNextTag caseSensitive buffer startIndex = Some r /\
    match r with
    | Some tm =>
        startIndex <= TagMatch.startIndex tm /\
        TagMatch.startIndex tm < TagMatch.endIndex tm /\
        TagMatch.endIndex tm <= length buffer /\
        found_tag caseSensitive buffer tm /\
        forall j, startIndex <= j < TagMatch.startIndex tm -> ~ tag_at (drop j buffer)
    | None => forall j, startIndex <= j <= length buffer -> ~ tag_at (drop j buffer)
    end /\
    (length buffer < startIndex -> r = None) /\
    option_map TagMatch.type (default None (TagMatcher.findNextTag caseSensitive (js "<a />") 0))
      = Some self_closing /\
    option_map (fun tm => (TagMatch.type tm, TagMatch.startIndex tm))
               (default None (TagMatcher.findNextTag caseSensitive (js "x</b><c>") 0))
      = Some (closing, 1).
Proof.
  destruct (Nat.le_gt_cases startIndex (length buffer)) as [Hle|Hgt].
  - destruct (findNextTag_spec caseSensitive buffer startIndex Hle) as (r & Hr & Hspec).
    exists r. split; [done|]. split; [|split; [lia|by destruct caseSensitive]].
    destruct r as [tm|]; [|done].
    destruct Hspec as (H1 & H2 & H3).
    destruct (found_tag_within _ _ _ H2) as [H4 H5]. done.
  - exists None. split.
    + unfold TagMatcher.findNextTag. rewrite drop_ge by lia. reflexivity.
    + split; [intros j Hj; lia|]. split; [done|by destruct caseSensitive].
Qed.

(** * Defaults *)

Section SpreadFacts.

Lemma attribute_default key (a : option AttrMap) :
  attribute key a = assoc_get key (default [] a).
Proof. by destruct a. Qed.

Lemma fold_set_lookup key (b : AttrMap) : forall a : AttrMap,
  NoDup (map fst b) ->
  assoc_get key (fold_left (fun o kv => assoc_set kv.1 kv.2 o) b a) =
    match assoc_get key b with
    | Some v => Some v
    | None => assoc_get key a
    end.
Proof.
  induction b as [|[k1 v1] b IH]; intros a Hnd; simpl; [done|].
  simpl in Hnd. apply NoDup_cons in Hnd as [Hk Hnd]. rewrite IH by done.
  destruct (bool_decide_reflect (key = k1)) as [->|Hne].
  - apply assoc_get_None_keys in Hk. rewrite Hk. apply assoc_get_set_eq.
  - destruct (assoc_get key b); [done|]. apply assoc_get_set_ne. by intros ->.
Qed.

Lemma spread_lookup key (a b : option AttrMap) :
  distinct_keys b ->
  assoc_get key (spread a b) =
    match attribute key b with
    | Some v => Some v
    | None => attribute key a
    end.
Proof.
  intros Hb. unfold spread. rewrite fold_set_lookup by done.
  by rewrite !attribute_default.
Qed.

Lemma spread_distinct (a b : option AttrMap) : distinct_keys a -> distinct_keys (Some (spread a b)).
Proof.
  unfold spread, distinct_keys. simpl. generalize (default [] b). intros l.
  generalize (default [] a). clear. intros a Ha. revert a Ha.
  induction l as [|[k v] l IH]; intros a Ha; simpl; [done|].
  apply IH. by apply NoDup_assoc_set.
Qed.

Lemma parseAttributes_distinct attributesStr attributes :
  TagMatcher.parseAttributes attributesStr = Some attributes -> distinct_keys attributes.
Proof.
  unfold TagMatcher.parseAttributes, distinct_keys.
  destruct (trim attributesStr); [intros [= <-]; apply NoDup_nil_2|].
  destruct (execAll _ _ _ _) as [matches|]; [|done]. simpl.
  assert (H : NoDup (map fst (fold_left TagMatcher.addAttribute matches []))).
  { generalize (@NoDup_nil_2 jsstring). change (@nil jsstring) with (map fst (@nil (jsstring * AttrValue))).
    generalize (@nil (jsstring * AttrValue)).
    induction matches as [|m matches IH]; intros acc Hacc; simpl; [done|].
    apply IH. unfold TagMatcher.addAttribute.
    destruct (group 1 m) as [[|c name]|]; try done.
    unfold prop_set. destruct (bool_decide _); [done|]. by apply NoDup_assoc_set. }
  intros [= <-]. by destruct (fold_left _ _ _).
Qed.

End SpreadFacts.

(** X23: defaults fill in what is missing and override nothing.
    [TagTransformer.applyDefaults] returns without raising anything.  It
    replaces the content by the default content only when that is not
    empty and the content is empty or white space; it merges the default
    attributes under those of the tag, so that each key has the value
    the tag gave it, or else the default; with no default attributes the
    attributes stay as they are, [undefined] included.  Nothing else of
    the tag and no other tag object is changed.  The merge is the object
    spread that [AttributeTransformers.addDefaults] and the opening of a
    nested tag use too. *)
Theorem X23_defaults_fill_in_what_is_missing
    (tag : ref) (definition : TagDefinition.t) (p : StreamParser.t) (x : Tag.t) :
  StreamParser.store p !! tag = Some x ->
  distinct_keys (Tag.attributes x) ->
  let p' := state_after (StreamParser.applyDefaults tag definition) p in
  let y := StreamParser.deref (StreamParser.store p') tag in
  outcome_of (StreamParser.applyDefaults tag definition) p = Ok tt /\
  Tag.content y =
    match TagDefinition.defaultContent definition, trim (Tag.content x) with
    | Some (c :: cs), [] => c :: cs
    | _, _ => Tag.content x
    end /\
  (TagDefinition.defaultAttributes definition = None ->
   Tag.attributes y = Tag.attributes x) /\
  (forall defaults,
     TagDefinition.defaultAttributes definition = Some defaults ->
     Tag.attributes y = Some (AttributeTransformers.addDefaults defaults (Tag.attributes x)) /\
     (distinct_keys (Some defaults) -> distinct_keys (Tag.attributes y))) /\
  (forall defaults key,
     assoc_get key (AttributeTransformers.addDefaults defaults (Tag.attributes x)) =
       match attribute key (Tag.attributes x) with
       | Some v => Some v
       | None => assoc_get key defaults
       end) /\
  Tag.tagName y = Tag.tagName x /\ Tag.children y = Tag.children x /\
  (forall r, r <> tag -> StreamParser.store p' !! r = StreamParser.store p !! r) /\
  StreamParser.trace p' = StreamParser.trace p.
Proof.
  intros Hx Hd p' y. subst p' y. unfold state_after, outcome_of.
  assert (Hlook : forall defaults key,
            assoc_get key (AttributeTransformers.addDefaults defaults (Tag.attributes x)) =
              match attribute key (Tag.attributes x) with
              | Some v => Some v
              | None => assoc_get key defaults
              end).
  { intros defaults key. unfold AttributeTransformers.addDefaults.
    by rewrite spread_lookup. }
  unfold StreamParser.applyDefaults. unfold_monad. unfold StreamParser.deref.
  rewrite Hx. simpl.
  destruct (TagDefinition.defaultContent definition) as [[|c cs]|];
    [| destruct (trim (Tag.content x)) eqn:Et |]; simpl;
    rewrite ?list_lookup_alter_eq, ?Hx; simpl;
    destruct (TagDefinition.defaultAttributes definition) as [defaults|] eqn:Edef; simpl;
    rewrite ?list_lookup_alter_eq, ?Hx; simpl;
    rewrite ?list_lookup_alter_eq, ?Hx; simpl;
    repeat split; try done;
    try (intros r Hr; by rewrite ?list_lookup_alter_ne by done);
    match goal with H : Some _ = Some _ |- _ => injection H as <- end;
    first [done | apply spread_distinct].
Qed.

Lemma X23_defaults_fill_in_what_is_missing_witness :
  let x := {| Tag.tagName := js "note"; Tag.content := js "  ";
              Tag.attributes := Some [(js "id", VString (js "7"))];
              Tag.children := None; Tag.parent := None; Tag.path := None;
              Tag.depth := None; Tag.isSelfClosing := None |} in
  let p := state_after (StreamParser.alloc x) (StreamParser.new ParserConfig.empty quiet) in
  let d := with_defaults (Some (js "none"))
                         (Some [(js "id", VString (js "0")); (js "lang", VString (js "en"))])
                         (TagDefinition.simple (js "note")) in
  let y := StreamParser.deref (StreamParser.store (state_after (StreamParser.applyDefaults 0 d) p)) 0 in
  Tag.content y = js "none" /\
  Tag.attributes y = Some [(js "id", VString (js "7")); (js "lang", VString (js "en"))].
Proof.
  intros x p d y.
  assert (Hx : StreamParser.store p !! 0 = Some x) by reflexivity.
  assert (Hd : distinct_keys (Tag.attributes x)) by apply NoDup_singleton.
  destruct (X23_defaults_fill_in_what_is_missing 0 d p x Hx Hd) as (_ & Hc & _ & Ha & _).
  split.
  - exact Hc.
  - destruct (Ha _ eq_refl) as [Hy _]. exact Hy.
Defined.

(** * [String.prototype.replace] with a global pattern *)

Section Replace.

(** The collecting loop of [replace] returns, whatever the pattern. *)
Lemma collect_returns r s : forall fuel i,
  0 < fuel -> length s + 1 < fuel + i -> is_Some (collect fuel r s i).
Proof.
  induction fuel as [|fuel IH]; intros i Hpos Hfuel; [lia|].
  simpl. destruct (exec r s i) as [m|] eqn:E; [|done].
  apply exec_Some in E as (Hle & σ & _ & _ & _ & _ & Hend & _).
  set (next := match mr_text m with [] => S (lastIndexAfter m) | _ :: _ => lastIndexAfter m end).
  assert (i < next /\ next <= length s + 1) as [H1 H2].
  { unfold next, lastIndexAfter. destruct (mr_text m); simpl in *; lia. }
  destruct (IH next) as [ms Hms]; [lia|lia|].
  rewrite Hms. done.
Qed.

Lemma replace_global_returns r replacement s : is_Some (replace_global r replacement s).
Proof.
  unfold replace_global.
  destruct (collect_returns r s (length s + 2) 0) as [ms ->]; [lia|lia|done].
Qed.

Lemma not_gt_false c : not_gt c = false -> c = ">"%char.
Proof.
  unfold not_gt. intros H. apply negb_false_iff in H.
  by apply (is_char_eq _ _ H).
Qed.

Lemma first_gt w b :
  exists w' b', w ++ js ">" ++ b = w' ++ js ">" ++ b' /\ forallb not_gt w' = true.
Proof.
  induction w as [|c w IH].
  - by exists [], b.
  - destruct (not_gt c) eqn:Hc.
    + destruct IH as (w' & b' & E & H). exists (c :: w'), b'. simpl. rewrite Hc.
      split; [|done]. f_equal. exact E.
    + apply not_gt_false in Hc as ->. by exists [], (w ++ js ">" ++ b).
Qed.

Lemma Run_htmlTag σ σ' :
  Run ContentTransformers.htmlTag σ σ' <->
  exists w, forallb not_gt w = true /\ eats (js "<" ++ w ++ js ">") σ σ'.
Proof.
  unfold ContentTransformers.htmlTag. split.
  - intros HR.
    apply Run_Seq_iff in HR as (σ1 & H1 & HR).
    apply Run_Seq_iff in HR as (σ2 & H2 & H3).
    apply Run_Lit_iff in H1. apply Run_Star_Chr_iff in H2 as (w & Hw & H2).
    apply Run_Lit_iff in H3. exists w. split; [done|].
    eapply eats_app; [exact H1|]. eapply eats_app; eauto.
  - intros (w & Hw & He).
    pose proof He as (E & Hp & Hc).
    apply Run_Seq_iff. exists (advance 1 σ). split.
    { apply Run_Lit_iff. apply (advance_eats (js "<") (w ++ js ">" ++ m_rest σ')).
      rewrite E. simpl. by rewrite <- app_assoc. }
    apply Run_Seq_iff. exists (advance (length w) (advance 1 σ)). split.
    { apply Run_Star_Chr_iff. exists w. split; [done|].
      apply (advance_eats w (js ">" ++ m_rest σ')).
      simpl. rewrite E. simpl. by rewrite ?drop_0, <- ?app_assoc. }
    apply Run_Lit_iff.
    replace σ' with (advance 1 (advance (length w) (advance 1 σ))).
    { apply (advance_eats (js ">") (m_rest σ')).
      simpl. rewrite E. simpl. by rewrite ?drop_0, <- ?app_assoc, ?drop_app_length. }
    apply mstate_eq; simpl.
    + rewrite Hp. simpl. rewrite length_app. simpl. lia.
    + rewrite E. simpl. by rewrite ?drop_0, <- ?app_assoc, ?drop_app_length.
    + done.
Qed.

Lemma htmlTag_none j t :
  match_at ContentTransformers.htmlTag j t = None -> forall w b, t <> js "<" ++ w ++ js ">" ++ b.
Proof.
  intros H w b ->. destruct (first_gt w b) as (w' & b' & E & Hw).
  assert (HR : Run ContentTransformers.htmlTag
                 {| m_pos := j; m_rest := js "<" ++ w ++ js ">" ++ b; m_caps := [] |}
                 {| m_pos := j + length (js "<" ++ w' ++ js ">"); m_rest := b'; m_caps := [] |}).
  { apply Run_htmlTag. exists w'. split; [done|]. split; [|by split].
    simpl. f_equal. rewrite <- app_assoc. exact E. }
  apply Run_match_at in HR as [σ Hσ]. congruence.
Qed.

Lemma htmlTag_some j t σ :
  match_at ContentTransformers.htmlTag j t = Some σ ->
  exists w, t = js "<" ++ w ++ js ">" ++ m_rest σ /\ m_pos σ = j + length w + 2.
Proof.
  intros H. apply match_at_Run in H. apply Run_htmlTag in H as (w & Hw & (E & Hp & _)).
  simpl in *. exists w. split.
  - by rewrite E, <- app_assoc.
  - rewrite Hp, length_app. simpl. lia.
Qed.

Lemma tag_free_app pre q :
  "<"%char ∉ pre -> tag_free q -> tag_free (pre ++ q).
Proof.
  induction pre as [|c pre IH]; intros Hn Hq; [done|].
  apply not_elem_of_cons in Hn as [Hc Hn].
  intros [|c' a] w b E; simpl in E.
  - injection E as -> _. done.
  - injection E as _ E. by apply (IH Hn Hq a w b).
Qed.

(** Before the first tag there is no [<]. *)
Lemma no_lt_before t n w b :
  drop n t = js "<" ++ w ++ js ">" ++ b ->
  (forall k, k < n -> forall w b, drop k t <> js "<" ++ w ++ js ">" ++ b) ->
  "<"%char ∉ take n t.
Proof.
  intros E Hnone Hin. apply list_elem_of_lookup in Hin as [k Hk].
  apply lookup_take_Some in Hk as [Hk Hlt].
  apply (Hnone k Hlt (take (n - S k) (drop (S k) t) ++ js "<" ++ w) b).
  rewrite (drop_S _ _ _ Hk). simpl. f_equal.
  rewrite <- (take_drop (n - S k) (drop (S k) t)) at 1.
  rewrite drop_drop. replace (S k + (n - S k)) with n by lia.
  rewrite E. simpl. by rewrite <- app_assoc.
Qed.

Lemma strip_spec s : forall fuel i results,
  i <= length s -> collect fuel ContentTransformers.htmlTag s i = Some results ->
  tag_free (substitute s [] results i) /\
  (tag_free (drop i s) -> substitute s [] results i = drop i s) /\
  sublist (substitute s [] results i) (drop i s).
Proof.
  induction fuel as [|fuel IH]; intros i results Hi H; [done|].
  simpl in H. destruct (exec ContentTransformers.htmlTag s i) as [m|] eqn:E.
  - apply exec_Some in E as (Hle & σ & Hm & _ & Ht & Hp & Hend & Hmin & Hnone).
    simpl in Hmin.
    destruct (mr_text m) as [|c text] eqn:Etext; [simpl in Hmin; lia|].
    destruct (collect fuel ContentTransformers.htmlTag s (lastIndexAfter m)) as [rest|] eqn:Ec; [|done].
    simpl in H. injection H as <-.
    assert (Hnext : lastIndexAfter m <= length s) by (unfold lastIndexAfter; by rewrite Etext).
    destruct (IH _ _ Hnext Ec) as (I1 & I2 & I3).
    apply htmlTag_some in Hm as (w & Hw & _).
    assert (Hsplit : drop i s = slice s i (mr_index m) ++ drop (mr_index m) s).
    { unfold slice. rewrite <- (take_drop (mr_index m - i) (drop i s)) at 1.
      rewrite drop_drop. by replace (i + (mr_index m - i)) with (mr_index m) by lia. }
    assert (Hpre : "<"%char ∉ slice s i (mr_index m)).
    { unfold slice. apply (no_lt_before _ _ w (m_rest σ)).
      - rewrite drop_drop. by replace (i + (mr_index m - i)) with (mr_index m) by lia.
      - intros k Hk. rewrite drop_drop. apply (htmlTag_none (i + k)). apply Hnone. lia. }
    simpl. destruct (Nat.leb_spec i (mr_index m)) as [_|]; [|lia].
    split; [by apply tag_free_app|]. split.
    + intros Hfree. exfalso. apply (Hfree (slice s i (mr_index m)) w (m_rest σ)).
      by rewrite Hsplit, Hw.
    + rewrite Hsplit. apply sublist_app; [done|].
      rewrite Ht. apply sublist_inserts_l.
      assert (Hd : drop (lastIndexAfter m) s = m_rest σ).
      { unfold lastIndexAfter.
        replace (mr_index m + length (mr_text m)) with (mr_index m + length (c :: text))
          by (by rewrite Etext).
        rewrite <- drop_drop, Ht. by rewrite drop_app_length. }
      by rewrite <- Hd.
  - injection H as <-. simpl. split; [|done].
    intros a w b Heq.
    assert (Hlen : i + length a <= length s).
    { apply (f_equal length) in Heq. rewrite length_drop, length_app in Heq. simpl in Heq. lia. }
    apply (htmlTag_none (i + length a) (drop (i + length a) s)) with (w := w) (b := b).
    + apply (exec_None _ _ _ E). lia.
    + rewrite <- drop_drop, Heq. by rewrite drop_app_length.
Qed.

Lemma tag_free_test s : tag_free s -> test ContentTransformers.htmlTag s = false.
Proof.
  intros Hfree. destruct (test ContentTransformers.htmlTag s) eqn:Ht; [|done]. exfalso.
  apply test_iff in Ht as (j & σ' & Hj & HR).
  apply Run_htmlTag in HR as (w & _ & (E & _)). simpl in E.
  apply (Hfree (take j s) w (m_rest σ')).
  rewrite <- (take_drop j s) at 1. rewrite E. simpl. by rewrite <- app_assoc.
Qed.

Lemma stripHtml_spec content :
  exists result,
    ContentTransformers.stripHtml content = Some result /\
    tag_free result /\ (tag_free content -> result = content) /\
    result `sublist_of` content.
Proof.
  unfold ContentTransformers.stripHtml, replace_global.
  destruct (collect_returns ContentTransformers.htmlTag content (length content + 2) 0) as [ms Hms]; [lia|lia|].
  rewrite Hms. simpl.
  destruct (strip_spec content _ 0 ms ltac:(lia) Hms) as (F1 & F2 & F3).
  rewrite drop_0 in F2, F3. eauto.
Qed.

(** The greedy star of a class takes all it can. *)
Lemma star_greedy_Chr p : forall fuel σ,
  length (m_rest σ) <= fuel ->
  star_loop (rmatch (Chr p)) true fuel σ Some =
    Some {| m_pos := m_pos σ + (length (m_rest σ) - length (skip_while p (m_rest σ)));
            m_rest := skip_while p (m_rest σ);
            m_caps := m_caps σ |}.
Proof.
  induction fuel as [|fuel IH]; intros [pos rest caps] Hfuel; simpl in *.
  - destruct rest; [|simpl in Hfuel; lia]. simpl. do 2 f_equal. lia.
  - destruct rest as [|c rest]; simpl.
    + do 2 f_equal. lia.
    + destruct (p c) eqn:Hc; simpl.
      * unfold advance. simpl. rewrite drop_0.
        destruct (Nat.ltb_spec (length rest) (S (length rest))) as [_|]; [|lia].
        rewrite IH by (simpl in *; lia). simpl. do 2 f_equal.
        destruct (skip_while_split p rest) as (pre & Hs & _).
        apply (f_equal length) in Hs. rewrite length_app in Hs. lia.
      * do 2 f_equal. lia.
Qed.

Lemma whitespaceRun_at j t :
  match_at ContentTransformers.whitespaceRun j t =
    match t with
    | c :: t' =>
        if is_space c
        then Some {| m_pos := j + 1 + (length t' - length (skip_while is_space t'));
                     m_rest := skip_while is_space t'; m_caps := [] |}
        else None
    | [] => None
    end.
Proof.
  unfold match_at, ContentTransformers.whitespaceRun, Plus. destruct t as [|c t']; simpl; [done|].
  destruct (is_space c); [|done].
  etrans; [apply (star_greedy_Chr is_space); simpl; by rewrite drop_0|].
  simpl. by rewrite drop_0.
Qed.

Lemma squeeze_units pre l :
  Forall (fun c => is_space c = false) pre ->
  squeeze false (pre ++ l) = pre ++ squeeze false l.
Proof.
  induction 1 as [|c pre Hc _ IH]; simpl; [done|]. by rewrite Hc, IH.
Qed.

Lemma squeeze_skip l : squeeze true l = squeeze false (skip_while is_space l).
Proof.
  induction l as [|c l IH]; simpl; [done|].
  destruct (is_space c) eqn:Hc; [done|]. simpl. by rewrite Hc.
Qed.

(** Where the pattern finds nothing there is no white space. *)
Lemma units_between s i n :
  (forall j, i <= j < n -> match_at ContentTransformers.whitespaceRun j (drop j s) = None) ->
  Forall (fun c => is_space c = false) (slice s i n).
Proof.
  intros Hnone. apply Forall_lookup_2. intros k c Hk. unfold slice in Hk.
  apply lookup_take_Some in Hk as [Hk Hlt]. rewrite lookup_drop in Hk.
  specialize (Hnone (i + k) ltac:(lia)).
  rewrite whitespaceRun_at, (drop_S _ _ _ Hk) in Hnone.
  by destruct (is_space c).
Qed.

Lemma collapse_spec s : forall fuel i results,
  i <= length s -> collect fuel ContentTransformers.whitespaceRun s i = Some results ->
  substitute s (js " ") results i = squeeze false (drop i s).
Proof.
  induction fuel as [|fuel IH]; intros i results Hi H; [done|].
  simpl in H. destruct (exec ContentTransformers.whitespaceRun s i) as [m|] eqn:E.
  - apply exec_Some in E as (Hle & σ & Hm & _ & Ht & Hp & Hend & Hmin & Hnone).
    simpl in Hmin.
    destruct (mr_text m) as [|c0 text] eqn:Etext; [simpl in Hmin; lia|].
    destruct (collect fuel ContentTransformers.whitespaceRun s (lastIndexAfter m)) as [rest|] eqn:Ec; [|done].
    simpl in H. injection H as <-.
    assert (Hnext : lastIndexAfter m <= length s) by (unfold lastIndexAfter; by rewrite Etext).
    pose proof (IH _ _ Hnext Ec) as IH'.
    assert (Hsplit : drop i s = slice s i (mr_index m) ++ drop (mr_index m) s).
    { unfold slice. rewrite <- (take_drop (mr_index m - i) (drop i s)) at 1.
      rewrite drop_drop. by replace (i + (mr_index m - i)) with (mr_index m) by lia. }
    assert (Hd : drop (lastIndexAfter m) s = m_rest σ).
    { unfold lastIndexAfter.
      replace (mr_index m + length (mr_text m)) with (mr_index m + length (c0 :: text))
        by (by rewrite Etext).
      rewrite <- drop_drop, Ht. by rewrite drop_app_length. }
    rewrite whitespaceRun_at in Hm.
    destruct (drop (mr_index m) s) as [|c t'] eqn:Ed; [done|].
    destruct (is_space c) eqn:Hc; [|done]. injection Hm as <-. simpl in Hd.
    simpl. destruct (Nat.leb_spec i (mr_index m)) as [_|]; [|lia].
    simpl in IH'. rewrite IH', Hd, Hsplit, squeeze_units by (by apply units_between).
    simpl. by rewrite Hc, squeeze_skip.
  - injection H as <-. simpl.
    assert (Hu : Forall (fun c => is_space c = false) (slice s i (length s))).
    { apply units_between. intros j Hj. apply (exec_None _ _ _ E). lia. }
    unfold slice in Hu. rewrite take_ge in Hu by (rewrite length_drop; lia).
    rewrite <- (app_nil_r (drop i s)) at 2. by rewrite squeeze_units, app_nil_r.
Qed.

Lemma normalizeWhitespace_spec content :
  ContentTransformers.normalizeWhitespace content = Some (trim (squeeze false content)).
Proof.
  unfold ContentTransformers.normalizeWhitespace, replace_global.
  destruct (collect_returns ContentTransformers.whitespaceRun content (length content + 2) 0) as [ms Hms];
    [lia|lia|].
  rewrite Hms. pose proof (collapse_spec content _ 0 ms ltac:(lia) Hms) as H.
  simpl in *. by rewrite H, drop_0.
Qed.

Lemma squeeze_true_head s y l : squeeze true s = y :: l -> is_space y = false.
Proof.
  induction s as [|c s IH]; simpl; [done|].
  destruct (is_space c) eqn:Hc; [done|]. by intros [= <- <-].
Qed.

Lemma squeeze_spaces s : forall b a c l,
  squeeze b s = a ++ c :: l -> is_space c = true ->
  c = " "%char /\
  match last a with Some x => is_space x = false | None => b = false end /\
  match head l with Some y => is_space y = false | None => True end.
Proof.
  induction s as [|x s IH]; intros b a c l E Hc; simpl in E.
  { by destruct a. }
  destruct (is_space x) eqn:Hx.
  - destruct b; [by apply IH|].
    destruct a as [|z a]; simpl in E; injection E as <- E.
    + split; [done|]. split; [done|].
      destruct l as [|y l]; simpl; [done|]. by apply (squeeze_true_head s y l).
    + destruct (IH true a c l E Hc) as (H1 & H2 & H3).
      split; [done|]. split; [|done].
      rewrite last_cons. by destruct (last a).
  - destruct a as [|z a]; simpl in E; injection E as <- E; [congruence|].
    destruct (IH false a c l E Hc) as (H1 & H2 & H3).
    split; [done|]. split; [|done].
    rewrite last_cons. by destruct (last a).
Qed.

Lemma trim_squeeze_single_spaced s : single_spaced (trim (squeeze false s)).
Proof.
  intros a c l E Hc.
  destruct (trim_shape (squeeze false s)) as (pre & post & Hs & _ & _).
  rewrite E in Hs.
  assert (Hs' : squeeze false s = (pre ++ a) ++ c :: (l ++ post)).
  { rewrite Hs. by rewrite <- !app_assoc. }
  destruct (squeeze_spaces s false _ c _ Hs' Hc) as (H1 & H2 & H3).
  split; [done|]. split.
  - destruct a as [|z a].
    + pose proof (proj1 (trim_ends (squeeze false s) c l) E). congruence.
    + rewrite last_app in H2.
      destruct (last (z :: a)) as [x|] eqn:El; [by exists x|].
      by apply last_None in El.
  - destruct l as [|y l].
    + pose proof (proj2 (trim_ends (squeeze false s) c a) E). congruence.
    + exists y. split; [done|]. exact H3.
Qed.

Lemma squeeze_fixed r : forall b,
  (forall a c l, r = a ++ c :: l -> is_space c = true ->
     c = " "%char /\ match last a with Some x => is_space x = false | None => b = false end) ->
  squeeze b r = r.
Proof.
  induction r as [|x r IH]; intros b H; simpl; [done|].
  destruct (is_space x) eqn:Hx.
  - destruct (H [] x r eq_refl Hx) as [-> ->]. f_equal. apply IH.
    intros a c l -> Hc. destruct (H (" "%char :: a) c l eq_refl Hc) as [H1 H2].
    split; [done|]. rewrite last_cons in H2. destruct (last a); [done|congruence].
  - f_equal. apply IH.
    intros a c l -> Hc. destruct (H (x :: a) c l eq_refl Hc) as [H1 H2].
    split; [done|]. rewrite last_cons in H2. by destruct (last a).
Qed.

Lemma single_spaced_fixed r : single_spaced r -> squeeze false r = r.
Proof.
  intros H. apply squeeze_fixed. intros a c l E Hc.
  destruct (H a c l E Hc) as (H1 & (x & -> & Hx) & _). done.
Qed.

Lemma units_squeeze s : forall b, units (squeeze b s) = units s.
Proof.
  unfold units. induction s as [|c s IH]; intros b; simpl; [done|].
  destruct (is_space c) eqn:Hc; simpl.
  - destruct b; simpl; by rewrite IH.
  - by rewrite Hc, IH.
Qed.

Lemma units_spaces s : forallb is_space s = true -> units s = [].
Proof.
  unfold units. induction s as [|c s IH]; simpl; [done|].
  destruct (is_space c); simpl; [done|done].
Qed.

Lemma units_trim s : units (trim s) = units s.
Proof.
  destruct (trim_shape s) as (pre & post & Hs & Hpre & Hpost).
  rewrite Hs at 2. unfold units. rewrite !List.filter_app.
  fold (units pre) (units post) (units (trim s)).
  by rewrite (units_spaces pre), (units_spaces post), app_nil_r.
Qed.

End Replace.

(** X24: [ContentTransformers.stripHtml] leaves no tag behind.  It
    returns for every content, and in what it returns no [<] has a [>]
    anywhere after it, so that the pattern finds nothing more and a
    second pass changes nothing.  The result is the content with code
    units deleted, none added or moved, and a content in which no [<]
    has a [>] after it comes back as it is.  A [>] or a [<] alone
    stays: of [<<b>>] the [>] is left. *)
Theorem X24_stripHtml_leaves_no_tag (content : jsstring) :
  (exists result,
     ContentTransformers.stripHtml content = Some result /\
     tag_free result /\
     test ContentTransformers.htmlTag result = false /\
     result `sublist_of` content /\
     (tag_free content -> result = content) /\
     ContentTransformers.stripHtml result = Some result) /\
  ContentTransformers.stripHtml (js "a <b>bold</b> <br/>c") = Some (js "a bold c") /\
  ContentTransformers.stripHtml (js "1 < 2") = Some (js "1 < 2") /\
  ContentTransformers.stripHtml (js "<<b>>") = Some (js ">").
Proof.
  split; [|by vm_compute].
  destruct (stripHtml_spec content) as (result & E & Hfree & Hsame & Hsub).
  exists result. repeat split; try done.
  - by apply tag_free_test.
  - destruct (stripHtml_spec result) as (again & E' & _ & Hsame' & _).
    by rewrite E', (Hsame' Hfree).
Qed.

(** X25: [ContentTransformers.normalizeWhitespace] leaves single spaces
    between the words.  It returns for every content; what it returns
    has no white space at either end, and every white-space code unit in
    it is a space with a code unit that is not white space directly
    before it and one directly after it.  The code units that are not
    white space are those of the content, in the same order.  A second
    pass changes nothing.  A content of white space only gives the empty
    string. *)
Theorem X25_normalizeWhitespace_leaves_single_spaces (content : jsstring) :
  (exists result,
     ContentTransformers.normalizeWhitespace content = Some result /\
     trim result = result /\
     single_spaced result /\
     units result = units content /\
     ContentTransformers.normalizeWhitespace result = Some result) /\
  (forallb is_space content = true ->
   ContentTransformers.normalizeWhitespace content = Some []) /\
  ContentTransformers.normalizeWhitespace
    [" "; "a"; " "; "010"; "009"; "b"; "c"; " "; " "; "d"; "010"]%char = Some (js "a bc d").
Proof.
  split; [|split; [|by vm_compute]].
  - exists (trim (squeeze false content)).
    split; [apply normalizeWhitespace_spec|].
    split; [apply trim_idem|].
    split; [apply trim_squeeze_single_spaced|].
    split; [by rewrite units_trim, units_squeeze|].
    rewrite normalizeWhitespace_spec.
    by rewrite (single_spaced_fixed _ (trim_squeeze_single_spaced content)), trim_idem.
  - intros Hspace. rewrite normalizeWhitespace_spec. f_equal. apply trim_nil.
    assert (Hu : units (squeeze false content) = []) by (by rewrite units_squeeze, units_spaces).
    apply forallb_forall. intros c Hc.
    destruct (is_space c) eqn:Hs; [done|].
    assert (Hin : In c (units (squeeze false content))).
    { apply List.filter_In. by rewrite Hs. }
    by rewrite Hu in Hin.
Qed.

(** * Self-closing tags in nested mode *)

Section SelfClosing.

Import StreamParser.



End SelfClosing.


(** * The depth and the stack of open tags *)

Section DepthGap.

Import StreamParser.

Lemma addChild_result parent child p :
  exists s, addChild parent child p = (Ok tt, with_store s p).
Proof.
  unfold addChild. destruct parent as [r|]; [|by exists (store p); destruct p].
  unfold_monad. destruct (Tag.children (deref (store p) r)); unfold_monad.
  - eauto.
  - exists (store p). by destruct p.
Qed.

Lemma handleOpeningTag_gap tagMatch p :
  depth_gap (handleOpeningTag tagMatch p).2 = depth_gap p.
Proof.
  unfold handleOpeningTag. unfold bind at 1. unfold get at 1.
  destruct (_ <=? _)%Z; [done|].
  unfold bind at 1. unfold alloc at 1.
  unfold bind at 1.
  match goal with |- context [addChild ?a ?b ?c] =>
    destruct (addChild_result a b c) as [s ->] end.
  do 4 (unfold bind at 1; unfold modify at 1; cbv beta iota).
  match goal with |- depth_gap (?m ?q).2 = _ =>
    transitivity (depth_gap q);
    [assert (keeps depth_gap m) as K by keeps_auto; apply K|]
  end.
  unfold depth_gap. simpl. lia.
Qed.

Lemma in_step_keeps {A : Type} (m : M A) p : keeps depth_gap m -> in_step m p.
Proof. intros K a p' E. specialize (K p). by rewrite E in K. Qed.

Lemma in_step_bind {A B : Type} (m : M A) (k : A -> M B) p :
  in_step m p -> (forall a p1, m p = (Ok a, p1) -> in_step (k a) p1) -> in_step (bind m k) p.
Proof.
  intros Hm Hk b p' E. apply bind_ok_inv in E as (a & p1 & E1 & E2).
  rewrite (Hk a p1 E1 b p' E2). by apply (Hm a).
Qed.

Lemma in_step_get {B : Type} (k : t -> M B) p : in_step (k p) p -> in_step (bind get k) p.
Proof. intros H b p' E. unfold bind, get in E. by apply (H b). Qed.

Lemma keeps_gap_completeTag r : keeps depth_gap (completeTag r).
Proof. keeps_auto. Qed.

(** What [autoCloseTag] and [handleClosingTag] do with the innermost
    open tag. *)
Lemma pop_outcome entry rest p :
  tagStack p = entry :: rest ->
  let m := modify (with_tagStack rest) >>
           completeTag (TagStackEntry.tag entry) >>
           modify (fun p => with_currentDepth (currentDepth p - 1) p) >>
           modify (fun p => with_currentPath (pathAfterPop p) p) in
  match (m p).1 with
  | Ok _ => depth_gap (m p).2 = depth_gap p
  | _ =>
      m p = completeTag (TagStackEntry.tag entry) (with_tagStack rest p) /\
      tagStack (m p).2 = rest /\ currentDepth (m p).2 = currentDepth p
  end.
Proof.
  intros Hstack m. subst m. unfold_monad.
  pose proof (keeps_tagStack_completeTag (TagStackEntry.tag entry) (with_tagStack rest p)) as K1.
  assert (K2 : keeps currentDepth (completeTag (TagStackEntry.tag entry))) by keeps_auto.
  specialize (K2 (with_tagStack rest p)).
  destruct (completeTag (TagStackEntry.tag entry) (with_tagStack rest p)) as [[[]|e|] p1];
    simpl in *.
  - unfold depth_gap. simpl. rewrite K1, K2, Hstack. simpl. lia.
  - done.
  - done.
Qed.

Lemma in_step_pop entry rest p :
  tagStack p = entry :: rest ->
  in_step (modify (with_tagStack rest) >>
           completeTag (TagStackEntry.tag entry) >>
           modify (fun p => with_currentDepth (currentDepth p - 1) p) >>
           modify (fun p => with_currentPath (pathAfterPop p) p)) p.
Proof.
  intros Hstack a p' E. pose proof (pop_outcome entry rest p Hstack) as H.
  cbv zeta in H. by rewrite E in H.
Qed.

Lemma in_step_autoCloseTag p : in_step autoCloseTag p.
Proof.
  unfold autoCloseTag. apply in_step_get. destruct (tagStack p) as [|entry rest] eqn:Hstack.
  - apply in_step_keeps, keeps_ret.
  - by apply in_step_pop.
Qed.

Lemma in_step_autoCloseUntil tagName : forall fuel p, in_step (autoCloseUntil fuel tagName) p.
Proof.
  induction fuel as [|fuel IH]; intros p; simpl.
  - apply in_step_keeps. keeps_auto.
  - apply in_step_get. destruct (tagStack p); [apply in_step_keeps, keeps_ret|].
    destruct (bool_decide _); [|apply in_step_keeps, keeps_ret].
    apply in_step_bind; [apply in_step_autoCloseTag|]. intros _ p1 _. apply IH.
Qed.

Lemma in_step_handleClosingTag tagMatch p : in_step (handleClosingTag tagMatch) p.
Proof.
  unfold handleClosingTag. apply in_step_get. destruct (tagStack p); [apply in_step_keeps, keeps_throw|].
  apply in_step_bind; [apply in_step_keeps; keeps_auto|]. intros x p1 _.
  apply in_step_bind.
  - destruct (bool_decide _); [|apply in_step_keeps, keeps_ret].
    destruct (RequiredParserConfig.autoCloseUnclosed _); [|apply in_step_keeps, keeps_throw].
    apply in_step_autoCloseUntil.
  - intros _ p2 _. apply in_step_get. destruct (tagStack p2) as [|entry rest] eqn:Hstack.
    + apply in_step_keeps, keeps_throw.
    + by apply in_step_pop.
Qed.

Lemma keeps_gap_handleSelfClosingTag tagMatch : keeps depth_gap (handleSelfClosingTag tagMatch).
Proof. keeps_auto. Qed.

Lemma keeps_gap_handleTextContent textContent : keeps depth_gap (handleTextContent textContent).
Proof. keeps_auto. Qed.

Lemma in_step_processTagNested tagMatch p : in_step (processTagNested tagMatch) p.
Proof.
  unfold processTagNested. destruct (TagMatch.type tagMatch).
  - apply in_step_keeps. intros q. apply handleOpeningTag_gap.
  - apply in_step_handleClosingTag.
  - apply in_step_keeps, keeps_gap_handleSelfClosingTag.
  - apply in_step_keeps, keeps_ret.
Qed.

Lemma in_step_sweep buffer : forall fuel lastProcessedIndex p,
  in_step (sweep fuel buffer lastProcessedIndex) p.
Proof.
  induction fuel as [|fuel IH]; intros lastProcessedIndex p; simpl.
  - apply in_step_keeps. keeps_auto.
  - destruct (_ <? _); [|apply in_step_keeps, keeps_ret].
    apply in_step_bind; [apply in_step_keeps, keeps_get|]. intros q p1 _.
    apply in_step_bind; [apply in_step_keeps, keeps_lift|].
    intros [nextTag|] p2 _; [|apply in_step_keeps, keeps_ret].
    apply in_step_bind; [apply in_step_keeps; keeps_auto|]. intros _ p3 _.
    apply in_step_bind; [apply in_step_processTagNested|]. intros _ p4 _. apply IH.
Qed.

Lemma keeps_gap_processMatchesFlat completeTags : forall parsedTags,
  keeps depth_gap (processMatchesFlat completeTags parsedTags).
Proof.
  induction completeTags as [|m rest IH]; intros parsedTags; simpl; [apply keeps_ret|].
  apply keeps_bind; [|intros; apply IH]. keeps_auto.
Qed.

Lemma keeps_gap_processBufferFlat : keeps depth_gap processBufferFlat.
Proof.
  unfold processBufferFlat.
  apply keeps_bind; [apply keeps_get|]. intros p.
  apply keeps_bind; [apply keeps_lift|]. intros completeTags.
  apply keeps_bind; [apply keeps_gap_processMatchesFlat|]. intros parsedTags.
  keeps_auto.
Qed.

Lemma in_step_parseBody chunk p : in_step (parseBody chunk) p.
Proof.
  unfold parseBody.
  apply in_step_bind; [apply in_step_keeps; keeps_auto|]. intros _ p1 _.
  apply in_step_bind; [apply in_step_keeps; keeps_auto|]. intros _ p2 _.
  apply in_step_bind; [|intros _ p3 _; apply in_step_keeps; keeps_auto].
  apply in_step_bind; [apply in_step_keeps, keeps_get|]. intros q p3 _.
  destruct (RequiredParserConfig.enableNested _).
  - unfold processBufferNested.
    apply in_step_bind; [apply in_step_keeps, keeps_get|]. intros q' p4 _.
    apply in_step_bind; [apply in_step_sweep|]. intros n p5 _.
    apply in_step_keeps. keeps_auto.
  - apply in_step_keeps, keeps_gap_processBufferFlat.
Qed.

Lemma parse_completed chunk p :
  (parse chunk p).1 = Ok tt -> state (parse chunk p).2 = COMPLETED ->
  parse chunk p = parseBody chunk p.
Proof.
  unfold parse, try_catch.
  destruct (parseBody chunk p) as [[[]|e|] p1] eqn:E; [done| |done].
  intros _ Hstate. exfalso.
  assert (K : forall error, keeps state (countError >> emitError (asParserError error)
                                                            (ChunkContext chunk)))
    by (intros; keeps_auto).
  unfold parseCatch in Hstate. unfold bind at 1 in Hstate. unfold modify at 1 in Hstate.
  rewrite (K e (with_state ERROR p1)) in Hstate. done.
Qed.

Lemma handleClosingTag_matching tagMatch entry rest p :
  tagStack p = entry :: rest ->
  Tag.tagName (deref (store p) (TagStackEntry.tag entry)) = TagMatch.tagName tagMatch ->
  handleClosingTag tagMatch p =
    (modify (with_tagStack rest) >>
     completeTag (TagStackEntry.tag entry) >>
     modify (fun p => with_currentDepth (currentDepth p - 1) p) >>
     modify (fun p => with_currentPath (pathAfterPop p) p)) p.
Proof.
  intros Hstack Hname. unfold handleClosingTag.
  unfold bind at 1. unfold get at 1. rewrite Hstack.
  unfold bind at 1. unfold read at 1.
  unfold bind at 1. rewrite Hname.
  rewrite bool_decide_eq_false_2 by (by intros H; apply H).
  unfold ret at 1. unfold bind at 1. unfold get at 1. by rewrite Hstack.
Qed.

Lemma handleClosingTag_fails tagMatch entry rest p :
  tagStack p = entry :: rest ->
  Tag.tagName (deref (store p) (TagStackEntry.tag entry)) = TagMatch.tagName tagMatch ->
  (completeTag (TagStackEntry.tag entry) (with_tagStack rest p)).1 <> Ok tt ->
  handleClosingTag tagMatch p = completeTag (TagStackEntry.tag entry) (with_tagStack rest p) /\
  tagStack (handleClosingTag tagMatch p).2 = rest /\
  currentDepth (handleClosingTag tagMatch p).2 = currentDepth p.
Proof.
  intros Hstack Hname Hfail.
  rewrite (handleClosingTag_matching _ _ _ _ Hstack Hname).
  pose proof (pop_outcome entry rest p Hstack) as H. cbv zeta in H.
  match type of H with match (?m p).1 with _ => _ end =>
    destruct (m p) as [[[]|e|] p1] eqn:E end; simpl in H; [|done|done].
  exfalso. apply Hfail. revert E. unfold_monad.
  destruct (completeTag _ _) as [[[]|e|] q]; simpl; done.
Qed.

End DepthGap.

(** X27: the current depth follows the stack of open tags until a
    completion fails.  A [parse] that ends in the state [COMPLETED]
    leaves the current depth as far from the number of open tags as it
    was, so the two agree as long as they did; opening a tag and a
    self-closing tag keep them in step however they end, and so does a
    closing tag that returns.  When the completion of the tag being
    closed fails (a validator rejects it, a transformer or an observer
    throws), [handleClosingTag] fails in the same way with the tag
    already taken off the stack and the current depth not lowered: from
    then on the depth is one more than the number of open tags. *)
Theorem X27_depth_follows_the_stack_until_a_completion_fails
    (chunk : jsstring) (tagMatch : TagMatch.t) (p : StreamParser.t) :
  (outcome_of (StreamParser.parse chunk) p = Ok tt ->
   StreamParser.state (state_after (StreamParser.parse chunk) p) = COMPLETED ->
   depth_gap (state_after (StreamParser.parse chunk) p) = depth_gap p) /\
  depth_gap (state_after (StreamParser.handleOpeningTag tagMatch) p) = depth_gap p /\
  depth_gap (state_after (StreamParser.handleSelfClosingTag tagMatch) p) = depth_gap p /\
  (outcome_of (StreamParser.handleClosingTag tagMatch) p = Ok tt ->
   depth_gap (state_after (StreamParser.handleClosingTag tagMatch) p) = depth_gap p) /\
  (forall entry rest,
     StreamParser.tagStack p = entry :: rest ->
     Tag.tagName (StreamParser.deref (StreamParser.store p) (TagStackEntry.tag entry))
       = TagMatch.tagName tagMatch ->
     let completion :=
       StreamParser.completeTag (TagStackEntry.tag entry) (StreamParser.with_tagStack rest p) in
     completion.1 <> Ok tt ->
     let p' := state_after (StreamParser.handleClosingTag tagMatch) p in
     outcome_of (StreamParser.handleClosingTag tagMatch) p = completion.1 /\
     StreamParser.tagStack p' = rest /\
     StreamParser.currentDepth p' = StreamParser.currentDepth p /\
     depth_gap p' = (depth_gap p + 1)%Z) /\
  (let q := state_after (StreamParser.parse (js "<note>abc</note>")) long_note_parser in
   StreamParser.state q = ERROR /\
   StreamParser.tagStack q = [] /\ StreamParser.currentDepth q = 1%Z).
Proof.
  unfold state_after, outcome_of.
  split; [|split; [|split; [|split; [|split; [|by vm_compute]]]]].
  - intros Ho Hs. pose proof (parse_completed chunk p Ho Hs) as Eq.
    rewrite Eq in Ho |- *. clear Eq Hs.
    destruct (StreamParser.parseBody chunk p) as [o p'] eqn:E. simpl in *. subst o.
    by apply (in_step_parseBody chunk p tt p').
  - apply handleOpeningTag_gap.
  - apply keeps_gap_handleSelfClosingTag.
  - intros Ho. destruct (StreamParser.handleClosingTag tagMatch p) as [o p'] eqn:E.
    simpl in *. subst o. by apply (in_step_handleClosingTag tagMatch p tt p').
  - intros entry rest Hstack Hname. cbv zeta. intros Hfail.
    destruct (handleClosingTag_fails tagMatch entry rest p Hstack Hname Hfail)
      as (H1 & H2 & H3).
    split; [by rewrite H1|]. split; [done|]. split; [done|].
    unfold depth_gap. rewrite H2, H3, Hstack. simpl. lia.
Qed.

(** * The validators of enumerations, attribute names and lengths *)

Section MoreValidators.

Lemma includes_iff items x : includes items x = true <-> x ∈ items.
Proof. unfold includes. apply bool_decide_eq_true. Qed.

Lemma allowed_valid allowedAttrs attributes :
  AttributeValidators.allowed allowedAttrs (Some attributes) = Valid <->
  forall key, key ∈ map fst attributes -> key ∈ allowedAttrs.
Proof.
  unfold AttributeValidators.allowed.
  destruct (filter _ (map fst attributes)) as [|k invalid] eqn:E.
  - split; [intros _|done]. intros key Hkey.
    destruct (includes allowedAttrs key) eqn:Hin; [by apply includes_iff|].
    assert (Hf : key ∈ filter (fun attr => includes allowedAttrs attr = false)
                          (map fst attributes)).
    { apply list_elem_of_filter. by split. }
    rewrite E in Hf. by apply elem_of_nil in Hf.
  - split; [done|]. intros H. exfalso.
    assert (Hk : k ∈ filter (fun attr => includes allowedAttrs attr = false)
                        (map fst attributes)) by (rewrite E; left).
    apply list_elem_of_filter in Hk as [Hk Hin].
    apply H, includes_iff in Hin. congruence.
Qed.

End MoreValidators.

(** X28: [ContentValidators.enum] without case sensitivity accepts more.
    With case sensitivity it accepts exactly the listed values; without
    it, exactly the contents whose lower-case form is the lower-case
    form of a listed value.  So what the first accepts the second
    accepts too, and the second does not tell a content from its
    lower-case form.  The message of a rejection lists the values as
    they were given, joined by a comma and a space. *)
Theorem X28_enum_without_case_accepts_more
    (allowedValues : list jsstring) (content : jsstring) :
  (ContentValidators.enum allowedValues true content = Valid <-> content ∈ allowedValues) /\
  (ContentValidators.enum allowedValues false content = Valid <->
   exists value, value ∈ allowedValues /\ lowercase content = lowercase value) /\
  (ContentValidators.enum allowedValues true content = Valid ->
   ContentValidators.enum allowedValues false content = Valid) /\
  ContentValidators.enum allowedValues false (lowercase content) =
    ContentValidators.enum allowedValues false content /\
  (forall caseSensitive,
     ContentValidators.enum allowedValues caseSensitive content = Valid \/
     ContentValidators.enum allowedValues caseSensitive content =
       Invalid (js "Value must be one of: " ++ join (js ", ") allowedValues)) /\
  ContentValidators.enum [js "Yes"; js "No"] false (js "YES") = Valid /\
  ContentValidators.enum [js "Yes"; js "No"] true (js "YES") =
    Invalid (js "Value must be one of: Yes, No").
Proof.
  assert (H1 : ContentValidators.enum allowedValues true content = Valid <->
               content ∈ allowedValues).
  { unfold ContentValidators.enum. cbv zeta.
    destruct (includes allowedValues content) eqn:E.
    - split; [intros _|done]. by apply includes_iff.
    - split; [done|]. intros H. apply includes_iff in H. congruence. }
  assert (H2 : forall c, ContentValidators.enum allowedValues false c = Valid <->
               exists value, value ∈ allowedValues /\ lowercase c = lowercase value).
  { intros c. unfold ContentValidators.enum. cbv zeta.
    destruct (includes (map lowercase allowedValues) (lowercase c)) eqn:E.
    - split; [intros _|done]. apply includes_iff in E.
      apply list_elem_of_fmap in E as (value & Hv & Hin). by exists value.
    - split; [done|]. intros (value & Hin & Hv). exfalso.
      assert (Hi : includes (map lowercase allowedValues) (lowercase c) = true).
      { apply includes_iff. rewrite Hv. by apply list_elem_of_fmap_2. }
      congruence. }
  split; [exact H1|]. split; [apply H2|]. split; [|split; [|split; [|by vm_compute]]].
  - intros H. apply H2. exists content. split; [by apply H1|done].
  - unfold ContentValidators.enum. cbv zeta. by rewrite lowercase_idem.
  - intros caseSensitive. unfold ContentValidators.enum. cbv zeta.
    destruct (includes _ _); [by left|by right].
Qed.

(** X29: [AttributeValidators.allowed] accepts exactly the records whose
    names are all allowed.  Without attributes the answer is [true];
    with attributes it is [true] exactly when every name of the record
    is in the list, and otherwise the message lists the names that are
    not, in the order of the record. *)
Theorem X29_allowed_accepts_only_listed_names
    (allowedAttrs : list jsstring) (attributes : AttrMap) :
  AttributeValidators.allowed allowedAttrs None = Valid /\
  (AttributeValidators.allowed allowedAttrs (Some attributes) = Valid <->
   forall key, key ∈ map fst attributes -> key ∈ allowedAttrs) /\
  (AttributeValidators.allowed allowedAttrs (Some attributes) = Valid \/
   AttributeValidators.allowed allowedAttrs (Some attributes) =
     Invalid (js "Invalid attributes: " ++
              join (js ", ") (filter (fun key => key ∉ allowedAttrs) (map fst attributes)))) /\
  AttributeValidators.allowed [js "id"]
    (Some [(js "x", VBoolean true); (js "id", VBoolean true); (js "y", VBoolean true)])
    = Invalid (js "Invalid attributes: x, y").
Proof.
  split; [done|]. split; [apply allowed_valid|]. split; [|by vm_compute].
  unfold AttributeValidators.allowed.
  assert (Hf : filter (fun attr => includes allowedAttrs attr = false) (map fst attributes) =
               filter (fun key => key ∉ allowedAttrs) (map fst attributes)).
  { apply list_filter_iff. intros key. rewrite <- includes_iff.
    by destruct (includes allowedAttrs key). }
  rewrite Hf. clear Hf. destruct (filter _ _); [by left|by right].
Qed.

(** X30: a minimum and a maximum length under [combine].
    [combine(minLength(min), maxLength(max))] accepts exactly the
    contents whose number of code units is at least [min] and at most
    [max]; so nothing is accepted when [min] is above [max].  A content
    that is too short gets the answer of [minLength], and one that is
    long enough and too long the answer of [maxLength]. *)
Theorem X30_length_bounds_under_combine (min max : Z) (content : jsstring) :
  let validator :=
    ContentValidators.combine [ContentValidators.minLength min; ContentValidators.maxLength max] in
  let n := Z.of_nat (length content) in
  (validator content = Valid <-> (min <= n <= max)%Z) /\
  ((max < min)%Z -> validator content <> Valid) /\
  ((n < min)%Z -> validator content = ContentValidators.minLength min content) /\
  ((min <= n)%Z -> (max < n)%Z ->
   validator content = ContentValidators.maxLength max content) /\
  ContentValidators.combine [ContentValidators.minLength 2; ContentValidators.maxLength 4]
    (js "abcde") = Invalid (js "Content must be no more than 4 characters").
Proof.
  cbv zeta.
  split; [|split; [|split; [|split; [|by vm_compute]]]]; simpl;
    unfold ContentValidators.minLength, ContentValidators.maxLength;
    destruct (Z.leb_spec min (Z.of_nat (length content)));
    destruct (Z.leb_spec (Z.of_nat (length content)) max);
    try done; try (split; [done|lia]); try (split; [lia|done]); try (intros; lia);
    try (intros; done).
Qed.

(** * [parse] reports its failures and returns *)

Section ParseReports.

Import StreamParser.





End ParseReports.


